(** * ConnectedGroupsGoban

    A shallow embedding of the Go program [main.go] (rules engine, game tree,
    territory scorer, SGF codec, GTP client) and the proofs of the properties
    its specification states.

    Conventions of the embedding.
    - A Go [int] is a [Z]; the values that occur are board coordinates, byte
      offsets and node counters, far from the 64-bit limits.
    - A Go [string] is a Rocq [string], a sequence of bytes.
    - [[][]T] is a [list (list T)], read as [b[y][x]]; an index out of range
      is the run-time panic [Panic].
    - [map[[2]int]bool] used as a visited set is a [gset (Z * Z)], and
      [map[string][]string] is a [gmap string (list string)].
    - [*GameTreeNode] is an index into the arena [heap] of the game; [nil]
      is [None].
    - Calls into the GUI toolkit (dialogs, redraws, widget texts) change no
      field of the model and are left out. *)

From Stdlib Require Import ZArith String Ascii List Lia DecimalString DecimalPos.
From stdpp Require Import gmap strings list fin_maps sets.

Local Open Scope Z_scope.

(** ** Go errors *)

Inductive GoError : Type :=
| UnmatchedClose (i : Z)          (* unmatched ')' at index i *)
| UnmatchedOpen                   (* unmatched '(' in SGF content *)
| ParseError (i : Z) (e : GoError) (* error parsing SGF at index i: e *)
| ExpectedClose (i : Z) (found : ascii) (* expected ')' at index i, found c *)
| ExpectedCloseAtEnd              (* expected ')' at end of SGF ... *)
| InvalidUTF8 (i : Z)             (* invalid UTF-8 encoding at index i *)
| EndAfterBackslash               (* unexpected end of content after '\' *)
| EOF                             (* io.EOF *)
| NoGameTrees                     (* no valid SGF game trees found *)
| NoNodes                         (* SGF game tree has no nodes *)
| InvalidSZ (size : string)       (* invalid SZ property: size *)
| BoardTooLarge                   (* board size exceeds maximum ... of 52 *)
| InvalidSequence                 (* invalid sequence or parent node ... *)
| InvalidCoordChar (c : Z)        (* invalid coordinate character: c *)
| CoordOutOfRange                 (* coordinate out of range for SGF ... *)
| InvalidGTPCoord (coord : string)
| InvalidGTPLetter (letter : string)
| InvalidGTPNumber (number : string)
| AtoiError (s : string)          (* strconv.Atoi: parsing s: ... *)
| NotAttached                     (* engine is not attached *)
| EngineError (payload : string)  (* error from engine: payload *)
| EngineIOError                   (* the pipe to the engine failed *)
| MissingCommand (cmd : string)   (* engine does not support ... cmd *)
| NoRectangularBoards.            (* engine does not support rectangular ... *)

(** ** Outcomes of a computation *)

Inductive res (A : Type) : Type :=
| Ok (a : A)
| Err (e : GoError) (* the function returns a non-nil [error] *)
| Panic             (* run-time panic: index out of range, nil dereference *)
| OutOfFuel         (* the recursion budget of the model ran out *)
| Unmodelled.       (* a library behaviour outside the model *)
Arguments Ok {A} a.
Arguments Err {A} e.
Arguments Panic {A}.
Arguments OutOfFuel {A}.
Arguments Unmodelled {A}.

(** Re-typing an outcome that is not [Ok]. *)
Definition fail_as {A B : Type} (r : res A) : res B :=
  match r with
  | Ok _ => Panic
  | Err e => Err e
  | Panic => Panic
  | OutOfFuel => OutOfFuel
  | Unmodelled => Unmodelled
  end.

#[global] Instance res_ret : MRet res := fun A a => Ok a.
#[global] Instance res_bind : MBind res := fun A B k m =>
  match m with
  | Ok a => k a
  | r => fail_as r
  end.

(** [for cond { body }] *)
Fixpoint while {S : Type} (fuel : nat) (cond : S -> bool) (body : S -> res S)
    (s : S) : res S :=
  if cond s then
    match fuel with
    | O => OutOfFuel
    | S fuel' => s' ← body s; while fuel' cond body s'
    end
  else Ok s.

(** [for _, a := range l { body }] *)
Fixpoint foldM {S A : Type} (body : A -> S -> res S) (l : list A) (s : S)
    : res S :=
  match l with
  | [] => Ok s
  | a :: l' => s' ← body a s; foldM body l' s'
  end.

(** Computations on a mutable object of type [S]: the state survives a
    panic or an error return. *)
Definition ST (S A : Type) : Type := S -> res A * S.

#[global] Instance ST_ret {S} : MRet (ST S) := fun A a s => (Ok a, s).
#[global] Instance ST_bind {S} : MBind (ST S) := fun A B k m s =>
  match m s with
  | (Ok a, s') => k a s'
  | (r, s') => (fail_as r, s')
  end.

Definition get {S} : ST S S := fun s => (Ok s, s).
Definition put {S} (s : S) : ST S unit := fun _ => (Ok tt, s).
Definition modify {S} (f : S -> S) : ST S unit := fun s => (Ok tt, f s).
Definition lift {S A} (r : res A) : ST S A := fun s => (r, s).

Fixpoint forM {S A : Type} (l : list A) (body : A -> ST S unit) : ST S unit :=
  match l with
  | [] => mret tt
  | a :: l' => _ ← body a; forM l' body
  end.

Fixpoint whileST {S : Type} (fuel : nat) (cond : S -> bool)
    (body : ST S unit) : ST S unit :=
  fun s =>
    if cond s then
      match fuel with
      | O => (OutOfFuel, s)
      | S fuel' => (_ ← body; whileST fuel' cond body) s
      end
    else (Ok tt, s).

(** ** Constants *)

Definition empty : string := ".".
Definition black : string := "B".
Definition white : string := "W".
Definition version : string := "2".

(** ** Boards and other two-dimensional slices *)

Abbreviation grid A := (list (list A)).
Abbreviation cell := (Z * Z)%type.

(** [cell_at b (x, y)] is [b[y][x]] where both indices are in range. *)
Definition cell_at {A} (b : grid A) (c : cell) : option A :=
  if decide (0 <= c.1 /\ 0 <= c.2) then
    row ← b !! Z.to_nat c.2; row !! Z.to_nat c.1
  else None.

(** reading [b[y][x]] *)
Definition grid_get {A} (b : grid A) (x y : Z) : res A :=
  match cell_at b (x, y) with
  | Some v => Ok v
  | None => Panic
  end.

(** the assignment [b[y][x] = v] *)
Definition grid_set {A} (b : grid A) (x y : Z) (v : A) : res (grid A) :=
  match cell_at b (x, y) with
  | Some _ =>
      Ok (alter (fun row => <[Z.to_nat x := v]> row) (Z.to_nat y) b)
  | None => Panic
  end.

(** [s[i]] on a slice *)
Definition slice_get {A} (s : list A) (i : Z) : res A :=
  if decide (0 <= i) then
    match s !! Z.to_nat i with
    | Some v => Ok v
    | None => Panic
    end
  else Panic.

(** [make([][]T, sizeY)] with every row [make([]T, sizeX)], all [v];
    [make] panics on a negative length. *)
Definition make_grid {A} (sizeX sizeY : Z) (v : A) : res (grid A) :=
  if decide (sizeY < 0 \/ (0 < sizeY /\ sizeX < 0)) then Panic
  else Ok (replicate (Z.to_nat sizeY) (replicate (Z.to_nat sizeX) v)).

Definition makeEmptyBoard (sizeX sizeY : Z) : res (grid string) :=
  make_grid sizeX sizeY empty.

(** A fresh slice with the same contents; the model has no aliasing, so the
    copy is the value itself. *)
Definition copyBoard (board : grid string) : grid string := board.

(** A slice of [sizeY] rows of [sizeX] entries. *)
Definition grid_dims {A} (sizeX sizeY : Z) (b : grid A) : Prop :=
  0 <= sizeX /\ 0 <= sizeY /\
  length b = Z.to_nat sizeY /\
  Forall (fun row => length row = Z.to_nat sizeX) b.

Definition in_bounds (sizeX sizeY : Z) (c : cell) : Prop :=
  0 <= c.1 < sizeX /\ 0 <= c.2 < sizeY.

Definition dirs : list cell := [(0, -1); (0, 1); (-1, 0); (1, 0)].

Definition step (c d : cell) : cell := (c.1 + d.1, c.2 + d.2).

(** ** Rules engine *)

Definition switchPlayer (player : string) : string :=
  if decide (player = black) then white else black.

(** The recursion budget of the three depth-first searches: one level per
    board point, plus the level that returns. *)
Definition search_fuel (sizeX sizeY : Z) : nat :=
  S (Z.to_nat (sizeX * sizeY)).

(** [for _, a := range l { if body(a) { return true } }; return false] *)
Fixpoint first_found {S A : Type} (body : A -> S -> res (bool * S))
    (l : list A) (s : S) : res (bool * S) :=
  match l with
  | [] => Ok (false, s)
  | a :: l' =>
      '(found, s') ← body a s;
      if (found : bool) then Ok (true, s') else first_found body l' s'
  end.

(** The visited set that the source passes by reference is returned next
    to the result. *)
Fixpoint dfs (fuel : nat) (board : grid string) (x y : Z) (player : string)
    (visited : gset cell) (sizeX sizeY : Z) : res (bool * gset cell) :=
  match fuel with
  | O => OutOfFuel
  | S fuel' =>
      if decide (x < 0 \/ x >= sizeX \/ y < 0 \/ y >= sizeY) then
        Ok (false, visited)
      else if decide ((x, y) ∈ visited) then Ok (false, visited)
      else
        s ← grid_get board x y;
        if decide (s = empty) then Ok (true, visited)
        else if decide (s <> player) then Ok (false, visited)
        else
          first_found
            (fun d visited =>
               dfs fuel' board (x + d.1) (y + d.2) player visited
                 sizeX sizeY)
            dirs ({[ (x, y) ]} ∪ visited)
  end.

Definition hasLiberty (board : grid string) (x y : Z) (player : string)
    (sizeX sizeY : Z) : res bool :=
  '(found, _) ← dfs (search_fuel sizeX sizeY) board x y player ∅ sizeX sizeY;
  Ok found.

Fixpoint groupDFS (fuel : nat) (board : grid string) (x y : Z)
    (player : string) (visited : gset cell) (sizeX sizeY : Z)
    : res (gset cell) :=
  match fuel with
  | O => OutOfFuel
  | S fuel' =>
      if decide (x < 0 \/ x >= sizeX \/ y < 0 \/ y >= sizeY) then Ok visited
      else if decide ((x, y) ∈ visited) then Ok visited
      else
        s ← grid_get board x y;
        if decide (s <> player) then Ok visited
        else
          foldM (fun d visited =>
                   groupDFS fuel' board (x + d.1) (y + d.2) player visited
                     sizeX sizeY)
            dirs ({[ (x, y) ]} ∪ visited)
  end.

Definition getGroupSize (board : grid string) (x y : Z) (player : string)
    (sizeX sizeY : Z) : res Z :=
  visited ← groupDFS (search_fuel sizeX sizeY) board x y player ∅ sizeX sizeY;
  Ok (Z.of_nat (size visited)).

(** [removeDFS] writes into the board it walks; the board is threaded. *)
Fixpoint removeDFS (fuel : nat) (board : grid string) (x y : Z)
    (player : string) (visited : gset cell) (sizeX sizeY : Z)
    : res (grid string * gset cell) :=
  match fuel with
  | O => OutOfFuel
  | S fuel' =>
      if decide (x < 0 \/ x >= sizeX \/ y < 0 \/ y >= sizeY) then
        Ok (board, visited)
      else if decide ((x, y) ∈ visited) then Ok (board, visited)
      else
        s ← grid_get board x y;
        if decide (s <> player) then Ok (board, visited)
        else
          board' ← grid_set board x y empty;
          foldM (fun d '(board, visited) =>
                   removeDFS fuel' board (x + d.1) (y + d.2) player visited
                     sizeX sizeY)
            dirs (board', {[ (x, y) ]} ∪ visited)
  end.

(** Returns the board after the removal and the number of stones removed. *)
Definition removeGroup (board : grid string) (x y : Z) (player : string)
    (sizeX sizeY : Z) : res (grid string * Z) :=
  '(board', visited) ←
    removeDFS (search_fuel sizeX sizeY) board x y player ∅ sizeX sizeY;
  Ok (board', Z.of_nat (size visited)).

(** ** The game and its tree *)

Abbreviation ptr := nat.

Record GameTreeNode : Type := mkGameTreeNode {
  boardState : grid string;
  move : cell;
  player : string;
  children : list ptr;
  parent : option ptr;
  node_id : string;  (* the field [id] *)
  koX : Z;
  koY : Z;
  Comment : string;
  addedBlackStones : grid bool;
  addedWhiteStones : grid bool;
  AE : grid bool;
  CR : grid bool;
  SQ : grid bool;
  TR : grid bool;
  MA : grid bool;
  LB : grid string
}.

Definition set_boardState (v : grid string) (n : GameTreeNode) :=
  mkGameTreeNode v (move n) (player n) (children n) (parent n) (node_id n)
    (koX n) (koY n) (Comment n) (addedBlackStones n) (addedWhiteStones n)
    (AE n) (CR n) (SQ n) (TR n) (MA n) (LB n).
Definition set_move (v : cell) (n : GameTreeNode) :=
  mkGameTreeNode (boardState n) v (player n) (children n) (parent n)
    (node_id n) (koX n) (koY n) (Comment n) (addedBlackStones n)
    (addedWhiteStones n) (AE n) (CR n) (SQ n) (TR n) (MA n) (LB n).
Definition set_player (v : string) (n : GameTreeNode) :=
  mkGameTreeNode (boardState n) (move n) v (children n) (parent n)
    (node_id n) (koX n) (koY n) (Comment n) (addedBlackStones n)
    (addedWhiteStones n) (AE n) (CR n) (SQ n) (TR n) (MA n) (LB n).
Definition set_children (v : list ptr) (n : GameTreeNode) :=
  mkGameTreeNode (boardState n) (move n) (player n) v (parent n)
    (node_id n) (koX n) (koY n) (Comment n) (addedBlackStones n)
    (addedWhiteStones n) (AE n) (CR n) (SQ n) (TR n) (MA n) (LB n).
Definition set_parent (v : option ptr) (n : GameTreeNode) :=
  mkGameTreeNode (boardState n) (move n) (player n) (children n) v
    (node_id n) (koX n) (koY n) (Comment n) (addedBlackStones n)
    (addedWhiteStones n) (AE n) (CR n) (SQ n) (TR n) (MA n) (LB n).
Definition set_ko (v : cell) (n : GameTreeNode) :=
  mkGameTreeNode (boardState n) (move n) (player n) (children n) (parent n)
    (node_id n) v.1 v.2 (Comment n) (addedBlackStones n)
    (addedWhiteStones n) (AE n) (CR n) (SQ n) (TR n) (MA n) (LB n).
Definition set_Comment (v : string) (n : GameTreeNode) :=
  mkGameTreeNode (boardState n) (move n) (player n) (children n) (parent n)
    (node_id n) (koX n) (koY n) v (addedBlackStones n)
    (addedWhiteStones n) (AE n) (CR n) (SQ n) (TR n) (MA n) (LB n).
Definition set_addedBlackStones (v : grid bool) (n : GameTreeNode) :=
  mkGameTreeNode (boardState n) (move n) (player n) (children n) (parent n)
    (node_id n) (koX n) (koY n) (Comment n) v
    (addedWhiteStones n) (AE n) (CR n) (SQ n) (TR n) (MA n) (LB n).
Definition set_addedWhiteStones (v : grid bool) (n : GameTreeNode) :=
  mkGameTreeNode (boardState n) (move n) (player n) (children n) (parent n)
    (node_id n) (koX n) (koY n) (Comment n) (addedBlackStones n)
    v (AE n) (CR n) (SQ n) (TR n) (MA n) (LB n).
Definition set_AE (v : grid bool) (n : GameTreeNode) :=
  mkGameTreeNode (boardState n) (move n) (player n) (children n) (parent n)
    (node_id n) (koX n) (koY n) (Comment n) (addedBlackStones n)
    (addedWhiteStones n) v (CR n) (SQ n) (TR n) (MA n) (LB n).
Definition set_CR (v : grid bool) (n : GameTreeNode) :=
  mkGameTreeNode (boardState n) (move n) (player n) (children n) (parent n)
    (node_id n) (koX n) (koY n) (Comment n) (addedBlackStones n)
    (addedWhiteStones n) (AE n) v (SQ n) (TR n) (MA n) (LB n).
Definition set_SQ (v : grid bool) (n : GameTreeNode) :=
  mkGameTreeNode (boardState n) (move n) (player n) (children n) (parent n)
    (node_id n) (koX n) (koY n) (Comment n) (addedBlackStones n)
    (addedWhiteStones n) (AE n) (CR n) v (TR n) (MA n) (LB n).
Definition set_TR (v : grid bool) (n : GameTreeNode) :=
  mkGameTreeNode (boardState n) (move n) (player n) (children n) (parent n)
    (node_id n) (koX n) (koY n) (Comment n) (addedBlackStones n)
    (addedWhiteStones n) (AE n) (CR n) (SQ n) v (MA n) (LB n).
Definition set_MA (v : grid bool) (n : GameTreeNode) :=
  mkGameTreeNode (boardState n) (move n) (player n) (children n) (parent n)
    (node_id n) (koX n) (koY n) (Comment n) (addedBlackStones n)
    (addedWhiteStones n) (AE n) (CR n) (SQ n) (TR n) v (LB n).
Definition set_LB (v : grid string) (n : GameTreeNode) :=
  mkGameTreeNode (boardState n) (move n) (player n) (children n) (parent n)
    (node_id n) (koX n) (koY n) (Comment n) (addedBlackStones n)
    (addedWhiteStones n) (AE n) (CR n) (SQ n) (TR n) (MA n) v.

(** What the engine process answers to one command. *)
Inductive GTPReply : Type :=
| ReplySuccess (payload : string)  (* a response that starts with '=' *)
| ReplyFailure (payload : string)  (* a response that starts with '?' *)
| ReplyBroken.                     (* reading or writing the pipe fails *)

(** The fields of [Game] that carry game state. [komiText] is [g.komi] in
    the form that is sent to the engine, [fmt.Sprintf("%.1f", g.komi)].
    The engine process is its pipes ([gtpCmd], [gtpIn], [gtpOut],
    [gtpReader]: nil or not), the answers it is going to give
    ([gtpReplies]) and the commands it was sent ([gtpSent]). *)
Record Game : Type := mkGame {
  sizeX : Z;
  sizeY : Z;
  currentNode : option ptr;
  rootNode : option ptr;
  nodeMap : gmap string ptr;
  idCounter : Z;
  mouseMode : string;
  territoryMap : grid string;
  komiText : string;
  gtpColor : string;
  gtpCmd : bool;
  gtpIn : bool;
  gtpOut : bool;
  gtpReader : bool;
  gtpReplies : list GTPReply;
  gtpSent : list string;
  heap : list GameTreeNode
}.

Definition set_size (x y : Z) (g : Game) :=
  mkGame x y (currentNode g) (rootNode g) (nodeMap g) (idCounter g)
    (mouseMode g) (territoryMap g) (komiText g) (gtpColor g) (gtpCmd g)
    (gtpIn g) (gtpOut g) (gtpReader g) (gtpReplies g) (gtpSent g) (heap g).
Definition set_currentNode (v : option ptr) (g : Game) :=
  mkGame (sizeX g) (sizeY g) v (rootNode g) (nodeMap g) (idCounter g)
    (mouseMode g) (territoryMap g) (komiText g) (gtpColor g) (gtpCmd g)
    (gtpIn g) (gtpOut g) (gtpReader g) (gtpReplies g) (gtpSent g) (heap g).
Definition set_rootNode (v : option ptr) (g : Game) :=
  mkGame (sizeX g) (sizeY g) (currentNode g) v (nodeMap g) (idCounter g)
    (mouseMode g) (territoryMap g) (komiText g) (gtpColor g) (gtpCmd g)
    (gtpIn g) (gtpOut g) (gtpReader g) (gtpReplies g) (gtpSent g) (heap g).
Definition set_nodeMap (v : gmap string ptr) (g : Game) :=
  mkGame (sizeX g) (sizeY g) (currentNode g) (rootNode g) v (idCounter g)
    (mouseMode g) (territoryMap g) (komiText g) (gtpColor g) (gtpCmd g)
    (gtpIn g) (gtpOut g) (gtpReader g) (gtpReplies g) (gtpSent g) (heap g).
Definition set_idCounter (v : Z) (g : Game) :=
  mkGame (sizeX g) (sizeY g) (currentNode g) (rootNode g) (nodeMap g) v
    (mouseMode g) (territoryMap g) (komiText g) (gtpColor g) (gtpCmd g)
    (gtpIn g) (gtpOut g) (gtpReader g) (gtpReplies g) (gtpSent g) (heap g).
Definition set_territoryMap (v : grid string) (g : Game) :=
  mkGame (sizeX g) (sizeY g) (currentNode g) (rootNode g) (nodeMap g)
    (idCounter g) (mouseMode g) v (komiText g) (gtpColor g) (gtpCmd g)
    (gtpIn g) (gtpOut g) (gtpReader g) (gtpReplies g) (gtpSent g) (heap g).
Definition set_pipes (cmd i o r : bool) (g : Game) :=
  mkGame (sizeX g) (sizeY g) (currentNode g) (rootNode g) (nodeMap g)
    (idCounter g) (mouseMode g) (territoryMap g) (komiText g) (gtpColor g)
    cmd i o r (gtpReplies g) (gtpSent g) (heap g).
Definition set_exchange (replies : list GTPReply) (sent : list string)
    (g : Game) :=
  mkGame (sizeX g) (sizeY g) (currentNode g) (rootNode g) (nodeMap g)
    (idCounter g) (mouseMode g) (territoryMap g) (komiText g) (gtpColor g)
    (gtpCmd g) (gtpIn g) (gtpOut g) (gtpReader g) replies sent (heap g).
Definition set_heap (v : list GameTreeNode) (g : Game) :=
  mkGame (sizeX g) (sizeY g) (currentNode g) (rootNode g) (nodeMap g)
    (idCounter g) (mouseMode g) (territoryMap g) (komiText g) (gtpColor g)
    (gtpCmd g) (gtpIn g) (gtpOut g) (gtpReader g) (gtpReplies g)
    (gtpSent g) v.

(** [*p] *)
Definition deref (p : option ptr) : ST Game GameTreeNode := fun g =>
  match p with
  | Some a =>
      match heap g !! a with
      | Some n => (Ok n, g)
      | None => (Panic, g)
      end
  | None => (Panic, g)
  end.

(** an assignment to fields of [*p] *)
Definition update (p : option ptr) (f : GameTreeNode -> GameTreeNode)
    : ST Game unit :=
  n ← deref p;
  modify (fun g => set_heap (alter f (default 0%nat p) (heap g)) g).

(** an assignment to fields of [*p] that can panic *)
Definition update_res (p : option ptr)
    (f : GameTreeNode -> res GameTreeNode) : ST Game unit :=
  n ← deref p;
  n' ← lift (f n);
  modify (fun g => set_heap (<[default 0%nat p := n']> (heap g)) g).

(** [&GameTreeNode{...}] *)
Definition alloc (n : GameTreeNode) : ST Game ptr := fun g =>
  (Ok (length (heap g)), set_heap (heap g ++ [n]) g).

(** [fmt.Sprintf("%d", n)] and [strconv.Itoa] *)
Definition itoa (n : Z) : string := NilZero.string_of_int (Z.to_int n).

Definition newGameTreeNode : ST Game ptr :=
  _ ← modify (fun g => set_idCounter (idCounter g + 1) g);
  g ← get;
  board ← lift (makeEmptyBoard (sizeX g) (sizeY g));
  flags ← lift (make_grid (sizeX g) (sizeY g) false);
  labels ← lift (make_grid (sizeX g) (sizeY g) EmptyString);
  newNode ← alloc
    (mkGameTreeNode board (0, 0) EmptyString [] None (itoa (idCounter g)) (-1) (-1)
       EmptyString flags flags flags flags flags flags flags labels);
  _ ← modify (fun g =>
        set_nodeMap (<[itoa (idCounter g) := newNode]> (nodeMap g)) g);
  mret newNode.

Definition addBlackStone (x y : Z) (gtn : GameTreeNode) : res GameTreeNode :=
  if decide (x >= 0) then
    row0 ← slice_get (addedBlackStones gtn) 0;
    if decide (x < Z.of_nat (length row0) /\ y >= 0 /\
               y < Z.of_nat (length (addedBlackStones gtn))) then
      o ← grid_set (addedBlackStones gtn) x y true;
      Ok (set_addedBlackStones o gtn)
    else Ok gtn
  else Ok gtn.

Definition addWhiteStone (x y : Z) (gtn : GameTreeNode) : res GameTreeNode :=
  if decide (x >= 0) then
    row0 ← slice_get (addedWhiteStones gtn) 0;
    if decide (x < Z.of_nat (length row0) /\ y >= 0 /\
               y < Z.of_nat (length (addedWhiteStones gtn))) then
      o ← grid_set (addedWhiteStones gtn) x y true;
      Ok (set_addedWhiteStones o gtn)
    else Ok gtn
  else Ok gtn.

(** [exitScoringMode] and [updateCommentTextbox] touch widgets only. *)
Definition initializeBoard : ST Game unit :=
  _ ← modify (set_idCounter 1);
  rootNode ← newGameTreeNode;
  _ ← update (Some rootNode) (set_player EmptyString);
  _ ← modify (set_rootNode (Some rootNode));
  _ ← modify (set_currentNode (Some rootNode));
  rn ← deref (Some rootNode);
  modify (set_nodeMap (<[node_id rn := rootNode]> ∅)).

Definition setCurrentNode (node : option ptr) : ST Game unit :=
  modify (set_currentNode node).

(** ** Rules engine: the methods of the game *)

Definition getCapturedStones (g : Game) (board : grid string)
    (x y : Z) (opponent : string) : res (list cell) :=
  foldM (fun d captured =>
           let nx := x + d.1 in
           let ny := y + d.2 in
           if decide (nx < 0 \/ nx >= sizeX g \/ ny < 0 \/ ny >= sizeY g) then
             Ok captured
           else
             s ← grid_get board nx ny;
             if decide (s = opponent) then
               lib ← hasLiberty board nx ny opponent (sizeX g) (sizeY g);
               if negb lib then Ok (captured ++ [(nx, ny)]) else Ok captured
             else Ok captured)
    dirs [].

(** One round of the capture loop; its state is the board,
    [capturedGroupsSizes] and [capturedGroupsCoords]. *)
Definition capture_step (g : Game) (x y : Z) (opponent : string)
    (d : cell) (st : grid string * list Z * list cell)
    : res (grid string * list Z * list cell) :=
  let '(board, sizes, coords) := st in
  let nx := x + d.1 in
  let ny := y + d.2 in
  if decide (nx < 0 \/ nx >= sizeX g \/ ny < 0 \/ ny >= sizeY g) then Ok st
  else
    s ← grid_get board nx ny;
    if decide (s = opponent) then
      lib ← hasLiberty board nx ny opponent (sizeX g) (sizeY g);
      if negb lib then
        groupSize ← getGroupSize board nx ny opponent (sizeX g) (sizeY g);
        '(board', _) ← removeGroup board nx ny opponent (sizeX g) (sizeY g);
        Ok (board', sizes ++ [groupSize], coords ++ [(nx, ny)])
      else Ok st
    else Ok st.

(** The source changes [board] in place and returns the ko point; the
    model returns the board as well. *)
Definition captureStones (g : Game) (board : grid string) (x y : Z)
    (player : string) : res (grid string * cell) :=
  let opponent := switchPlayer player in
  '(board, capturedGroupsSizes, capturedGroupsCoords) ←
    foldM (capture_step g x y opponent) dirs (board, [], []);
  lib ← hasLiberty board x y player (sizeX g) (sizeY g);
  board ← (if negb lib then
             '(board', _) ← removeGroup board x y player (sizeX g) (sizeY g);
             Ok board'
           else Ok board);
  if decide (length capturedGroupsSizes = 1%nat) then
    capturingGroupSize ← getGroupSize board x y player (sizeX g) (sizeY g);
    capturedGroupSize ← slice_get capturedGroupsSizes 0;
    if decide (capturedGroupSize = 1 /\ capturingGroupSize = 1) then
      ko ← slice_get capturedGroupsCoords 0;
      Ok (board, ko)
    else Ok (board, (-1, -1))
  else Ok (board, (-1, -1)).

Definition isMoveLegal (x y : Z) (player : string) : ST Game bool :=
  g ← get;
  cur ← deref (currentNode g);
  if decide (x = koX cur /\ y = koY cur) then mret false
  else
    boardCopy ← lift (grid_set (copyBoard (boardState cur)) x y player);
    let opponent := switchPlayer player in
    captured ← lift (getCapturedStones g boardCopy x y opponent);
    if decide (0 < Z.of_nat (length captured)) then mret true
    else
      lib ← lift (hasLiberty boardCopy x y player (sizeX g) (sizeY g));
      if (lib : bool) then mret true else mret false.

(** ** Territory scorer *)

Definition undecided : string := "?".

(** The rows [0 .. sizeY-1] and columns [0 .. sizeX-1] in the order of the
    two nested [for] loops. *)
Definition scan_order (sizeX sizeY : Z) : list cell :=
  y ← seqZ 0 sizeY; x ← seqZ 0 sizeX; [(x, y)].

Definition initial_owner (stone : string) : string :=
  if decide (stone = black \/ stone = white) then stone else undecided.

(** The map that [initializeTerritoryMap] builds from a board. *)
Definition territory_of_board (sizeX sizeY : Z) (board : grid string)
    : res (grid string) :=
  tm ← make_grid sizeX sizeY EmptyString;
  foldM (fun c tm =>
           stone ← grid_get board c.1 c.2;
           grid_set tm c.1 c.2 (initial_owner stone))
    (scan_order sizeX sizeY) tm.

Definition initializeTerritoryMap : ST Game unit :=
  g ← get;
  tm ← (if decide (0 < sizeY g /\ 0 < sizeX g) then
          cur ← deref (currentNode g);
          lift (territory_of_board (sizeX g) (sizeY g) (boardState cur))
        else lift (make_grid (sizeX g) (sizeY g) EmptyString));
  modify (set_territoryMap tm).

(** The state of one flood fill of [assignTerritoryToEmptyRegions]: the
    stack (its top is the head of the list), the [visited] array, the keys
    of [adjacentStones] and [region]. *)
Record flood : Type := mkFlood {
  fl_stack : list cell;
  fl_visited : grid bool;
  fl_adjacent : gset string;
  fl_region : list cell
}.

Definition flood_fuel (sizeX sizeY : Z) : nat :=
  S (4 * Z.to_nat (sizeX * sizeY)).

(** One neighbour of the point that was popped. *)
Definition assign_neighbour (sizeX sizeY : Z) (board tmap : grid string)
    (visited : grid bool) (c d : cell) (st : list cell * gset string)
    : res (list cell * gset string) :=
  let '(stack, adjacentStones) := st in
  let nx := c.1 + d.1 in
  let ny := c.2 + d.2 in
  if decide (nx >= 0 /\ nx < sizeX /\ ny >= 0 /\ ny < sizeY) then
    neighborStone ← grid_get tmap nx ny;
    s ← grid_get board nx ny;
    push ← (if decide (s = empty) then
              v ← grid_get visited nx ny; Ok (negb v)
            else Ok false);
    if (push : bool) then Ok ((nx, ny) :: stack, adjacentStones)
    else if decide (neighborStone = black \/ neighborStone = white) then
      Ok (stack, {[ neighborStone ]} ∪ adjacentStones)
    else Ok st
  else Ok st.

(** One round of [for len(stack) > 0]. *)
Definition assign_pop (sizeX sizeY : Z) (board tmap : grid string)
    (st : flood) : res flood :=
  match fl_stack st with
  | [] => Panic
  | c :: stack =>
      v ← grid_get (fl_visited st) c.1 c.2;
      if (v : bool) then
        Ok (mkFlood stack (fl_visited st) (fl_adjacent st) (fl_region st))
      else
        visited ← grid_set (fl_visited st) c.1 c.2 true;
        '(stack, adjacentStones) ←
          foldM (assign_neighbour sizeX sizeY board tmap visited c) dirs
            (stack, fl_adjacent st);
        Ok (mkFlood stack visited adjacentStones (fl_region st ++ [c]))
  end.

Definition stack_nonempty (st : flood) : bool :=
  match fl_stack st with [] => false | _ => true end.

(** [len(adjacentStones) == 1] and the key found by [range]. *)
Definition region_owner (adjacentStones : gset string) : string :=
  match elements adjacentStones with
  | [owner] => owner
  | _ => undecided
  end.

(** The body of the two nested loops at the point [c]. *)
Definition assign_at (sizeX sizeY : Z) (board : grid string) (c : cell)
    (st : grid bool * grid string) : res (grid bool * grid string) :=
  let '(visited, tmap) := st in
  s ← grid_get board c.1 c.2;
  start ← (if decide (s = empty) then
             v ← grid_get visited c.1 c.2; Ok (negb v)
           else Ok false);
  if (start : bool) then
    fl ← while (flood_fuel sizeX sizeY) stack_nonempty
           (assign_pop sizeX sizeY board tmap) (mkFlood [c] visited ∅ []);
    tmap' ← foldM (fun pos tm =>
                     grid_set tm pos.1 pos.2 (region_owner (fl_adjacent fl)))
              (fl_region fl) tmap;
    Ok (fl_visited fl, tmap')
  else Ok st.

(** [assignTerritoryToEmptyRegions] on the board of the current node and
    the territory map of the game. *)
Definition assign_territory (sizeX sizeY : Z) (board tmap : grid string)
    : res (grid string) :=
  visited ← make_grid sizeX sizeY false;
  '(_, tmap') ←
    foldM (assign_at sizeX sizeY board) (scan_order sizeX sizeY)
      (visited, tmap);
  Ok tmap'.

Definition assignTerritoryToEmptyRegions : ST Game unit :=
  g ← get;
  if decide (0 < sizeY g /\ 0 < sizeX g) then
    cur ← deref (currentNode g);
    tm ← lift (assign_territory (sizeX g) (sizeY g) (boardState cur)
                 (territoryMap g));
    modify (set_territoryMap tm)
  else
    _ ← lift (make_grid (sizeX g) (sizeY g) false);
    mret tt.

(** The state of the flood fill of [toggleGroupStatus]: the stack, the
    visited set and the territory map. *)
Definition toggle_neighbour (sizeX sizeY : Z) (board : grid string)
    (originalOwner : string) (visited : gset cell) (c d : cell)
    (stack : list cell) : res (list cell) :=
  let nx := c.1 + d.1 in
  let ny := c.2 + d.2 in
  if decide (nx >= 0 /\ nx < sizeX /\ ny >= 0 /\ ny < sizeY) then
    neighborStone ← grid_get board nx ny;
    if decide (((nx, ny) ∉ visited) /\
               (neighborStone = originalOwner \/ neighborStone = empty)) then
      Ok ((nx, ny) :: stack)
    else Ok stack
  else Ok stack.

Definition toggle_pop (sizeX sizeY : Z) (board : grid string)
    (originalOwner newOwner : string)
    (st : list cell * gset cell * grid string)
    : res (list cell * gset cell * grid string) :=
  let '(stack, visited, tmap) := st in
  match stack with
  | [] => Panic
  | c :: stack =>
      if decide (c ∈ visited) then Ok (stack, visited, tmap)
      else
        let visited := {[ c ]} ∪ visited in
        stone ← grid_get board c.1 c.2;
        tmap ← (if decide (stone = originalOwner) then
                  grid_set tmap c.1 c.2 newOwner
                else Ok tmap);
        stack ← foldM (toggle_neighbour sizeX sizeY board originalOwner
                         visited c) dirs stack;
        Ok (stack, visited, tmap)
  end.

Definition toggle_nonempty (st : list cell * gset cell * grid string)
    : bool :=
  match st.1.1 with [] => false | _ => true end.

(** [toggleGroupStatus] up to, and without, its final call of
    [assignTerritoryToEmptyRegions]. *)
Definition toggle_flip (sizeX sizeY : Z) (board tmap : grid string)
    (x y : Z) (originalOwner : string) : res (grid string) :=
  owner ← grid_get tmap x y;
  let newOwner := switchPlayer owner in
  '(_, _, tmap) ←
    while (flood_fuel sizeX sizeY) toggle_nonempty
      (toggle_pop sizeX sizeY board originalOwner newOwner)
      ([(x, y)], ∅, tmap);
  foldM (fun c tm =>
           s ← grid_get board c.1 c.2;
           if decide (s = empty) then grid_set tm c.1 c.2 undecided
           else Ok tm)
    (scan_order sizeX sizeY) tmap.

Definition toggleGroupStatus (x y : Z) : ST Game unit :=
  g ← get;
  cur ← deref (currentNode g);
  originalOwner ← lift (grid_get (boardState cur) x y);
  if decide (originalOwner <> black /\ originalOwner <> white) then mret tt
  else
    tm ← lift (toggle_flip (sizeX g) (sizeY g) (boardState cur)
                 (territoryMap g) x y originalOwner);
    _ ← modify (set_territoryMap tm);
    assignTerritoryToEmptyRegions.

(** The "score" case of [handleMouseClick]. *)
Definition score_click (x y : Z) : ST Game unit :=
  _ ← toggleGroupStatus x y;
  assignTerritoryToEmptyRegions.

(** ** Strings, bytes and runes *)

Definition byteZ (a : ascii) : Z := Z.of_N (N_of_ascii a).
Definition byte_of_Z (z : Z) : ascii := ascii_of_N (Z.to_N z).

Definition RuneError : Z := 65533.

(** [utf8.DecodeRuneInString] of the Go library: the rune at the head of
    the bytes and its width; an invalid encoding is [(RuneError, 1)]. *)
Definition decodeRune (s : list ascii) : Z * Z :=
  match s with
  | [] => (RuneError, 0)
  | a0 :: rest =>
      let s0 := byteZ a0 in
      if s0 <? 128 then (s0, 1)
      else if (s0 <? 194) || (244 <? s0) then (RuneError, 1)
      else
        let sz := if s0 <? 224 then 2 else if s0 <? 240 then 3 else 4 in
        let lo := if s0 =? 224 then 160 else if s0 =? 240 then 144 else 128 in
        let hi := if s0 =? 237 then 159 else if s0 =? 244 then 143 else 191 in
        if Z.of_nat (length s) <? sz then (RuneError, 1)
        else
          match rest with
          | [] => (RuneError, 1)
          | a1 :: rest1 =>
              let s1 := byteZ a1 in
              if (s1 <? lo) || (hi <? s1) then (RuneError, 1)
              else if sz <=? 2 then
                (Z.lor (Z.shiftl (Z.land s0 31) 6) (Z.land s1 63), 2)
              else
                match rest1 with
                | [] => (RuneError, 1)
                | a2 :: rest2 =>
                    let s2 := byteZ a2 in
                    if (s2 <? 128) || (191 <? s2) then (RuneError, 1)
                    else if sz <=? 3 then
                      (Z.lor (Z.lor (Z.shiftl (Z.land s0 15) 12)
                                (Z.shiftl (Z.land s1 63) 6))
                         (Z.land s2 63), 3)
                    else
                      match rest2 with
                      | [] => (RuneError, 1)
                      | a3 :: _ =>
                          let s3 := byteZ a3 in
                          if (s3 <? 128) || (191 <? s3) then (RuneError, 1)
                          else
                            (Z.lor (Z.lor (Z.lor
                                      (Z.shiftl (Z.land s0 7) 18)
                                      (Z.shiftl (Z.land s1 63) 12))
                                      (Z.shiftl (Z.land s2 63) 6))
                               (Z.land s3 63), 4)
                      end
                end
          end
  end.

(** The conversion [string(r)] of a rune: its UTF-8 encoding. *)
Definition encodeRune (r : Z) : list ascii :=
  if (r <? 0) || (1114111 <? r) || ((55296 <=? r) && (r <=? 57343)) then
    [byte_of_Z 239; byte_of_Z 191; byte_of_Z 189]
  else if r <=? 127 then [byte_of_Z r]
  else if r <=? 2047 then
    [byte_of_Z (Z.lor 192 (Z.shiftr r 6));
     byte_of_Z (Z.lor 128 (Z.land r 63))]
  else if r <=? 65535 then
    [byte_of_Z (Z.lor 224 (Z.shiftr r 12));
     byte_of_Z (Z.lor 128 (Z.land (Z.shiftr r 6) 63));
     byte_of_Z (Z.lor 128 (Z.land r 63))]
  else
    [byte_of_Z (Z.lor 240 (Z.shiftr r 18));
     byte_of_Z (Z.lor 128 (Z.land (Z.shiftr r 12) 63));
     byte_of_Z (Z.lor 128 (Z.land (Z.shiftr r 6) 63));
     byte_of_Z (Z.lor 128 (Z.land r 63))].

Definition string_of_rune (r : Z) : string :=
  string_of_list_ascii (encodeRune r).

(** [string(runes)] *)
Definition string_of_runes (runes : list Z) : string :=
  string_of_list_ascii (r ← runes; encodeRune r).

(** The runes of a string with their byte offsets, as [for i, c := range s]
    yields them; [fuel] bounds the number of runes. *)
Fixpoint runes_from (fuel : nat) (i : Z) (s : list ascii) : list (Z * Z) :=
  match fuel, s with
  | S fuel', _ :: _ =>
      let '(r, size) := decodeRune s in
      (i, r) :: runes_from fuel' (i + size) (drop (Z.to_nat size) s)
  | _, _ => []
  end.

Definition range_string (s : string) : list (Z * Z) :=
  runes_from (String.length s) 0 (list_ascii_of_string s).

(** [unicode.IsUpper]: the Latin-1 range is decided here as the library
    does; beyond it the library consults its table of upper-case ranges,
    which the model does not have. *)
Definition unicode_IsUpper (r : Z) : res bool :=
  if (0 <=? r) && (r <=? 255) then
    Ok (((65 <=? r) && (r <=? 90)) || ((192 <=? r) && (r <=? 214))
        || ((216 <=? r) && (r <=? 222)))
  else Unmodelled.

(** [strings.Split(s, sep)] for a separator of one byte *)
Fixpoint strings_Split (s : string) (sep : ascii) : list string :=
  match s with
  | EmptyString => [EmptyString]
  | String a s' =>
      if decide (a = sep) then EmptyString :: strings_Split s' sep
      else
        match strings_Split s' sep with
        | h :: t => String a h :: t
        | [] => [String a EmptyString]
        end
  end.

(** [strings.SplitN(s, sep, 2)] for a separator of one byte *)
Fixpoint strings_SplitN2 (s : string) (sep : ascii) : list string :=
  match s with
  | EmptyString => [EmptyString]
  | String a s' =>
      if decide (a = sep) then [EmptyString; s']
      else
        match strings_SplitN2 s' sep with
        | h :: t => String a h :: t
        | [] => [String a EmptyString]
        end
  end.

(** [strings.ReplaceAll(s, old, new)] for a pattern [old] of one byte *)
Fixpoint strings_ReplaceAll (s : string) (old : ascii) (new : string)
    : string :=
  match s with
  | EmptyString => EmptyString
  | String a s' =>
      if decide (a = old) then new +:+ strings_ReplaceAll s' old new
      else String a (strings_ReplaceAll s' old new)
  end.

(** [strings.Contains(s, substr)] *)
Fixpoint strings_Contains (s substr : string) : bool :=
  String.prefix substr s ||
  match s with
  | EmptyString => false
  | String _ s' => strings_Contains s' substr
  end.

Definition is_digit (a : ascii) : bool :=
  (48 <=? byteZ a) && (byteZ a <=? 57).

Fixpoint digits_value (acc : Z) (s : string) : option Z :=
  match s with
  | EmptyString => Some acc
  | String a s' =>
      if is_digit a then digits_value (acc * 10 + (byteZ a - 48)) s'
      else None
  end.

(** [strconv.Atoi]: an optional sign and at least one decimal digit, the
    value within the 64-bit range. *)
Definition strconv_Atoi (s : string) : res Z :=
  let '(neg, body) :=
    match s with
    | String "-" s' => (true, s')
    | String "+" s' => (false, s')
    | _ => (false, s)
    end in
  match body with
  | EmptyString => Err (AtoiError s)
  | _ =>
      match digits_value 0 body with
      | Some n =>
          let v := if (neg : bool) then - n else n in
          if (- 9223372036854775808 <=? v) && (v <=? 9223372036854775807)
          then Ok v else Err (AtoiError s)
      | None => Err (AtoiError s)
      end
  end.

Definition ascii_space (a : ascii) : bool :=
  let b := byteZ a in
  (b =? 32) || ((9 <=? b) && (b <=? 13)).

Fixpoint trim_left (s : list ascii) : res (list ascii) :=
  match s with
  | [] => Ok []
  | a :: s' =>
      if 128 <=? byteZ a then Unmodelled
      else if ascii_space a then trim_left s'
      else Ok s
  end.

(** [strings.TrimSpace] where the white space at both ends is ASCII; a
    byte above 127 there sends the library to its Unicode tables. *)
Definition strings_TrimSpace (s : string) : res string :=
  l ← trim_left (list_ascii_of_string s);
  r ← trim_left (reverse l);
  Ok (string_of_list_ascii (reverse r)).

Definition string_len (s : string) : Z := Z.of_nat (String.length s).

(** [s[i]] on a string *)
Definition string_at (s : string) (i : Z) : res ascii :=
  if decide (0 <= i) then
    match String.get (Z.to_nat i) s with
    | Some a => Ok a
    | None => Panic
    end
  else Panic.

(** [s[i:j]] on a string *)
Definition string_slice (s : string) (i j : Z) : res string :=
  if decide (0 <= i /\ i <= j /\ j <= string_len s) then
    Ok (String.substring (Z.to_nat i) (Z.to_nat (j - i)) s)
  else Panic.

(** ** SGF: coordinates *)

Definition charToInt (c : Z) : Z * option GoError :=
  if decide (c >= 97 /\ c <= 122) then (c - 97, None)
  else if decide (c >= 65 /\ c <= 90) then (c - 65 + 26, None)
  else (93, Some (InvalidCoordChar c)).

(** [nil] is [None]. *)
Definition convertSGFCoordToXY (coord : string) : option cell :=
  match coord with
  | String c0 (String c1 EmptyString) =>
      let '(x, err1) := charToInt (byteZ c0) in
      let '(y, err2) := charToInt (byteZ c1) in
      match err1, err2 with
      | None, None =>
          if decide (x >= 0 /\ x < 52 /\ y >= 0 /\ y < 52) then Some (x, y)
          else None
      | _, _ => None
      end
  | _ => None
  end.

Definition intToChar (n : Z) : string * option GoError :=
  if decide (n >= 0 /\ n <= 25) then (string_of_rune (97 + n), None)
  else if decide (n >= 26 /\ n <= 51) then
    (string_of_rune (65 + n - 26), None)
  else (EmptyString, Some CoordOutOfRange).

Definition convertCoordinatesToSGF (x y : Z) : string :=
  (intToChar x).1 +:+ (intToChar y).1.

(** ** SGF: the parser *)

Record SGFNode : Type := mkSGFNode {
  properties : gmap string (list string)
}.

#[local] Set Warnings "-register-all".
Inductive SGFGameTree : Type :=
| mkSGFGameTree (sequence : list SGFNode) (subtrees : list SGFGameTree).

Definition sequence (t : SGFGameTree) : list SGFNode :=
  match t with mkSGFGameTree s _ => s end.
Definition subtrees (t : SGFGameTree) : list SGFGameTree :=
  match t with mkSGFGameTree _ s => s end.

(** The field [length] is [plength]. *)
Record SGFParser : Type := mkSGFParser {
  sgfContent : string;
  index : Z;
  plength : Z
}.

Definition advance (n : Z) : ST SGFParser unit :=
  modify (fun p => mkSGFParser (sgfContent p) (index p + n) (plength p)).

(** [p.index < p.length && p.sgfContent[p.index] == c] *)
Definition looking_at (p : SGFParser) (c : ascii) : res bool :=
  if decide (index p < plength p) then
    a ← string_at (sgfContent p) (index p);
    Ok (bool_decide (a = c))
  else Ok false.

Definition is_blank (a : ascii) : bool :=
  bool_decide (a = " "%char) || bool_decide (a = "010"%char)
  || bool_decide (a = "013"%char) || bool_decide (a = "009"%char).

Fixpoint skipWhitespace_loop (fuel : nat) : ST SGFParser unit :=
  p ← get;
  if decide (index p < plength p) then
    a ← lift (string_at (sgfContent p) (index p));
    if is_blank a then
      match fuel with
      | O => lift OutOfFuel
      | S fuel' => _ ← advance 1; skipWhitespace_loop fuel'
      end
    else mret tt
  else mret tt.

(** Every loop of the parser moves [index] forward, so the length of the
    content, plus one, bounds their rounds and the depth of the trees. *)
Definition parse_fuel (p : SGFParser) : nat :=
  S (String.length (sgfContent p)).

Definition skipWhitespace : ST SGFParser unit :=
  p ← get; skipWhitespace_loop (parse_fuel p).

Definition nextRune : ST SGFParser (Z * Z) :=
  p ← get;
  if decide (index p >= plength p) then lift (Err EOF)
  else
    rest ← lift (string_slice (sgfContent p) (index p)
                   (string_len (sgfContent p)));
    let '(r, size) := decodeRune (list_ascii_of_string rest) in
    if decide (r = RuneError /\ size = 1) then
      lift (Err (InvalidUTF8 (index p)))
    else mret (r, size).

Fixpoint parsePropValue_loop (fuel : nat) (runes : list Z)
    : ST SGFParser (list Z) :=
  p ← get;
  if decide (index p < plength p) then
    match fuel with
    | O => lift OutOfFuel
    | S fuel' =>
        '(r, size) ← nextRune;
        if decide (r = 93) then                       (* ']' *)
          _ ← advance size; mret runes
        else if decide (r = 92) then                  (* '\\' *)
          _ ← advance size;
          p ← get;
          if decide (index p >= plength p) then lift (Err EndAfterBackslash)
          else
            '(escapedRune, escSize) ← nextRune;
            _ ← advance escSize;
            parsePropValue_loop fuel' (runes ++ [escapedRune])
        else
          _ ← advance size;
          parsePropValue_loop fuel' (runes ++ [r])
    end
  else mret runes.

Definition parsePropValue : ST SGFParser string :=
  _ ← advance 1;
  p ← get;
  runes ← parsePropValue_loop (parse_fuel p) [];
  mret (string_of_runes runes).

Fixpoint parseProperty_ident (fuel : nat) (ident : string)
    : ST SGFParser string :=
  p ← get;
  if decide (index p < plength p) then
    match fuel with
    | O => lift OutOfFuel
    | S fuel' =>
        '(r, size) ← nextRune;
        up ← lift (unicode_IsUpper r);
        if (up : bool) then
          _ ← advance size;
          parseProperty_ident fuel' (ident +:+ string_of_rune r)
        else mret ident
    end
  else mret ident.

Fixpoint parseProperty_values (fuel : nat) (values : list string)
    : ST SGFParser (list string) :=
  p ← get;
  if decide (index p < plength p) then
    match fuel with
    | O => lift OutOfFuel
    | S fuel' =>
        '(r, _) ← nextRune;
        if decide (r <> 91) then mret values          (* '[' *)
        else
          value ← parsePropValue;
          parseProperty_values fuel' (values ++ [value])
    end
  else mret values.

Definition parseProperty : ST SGFParser (string * list string) :=
  p ← get;
  ident ← parseProperty_ident (parse_fuel p) EmptyString;
  values ← parseProperty_values (parse_fuel p) [];
  mret (ident, values).

Fixpoint parseNode_loop (fuel : nat) (props : gmap string (list string))
    : ST SGFParser (gmap string (list string)) :=
  _ ← skipWhitespace;
  p ← get;
  if decide (index p >= plength p) then mret props
  else
    '(r, _) ← nextRune;
    up ← lift (unicode_IsUpper r);
    if negb up then mret props
    else
      match fuel with
      | O => lift OutOfFuel
      | S fuel' =>
          '(ident, values) ← parseProperty;
          parseNode_loop fuel' (<[ident := values]> props)
      end.

Definition parseNode : ST SGFParser SGFNode :=
  _ ← advance 1;
  p ← get;
  props ← parseNode_loop (parse_fuel p) ∅;
  mret (mkSGFNode props).

Fixpoint parseSequence_loop (fuel : nat) (nodes : list SGFNode)
    : ST SGFParser (list SGFNode) :=
  p ← get;
  semi ← lift (looking_at p ";"%char);
  if (semi : bool) then
    match fuel with
    | O => lift OutOfFuel
    | S fuel' =>
        node ← parseNode;
        parseSequence_loop fuel' (nodes ++ [node])
    end
  else mret nodes.

Definition parseSequence : ST SGFParser (list SGFNode) :=
  p ← get; parseSequence_loop (parse_fuel p) [].

Fixpoint parseGameTree (fuel : nat) : ST SGFParser SGFGameTree :=
  match fuel with
  | O => lift OutOfFuel
  | S fuel' =>
      sequence ← parseSequence;
      p0 ← get;
      subtrees ←
        (fix variations (n : nat) (subtrees : list SGFGameTree)
           : ST SGFParser (list SGFGameTree) :=
           _ ← skipWhitespace;
           p ← get;
           paren ← lift (looking_at p "("%char);
           if (paren : bool) then
             match n with
             | O => lift OutOfFuel
             | S n' =>
                 _ ← advance 1;
                 subtree ← parseGameTree fuel';
                 variations n' (subtrees ++ [subtree])
             end
           else mret subtrees) (parse_fuel p0) [];
      _ ← skipWhitespace;
      p ← get;
      if decide (index p < plength p) then
        a ← lift (string_at (sgfContent p) (index p));
        if decide (a = ")"%char) then
          _ ← advance 1; mret (mkSGFGameTree sequence subtrees)
        else lift (Err (ExpectedClose (index p) a))
      else lift (Err ExpectedCloseAtEnd)
  end.

Fixpoint parseCollection_loop (fuel : nat) (collection : list SGFGameTree)
    : ST SGFParser (list SGFGameTree) :=
  p ← get;
  if decide (index p < plength p) then
    match fuel with
    | O => lift OutOfFuel
    | S fuel' =>
        _ ← skipWhitespace;
        p ← get;
        paren ← lift (looking_at p "("%char);
        if (paren : bool) then
          _ ← advance 1;
          gameTree ← parseGameTree (parse_fuel p);
          parseCollection_loop fuel' (collection ++ [gameTree])
        else
          _ ← advance 1;
          parseCollection_loop fuel' collection
    end
  else mret collection.

Definition parseCollection : ST SGFParser (list SGFGameTree) :=
  p ← get; parseCollection_loop (parse_fuel p) [].

(** One rune of the scan of [validateSGF]; the state is [openParens]. *)
Definition validate_rune (ic : Z * Z) (openParens : Z) : res Z :=
  let '(i, char) := ic in
  if decide (char = 40) then Ok (openParens + 1)           (* '(' *)
  else if decide (char = 41) then                          (* ')' *)
    if decide (openParens - 1 < 0) then Err (UnmatchedClose i)
    else Ok (openParens - 1)
  else Ok openParens.

(** [nil] is [Ok tt]. *)
Definition validateSGF (p : SGFParser) : res unit :=
  openParens ← foldM validate_rune (range_string (sgfContent p)) 0;
  if decide (openParens <> 0) then Err UnmatchedOpen else Ok tt.

(** [parseSGF] together with the parser it leaves behind. *)
Definition parseSGF_run (sgfContent : string)
    : res (list SGFGameTree) * SGFParser :=
  let parser := mkSGFParser sgfContent 0 (string_len sgfContent) in
  match validateSGF parser with
  | Ok _ =>
      match parseCollection parser with
      | (Err err, parser') => (Err (ParseError (index parser') err), parser')
      | r => r
      end
  | r => (fail_as r, parser)
  end.

Definition parseSGF (sgfContent : string) : res (list SGFGameTree) :=
  (parseSGF_run sgfContent).1.

(** ** SGF: building the game tree *)

(** The fields [x], [y] and [player] of [Move]. *)
Record Move : Type := mkMove {
  move_x : Z;
  move_y : Z;
  move_player : string
}.

(** The fields of [MoveData], prefixed with [md_]. *)
Record MoveData : Type := mkMoveData {
  md_move : option Move;
  md_pass : bool;
  md_addedBlackStones : list string;
  md_addedWhiteStones : list string;
  md_addedEmptyPoints : list string;
  md_CR : list string;
  md_SQ : list string;
  md_TR : list string;
  md_MA : list string;
  md_LB : gmap string string
}.

Definition createMoveFromCoord (coord : string) (player : string)
    : option Move :=
  if decide (coord = EmptyString) then Some (mkMove (-1) (-1) player)
  else
    match convertSGFCoordToXY coord with
    | Some xy => Some (mkMove xy.1 xy.2 player)
    | None => None
    end.

(** [coord] is the empty string unless [len(prop) > 0], then [prop[0]]. *)
Definition first_or_empty (prop : list string) : string :=
  match prop with
  | [] => EmptyString
  | c :: _ => c
  end.

(** The parser never builds a nil property map, so the error return of
    the source is not taken. *)
Definition extractMoveFromNode (nodeProperties : gmap string (list string))
    : MoveData :=
  let move : option Move := None in
  let move :=
    match nodeProperties !! "B"%string with
    | Some bProp => createMoveFromCoord (first_or_empty bProp) black
    | None => move
    end in
  let move :=
    match nodeProperties !! "W"%string with
    | Some wProp => createMoveFromCoord (first_or_empty wProp) white
    | None => move
    end in
  let LB :=
    foldl (fun (LB : gmap string string) lb =>
             match strings_SplitN2 lb ":"%char with
             | [point; label] => <[point := label]> LB
             | _ => LB
             end) ∅ (default [] (nodeProperties !! "LB"%string)) in
  mkMoveData move
    (match move with
     | Some m => bool_decide (move_x m = -1 /\ move_y m = -1)
     | None => false
     end)
    (default [] (nodeProperties !! "AB"%string))
    (default [] (nodeProperties !! "AW"%string))
    (default [] (nodeProperties !! "AE"%string))
    (default [] (nodeProperties !! "CR"%string))
    (default [] (nodeProperties !! "SQ"%string))
    (default [] (nodeProperties !! "TR"%string))
    (default [] (nodeProperties !! "MA"%string))
    LB.

(** [node.boardState[y][x] = v] through the pointer *)
Definition write_board (p : ptr) (x y : Z) (v : string) : ST Game unit :=
  update_res (Some p) (fun n =>
    b ← grid_set (boardState n) x y v; Ok (set_boardState b n)).

(** [node.F[y][x] = v] for one of the overlays of a node *)
Definition write_overlay {A} (p : ptr) (proj : GameTreeNode -> grid A)
    (set : grid A -> GameTreeNode -> GameTreeNode) (x y : Z) (v : A)
    : ST Game unit :=
  update_res (Some p) (fun n => o ← grid_set (proj n) x y v; Ok (set o n)).

(** The part that [processMainLine] and [processSequence] share word for
    word: a node for [nodeProperties] below [currentParent], its move
    played on a copy of the board of the parent. *)
Definition attach_node (moveData : MoveData) (currentParent : option ptr)
    : ST Game ptr :=
  par ← deref currentParent;
  let newBoardState := copyBoard (boardState par) in
  newNode ← newGameTreeNode;
  _ ← update (Some newNode) (set_boardState newBoardState);
  _ ← update (Some newNode) (set_parent currentParent);
  _ ← update (Some newNode)
        (set_player (match md_move moveData with
                     | Some m => move_player m
                     | None => player par
                     end));
  _ ← update currentParent (fun n => set_children (children n ++ [newNode]) n);
  _ ← match md_move moveData with
      | Some m =>
          let x := move_x m in
          let y := move_y m in
          if decide (x >= 0 /\ y >= 0) then
            _ ← write_board newNode x y (move_player m);
            g ← get;
            n ← deref (Some newNode);
            '(board, ko) ←
              lift (captureStones g (boardState n) x y (move_player m));
            _ ← update (Some newNode) (set_boardState board);
            _ ← update (Some newNode) (set_ko ko);
            update (Some newNode) (set_move (x, y))
          else update (Some newNode) (set_move (-1, -1))
      | None => update (Some newNode) (set_move (93, 93))
      end;
  mret newNode.

Definition apply_comment (nodeProperties : gmap string (list string))
    (p : ptr) : ST Game unit :=
  match nodeProperties !! "C"%string with
  | Some (c :: _) => update (Some p) (set_Comment c)
  | _ => mret tt
  end.

(** One node of the sequence of [processMainLine]. *)
Definition mainline_node (nodeProperties : gmap string (list string))
    (currentParent : option ptr) : ST Game ptr :=
  let moveData := extractMoveFromNode nodeProperties in
  newNode ← attach_node moveData currentParent;
  _ ← forM (md_addedBlackStones moveData) (fun coord =>
        match convertSGFCoordToXY coord with
        | Some xy =>
            _ ← write_board newNode xy.1 xy.2 black;
            update_res (Some newNode) (addBlackStone xy.1 xy.2)
        | None => mret tt
        end);
  _ ← forM (md_addedWhiteStones moveData) (fun coord =>
        match convertSGFCoordToXY coord with
        | Some xy => write_board newNode xy.1 xy.2 white
        | None => mret tt
        end);
  _ ← forM (md_addedEmptyPoints moveData) (fun coord =>
        match convertSGFCoordToXY coord with
        | Some xy =>
            _ ← write_board newNode xy.1 xy.2 empty;
            write_overlay newNode AE set_AE xy.1 xy.2 true
        | None => mret tt
        end);
  _ ← apply_comment nodeProperties newNode;
  mret newNode.

(** [xy := convertSGFCoordToXY(coord)] followed by [xy[0]]: a nil slice
    panics there. *)
Definition annotate {A} (p : ptr) (proj : GameTreeNode -> grid A)
    (set : grid A -> GameTreeNode -> GameTreeNode) (coord : string) (v : A)
    : ST Game unit :=
  match convertSGFCoordToXY coord with
  | Some xy =>
      g ← get;
      if decide (xy.1 >= 0 /\ xy.2 >= 0 /\ xy.1 < sizeX g /\ xy.2 < sizeY g)
      then write_overlay p proj set xy.1 xy.2 v
      else mret tt
  | None => lift Panic
  end.

(** One node of [processSequence]. *)
Definition sequence_node (nodeProperties : gmap string (list string))
    (currentParent : option ptr) : ST Game ptr :=
  let moveData := extractMoveFromNode nodeProperties in
  newNode ← attach_node moveData currentParent;
  _ ← forM (md_addedBlackStones moveData) (fun coord =>
        match convertSGFCoordToXY coord with
        | Some xy =>
            _ ← write_board newNode xy.1 xy.2 black;
            update_res (Some newNode) (addBlackStone xy.1 xy.2)
        | None => mret tt
        end);
  _ ← forM (md_addedWhiteStones moveData) (fun coord =>
        match convertSGFCoordToXY coord with
        | Some xy =>
            _ ← write_board newNode xy.1 xy.2 white;
            update_res (Some newNode) (addWhiteStone xy.1 xy.2)
        | None => mret tt
        end);
  _ ← forM (md_addedEmptyPoints moveData) (fun coord =>
        match convertSGFCoordToXY coord with
        | Some xy =>
            _ ← write_board newNode xy.1 xy.2 empty;
            write_overlay newNode AE set_AE xy.1 xy.2 true
        | None => mret tt
        end);
  _ ← forM (md_CR moveData) (fun coord => annotate newNode CR set_CR coord true);
  _ ← forM (md_SQ moveData) (fun coord => annotate newNode SQ set_SQ coord true);
  _ ← forM (md_TR moveData) (fun coord => annotate newNode TR set_TR coord true);
  _ ← forM (md_MA moveData) (fun coord => annotate newNode MA set_MA coord true);
  _ ← forM (map_to_list (md_LB moveData)) (fun cl =>
        annotate newNode LB set_LB cl.1 cl.2);
  _ ← apply_comment nodeProperties newNode;
  mret newNode.

(** Runs [body] over [l], handing the parent from node to node. *)
Fixpoint chain {A} (body : A -> option ptr -> ST Game ptr) (l : list A)
    (currentParent : option ptr) : ST Game (option ptr) :=
  match l with
  | [] => mret currentParent
  | a :: l' => newNode ← body a currentParent; chain body l' (Some newNode)
  end.

Definition processSequence (sequence : list SGFNode)
    (parentNode : option ptr) : ST Game unit :=
  match parentNode with
  | None => lift (Err InvalidSequence)
  | Some _ =>
      _ ← chain (fun n => sequence_node (properties n)) sequence parentNode;
      mret tt
  end.

Fixpoint processSubtree (gameTree : SGFGameTree) (parentNode : option ptr)
    : ST Game unit :=
  match gameTree with
  | mkSGFGameTree sequence subtrees =>
      let currentParent := parentNode in
      _ ← processSequence sequence currentParent;
      (fix variations (l : list SGFGameTree) : ST Game unit :=
         match l with
         | [] => mret tt
         | subtree :: l' =>
             _ ← processSubtree subtree currentParent; variations l'
         end) subtrees
  end.

(** [*lastNode] is handed in and returned. *)
Fixpoint processMainLine (gameTree : SGFGameTree) (parentNode : option ptr)
    (lastNode : option ptr) : ST Game (option ptr) :=
  match gameTree with
  | mkSGFGameTree sequence subtrees =>
      g ← get;
      let sequenceStartIndex :=
        if decide (parentNode = rootNode g) then 1%nat else 0%nat in
      let nodes := drop sequenceStartIndex sequence in
      currentParent ←
        chain (fun n => mainline_node (properties n)) nodes parentNode;
      let lastNode :=
        match nodes with [] => lastNode | _ => currentParent end in
      match subtrees with
      | [] => mret lastNode
      | first :: others =>
          lastNode ← processMainLine first currentParent lastNode;
          _ ← forM others (fun t => processSubtree t currentParent);
          mret lastNode
      end
  end.

(** The keys of the root node that are not handed to
    [extractMoveFromNode]. *)
Definition root_only_keys : list string :=
  ["AB"; "AW"; "C"; "SZ"; "GM"; "FF"; "CA"; "AP"; "DT"; "GN"; "PC"; "PB";
   "PW"; "BR"; "WR"; "ST"; "TM"; "OT"; "RE"; "KM"; "RU"]%string.

(** An annotation of the root node: an invalid coordinate is skipped. *)
Definition annotate_root {A} (p : ptr) (proj : GameTreeNode -> grid A)
    (set : grid A -> GameTreeNode -> GameTreeNode) (coord : string) (v : A)
    : ST Game unit :=
  match convertSGFCoordToXY coord with
  | Some xy => write_overlay p proj set xy.1 xy.2 v
  | None => mret tt
  end.

(** The board size that the SZ property of the root asks for. *)
Definition sgf_board_size (rootNodeProperties : gmap string (list string))
    : res (Z * Z) :=
  match rootNodeProperties !! "SZ"%string with
  | Some (size :: _) =>
      match strings_Split size ":"%char with
      | [s0; s1] =>
          match strconv_Atoi s0, strconv_Atoi s1 with
          | Ok xSize, Ok ySize => Ok (xSize, ySize)
          | Err _, _ | _, Err _ => Err (InvalidSZ size)
          | r, _ => fail_as r
          end
      | _ =>
          match strconv_Atoi size with
          | Ok sizeInt => Ok (sizeInt, sizeInt)
          | Err _ => Err (InvalidSZ size)
          | r => fail_as r
          end
      end
  | _ => Ok (19, 19)
  end.

Definition initializeGameFromSGFTree (gameTree : SGFGameTree)
    : ST Game unit :=
  match sequence gameTree with
  | [] => lift (Err NoNodes)
  | root :: _ =>
      let rootNodeProperties := properties root in
      '(xSize, ySize) ← lift (sgf_board_size rootNodeProperties);
      _ ← modify (set_size xSize ySize);
      g ← get;
      if decide (sizeX g > 52 \/ sizeY g > 52) then lift (Err BoardTooLarge)
      else
        _ ← initializeBoard;
        g ← get;
        rootp ← (match rootNode g with
                 | Some p => mret p
                 | None => lift Panic
                 end);
        _ ← forM (default [] (rootNodeProperties !! "AB"%string))
              (fun coord =>
                 match convertSGFCoordToXY coord with
                 | Some xy =>
                     _ ← write_board rootp xy.1 xy.2 black;
                     update_res (Some rootp) (addBlackStone xy.1 xy.2)
                 | None => mret tt
                 end);
        _ ← forM (default [] (rootNodeProperties !! "AW"%string))
              (fun coord =>
                 match convertSGFCoordToXY coord with
                 | Some xy =>
                     _ ← write_board rootp xy.1 xy.2 white;
                     update_res (Some rootp) (addWhiteStone xy.1 xy.2)
                 | None => mret tt
                 end);
        _ ← apply_comment rootNodeProperties rootp;
        let additionalProps :=
          filter (fun kv => kv.1 ∉ root_only_keys) rootNodeProperties in
        _ ← (if decide (0 < Z.of_nat (size additionalProps)) then
               let moveData := extractMoveFromNode additionalProps in
               _ ← forM (md_CR moveData) (fun coord =>
                     annotate_root rootp CR set_CR coord true);
               _ ← forM (md_SQ moveData) (fun coord =>
                     annotate_root rootp SQ set_SQ coord true);
               _ ← forM (md_TR moveData) (fun coord =>
                     annotate_root rootp TR set_TR coord true);
               _ ← forM (md_MA moveData) (fun coord =>
                     annotate_root rootp MA set_MA coord true);
               forM (map_to_list (md_LB moveData)) (fun cl =>
                     annotate_root rootp LB set_LB cl.1 cl.2)
             else mret tt);
        _ ← setCurrentNode (Some rootp);
        lastNode ← processMainLine gameTree (Some rootp) None;
        match lastNode with
        | Some _ => setCurrentNode lastNode
        | None => mret tt
        end
  end.

Definition importFromSGF (sgfContent : string) : ST Game unit :=
  collection ← lift (parseSGF sgfContent);
  match collection with
  | [] => lift (Err NoGameTrees)
  | gameTree :: _ => initializeGameFromSGFTree gameTree
  end.

(** ** SGF: the serializer *)

(** The text [tag[..][..]] of the points that are set in an overlay, row
    by row, or nothing when no point is set. *)
Definition format_points {A} (tag : string) (set : A -> bool)
    (text : cell -> A -> string) (overlay : grid A) : string :=
  let body :=
    foldl String.append tag
      (mjoin (imap (fun y arr =>
                      mjoin (imap (fun x el =>
                                     if set el then
                                       [text (Z.of_nat x, Z.of_nat y) el]
                                     else []) arr)) overlay)) in
  if decide (body <> tag) then body else EmptyString.

Definition bracketed (c : cell) : string :=
  "[" +:+ convertCoordinatesToSGF c.1 c.2 +:+ "]".

Definition formatAnnotations (node : GameTreeNode) : string :=
  format_points "CR" (fun el : bool => el) (fun c _ => bracketed c) (CR node)
  +:+ format_points "SQ" (fun el : bool => el) (fun c _ => bracketed c)
        (SQ node)
  +:+ format_points "TR" (fun el : bool => el) (fun c _ => bracketed c)
        (TR node)
  +:+ format_points "MA" (fun el : bool => el) (fun c _ => bracketed c)
        (MA node)
  +:+ format_points "LB" (fun el : string => bool_decide (el <> EmptyString))
        (fun c el =>
           "[" +:+ convertCoordinatesToSGF c.1 c.2 +:+ ":" +:+ el +:+ "]")
        (LB node).

Definition formatAddedStones (node : GameTreeNode) : string :=
  format_points "AB" (fun el : bool => el) (fun c _ => bracketed c)
    (addedBlackStones node)
  +:+ format_points "AW" (fun el : bool => el) (fun c _ => bracketed c)
        (addedWhiteStones node)
  +:+ format_points "AE" (fun el : bool => el) (fun c _ => bracketed c)
        (AE node).

Definition formatNodeProperties (node : GameTreeNode) (isRoot : bool)
    (sizeX sizeY : Z) : string :=
  let sgf := ";"%string in
  let sgf :=
    if isRoot then
      sgf +:+ "FF[4]" +:+ "GM[1]" +:+ "CA[UTF-8]"
      +:+ ("AP[ConnectedGroupsGobanVersion" +:+ version +:+ "]")
      +:+ (if decide (sizeX = sizeY) then "SZ[" +:+ itoa sizeX +:+ "]"
           else "SZ[" +:+ itoa sizeX +:+ ":" +:+ itoa sizeY +:+ "]")
    else sgf in
  let sgf :=
    if decide (isRoot = false /\ (move node).1 >= 0 /\ (move node).1 < sizeX
               /\ (move node).2 >= 0 /\ (move node).2 < sizeY) then
      (if decide (player node = black) then sgf +:+ "B"
       else if decide (player node = white) then sgf +:+ "W"
       else sgf)
      +:+ "[" +:+ convertCoordinatesToSGF (move node).1 (move node).2 +:+ "]"
    else sgf in
  let sgf :=
    if decide (Comment node <> EmptyString) then
      let escapedComment :=
        strings_ReplaceAll (Comment node) "\"%char "\\" in
      let escapedComment := strings_ReplaceAll escapedComment "]"%char "\]" in
      sgf +:+ "C[" +:+ escapedComment +:+ "]"
    else sgf in
  sgf +:+ formatAnnotations node +:+ formatAddedStones node.

(** The recursion follows the [children] pointers; [fuel] bounds the depth
    of the tree. *)
Fixpoint generateSGF (fuel : nat) (heap : list GameTreeNode)
    (node : option ptr) (sizeX sizeY : Z) : res string :=
  match fuel with
  | O => OutOfFuel
  | S fuel' =>
      n ← (match node with
           | Some p =>
               match heap !! p with Some n => Ok n | None => Panic end
           | None => Panic
           end);
      let sgf := "("%string in
      let sgf :=
        sgf +:+ formatNodeProperties n (bool_decide (parent n = None))
                  sizeX sizeY in
      sgf ← (match children n with
             | [] => Ok sgf
             | [child] =>
                 childSGF ← generateSGF fuel' heap (Some child) sizeX sizeY;
                 childSGF ← string_slice childSGF 1 (string_len childSGF - 1);
                 Ok (sgf +:+ childSGF)
             | cs =>
                 foldM (fun child sgf =>
                          childSGF ←
                            generateSGF fuel' heap (Some child) sizeX sizeY;
                          Ok (sgf +:+ childSGF)) cs sgf
             end);
      Ok (sgf +:+ ")")
  end.

Definition exportToSGF (g : Game) : res string :=
  generateSGF (S (length (heap g))) (heap g) (rootNode g) (sizeX g) (sizeY g).

(** ** GTP client *)

(** Runs a call that returns an [error] and hands the error to the caller
    as a value. *)
Definition catch {S A} (m : ST S A) : ST S (GoError + A) := fun s =>
  match m s with
  | (Ok a, s') => (Ok (inr a), s')
  | (Err e, s') => (Ok (inl e), s')
  | (r, s') => (fail_as r, s')
  end.

(** [[]rune("ABCDEFGHJKLMNOPQRSTUVWXYZ")] *)
Definition letterRunes : list Z :=
  snd <$> range_string "ABCDEFGHJKLMNOPQRSTUVWXYZ".

Definition clientToGTPCoords (g : Game) (x y : Z) : string :=
  if decide (x < 0 \/ x >= Z.of_nat (length letterRunes)) then EmptyString
  else
    let letter := string_of_rune (default 0 (letterRunes !! Z.to_nat x)) in
    let number := sizeY g - y in
    letter +:+ itoa number.

(** [for i, r := range letterRunes { if string(r) == letter ... }] *)
Fixpoint find_letter (letter : string) (i : Z) (rs : list Z) : Z :=
  match rs with
  | [] => -1
  | r :: rs' =>
      if decide (string_of_rune r = letter) then i
      else find_letter letter (i + 1) rs'
  end.

Definition gtpToClientCoords (g : Game) (coord : string) : res cell :=
  if decide (string_len coord < 2) then Err (InvalidGTPCoord coord)
  else
    letter ← string_slice coord 0 1;
    numberStr ← string_slice coord 1 (string_len coord);
    let x := find_letter letter 0 letterRunes in
    if decide (x = -1) then Err (InvalidGTPLetter letter)
    else
      number ← strconv_Atoi numberStr;
      let y := sizeY g - number in
      if decide (y < 0 \/ y >= sizeY g) then Err (InvalidGTPNumber numberStr)
      else Ok (x, y).

(** One command and its response. The process is outside the program: its
    next answer is the head of [gtpReplies]; a process that has nothing
    left to say has closed its pipe. The payload that the source returns
    next to an error is used by no caller. *)
Definition sendGTPCommand (command : string) : ST Game string :=
  g ← get;
  if decide (gtpIn g = false \/ gtpReader g = false) then
    lift (Err NotAttached)
  else
    _ ← modify (fun g => set_exchange (tail (gtpReplies g))
                           (gtpSent g ++ [command]) g);
    match gtpReplies g with
    | ReplySuccess payload :: _ => mret payload
    | ReplyFailure payload :: _ => lift (Err (EngineError payload))
    | ReplyBroken :: _ | [] => lift (Err EngineIOError)
    end.

Definition detachEngine : ST Game unit :=
  g ← get;
  if gtpCmd g then modify (set_pipes false false false false) else mret tt.

(** [fmt.Sprintf("play %s %s", stone, coord)] *)
Definition play_command (stone coord : string) : string :=
  "play " +:+ stone +:+ " " +:+ coord.

Definition initializeEngine : ST Game unit :=
  supportedCommands ← sendGTPCommand "list_commands";
  _ ← forM ["boardsize"; "komi"; "play"; "genmove"]%string (fun cmd =>
        if negb (strings_Contains supportedCommands cmd) then
          lift (Err (MissingCommand cmd))
        else mret tt);
  g ← get;
  _ ← (if decide (sizeX g = sizeY g) then
         _ ← sendGTPCommand ("boardsize " +:+ itoa (sizeX g)); mret tt
       else if strings_Contains supportedCommands "rectangular_boardsize" then
         _ ← sendGTPCommand ("rectangular_boardsize " +:+ itoa (sizeX g)
                             +:+ " " +:+ itoa (sizeY g));
         mret tt
       else lift (Err NoRectangularBoards));
  _ ← sendGTPCommand ("komi " +:+ komiText g);
  forM (scan_order (sizeX g) (sizeY g)) (fun c =>
    g ← get;
    cur ← deref (currentNode g);
    stone ← lift (grid_get (boardState cur) c.1 c.2);
    if decide (stone <> empty) then
      let coord := clientToGTPCoords g c.1 c.2 in
      _ ← sendGTPCommand (play_command stone coord); mret tt
    else mret tt).

(** ** Moves *)

(** The node that a stone of [player] at [(x, y)] adds below the current
    node, as [handleMouseClick] and [handleEngineMove] build it. *)
Definition play_stone (x y : Z) (player : string) : ST Game ptr :=
  g ← get;
  cur ← deref (currentNode g);
  boardCopy ← lift (grid_set (copyBoard (boardState cur)) x y player);
  '(boardCopy, ko) ← lift (captureStones g boardCopy x y player);
  newNode ← newGameTreeNode;
  _ ← update (Some newNode) (set_boardState boardCopy);
  _ ← update (Some newNode) (set_move (x, y));
  _ ← update (Some newNode) (set_player player);
  _ ← update (Some newNode) (set_parent (currentNode g));
  _ ← update (Some newNode) (set_ko ko);
  _ ← update (currentNode g)
        (fun n => set_children (children n ++ [newNode]) n);
  _ ← modify (set_currentNode (Some newNode));
  mret newNode.

Definition handleEngineMove (coord : string) : ST Game unit :=
  coord ← lift (strings_TrimSpace coord);
  if decide (coord = "resign"%string) then mret tt
  else
    g ← get;
    xy ← catch (lift (gtpToClientCoords g coord));
    match xy with
    | inl _ => mret tt
    | inr (x, y) =>
        cur ← deref (currentNode g);
        let player := switchPlayer (player cur) in
        legal ← isMoveLegal x y player;
        if negb legal then mret tt
        else _ ← play_stone x y player; mret tt
    end.


(** [handleMouseClick] at the board point [(x, y)], which
    [pixelToBoardCoords] has found on the board. The label that the dialog
    of the "label" mode returns is the argument [label]. *)
Definition handleMouseClick (x y : Z) (label : string) : ST Game unit :=
  g ← get;
  let mode := mouseMode g in
  if decide (mode = "play"%string) then
    cur ← deref (currentNode g);
    s ← lift (grid_get (boardState cur) x y);
    if decide (s <> empty) then mret tt
    else
      let player := switchPlayer (player cur) in
      legal ← isMoveLegal x y player;
      if negb legal then mret tt
      else
        _ ← play_stone x y player;
        g ← get;
        if gtpCmd g && negb (bool_decide (gtpColor g = player)) then
          let coord := clientToGTPCoords g x y in
          r ← catch (sendGTPCommand (play_command player coord));
          match r with
          | inl _ => detachEngine
          | inr _ =>
              r ← catch (sendGTPCommand
                           ("genmove " +:+ switchPlayer player));
              match r with
              | inl _ => detachEngine
              | inr engineMove => handleEngineMove engineMove
              end
          end
        else mret tt
  else if decide (mode = "score"%string) then
    _ ← toggleGroupStatus x y;
    assignTerritoryToEmptyRegions
  else if decide (mode = "label"%string) then
    cur ← deref (currentNode g);
    _ ← lift (grid_get (LB cur) x y);
    update_res (currentNode g) (fun n =>
      o ← grid_set (LB n) x y label; Ok (set_LB o n))
  else if decide (mode = "addBlack"%string) then
    cur ← deref (currentNode g);
    s ← lift (grid_get (boardState cur) x y);
    if decide (s <> black) then
      update_res (currentNode g) (fun n =>
        b ← grid_set (boardState n) x y black;
        ab ← grid_set (addedBlackStones n) x y true;
        aw ← grid_set (addedWhiteStones n) x y false;
        ae ← grid_set (AE n) x y false;
        Ok (set_AE ae (set_addedWhiteStones aw
              (set_addedBlackStones ab (set_boardState b n)))))
    else mret tt
  else if decide (mode = "addWhite"%string) then
    cur ← deref (currentNode g);
    s ← lift (grid_get (boardState cur) x y);
    if decide (s <> white) then
      update_res (currentNode g) (fun n =>
        b ← grid_set (boardState n) x y white;
        aw ← grid_set (addedWhiteStones n) x y true;
        ab ← grid_set (addedBlackStones n) x y false;
        ae ← grid_set (AE n) x y false;
        Ok (set_AE ae (set_addedBlackStones ab
              (set_addedWhiteStones aw (set_boardState b n)))))
    else mret tt
  else if decide (mode = "addEmpty"%string) then
    cur ← deref (currentNode g);
    s ← lift (grid_get (boardState cur) x y);
    if decide (s <> empty) then
      update_res (currentNode g) (fun n =>
        b ← grid_set (boardState n) x y empty;
        ae ← grid_set (AE n) x y true;
        ab ← grid_set (addedBlackStones n) x y false;
        aw ← grid_set (addedWhiteStones n) x y false;
        Ok (set_addedWhiteStones aw (set_addedBlackStones ab
              (set_AE ae (set_boardState b n)))))
    else mret tt
  else if decide (mode = "circle"%string) then
    update_res (currentNode g) (fun n =>
      v ← grid_get (CR n) x y;
      o ← grid_set (CR n) x y (negb v); Ok (set_CR o n))
  else if decide (mode = "square"%string) then
    update_res (currentNode g) (fun n =>
      v ← grid_get (SQ n) x y;
      o ← grid_set (SQ n) x y (negb v); Ok (set_SQ o n))
  else if decide (mode = "triangle"%string) then
    update_res (currentNode g) (fun n =>
      v ← grid_get (TR n) x y;
      o ← grid_set (TR n) x y (negb v); Ok (set_TR o n))
  else if decide (mode = "xMark"%string) then
    update_res (currentNode g) (fun n =>
      v ← grid_get (MA n) x y;
      o ← grid_set (MA n) x y (negb v); Ok (set_MA o n))
  else mret tt.

(** The listener of the comment box: [currentNode.Comment = content]. *)
Definition commentChanged (content : string) : ST Game unit :=
  g ← get;
  match currentNode g with
  | Some _ => update (currentNode g) (set_Comment content)
  | None => mret tt
  end.

Definition enterScoringMode : ST Game unit :=
  _ ← initializeTerritoryMap;
  assignTerritoryToEmptyRegions.

Definition set_mouseMode (mode : string) (g : Game) :=
  mkGame (sizeX g) (sizeY g) (currentNode g) (rootNode g) (nodeMap g)
    (idCounter g) mode (territoryMap g) (komiText g) (gtpColor g)
    (gtpCmd g) (gtpIn g) (gtpOut g) (gtpReader g) (gtpReplies g)
    (gtpSent g) (heap g).

(** [exitScoringMode] removes the markers from the screen and keeps the
    territory map. *)
Definition setMouseMode (mode : string) : ST Game unit :=
  g ← get;
  if decide (mouseMode g = mode) then mret tt
  else
    _ ← (if decide (mode = "score"%string /\ mouseMode g <> "score"%string)
         then enterScoringMode else mret tt);
    modify (set_mouseMode mode).

(** ** The vocabulary of the specification *)

(** [d] is one of the four orthogonal neighbours of [c]. *)
Definition adjacent (c d : cell) : Prop := exists v, v ∈ dirs /\ d = step c v.

(** [d] is reached from [c] by orthogonal steps through points that all
    satisfy [P], the two ends included. *)
Inductive reach (P : cell -> Prop) : cell -> cell -> Prop :=
| reach_here c : P c -> reach P c c
| reach_step c d e : reach P c d -> adjacent d e -> P e -> reach P c e.

(** The stones of one colour that form a group with [c]; with [col] the
    empty colour, the empty region of [c]. *)
Definition connected (b : grid string) (col : string) : cell -> cell -> Prop :=
  reach (fun c => cell_at b c = Some col).

(** The group of [c] touches an empty point. *)
Definition has_liberty (b : grid string) (col : string) (c : cell) : Prop :=
  exists d e, connected b col c d /\ adjacent d e /\ cell_at b e = Some empty.

(** [n] is a stone of [opp] next to [c] whose group has no liberty. *)
Definition dead_neighbour (b : grid string) (c : cell) (opp : string)
    (n : cell) : Prop :=
  adjacent c n /\ cell_at b n = Some opp /\ ~ has_liberty b opp n.

(** [S] is the group of [c]: the stones of colour [col] connected with
    it. *)
Definition is_group (b : grid string) (col : string) (c : cell)
    (S : gset cell) : Prop :=
  forall e, e ∈ S <-> connected b col c e.

(** The group of [c] has [k] stones. *)
Definition group_size (b : grid string) (col : string) (c : cell) (k : Z)
    : Prop :=
  exists S : gset cell, is_group b col c S /\ Z.of_nat (size S) = k.

(** A stone placed at [c] captures exactly one group, the single stone at
    [n], and is itself a single stone on the board [b'] that results. *)
Definition ko_shape (b b' : grid string) (c : cell) (player : string)
    (n : cell) : Prop :=
  let opp := switchPlayer player in
  dead_neighbour b c opp n /\
  (forall n', dead_neighbour b c opp n' -> connected b opp n n') /\
  group_size b opp n 1 /\
  group_size b' player c 1.

(** A colour [col] owns, in the map [tm], a stone next to the empty region
    of [c]. *)
Definition borders (b tm : grid string) (c : cell) (col : string) : Prop :=
  (col = black \/ col = white) /\
  exists d n s,
    connected b empty c d /\ adjacent d n /\
    cell_at b n = Some s /\ s <> empty /\ cell_at tm n = Some col.

(** The owner of the empty region of [c]: the colour that borders it when
    there is exactly one, undecided otherwise. *)
Definition region_owner_spec (b tm : grid string) (c : cell) (o : string)
    : Prop :=
  (borders b tm c o /\ forall col, borders b tm c col -> col = o) \/
  (o = undecided /\
   ~ exists col, borders b tm c col /\
                 forall col', borders b tm c col' -> col' = col).

(** The points that the flood fill of [toggleGroupStatus] walks from a
    stone of colour [col]: stones of that colour and empty points. *)
Definition flood_connected (b : grid string) (col : string)
    : cell -> cell -> Prop :=
  reach (fun c => cell_at b c = Some col \/ cell_at b c = Some empty).

(** The stones that a toggle at [c] takes as one group: the stones of the
    colour of [c] that the flood fill reaches. *)
Definition toggled_group (b : grid string) (c d : cell) : Prop :=
  exists col,
    cell_at b c = Some col /\ (col = black \/ col = white) /\
    flood_connected b col c d /\ cell_at b d = Some col.

(** The states that scoring produces from the game [g0]: the territory map
    is built from the board of the current node and then changed by
    [assignTerritoryToEmptyRegions] and [toggleGroupStatus] only. *)
Inductive scoring (g0 : Game) : Game -> Prop :=
| scoring_enter g :
    initializeTerritoryMap g0 = (Ok tt, g) -> scoring g0 g
| scoring_assign g g' :
    scoring g0 g -> assignTerritoryToEmptyRegions g = (Ok tt, g') ->
    scoring g0 g'
| scoring_toggle g g' x y :
    scoring g0 g -> toggleGroupStatus x y g = (Ok tt, g') -> scoring g0 g'.

(** The current node of the game exists and its board has the dimensions
    of the game. *)
Definition board_of (g : Game) (b : grid string) : Prop :=
  exists p cur,
    currentNode g = Some p /\ heap g !! p = Some cur /\
    boardState cur = b /\ grid_dims (sizeX g) (sizeY g) b.

(** What a search that has added the points of [V'] to the visited set
    [V] leaves behind: the new points are stones of [col], and their
    neighbours are in [V'] or of another colour and not empty. *)
Definition sealed_in (b : grid string) (col : string) (V V' : gset cell)
    : Prop :=
  forall d, d ∈ V' -> d ∉ V ->
    cell_at b d = Some col /\
    forall e, adjacent d e ->
      e ∈ V' \/ (cell_at b e <> Some col /\ cell_at b e <> Some empty).

(** The same for a search that does not stop at empty points. *)
Definition closed_in (b : grid string) (col : string) (V V' : gset cell)
    : Prop :=
  forall d, d ∈ V' -> d ∉ V ->
    cell_at b d = Some col /\
    forall e, adjacent d e -> cell_at b e = Some col -> e ∈ V'.

(** The number of board points that a search has not visited: what bounds
    the rounds that are left to it. *)
Definition unvisited (sizeX sizeY : Z) (V : gset cell) : nat :=
  length (filter (fun c => c ∉ V) (scan_order sizeX sizeY)).

(** The number of board points that are not marked in a visited array. *)
Definition unmarked (sizeX sizeY : Z) (V : grid bool) : nat :=
  length (filter (fun c => cell_at V c = Some false)
            (scan_order sizeX sizeY)).

(** The point [c] is marked in the visited array [V]. *)
Definition marked (V : grid bool) (c : cell) : Prop :=
  cell_at V c = Some true.

(** The invariant of the flood fill of [assignTerritoryToEmptyRegions]
    that started at the empty point [c0] with the visited array [V0] and
    the map [M]: the region holds what was marked since, all of it
    connected with [c0]; the empty neighbours of the region are marked or
    wait on the stack; the adjacent colours are the owners of the
    neighbours of the region, all those of its stones among them. *)
Definition flood_inv (sizeX sizeY : Z) (b M : grid string) (V0 : grid bool)
    (c0 : cell) (fl : flood) : Prop :=
  grid_dims sizeX sizeY (fl_visited fl) /\
  (forall c, marked (fl_visited fl) c <-> marked V0 c \/ c ∈ fl_region fl) /\
  (forall c, c ∈ fl_region fl \/ c ∈ fl_stack fl ->
             connected b empty c0 c) /\
  (forall c, c ∈ fl_region fl -> ~ marked V0 c) /\
  (forall d n, d ∈ fl_region fl -> adjacent d n ->
               cell_at b n = Some empty ->
               marked (fl_visited fl) n \/ n ∈ fl_stack fl) /\
  (c0 ∈ fl_region fl \/ c0 ∈ fl_stack fl) /\
  (forall d n s col,
     d ∈ fl_region fl -> adjacent d n -> cell_at b n = Some s ->
     s <> empty -> cell_at M n = Some col -> col = black \/ col = white ->
     col ∈ fl_adjacent fl) /\
  (forall col, col ∈ fl_adjacent fl ->
     (col = black \/ col = white) /\
     exists d n, d ∈ fl_region fl /\ adjacent d n /\ cell_at M n = Some col).

(** What bounds the rounds that are left to the flood fill. *)
Definition flood_measure (sizeX sizeY : Z) (fl : flood) : nat :=
  (length (fl_stack fl) + 4 * unmarked sizeX sizeY (fl_visited fl))%nat.

(** The invariant of the two nested loops of
    [assignTerritoryToEmptyRegions] after the points [pre], with the
    visited array [st.1] and the map [st.2], on the map [tm] the loops
    started with: whole empty regions are marked, those of the points
    that the loops have passed among them; a marked point carries the
    owner of its region and the other points are as they were. *)
Definition scan_inv (sizeX sizeY : Z) (b tm : grid string) (pre : list cell)
    (st : grid bool * grid string) : Prop :=
  grid_dims sizeX sizeY st.1 /\ grid_dims sizeX sizeY st.2 /\
  (forall c, marked st.1 c -> cell_at b c = Some empty) /\
  (forall c n, marked st.1 c -> adjacent c n -> cell_at b n = Some empty ->
               marked st.1 n) /\
  (forall c, c ∈ pre -> cell_at b c = Some empty -> marked st.1 c) /\
  (forall c, ~ marked st.1 c -> cell_at st.2 c = cell_at tm c) /\
  (forall c, marked st.1 c ->
     exists o, cell_at st.2 c = Some o /\ region_owner_spec b tm c o).

(** Every empty point of the map is undecided or carries the owner of its
    region. *)
Definition open_or_settled (b tm : grid string) : Prop :=
  forall n, cell_at b n = Some empty ->
    cell_at tm n = Some undecided \/
    exists o, cell_at tm n = Some o /\ region_owner_spec b tm n o.

(** Every empty point of the map carries the owner of its region. *)
Definition settled (b tm : grid string) : Prop :=
  forall n, cell_at b n = Some empty ->
    exists o, cell_at tm n = Some o /\ region_owner_spec b tm n o.

(** The stones of the two colours have an owner of one of the two colours
    in the map, the same for the stones that a toggle takes as one
    group. *)
Definition stones_owned (b tm : grid string) : Prop :=
  (forall c col, cell_at b c = Some col -> col = black \/ col = white ->
     cell_at tm c = Some black \/ cell_at tm c = Some white) /\
  (forall c d, toggled_group b c d -> cell_at tm c = cell_at tm d).

(** The invariant of the flood fill of [toggleGroupStatus] that started
    at the stone [c0] of colour [orig] on the map [tm0]: the points that
    were visited or wait on the stack are reached from [c0] through
    stones of that colour and empty points; the neighbours of that kind
    of a visited point are visited or wait on the stack; the map has
    changed at the visited stones of the colour, which belong to [new]. *)
Definition toggle_inv (sizeX sizeY : Z) (b tm0 : grid string)
    (orig new : string) (c0 : cell)
    (st : list cell * gset cell * grid string) : Prop :=
  grid_dims sizeX sizeY st.2 /\
  (forall c, c ∈ st.1.2 \/ c ∈ st.1.1 -> flood_connected b orig c0 c) /\
  (forall d n, d ∈ st.1.2 -> adjacent d n ->
     cell_at b n = Some orig \/ cell_at b n = Some empty ->
     n ∈ st.1.2 \/ n ∈ st.1.1) /\
  (c0 ∈ st.1.2 \/ c0 ∈ st.1.1) /\
  (forall c, cell_at st.2 c =
             if decide (c ∈ st.1.2 /\ cell_at b c = Some orig)
             then Some new else cell_at tm0 c).

(** What bounds the rounds that are left to that flood fill. *)
Definition toggle_measure (sizeX sizeY : Z)
    (st : list cell * gset cell * grid string) : nat :=
  (length st.1.1 + 4 * unvisited sizeX sizeY st.1.2)%nat.

(** What scoring keeps of the game [g0] it started in, on the board [b]
    of its current node: the board and the tree are those of [g0], and
    the territory map has the dimensions of the board, an owner of one of
    the two colours for each stone, and undecided or settled empty
    points. *)
Definition scoring_inv (g0 : Game) (b : grid string) (g : Game) : Prop :=
  sizeX g = sizeX g0 /\ sizeY g = sizeY g0 /\
  currentNode g = currentNode g0 /\ heap g = heap g0 /\
  grid_dims (sizeX g0) (sizeY g0) (territoryMap g) /\
  open_or_settled b (territoryMap g) /\
  stones_owned b (territoryMap g).

(** The empty region of [c] on the board [b] has a stone of the colour
    [col] next to it. *)
Definition touches (b : grid string) (c : cell) (col : string) : Prop :=
  (col = black \/ col = white) /\
  exists d n, connected b empty c d /\ adjacent d n /\ cell_at b n = Some col.

(** The owner of the empty region of [c] by the stones of the board: the
    colour that touches the region when there is exactly one, undecided
    when no colour or both touch it. *)
Definition territory_owner (b : grid string) (c : cell) (o : string) : Prop :=
  (touches b c o /\ forall col, touches b c col -> col = o) \/
  (o = undecided /\
   ~ exists col, touches b c col /\
                 forall col', touches b c col' -> col' = col).

(** On the board [b1] that holds a new stone of [col] at [c], a
    neighbouring group of the opponent has no liberty or the group of the
    stone has one. *)
Definition stone_lives (b1 : grid string) (c : cell) (col : string) : Prop :=
  (exists n, dead_neighbour b1 c (switchPlayer col) n) \/
  has_liberty b1 col c.

(** A click at the point [c] in the play mode places a stone of [col]:
    the point is empty on the board of the node [cur] and is not its ko
    point, and on the board [b1] that holds the new stone a neighbouring
    group of the opponent has no liberty or the group of the stone has
    one. *)
Definition playable (cur : GameTreeNode) (b1 : grid string) (c : cell)
    (col : string) : Prop :=
  cell_at (boardState cur) c = Some empty /\
  ~ (c.1 = koX cur /\ c.2 = koY cur) /\
  stone_lives b1 c col.

(** The overlay that a click changes in each of the four mark modes. *)
Definition mark_of (mode : string) (n : GameTreeNode) : option (grid bool) :=
  if decide (mode = "circle"%string) then Some (CR n)
  else if decide (mode = "square"%string) then Some (SQ n)
  else if decide (mode = "triangle"%string) then Some (TR n)
  else if decide (mode = "xMark"%string) then Some (MA n)
  else None.

(** The node [n] with the overlay of the mode replaced by [o]. *)
Definition set_mark (mode : string) (o : grid bool) (n : GameTreeNode)
    : GameTreeNode :=
  if decide (mode = "circle"%string) then set_CR o n
  else if decide (mode = "square"%string) then set_SQ o n
  else if decide (mode = "triangle"%string) then set_TR o n
  else if decide (mode = "xMark"%string) then set_MA o n
  else n.

(** The content that a click gives a point in each of the three setup
    modes. *)
Definition setup_stone (mode : string) : option string :=
  if decide (mode = "addBlack"%string) then Some black
  else if decide (mode = "addWhite"%string) then Some white
  else if decide (mode = "addEmpty"%string) then Some empty
  else None.

(** ** Balanced parentheses *)

(** The number of runes [c] among [rs]. *)
Definition count_rune (c : Z) (rs : list (Z * Z)) : Z :=
  Z.of_nat (length (filter (fun ic => ic.2 = c) rs)).

(** Every closing rune [cl] closes an earlier opening rune [op] and every
    opening rune is closed. *)
Definition balanced (op cl : Z) (s : string) : Prop :=
  (forall pre, pre `prefix_of` range_string s ->
               count_rune cl pre <= count_rune op pre) /\
  count_rune cl (range_string s) = count_rune op (range_string s).

Definition parens_balanced (s : string) : Prop := balanced 40 41 s.
Definition brackets_balanced (s : string) : Prop := balanced 91 93 s.

Definition is_unmatched (e : GoError) : Prop :=
  match e with
  | UnmatchedClose _ | UnmatchedOpen => True
  | _ => False
  end.

(** ** Example games *)

(** The state that an action leaves. *)
Definition exec {S A : Type} (m : ST S A) (s : S) : S := (m s).2.

(** The game as [main] creates it, before [initializeBoard]. *)
Definition blank_game (sizeX sizeY : Z) : Game :=
  mkGame sizeX sizeY None None ∅ 0 "play" [] EmptyString "B"
    false false false false [] [] [].

Definition fresh_game (sizeX sizeY : Z) : Game :=
  exec initializeBoard (blank_game sizeX sizeY).

(** A game on a 3x3 board after black (1,0), white (1,1), black (0,1),
    white (2,2): there are empty points next to stones of one colour and
    of both colours. *)
Definition example_game : Game :=
  exec (_ ← handleMouseClick 1 0 EmptyString;
        _ ← handleMouseClick 1 1 EmptyString;
        _ ← handleMouseClick 0 1 EmptyString;
        handleMouseClick 2 2 EmptyString)
    (fresh_game 3 3).

Definition example_board : grid string :=
  [["."; "B"; "."]; ["B"; "W"; "."]; ["."; "."; "W"]]%string.

(** The example game when scoring starts. *)
Definition example_scoring : Game :=
  exec (_ ← initializeTerritoryMap; assignTerritoryToEmptyRegions)
    example_game.

(** A tree on a 3x3 board with two variations: black (0,0), white (1,0);
    and black (1,0), white (2,2), black (0,0). Scoring was entered at the
    end of the first variation; then the last node of the second one was
    chosen in the tree, which leaves the mouse mode and the territory
    map as they were. *)
Definition stale_scoring_game : Game :=
  exec (_ ← handleMouseClick 0 0 EmptyString;
        _ ← handleMouseClick 1 0 EmptyString;
        _ ← setCurrentNode (Some 0%nat);
        _ ← handleMouseClick 1 0 EmptyString;
        _ ← handleMouseClick 2 2 EmptyString;
        _ ← handleMouseClick 0 0 EmptyString;
        _ ← setCurrentNode (Some 2%nat);
        _ ← setMouseMode "score";
        setCurrentNode (Some 5%nat))
    (fresh_game 3 3).

(** The board of its current node. *)
Definition stale_board : grid string :=
  [["B"; "B"; "."]; ["."; "."; "."]; ["."; "."; "W"]]%string.

(** A game on a 3x3 board after black (0,0), white (2,2), black (2,0):
    the two black stones are not adjacent, and the empty point (1,0)
    lies between them. *)
Definition split_game : Game :=
  exec (_ ← handleMouseClick 0 0 EmptyString;
        _ ← handleMouseClick 2 2 EmptyString;
        handleMouseClick 2 0 EmptyString)
    (fresh_game 3 3).

(** The board of its current node. *)
Definition split_board : grid string :=
  [["B"; "."; "B"]; ["."; "."; "."]; ["."; "."; "W"]]%string.

(** That game when scoring starts. *)
Definition split_scoring : Game :=
  exec (_ ← initializeTerritoryMap; assignTerritoryToEmptyRegions)
    split_game.

(** The current node of the example game. *)
Definition example_node : GameTreeNode :=
  let flags := replicate 3 (replicate 3 false) in
  mkGameTreeNode example_board (2, 2) "W" [] (Some 3%nat) "6" (-1) (-1)
    EmptyString flags flags flags flags flags flags flags
    (replicate 3 (replicate 3 EmptyString)).

(** A board on which the black stone at (2,1) has just been placed: it
    takes the white stone at (1,1) and can be taken back there. *)
Definition ko_board : grid string :=
  [["."; "B"; "W"; "."]; ["B"; "W"; "B"; "W"]; ["."; "B"; "W"; "."]]%string.

(** A black stone in the corner whose two neighbours are white stones
    with liberties. *)
Definition suicide_board : grid string :=
  [["B"; "W"; "."]; ["W"; "."; "."]; ["."; "."; "."]]%string.

(** The coordinate alphabet of SGF: the runes [a]-[z] and [A]-[Z]. *)
Definition coord_alphabet (c : Z) : Prop :=
  97 <= c <= 122 \/ 65 <= c <= 90.

(** A tree on a 5x5 board whose root has two variations, black at (0,0)
    and black at (1,1), a black and a white setup stone, one mark of each
    kind, a label, and a comment with a closing bracket and a
    backslash. *)
Definition branching_game : Game :=
  exec (_ ← handleMouseClick 0 0 EmptyString;
        _ ← setCurrentNode (Some 0%nat);
        _ ← handleMouseClick 1 1 EmptyString;
        _ ← setCurrentNode (Some 0%nat);
        _ ← setMouseMode "addBlack"; _ ← handleMouseClick 3 3 EmptyString;
        _ ← setMouseMode "addWhite"; _ ← handleMouseClick 3 4 EmptyString;
        _ ← setMouseMode "circle"; _ ← handleMouseClick 0 1 EmptyString;
        _ ← setMouseMode "square"; _ ← handleMouseClick 1 0 EmptyString;
        _ ← setMouseMode "triangle"; _ ← handleMouseClick 2 0 EmptyString;
        _ ← setMouseMode "xMark"; _ ← handleMouseClick 2 1 EmptyString;
        _ ← setMouseMode "label"; _ ← handleMouseClick 0 2 "x";
        commentChanged "a]b\c")
    (fresh_game 5 5).

(** The moves of a tree and its branching: a node with its move, its
    player and its variations. *)
Inductive shape : Type :=
| Shape (move : cell) (player : string) (variations : list shape).

Fixpoint tree_shape (fuel : nat) (heap : list GameTreeNode) (p : ptr)
    : option shape :=
  match fuel with
  | O => None
  | S fuel' =>
      n ← heap !! p;
      kids ← mapM (tree_shape fuel' heap) (children n);
      Some (Shape (move n) (player n) kids)
  end.

(** The shape of the tree of a game. *)
Definition game_shape (g : Game) : option shape :=
  p ← rootNode g; tree_shape (S (length (heap g))) (heap g) p.

(** Export followed by import, on the same game. *)
Definition round_trip (g : Game) : res unit * Game :=
  match exportToSGF g with
  | Ok sgf => importFromSGF sgf g
  | r => (fail_as r, g)
  end.

(** ** Frames of the game tree *)

(** The two games have the same tree and the same current node. *)
Definition same_tree (g g' : Game) : Prop :=
  currentNode g' = currentNode g /\ heap g' = heap g.

(** The tree [h'] has the nodes of [h], with the boards, moves, ko points
    and parents they had; the node [c] may have new children after those
    it had, and the other nodes have the children they had. *)
Definition tree_grows (c : ptr) (h h' : list GameTreeNode) : Prop :=
  forall i m, h !! i = Some m ->
    exists m',
      h' !! i = Some m' /\ boardState m' = boardState m /\
      move m' = move m /\ koX m' = koX m /\ koY m' = koY m /\
      parent m' = parent m /\
      children m `prefix_of` children m' /\
      (i <> c -> children m' = children m).

(** The tree grows at the current node, if there is one. *)
Definition grows_at_current (g g' : Game) : Prop :=
  forall c, currentNode g = Some c -> tree_grows c (heap g) (heap g').

(** The tree [h'] has the nodes of [h] with the boards, moves, ko points
    and parents they had, and with the children they had before any new
    ones. *)
Definition history_kept (h h' : list GameTreeNode) : Prop :=
  forall i m, h !! i = Some m ->
    exists m',
      h' !! i = Some m' /\ boardState m' = boardState m /\
      move m' = move m /\ koX m' = koX m /\ koY m' = koY m /\
      parent m' = parent m /\
      children m `prefix_of` children m'.

(** The history of the game is kept. *)
Definition keeps_history (g g' : Game) : Prop :=
  history_kept (heap g) (heap g').

(** Every run of [m] leaves a state that [R] relates to the state it
    started in, whether it returns, panics or fails. *)
Definition tree_rel {A} (R : Game -> Game -> Prop) (m : ST Game A) : Prop :=
  forall g, R g (m g).2.

#[local] Set Warnings "-clear-no-such-hyp".

(** * Proofs *)

(** ** The monads *)

Lemma bind_Ok {A B} (m : res A) (k : A -> res B) (b : B) :
  m ≫= k = Ok b <-> exists a, m = Ok a /\ k a = Ok b.
Proof.
  destruct m as [a| | | |]; simpl; split;
    try discriminate; try (intros (a' & Hm & Hk); discriminate); eauto.
  intros (a' & Hm & Hk). injection Hm as ->. exact Hk.
Qed.

Lemma bind_Ok_l {A B} (m : res A) (k : A -> res B) (a : A) :
  m = Ok a -> m ≫= k = k a.
Proof. intros ->. reflexivity. Qed.

Lemma bind_ret {A B} (a : A) (k : A -> res B) : Ok a ≫= k = k a.
Proof. reflexivity. Qed.

(** An invariant that follows the rounds of [for _, a := range l]. *)
Lemma foldM_prefix {S A} (body : A -> S -> res S) (I : list A -> S -> Prop)
    (l : list A) (s : S) :
  I [] s ->
  (forall pre a post s,
     l = pre ++ a :: post -> I pre s ->
     exists s', body a s = Ok s' /\ I (pre ++ [a]) s') ->
  exists s', foldM body l s = Ok s' /\ I l s'.
Proof.
  intros H0 Hstep.
  cut (forall post pre s, l = pre ++ post -> I pre s ->
         exists s', foldM body post s = Ok s' /\ I l s').
  { intros Hcut. apply (Hcut l [] s); auto. }
  induction post as [|a post IH]; intros pre s0 Hl HI.
  - rewrite app_nil_r in Hl. subst pre. simpl. eauto.
  - destruct (Hstep pre a post s0 Hl HI) as (s' & Hb & HI').
    simpl. rewrite Hb. simpl.
    apply (IH (pre ++ [a])); auto.
    rewrite <- app_assoc. exact Hl.
Qed.

(** Total correctness of [for cond { body }]: an invariant and a measure
    that every round lowers; the fuel covers the measure. *)
Lemma while_rule {S} (cond : S -> bool) (body : S -> res S)
    (I : S -> Prop) (m : S -> nat) :
  (forall s, I s -> cond s = true ->
             exists s', body s = Ok s' /\ I s' /\ (m s' < m s)%nat) ->
  forall fuel s, I s -> (m s <= fuel)%nat ->
    exists s', while fuel cond body s = Ok s' /\ I s' /\ cond s' = false.
Proof.
  intros Hbody. induction fuel as [|fuel IH]; intros s HI Hm.
  - simpl. destruct (cond s) eqn:Hc; [|eauto].
    destruct (Hbody s HI Hc) as (s' & _ & _ & Hlt). lia.
  - simpl. destruct (cond s) eqn:Hc; [|eauto].
    destruct (Hbody s HI Hc) as (s' & Hb & HI' & Hlt).
    rewrite Hb. simpl. apply IH; auto. lia.
Qed.

(** ** Two-dimensional slices *)

Section Grid.
Context {A : Type}.
Implicit Types (b : grid A) (c : cell).

Lemma grid_get_Ok b x y v :
  grid_get b x y = Ok v <-> cell_at b (x, y) = Some v.
Proof.
  unfold grid_get. destruct (cell_at b (x, y)); split; congruence.
Qed.

Lemma grid_dims_row sizeX sizeY b i row :
  grid_dims sizeX sizeY b -> b !! i = Some row ->
  length row = Z.to_nat sizeX.
Proof.
  intros (_ & _ & _ & Hrows) Hi. rewrite Forall_forall in Hrows.
  apply Hrows. eapply list_elem_of_lookup_2; eauto.
Qed.

Lemma cell_at_in_bounds sizeX sizeY b c :
  grid_dims sizeX sizeY b ->
  is_Some (cell_at b c) <-> in_bounds sizeX sizeY c.
Proof.
  intros Hd. pose proof Hd as (HX & HY & Hlen & Hrows).
  unfold cell_at, in_bounds.
  destruct c as [x y]; simpl.
  case_decide as Hnn.
  - destruct (b !! Z.to_nat y) as [row|] eqn:Hrow; simpl.
    + pose proof (lookup_lt_Some _ _ _ Hrow) as Hlt.
      pose proof (grid_dims_row _ _ _ _ _ Hd Hrow) as Hr.
      rewrite lookup_lt_is_Some. lia.
    + apply lookup_ge_None in Hrow. split; [intros [? ?]; discriminate|].
      lia.
  - split; [intros [? ?]; discriminate|]. lia.
Qed.

Lemma cell_at_Some_in_bounds sizeX sizeY b c v :
  grid_dims sizeX sizeY b -> cell_at b c = Some v -> in_bounds sizeX sizeY c.
Proof. intros Hd Hc. eapply cell_at_in_bounds; eauto. Qed.

Lemma in_bounds_cell_at sizeX sizeY b c :
  grid_dims sizeX sizeY b -> in_bounds sizeX sizeY c ->
  exists v, cell_at b c = Some v.
Proof. intros Hd Hc. eapply cell_at_in_bounds in Hc as [v Hv]; eauto. Qed.

Lemma grid_set_Ok b x y v :
  is_Some (cell_at b (x, y)) ->
  exists b', grid_set b x y v = Ok b' /\
    (forall c, cell_at b' c = if decide (c = (x, y)) then Some v
                              else cell_at b c) /\
    (forall sizeX sizeY, grid_dims sizeX sizeY b -> grid_dims sizeX sizeY b').
Proof.
  intros [v0 Hv0]. unfold grid_set. rewrite Hv0.
  eexists; split; [reflexivity|]. split.
  - intros [cx cy].
    destruct (decide ((cx, cy) = (x, y))) as [Heq|Heq].
    + injection Heq as -> ->. unfold cell_at in *. simpl in *.
      case_decide as Hxy; [|discriminate].
      destruct (b !! Z.to_nat y) as [row|] eqn:Hrow; [|discriminate].
      simpl in Hv0. rewrite list_lookup_alter_eq, Hrow. simpl.
      apply list_lookup_insert_eq. eapply lookup_lt_Some; eauto.
    + unfold cell_at in *. simpl in *.
      case_decide as Hxy; [|discriminate].
      case_decide as Hc; [|reflexivity].
      destruct (decide (Z.to_nat cy = Z.to_nat y)) as [Hy|Hy].
      * rewrite Hy, list_lookup_alter_eq.
        destruct (b !! Z.to_nat y) as [row|] eqn:Hrow; [|reflexivity].
        simpl. apply list_lookup_insert_ne. intros Hx. apply Heq.
        f_equal; lia.
      * rewrite list_lookup_alter_ne by congruence. reflexivity.
  - intros sizeX sizeY Hd. pose proof Hd as (HX & HY & Hlen & Hrows).
    repeat split; auto.
    + rewrite length_alter. exact Hlen.
    + rewrite Forall_forall. intros row Hin.
      apply list_elem_of_lookup in Hin as [i Hi].
      destruct (decide (i = Z.to_nat y)) as [->|Hne].
      * rewrite list_lookup_alter_eq in Hi.
        destruct (b !! Z.to_nat y) as [row0|] eqn:Hrow; [|discriminate].
        simpl in Hi. injection Hi as <-. rewrite length_insert.
        eapply grid_dims_row; eauto.
      * rewrite list_lookup_alter_ne in Hi by congruence.
        eapply grid_dims_row; eauto.
Qed.

Lemma grid_set_inv b x y v b' :
  grid_set b x y v = Ok b' ->
  is_Some (cell_at b (x, y)) /\
  (forall c, cell_at b' c = if decide (c = (x, y)) then Some v
                            else cell_at b c) /\
  (forall sizeX sizeY, grid_dims sizeX sizeY b -> grid_dims sizeX sizeY b').
Proof.
  intros Hs. assert (is_Some (cell_at b (x, y))) as Hin.
  { unfold grid_set in Hs. destruct (cell_at b (x, y)); [eauto|discriminate]. }
  split; [exact Hin|].
  destruct (grid_set_Ok b x y v Hin) as (b'' & Hs' & H1 & H2).
  rewrite Hs in Hs'. injection Hs' as ->. auto.
Qed.

Lemma grid_get_cell b c v : cell_at b c = Some v -> grid_get b c.1 c.2 = Ok v.
Proof. destruct c. apply grid_get_Ok. Qed.

Lemma grid_set_cell b c v :
  is_Some (cell_at b c) ->
  exists b', grid_set b c.1 c.2 v = Ok b' /\
    (forall e, cell_at b' e = if decide (e = c) then Some v
                              else cell_at b e) /\
    (forall sizeX sizeY, grid_dims sizeX sizeY b -> grid_dims sizeX sizeY b').
Proof. destruct c. apply grid_set_Ok. Qed.

(** Two slices of the same dimensions with the same entries are equal. *)
Lemma grid_ext sizeX sizeY b1 b2 :
  grid_dims sizeX sizeY b1 -> grid_dims sizeX sizeY b2 ->
  (forall c, in_bounds sizeX sizeY c -> cell_at b1 c = cell_at b2 c) ->
  b1 = b2.
Proof.
  intros Hd1 Hd2 Heq.
  pose proof Hd1 as (HX & HY & Hl1 & Hr1).
  pose proof Hd2 as (_ & _ & Hl2 & Hr2).
  apply list_eq. intros i.
  destruct (decide (i < Z.to_nat sizeY)%nat) as [Hi|Hi].
  - destruct (lookup_lt_is_Some_2 b1 i) as [r1 H1]; [lia|].
    destruct (lookup_lt_is_Some_2 b2 i) as [r2 H2]; [lia|].
    rewrite H1, H2. f_equal.
    pose proof (grid_dims_row _ _ _ _ _ Hd1 H1) as Hlr1.
    pose proof (grid_dims_row _ _ _ _ _ Hd2 H2) as Hlr2.
    apply list_eq. intros j.
    destruct (decide (j < Z.to_nat sizeX)%nat) as [Hj|Hj].
    + specialize (Heq (Z.of_nat j, Z.of_nat i)).
      unfold cell_at, in_bounds in Heq. simpl in Heq.
      rewrite !Nat2Z.id, H1, H2 in Heq. simpl in Heq.
      rewrite !decide_True in Heq by lia. apply Heq. lia.
    + rewrite !lookup_ge_None_2 by lia. reflexivity.
  - rewrite !lookup_ge_None_2 by lia. reflexivity.
Qed.

Lemma make_grid_Ok sizeX sizeY (v : A) :
  0 <= sizeX -> 0 <= sizeY ->
  exists b, make_grid sizeX sizeY v = Ok b /\ grid_dims sizeX sizeY b /\
            forall c, in_bounds sizeX sizeY c -> cell_at b c = Some v.
Proof.
  intros HX HY. unfold make_grid. rewrite decide_False by lia.
  eexists; split; [reflexivity|]. split.
  - repeat split; auto.
    + apply length_replicate.
    + apply Forall_forall. intros row Hin.
      apply elem_of_replicate in Hin as [-> _].
      apply length_replicate.
  - intros [x y] [Hx Hy]; simpl in *. unfold cell_at; simpl.
    rewrite decide_True by lia.
    rewrite lookup_replicate_2 by lia. simpl.
    apply lookup_replicate_2. lia.
Qed.
End Grid.

(** ** Neighbours and paths *)

Lemma adjacent_step c v : v ∈ dirs -> adjacent c (step c v).
Proof. intros Hv. exists v. auto. Qed.

Lemma adjacent_cases c d :
  adjacent c d <->
  d = (c.1, c.2 - 1) \/ d = (c.1, c.2 + 1) \/
  d = (c.1 - 1, c.2) \/ d = (c.1 + 1, c.2).
Proof.
  unfold adjacent, dirs, step. split.
  - intros (v & Hv & ->).
    repeat (apply elem_of_cons in Hv as [->|Hv]); simpl;
      [ left | right; left | right; right; left | right; right; right
      | inversion Hv ]; f_equal; lia.
  - intros [-> | [-> | [-> | ->]]];
      [ exists (0, -1) | exists (0, 1) | exists (-1, 0) | exists (1, 0) ];
      (split; [set_solver | simpl; f_equal; lia]).
Qed.

Lemma adjacent_sym c d : adjacent c d -> adjacent d c.
Proof.
  rewrite !adjacent_cases. destruct c as [cx cy], d as [dx dy]; simpl.
  intros [H | [H | [H | H]]]; injection H as -> ->;
    [ right; left | left | right; right; right | right; right; left ];
    f_equal; lia.
Qed.

Lemma adjacent_ne c d : adjacent c d -> c <> d.
Proof.
  rewrite adjacent_cases. destruct c as [cx cy], d as [dx dy]; simpl.
  intros [H | [H | [H | H]]] Heq; injection H as -> ->;
    injection Heq; lia.
Qed.

Section Reach.
Variable P : cell -> Prop.

Lemma reach_start c d : reach P c d -> P c.
Proof. induction 1; auto. Qed.

Lemma reach_end c d : reach P c d -> P d.
Proof. destruct 1; auto. Qed.

Lemma reach_trans c d e : reach P c d -> reach P d e -> reach P c e.
Proof.
  intros Hcd Hde. induction Hde as [|d0 d1 e0 Hd IH Hadj He]; auto.
  eapply reach_step; [apply IH; exact Hcd|exact Hadj|exact He].
Qed.

Lemma reach_first c d e :
  P c -> adjacent c d -> reach P d e -> reach P c e.
Proof.
  intros Hc Hcd Hde. eapply reach_trans; [|exact Hde].
  eapply reach_step; [apply reach_here; exact Hc|exact Hcd|].
  eapply reach_start; eauto.
Qed.

Lemma reach_sym c d : reach P c d -> reach P d c.
Proof.
  induction 1 as [c Hc|c d e Hcd IH Hde He].
  - apply reach_here; auto.
  - eapply reach_first; eauto. apply adjacent_sym; auto.
Qed.

(** A set that holds [c] and is closed under steps inside [P] holds
    everything that [c] reaches. *)
Lemma reach_closed (X : cell -> Prop) c d :
  X c ->
  (forall u v, X u -> adjacent u v -> P v -> X v) ->
  reach P c d -> X d.
Proof. intros Hc Hcl. induction 1; eauto. Qed.
End Reach.

Lemma reach_impl (P Q : cell -> Prop) c d :
  (forall u, P u -> Q u) -> reach P c d -> reach Q c d.
Proof.
  intros HPQ. induction 1.
  - apply reach_here; auto.
  - eapply reach_step; eauto.
Qed.

(** ** The order of the two nested loops *)

Lemma elem_of_scan_order sizeX sizeY c :
  c ∈ scan_order sizeX sizeY <-> in_bounds sizeX sizeY c.
Proof.
  unfold scan_order, in_bounds. rewrite list_elem_of_bind.
  split.
  - intros (y & Hc & Hy). apply list_elem_of_bind in Hc as (x & Hc & Hx).
    apply list_elem_of_singleton in Hc as ->. simpl.
    apply elem_of_seqZ in Hx. apply elem_of_seqZ in Hy. lia.
  - destruct c as [x y]; simpl. intros [Hx Hy].
    exists y. split; [|apply elem_of_seqZ; lia].
    apply list_elem_of_bind. exists x. split; [set_solver|].
    apply elem_of_seqZ; lia.
Qed.

Lemma length_bind_const {A B} (f : A -> list B) (k : nat) (l : list A) :
  (forall a, length (f a) = k) -> length (l ≫= f) = (length l * k)%nat.
Proof.
  intros Hf. induction l as [|a l IH]; [reflexivity|].
  rewrite bind_cons, length_app, IH, Hf. reflexivity.
Qed.

Lemma length_scan_order sizeX sizeY :
  0 <= sizeX -> 0 <= sizeY ->
  length (scan_order sizeX sizeY) = Z.to_nat (sizeX * sizeY).
Proof.
  intros HX HY. unfold scan_order.
  rewrite (length_bind_const _ (Z.to_nat sizeX)).
  - rewrite length_seqZ. lia.
  - intros y. rewrite (length_bind_const _ 1%nat); [|reflexivity].
    rewrite length_seqZ. lia.
Qed.

(** Fewer points of a list satisfy a stronger property that one of them
    has lost. *)
Lemma length_filter_drop {A} (P Q : A -> Prop)
    `{!forall x, Decision (P x)} `{!forall x, Decision (Q x)}
    (l : list A) (x : A) :
  (forall a, Q a -> P a) -> x ∈ l -> P x -> ~ Q x ->
  (length (filter Q l) < length (filter P l))%nat.
Proof.
  intros HQP Hx HPx HQx.
  induction l as [|a l IH]; [inversion Hx|].
  assert (length (filter Q l) <= length (filter P l))%nat as Hle.
  { clear -HQP. induction l as [|a l IH]; [reflexivity|].
    rewrite !filter_cons.
    destruct (decide (Q a)) as [Hq|Hq].
    - rewrite decide_True by auto. simpl. lia.
    - destruct (decide (P a)); simpl; lia. }
  rewrite !filter_cons. apply elem_of_cons in Hx as [<-|Hx].
  - rewrite decide_False by auto. rewrite decide_True by auto. simpl. lia.
  - specialize (IH Hx).
    destruct (decide (Q a)) as [Hq|Hq].
    + rewrite decide_True by auto. simpl. lia.
    + destruct (decide (P a)); simpl; lia.
Qed.

Lemma reach_impl_strong (P Q : cell -> Prop) c d :
  (forall u, reach P c u -> Q u) -> reach P c d -> reach Q c d.
Proof.
  intros HPQ. induction 1 as [c Hc|c d e Hcd IH Hde He].
  - apply reach_here. apply HPQ. apply reach_here; auto.
  - eapply reach_step; [apply IH; exact HPQ|exact Hde|].
    apply HPQ. eapply reach_step; eauto.
Qed.

Section Connected.
Variables (b : grid string) (col : string).
Local Abbreviation has_col := (fun c : cell => cell_at b c = Some col).

Lemma connected_here c : cell_at b c = Some col -> connected b col c c.
Proof. intros H. apply (reach_here has_col). exact H. Qed.

Lemma connected_start c d : connected b col c d -> cell_at b c = Some col.
Proof. apply (reach_start has_col). Qed.

Lemma connected_end c d : connected b col c d -> cell_at b d = Some col.
Proof. apply (reach_end has_col). Qed.

Lemma connected_trans c d e :
  connected b col c d -> connected b col d e -> connected b col c e.
Proof. apply (reach_trans has_col). Qed.

Lemma connected_sym c d : connected b col c d -> connected b col d c.
Proof. apply (reach_sym has_col). Qed.

Lemma connected_first c d e :
  cell_at b c = Some col -> adjacent c d -> connected b col d e ->
  connected b col c e.
Proof. apply (reach_first has_col). Qed.

Lemma connected_next c d e :
  connected b col c d -> adjacent d e -> cell_at b e = Some col ->
  connected b col c e.
Proof. apply (reach_step has_col). Qed.

Lemma connected_closed (X : cell -> Prop) c d :
  X c ->
  (forall u v, X u -> adjacent u v -> cell_at b v = Some col -> X v) ->
  connected b col c d -> X d.
Proof. apply (reach_closed has_col). Qed.

(** Two points of one group have the same group. *)
Lemma is_group_connected c d S :
  connected b col c d -> is_group b col c S -> is_group b col d S.
Proof.
  intros Hcd HS e. rewrite (HS e). split; intros H.
  - eapply connected_trans; [apply connected_sym; exact Hcd|exact H].
  - eapply connected_trans; eauto.
Qed.

Lemma is_group_unique c S1 S2 :
  is_group b col c S1 -> is_group b col c S2 -> S1 = S2.
Proof. intros H1 H2. apply set_eq. intros e. rewrite (H1 e), (H2 e). tauto. Qed.

Lemma group_size_unique c k1 k2 :
  group_size b col c k1 -> group_size b col c k2 -> k1 = k2.
Proof.
  intros (S1 & H1 & <-) (S2 & H2 & <-).
  rewrite (is_group_unique c S1 S2 H1 H2). reflexivity.
Qed.

Lemma group_size_connected c d k :
  connected b col c d -> group_size b col c k -> group_size b col d k.
Proof.
  intros Hcd (S & HS & Hk). exists S. split; [|exact Hk].
  eapply is_group_connected; eauto.
Qed.

(** A group of one stone is that stone. *)
Lemma group_size_one c d :
  group_size b col c 1 -> connected b col c d -> d = c.
Proof.
  intros (S & HS & Hk) Hcd.
  assert (size S = 1%nat) as Hsz by lia.
  apply (size_singleton_inv S d c Hsz).
  - apply HS. exact Hcd.
  - apply HS. apply connected_here. eapply connected_start; eauto.
Qed.
End Connected.

(** ** Counting the points that a search has not visited *)

Section Unvisited.
Variables sizeX sizeY : Z.
Local Abbreviation unvisited := (unvisited sizeX sizeY).

Lemma unvisited_mono V W : V ⊆ W -> (unvisited W <= unvisited V)%nat.
Proof.
  intros HVW. unfold unvisited.
  induction (scan_order sizeX sizeY) as [|a l IH]; [reflexivity|].
  rewrite !filter_cons.
  destruct (decide (a ∉ W)) as [Hw|Hw].
  - rewrite decide_True by set_solver. simpl. lia.
  - destruct (decide (a ∉ V)); simpl; lia.
Qed.

Lemma unvisited_insert V c :
  in_bounds sizeX sizeY c -> c ∉ V ->
  (unvisited ({[ c ]} ∪ V) < unvisited V)%nat.
Proof.
  intros Hc HV. unfold unvisited.
  apply (length_filter_drop _ _ _ c).
  - set_solver.
  - apply elem_of_scan_order; auto.
  - exact HV.
  - set_solver.
Qed.

Lemma unvisited_empty :
  0 <= sizeX -> 0 <= sizeY -> unvisited ∅ = Z.to_nat (sizeX * sizeY).
Proof.
  intros HX HY. unfold unvisited.
  rewrite <- length_scan_order by auto. f_equal.
  induction (scan_order sizeX sizeY) as [|a l IH]; [reflexivity|].
  rewrite filter_cons, decide_True by set_solver. f_equal. exact IH.
Qed.
End Unvisited.

(** * Proofs: the rules engine *)

(** ** The rules engine: the three searches *)

Lemma first_found_prefix {S A} (body : A -> S -> res (bool * S))
    (I : list A -> S -> Prop) (Q : S -> Prop) (l : list A) (s : S) :
  I [] s ->
  (forall pre a post s,
     l = pre ++ a :: post -> I pre s ->
     exists r s', body a s = Ok (r, s') /\
       (r = true -> Q s') /\ (r = false -> I (pre ++ [a]) s')) ->
  exists r s', first_found body l s = Ok (r, s') /\
    (r = true -> Q s') /\ (r = false -> I l s').
Proof.
  intros H0 Hstep.
  cut (forall post pre s, l = pre ++ post -> I pre s ->
         exists r s', first_found body post s = Ok (r, s') /\
           (r = true -> Q s') /\ (r = false -> I l s')).
  { intros Hcut. apply (Hcut l [] s); auto. }
  induction post as [|a post IH]; intros pre s0 Hl HI.
  - rewrite app_nil_r in Hl. subst pre. simpl.
    exists false, s0. split; [reflexivity|]. split; [discriminate|auto].
  - destruct (Hstep pre a post s0 Hl HI) as (r & s' & Hb & HQ & HI').
    simpl. rewrite Hb. simpl. destruct r.
    + exists true, s'. split; [reflexivity|]. split; [auto|discriminate].
    + apply (IH (pre ++ [a])); auto.
      rewrite <- app_assoc. exact Hl.
Qed.

Lemma foldM_sim {S1 S2 A} (f1 : A -> S1 -> res S1) (f2 : A -> S2 -> res S2)
    (R : S1 -> S2 -> Prop) (l : list A) :
  (forall a s1 s2, a ∈ l -> R s1 s2 ->
     exists s1' s2', f1 a s1 = Ok s1' /\ f2 a s2 = Ok s2' /\ R s1' s2') ->
  forall s1 s2, R s1 s2 ->
    exists s1' s2',
      foldM f1 l s1 = Ok s1' /\ foldM f2 l s2 = Ok s2' /\ R s1' s2'.
Proof.
  induction l as [|a l IH]; intros Hstep s1 s2 HR.
  - simpl. eauto.
  - destruct (Hstep a s1 s2) as (s1' & s2' & H1 & H2 & HR');
      [set_solver|exact HR|].
    simpl. rewrite H1, H2. simpl. apply IH; auto.
    intros a' t1 t2 Ha'. apply Hstep. set_solver.
Qed.

Lemma switchPlayer_colour player :
  switchPlayer player = black \/ switchPlayer player = white.
Proof. unfold switchPlayer. case_decide; auto. Qed.

Lemma switchPlayer_ne player : switchPlayer player <> player.
Proof.
  unfold switchPlayer. case_decide as H; [subst; discriminate|].
  congruence.
Qed.

Lemma colour_not_empty col : col = black \/ col = white -> col <> empty.
Proof. intros [-> | ->]; discriminate. Qed.

Section Search.
Variables (sizeX sizeY : Z) (b : grid string) (p : string).
Hypothesis Hdims : grid_dims sizeX sizeY b.
Local Abbreviation unv := (unvisited sizeX sizeY).

Lemma out_of_bounds_cell x y :
  x < 0 \/ x >= sizeX \/ y < 0 \/ y >= sizeY -> cell_at b (x, y) = None.
Proof.
  intros H. destruct (cell_at b (x, y)) as [v|] eqn:Hv; [|reflexivity].
  apply (cell_at_Some_in_bounds _ _ _ _ _ Hdims) in Hv.
  destruct Hv as [Hx Hy]; simpl in *. lia.
Qed.

Lemma in_bounds_not_out x y :
  ~ (x < 0 \/ x >= sizeX \/ y < 0 \/ y >= sizeY) ->
  in_bounds sizeX sizeY (x, y).
Proof. intros H. split; simpl; lia. Qed.

Lemma groupDFS_spec fuel : forall x y V,
  (unv V < fuel)%nat ->
  exists V',
    groupDFS fuel b x y p V sizeX sizeY = Ok V' /\ V ⊆ V' /\
    (forall d, d ∈ V' -> d ∉ V -> connected b p (x, y) d) /\
    closed_in b p V V' /\
    (cell_at b (x, y) = Some p -> (x, y) ∈ V').
Proof.
  induction fuel as [|fuel IH]; intros x y V Hf; [lia|]. simpl.
  case_decide as Hout.
  { exists V. split; [reflexivity|]. split; [set_solver|].
    split; [intros d Hd Hn; contradiction|].
    split; [intros d Hd Hn; contradiction|].
    intros Hc. rewrite out_of_bounds_cell in Hc by exact Hout. discriminate. }
  case_decide as Hvis.
  { exists V. split; [reflexivity|]. split; [set_solver|].
    split; [intros d Hd Hn; contradiction|].
    split; [intros d Hd Hn; contradiction|auto]. }
  pose proof (in_bounds_not_out _ _ Hout) as Hin.
  destruct (in_bounds_cell_at _ _ _ _ Hdims Hin) as [s Hs].
  rewrite (proj2 (grid_get_Ok _ _ _ _) Hs). simpl.
  case_decide as Hcol.
  { exists V. split; [reflexivity|]. split; [set_solver|].
    split; [intros d Hd Hn; contradiction|].
    split; [intros d Hd Hn; contradiction|].
    intros Hc. congruence. }
  assert (s = p) as -> by (destruct (decide (s = p)); [auto|contradiction]).
  clear Hcol.
  set (c := (x, y)) in *. set (V1 := {[ c ]} ∪ V).
  pose proof (unvisited_insert sizeX sizeY V c Hin Hvis) as Hlt.
  destruct (foldM_prefix
    (fun d visited =>
       groupDFS fuel b (x + d.1) (y + d.2) p visited sizeX sizeY)
    (fun pre W =>
       V1 ⊆ W /\
       (forall d, d ∈ W -> d ∉ V -> connected b p c d) /\
       (forall d, d ∈ W -> d ∉ V1 ->
          cell_at b d = Some p /\
          forall e, adjacent d e -> cell_at b e = Some p -> e ∈ W) /\
       (forall v, v ∈ pre -> cell_at b (step c v) = Some p -> step c v ∈ W))
    dirs V1) as (W & HW & HV1 & Hsound & Hclosed & Hnb).
  - split; [set_solver|]. split.
    + intros d Hd Hn. assert (d = c) as -> by set_solver.
      apply connected_here. exact Hs.
    + split; [intros d Hd Hn; contradiction|].
      intros v Hv. inversion Hv.
  - intros pre a post W Hl (HV1 & Hsound & Hclosed & Hnb).
    destruct (IH (x + a.1) (y + a.2) W) as (W' & HW' & Hsub & Hs' & Hc' & Hn').
    { pose proof (unvisited_mono sizeX sizeY V1 W HV1). unfold V1 in *. lia. }
    exists W'. split; [exact HW'|]. split; [set_solver|]. split; [|split].
    + intros d Hd Hn. destruct (decide (d ∈ W)) as [HdW|HdW]; [auto|].
      eapply connected_first; [exact Hs| |apply Hs'; auto].
      exists a. split; [|reflexivity].
      rewrite Hl. set_solver.
    + intros d Hd Hn. destruct (decide (d ∈ W)) as [HdW|HdW].
      * destruct (Hclosed d HdW Hn) as [Hcd Hed]. split; [exact Hcd|].
        intros e Hade Hce. apply Hsub. eauto.
      * apply Hc'; auto.
    + intros v Hv Hcv. apply elem_of_app in Hv as [Hv|Hv].
      * apply Hsub. auto.
      * apply list_elem_of_singleton in Hv as ->. apply Hn'. exact Hcv.
  - exists W. split; [exact HW|]. split; [set_solver|].
    split; [exact Hsound|]. split; [|set_solver].
    intros d Hd Hn. destruct (decide (d = c)) as [->|Hne].
    + split; [exact Hs|]. intros e (v & Hv & ->) Hce. auto.
    + apply Hclosed; [exact Hd|]. set_solver.
Qed.

(** The set that [getGroupSize] counts and [removeGroup] clears is the
    group of the point. *)
Lemma groupDFS_group x y :
  exists S,
    groupDFS (search_fuel sizeX sizeY) b x y p ∅ sizeX sizeY = Ok S /\
    is_group b p (x, y) S.
Proof.
  destruct (groupDFS_spec (search_fuel sizeX sizeY) x y ∅)
    as (S & HS & _ & Hsound & Hclosed & Hstart).
  { destruct Hdims as (HX & HY & _).
    rewrite unvisited_empty by auto. unfold search_fuel. lia. }
  exists S. split; [exact HS|]. intros e. split.
  - intros He. apply Hsound; [exact He|set_solver].
  - intros Hce.
    apply (connected_closed b p (fun d => d ∈ S) (x, y) e); [| |exact Hce].
    + apply Hstart. eapply connected_start; eauto.
    + intros u v Hu Huv Hv. eapply Hclosed; eauto. set_solver.
Qed.

Lemma getGroupSize_spec x y :
  exists k, getGroupSize b x y p sizeX sizeY = Ok k /\ group_size b p (x, y) k.
Proof.
  destruct (groupDFS_group x y) as (S & HS & Hg).
  unfold getGroupSize. rewrite HS. simpl.
  eexists; split; [reflexivity|]. exists S. auto.
Qed.

Lemma dfs_spec fuel : forall x y V,
  (unv V < fuel)%nat ->
  exists r V',
    dfs fuel b x y p V sizeX sizeY = Ok (r, V') /\
    (r = true ->
       cell_at b (x, y) = Some empty \/
       (cell_at b (x, y) = Some p /\ has_liberty b p (x, y))) /\
    (r = false ->
       V ⊆ V' /\ sealed_in b p V V' /\
       ((x, y) ∈ V' \/
        (cell_at b (x, y) <> Some p /\ cell_at b (x, y) <> Some empty))).
Proof.
  induction fuel as [|fuel IH]; intros x y V Hf; [lia|]. simpl.
  case_decide as Hout.
  { exists false, V. split; [reflexivity|]. split; [discriminate|].
    intros _. split; [set_solver|]. split; [intros d Hd Hn; contradiction|].
    right. rewrite out_of_bounds_cell by exact Hout. split; discriminate. }
  case_decide as Hvis.
  { exists false, V. split; [reflexivity|]. split; [discriminate|].
    intros _. split; [set_solver|]. split; [intros d Hd Hn; contradiction|].
    auto. }
  pose proof (in_bounds_not_out _ _ Hout) as Hin.
  destruct (in_bounds_cell_at _ _ _ _ Hdims Hin) as [s Hs].
  rewrite (proj2 (grid_get_Ok _ _ _ _) Hs). simpl.
  case_decide as Hemp.
  { subst s. exists true, V. split; [reflexivity|].
    split; [auto|discriminate]. }
  case_decide as Hcol.
  { exists false, V. split; [reflexivity|]. split; [discriminate|].
    intros _. split; [set_solver|]. split; [intros d Hd Hn; contradiction|].
    right. rewrite Hs. split; congruence. }
  assert (s = p) as -> by (destruct (decide (s = p)); [auto|contradiction]).
  clear Hcol.
  set (c := (x, y)) in *. set (V1 := {[ c ]} ∪ V).
  pose proof (unvisited_insert sizeX sizeY V c Hin Hvis) as Hlt.
  destruct (first_found_prefix
    (fun d visited =>
       dfs fuel b (x + d.1) (y + d.2) p visited sizeX sizeY)
    (fun pre W =>
       V1 ⊆ W /\
       (forall d, d ∈ W -> d ∉ V1 ->
          cell_at b d = Some p /\
          forall e, adjacent d e ->
            e ∈ W \/ (cell_at b e <> Some p /\ cell_at b e <> Some empty)) /\
       (forall v, v ∈ pre ->
          step c v ∈ W \/
          (cell_at b (step c v) <> Some p /\
           cell_at b (step c v) <> Some empty)))
    (fun _ => has_liberty b p c)
    dirs V1) as (r & W & HW & Htrue & Hfalse).
  - split; [set_solver|]. split; [intros d Hd Hn; contradiction|].
    intros v Hv. inversion Hv.
  - intros pre a post W Hl (HV1 & Hclosed & Hnb).
    destruct (IH (x + a.1) (y + a.2) W) as (r & W' & HW' & Ht & Hf').
    { pose proof (unvisited_mono sizeX sizeY V1 W HV1). unfold V1 in *. lia. }
    exists r, W'. split; [exact HW'|]. split.
    + intros Hr. assert (adjacent c (x + a.1, y + a.2)) as Hadj.
      { exists a. split; [rewrite Hl; set_solver|reflexivity]. }
      destruct (Ht Hr) as [He|[Hp (d & e & Hcd & Hde & He)]].
      * exists c, (x + a.1, y + a.2).
        split; [apply connected_here; exact Hs|].
        split; [exact Hadj|exact He].
      * exists d, e. split; [|split; [exact Hde|exact He]].
        eapply connected_first; [exact Hs|exact Hadj|exact Hcd].
    + intros Hr. destruct (Hf' Hr) as (Hsub & Hsealed & Hn').
      split; [set_solver|]. split.
      * intros d Hd Hn. destruct (decide (d ∈ W)) as [HdW|HdW].
        -- destruct (Hclosed d HdW Hn) as [Hcd Hed]. split; [exact Hcd|].
           intros e Hade. destruct (Hed e Hade) as [?|?]; [left|right]; auto.
        -- apply Hsealed; auto.
      * intros v Hv. apply elem_of_app in Hv as [Hv|Hv].
        -- destruct (Hnb v Hv) as [?|?]; [left|right]; auto.
        -- apply list_elem_of_singleton in Hv as ->. exact Hn'.
  - exists r, W. split; [exact HW|]. split.
    + intros Hr. right. split; [exact Hs|]. apply Htrue. exact Hr.
    + intros Hr. destruct (Hfalse Hr) as (HV1 & Hclosed & Hnb).
      split; [set_solver|]. split; [|left; set_solver].
      intros d Hd Hn. destruct (decide (d = c)) as [->|Hne].
      * split; [exact Hs|]. intros e (v & Hv & ->). auto.
      * apply Hclosed; [exact Hd|]. set_solver.
Qed.

(** [hasLiberty] decides whether the group of a stone has a liberty. *)
Lemma hasLiberty_spec x y :
  cell_at b (x, y) = Some p -> p <> empty ->
  exists r, hasLiberty b x y p sizeX sizeY = Ok r /\
            (r = true <-> has_liberty b p (x, y)).
Proof.
  intros Hc Hp.
  destruct (dfs_spec (search_fuel sizeX sizeY) x y ∅)
    as (r & V' & Hdfs & Htrue & Hfalse).
  { destruct Hdims as (HX & HY & _).
    rewrite unvisited_empty by auto. unfold search_fuel. lia. }
  unfold hasLiberty. rewrite Hdfs. simpl. exists r. split; [reflexivity|].
  split.
  - intros Hr. destruct (Htrue Hr) as [He|[_ Hl]]; [congruence|exact Hl].
  - intros (d & e & Hcd & Hde & He). destruct r; [reflexivity|exfalso].
    destruct (Hfalse eq_refl) as (_ & Hsealed & Hstart).
    assert ((x, y) ∈ V') as Hin.
    { destruct Hstart as [?|[Hn _]]; [auto|congruence]. }
    assert (d ∈ V') as Hd.
    { apply (connected_closed b p (fun d => d ∈ V') (x, y) d Hin);
        [|exact Hcd].
      intros u v Hu Huv Hv.
      destruct (Hsealed u Hu) as [_ Hnb]; [set_solver|].
      destruct (Hnb v Huv) as [?|[Hn _]]; [auto|congruence]. }
    destruct (Hsealed d Hd) as [_ Hnb]; [set_solver|].
    destruct (Hnb e Hde) as [HeV|[_ Hn]]; [|congruence].
    destruct (Hsealed e HeV) as [Hce _]; [set_solver|]. congruence.
Qed.
End Search.

Section Remove.
Variables (sizeX sizeY : Z) (b : grid string) (p : string).
Hypothesis Hdims : grid_dims sizeX sizeY b.

(** [removeDFS] visits what [groupDFS] visits on the board [b] it started
    from, and clears it on the board [bc] it is writing. *)
Lemma removeDFS_spec fuel : forall bc x y V,
  (unvisited sizeX sizeY V < fuel)%nat ->
  grid_dims sizeX sizeY bc ->
  (forall c, c ∉ V -> cell_at bc c = cell_at b c) ->
  exists bc' V',
    groupDFS fuel b x y p V sizeX sizeY = Ok V' /\
    removeDFS fuel bc x y p V sizeX sizeY = Ok (bc', V') /\
    V ⊆ V' /\ grid_dims sizeX sizeY bc' /\
    (forall c, cell_at bc' c = if decide (c ∈ V' /\ c ∉ V) then Some empty
                               else cell_at bc c).
Proof.
  induction fuel as [|fuel IH]; intros bc x y V Hf Hbc Hagree; [lia|]. simpl.
  assert (forall c, cell_at bc c =
            if decide (c ∈ V /\ c ∉ V) then Some empty else cell_at bc c)
    as Hsame.
  { intros c. rewrite decide_False by tauto. reflexivity. }
  case_decide as Hout.
  { exists bc, V. split; [reflexivity|]. split; [reflexivity|].
    split; [set_solver|]. split; [exact Hbc|exact Hsame]. }
  case_decide as Hvis.
  { exists bc, V. split; [reflexivity|]. split; [reflexivity|].
    split; [set_solver|]. split; [exact Hbc|exact Hsame]. }
  pose proof (in_bounds_not_out sizeX sizeY _ _ Hout) as Hin.
  destruct (in_bounds_cell_at _ _ _ _ Hdims Hin) as [s Hs].
  rewrite (proj2 (grid_get_Ok b _ _ _) Hs).
  assert (cell_at bc (x, y) = Some s) as Hs' by (rewrite Hagree; auto).
  rewrite (proj2 (grid_get_Ok bc _ _ _) Hs'). simpl.
  case_decide as Hcol.
  { exists bc, V. split; [reflexivity|]. split; [reflexivity|].
    split; [set_solver|]. split; [exact Hbc|exact Hsame]. }
  destruct (grid_set_Ok bc x y empty) as (bc1 & Hset & Hbc1 & Hd1);
    [rewrite Hs'; eauto|].
  rewrite Hset. simpl.
  set (c := (x, y)) in *. set (V1 := {[ c ]} ∪ V).
  pose proof (unvisited_insert sizeX sizeY V c Hin Hvis) as Hlt.
  destruct (foldM_sim
    (fun d visited =>
       groupDFS fuel b (x + d.1) (y + d.2) p visited sizeX sizeY)
    (fun d '(board, visited) =>
       removeDFS fuel board (x + d.1) (y + d.2) p visited sizeX sizeY)
    (fun W (st : grid string * gset cell) =>
       st.2 = W /\ V1 ⊆ W /\ grid_dims sizeX sizeY st.1 /\
       forall e, cell_at st.1 e = if decide (e ∈ W /\ e ∉ V) then Some empty
                                  else cell_at bc e)
    dirs) with (s1 := V1) (s2 := (bc1, V1))
    as (W & [bcf Wf] & HW & Hbcf & HWf & HV1 & Hdf & Hcells).
  - intros a W [bcur W2] _ (HW2 & HV1 & Hdcur & Hcells); simpl in *.
    subst W2.
    destruct (IH bcur (x + a.1) (y + a.2) W)
      as (bc' & W' & Hg & Hr & Hsub & Hd' & Hcells'); auto.
    { pose proof (unvisited_mono sizeX sizeY V1 W HV1). unfold V1 in *. lia. }
    { intros e He. rewrite Hcells. rewrite decide_False by tauto.
      apply Hagree. set_solver. }
    exists W', (bc', W'). split; [exact Hg|]. split; [exact Hr|]. simpl.
    split; [reflexivity|]. split; [set_solver|]. split; [exact Hd'|].
    intros e. rewrite Hcells', Hcells.
    destruct (decide (e ∈ W)) as [HeW|HeW].
    + rewrite (decide_False (P := e ∈ W' /\ e ∉ W)) by tauto.
      destruct (decide (e ∉ V)) as [HeV|HeV].
      * rewrite !decide_True by set_solver. reflexivity.
      * rewrite !decide_False by tauto. reflexivity.
    + destruct (decide (e ∈ W')) as [HeW'|HeW'].
      * rewrite !decide_True by set_solver. reflexivity.
      * rewrite !decide_False by tauto. reflexivity.
  - simpl. split; [reflexivity|]. split; [set_solver|]. split; [auto|].
    intros e. rewrite Hbc1. unfold V1.
    destruct (decide (e = c)) as [->|Hne].
    + rewrite decide_True by set_solver. reflexivity.
    + rewrite decide_False by set_solver. reflexivity.
  - simpl in *. subst Wf. exists bcf, W. split; [exact HW|].
    split; [exact Hbcf|]. split; [set_solver|]. split; [exact Hdf|].
    exact Hcells.
Qed.

(** [removeGroup] clears the group of the point and nothing else. *)
Lemma removeGroup_spec x y :
  exists b' k S,
    removeGroup b x y p sizeX sizeY = Ok (b', k) /\
    is_group b p (x, y) S /\
    grid_dims sizeX sizeY b' /\
    forall c, cell_at b' c = if decide (c ∈ S) then Some empty
                             else cell_at b c.
Proof.
  destruct (removeDFS_spec (search_fuel sizeX sizeY) b x y ∅)
    as (b' & S & Hg & Hr & _ & Hd' & Hcells); auto.
  { destruct Hdims as (HX & HY & _).
    rewrite unvisited_empty by auto. unfold search_fuel. lia. }
  destruct (groupDFS_group sizeX sizeY b p Hdims x y) as (S' & Hg' & HS').
  rewrite Hg in Hg'. injection Hg' as <-.
  unfold removeGroup. rewrite Hr. simpl.
  exists b', (Z.of_nat (size S)), S. split; [reflexivity|].
  split; [exact HS'|]. split; [exact Hd'|].
  intros c. rewrite Hcells.
  destruct (decide (c ∈ S)).
  - rewrite decide_True by set_solver. reflexivity.
  - rewrite decide_False by tauto. reflexivity.
Qed.
End Remove.

(** ** Boards from which dead groups have been taken *)

Section Cleared.
Variables (b cur : grid string) (opp : string) (R : gset cell).
Hypothesis Hopp : opp <> empty.
Hypothesis HR_col : forall e, e ∈ R -> cell_at b e = Some opp.
Hypothesis HR_closed : forall e e', e ∈ R -> connected b opp e e' -> e' ∈ R.
Hypothesis Hcur : forall e,
  cell_at cur e = if decide (e ∈ R) then Some empty else cell_at b e.

Lemma cleared_colour e : cell_at cur e = Some opp -> cell_at b e = Some opp.
Proof.
  rewrite Hcur. destruct (decide (e ∈ R)); [congruence|auto].
Qed.

Lemma cleared_outside n e :
  n ∉ R -> connected b opp n e -> e ∉ R.
Proof.
  intros Hn Hne He. apply Hn. apply (HR_closed e n He).
  apply connected_sym. exact Hne.
Qed.

Lemma cleared_connected n e :
  n ∉ R -> connected cur opp n e <-> connected b opp n e.
Proof.
  intros Hn. split.
  - apply reach_impl. intros u. apply cleared_colour.
  - apply (reach_impl_strong (fun u => cell_at b u = Some opp)
             (fun u => cell_at cur u = Some opp)).
    intros u Hu. rewrite Hcur.
    rewrite decide_False by (eapply cleared_outside; eauto).
    eapply connected_end; eauto.
Qed.

Lemma cleared_is_group n S :
  n ∉ R -> is_group cur opp n S <-> is_group b opp n S.
Proof.
  intros Hn. unfold is_group. split; intros H e; rewrite (H e);
    [|symmetry]; apply cleared_connected; auto.
Qed.

Lemma cleared_group_size n k :
  n ∉ R -> group_size cur opp n k <-> group_size b opp n k.
Proof.
  intros Hn. unfold group_size. split; intros (S & HS & Hk); exists S;
    (split; [|exact Hk]); apply (cleared_is_group n S Hn); auto.
Qed.

Lemma cleared_has_liberty n :
  n ∉ R -> has_liberty cur opp n <-> has_liberty b opp n.
Proof.
  intros Hn. split; intros (d & e & Hnd & Hde & He).
  - apply (cleared_connected n d Hn) in Hnd. exists d, e.
    split; [exact Hnd|]. split; [exact Hde|].
    rewrite Hcur in He. destruct (decide (e ∈ R)) as [HeR|HeR]; [|exact He].
    exfalso. apply (cleared_outside n e Hn); [|exact HeR].
    eapply connected_next; eauto.
  - exists d, e. split; [apply cleared_connected; auto|].
    split; [exact Hde|]. rewrite Hcur.
    destruct (decide (e ∈ R)) as [HeR|HeR]; [reflexivity|exact He].
Qed.
End Cleared.

(** ** Captures *)

Section Capture.
Variables (g : Game) (b : grid string) (x y : Z) (player : string).
Hypothesis Hdims : grid_dims (sizeX g) (sizeY g) b.
Hypothesis Hplayer : player = black \/ player = white.
Local Abbreviation c := (x, y).
Local Abbreviation opp := (switchPlayer player).

Lemma opp_not_empty : opp <> empty.
Proof. apply colour_not_empty, switchPlayer_colour. Qed.

(** [getCapturedStones] lists the neighbours whose group is dead. *)
Lemma getCapturedStones_spec :
  exists captured,
    getCapturedStones g b x y opp = Ok captured /\
    (forall n, n ∈ captured <-> dead_neighbour b c opp n).
Proof.
  destruct (foldM_prefix
    (fun d captured =>
       let nx := x + d.1 in
       let ny := y + d.2 in
       if decide (nx < 0 \/ nx >= sizeX g \/ ny < 0 \/ ny >= sizeY g) then
         Ok captured
       else
         s ← grid_get b nx ny;
         if decide (s = opp) then
           lib ← hasLiberty b nx ny opp (sizeX g) (sizeY g);
           if negb lib then Ok (captured ++ [(nx, ny)]) else Ok captured
         else Ok captured)
    (fun pre captured =>
       (forall n, n ∈ captured -> dead_neighbour b c opp n) /\
       (forall v, v ∈ pre -> dead_neighbour b c opp (step c v) ->
                  step c v ∈ captured))
    dirs []) as (captured & Hcap & Hsound & Hcomplete).
  - split; [intros n Hn; inversion Hn|intros v Hv; inversion Hv].
  - intros pre a post captured Hl (Hsound & Hcomplete).
    assert (adjacent c (step c a)) as Hadj.
    { exists a. split; [rewrite Hl; set_solver|reflexivity]. }
    assert (forall captured' : list cell,
              (forall n, n ∈ captured' -> dead_neighbour b c opp n) ->
              (forall n, n ∈ captured -> n ∈ captured') ->
              (dead_neighbour b c opp (step c a) -> step c a ∈ captured') ->
              (forall n, n ∈ captured' -> dead_neighbour b c opp n) /\
              (forall v, v ∈ pre ++ [a] -> dead_neighbour b c opp (step c v)
                         -> step c v ∈ captured')) as Hkeep.
    { intros captured' H1 H2 H3. split; [exact H1|].
      intros v Hv Hd. apply elem_of_app in Hv as [Hv|Hv]; [auto|].
      apply list_elem_of_singleton in Hv as ->. auto. }
    simpl. case_decide as Hout.
    { exists captured. split; [reflexivity|]. apply Hkeep; auto.
      intros (_ & Hc & _).
      unfold step in Hc; simpl in Hc.
      rewrite (out_of_bounds_cell _ _ _ Hdims) in Hc by exact Hout.
      discriminate. }
    pose proof (in_bounds_not_out _ _ _ _ Hout) as Hin.
    destruct (in_bounds_cell_at _ _ _ _ Hdims Hin) as [s Hs].
    rewrite (proj2 (grid_get_Ok b _ _ _) Hs). simpl.
    case_decide as Hcol.
    + subst s.
      destruct (hasLiberty_spec _ _ b opp Hdims _ _ Hs opp_not_empty)
        as (r & Hr & Hlib).
      rewrite Hr. simpl. destruct r; simpl.
      * exists captured. split; [reflexivity|]. apply Hkeep; auto.
        intros (_ & _ & Hdead). exfalso. apply Hdead, Hlib. reflexivity.
      * eexists. split; [reflexivity|]. apply Hkeep.
        -- intros n Hn. apply elem_of_app in Hn as [Hn|Hn]; [auto|].
           apply list_elem_of_singleton in Hn as ->.
           split; [exact Hadj|]. split; [exact Hs|].
           intros Hl'. apply Hlib in Hl'. discriminate.
        -- intros n Hn. apply elem_of_app. auto.
        -- intros _. apply elem_of_app. right. set_solver.
    + exists captured. split; [reflexivity|]. apply Hkeep; auto.
      intros (_ & Hc & _). unfold step in Hc; simpl in Hc. congruence.
  - exists captured. split; [exact Hcap|].
    intros n. split; [apply Hsound|].
    intros Hd. pose proof Hd as ((v & Hv & ->) & _). auto.
Qed.
End Capture.

Section CaptureLoop.
Variables (g : Game) (b : grid string) (x y : Z) (player : string).
Hypothesis Hdims : grid_dims (sizeX g) (sizeY g) b.
Hypothesis Hplayer : player = black \/ player = white.
Local Abbreviation c := (x, y).
Local Abbreviation opp := (switchPlayer player).

(** The capture loop takes every dead group next to the stone off the
    board, once, and records one of its stones and its size. *)
Lemma capture_loop_spec :
  exists cur sizes coords (R : gset cell),
    foldM (capture_step g x y opp) dirs (b, [], []) = Ok (cur, sizes, coords)
    /\ grid_dims (sizeX g) (sizeY g) cur
    /\ (forall e, e ∈ R <-> exists m, m ∈ coords /\ connected b opp m e)
    /\ (forall e, cell_at cur e = if decide (e ∈ R) then Some empty
                                  else cell_at b e)
    /\ (forall m, m ∈ coords -> dead_neighbour b c opp m)
    /\ (forall i j m1 m2,
          coords !! i = Some m1 -> coords !! j = Some m2 -> i <> j ->
          ~ connected b opp m1 m2)
    /\ (forall n, dead_neighbour b c opp n -> n ∈ R)
    /\ Forall2 (fun k m => group_size b opp m k) sizes coords.
Proof.
  pose proof (opp_not_empty player) as Hopp.
  destruct (foldM_prefix (capture_step g x y opp)
    (fun pre (st : grid string * list Z * list cell) =>
       exists R : gset cell,
         grid_dims (sizeX g) (sizeY g) st.1.1
         /\ (forall e, e ∈ R <->
                       exists m, m ∈ st.2 /\ connected b opp m e)
         /\ (forall e, cell_at st.1.1 e =
                       if decide (e ∈ R) then Some empty else cell_at b e)
         /\ (forall m, m ∈ st.2 -> dead_neighbour b c opp m)
         /\ (forall i j m1 m2,
               st.2 !! i = Some m1 -> st.2 !! j = Some m2 -> i <> j ->
               ~ connected b opp m1 m2)
         /\ (forall v, v ∈ pre -> dead_neighbour b c opp (step c v) ->
                       step c v ∈ R)
         /\ Forall2 (fun k m => group_size b opp m k) st.1.2 st.2)
    dirs (b, [], []))
    as ([[cur sizes] coords] & Hfold & R & Hdc & HR & Hcur & Hdead & Hpair
        & Hdone & Hsz).
  - exists ∅. simpl. split; [exact Hdims|]. split.
    { intros e. split; [set_solver|]. intros (m & Hm & _). inversion Hm. }
    split; [intros e; rewrite decide_False by set_solver; reflexivity|].
    split; [intros m Hm; inversion Hm|].
    split; [intros i j m1 m2 Hi; rewrite lookup_nil in Hi; discriminate|].
    split; [intros v Hv; inversion Hv|constructor].
  - intros pre a post [[cur sizes] coords] Hl
      (R & Hdc & HR & Hcur & Hdead & Hpair & Hdone & Hsz). simpl in *.
    assert (forall e, e ∈ R -> cell_at b e = Some opp) as HR_col.
    { intros e He. apply HR in He as (m & _ & Hme).
      eapply connected_end; eauto. }
    assert (forall e e', e ∈ R -> connected b opp e e' -> e' ∈ R)
      as HR_closed.
    { intros e e' He Hee'. apply HR in He as (m & Hm & Hme). apply HR.
      exists m. split; [exact Hm|]. eapply connected_trans; eauto. }
    assert (adjacent c (step c a)) as Hadj.
    { exists a. split; [rewrite Hl; set_solver|reflexivity]. }
    assert ((dead_neighbour b c opp (step c a) -> step c a ∈ R) ->
            exists s',
              Ok (cur, sizes, coords) = Ok s' /\
              exists R : gset cell,
                grid_dims (sizeX g) (sizeY g) s'.1.1
                /\ (forall e, e ∈ R <->
                              exists m, m ∈ s'.2 /\ connected b opp m e)
                /\ (forall e, cell_at s'.1.1 e =
                              if decide (e ∈ R) then Some empty
                              else cell_at b e)
                /\ (forall m, m ∈ s'.2 -> dead_neighbour b c opp m)
                /\ (forall i j m1 m2,
                      s'.2 !! i = Some m1 -> s'.2 !! j = Some m2 -> i <> j ->
                      ~ connected b opp m1 m2)
                /\ (forall v, v ∈ pre ++ [a] ->
                              dead_neighbour b c opp (step c v) ->
                              step c v ∈ R)
                /\ Forall2 (fun k m => group_size b opp m k) s'.1.2 s'.2)
      as Hkeep.
    { intros Ha. exists (cur, sizes, coords). split; [reflexivity|].
      exists R. simpl. repeat (split; [assumption|]). split; [|exact Hsz].
      intros v Hv Hd. apply elem_of_app in Hv as [Hv|Hv]; [auto|].
      apply list_elem_of_singleton in Hv as ->. auto. }
    case_decide as Hout.
    { apply Hkeep. intros (_ & Hc & _). unfold step in Hc; simpl in Hc.
      rewrite (out_of_bounds_cell _ _ _ Hdims) in Hc by exact Hout.
      discriminate. }
    pose proof (in_bounds_not_out _ _ _ _ Hout) as Hin.
    destruct (in_bounds_cell_at _ _ _ _ Hdc Hin) as [s Hs].
    rewrite (proj2 (grid_get_Ok cur _ _ _) Hs). simpl.
    case_decide as Hcol.
    + subst s. set (n := (x + a.1, y + a.2)) in *.
      assert (n ∉ R) as HnR.
      { intros HnR. rewrite Hcur, decide_True in Hs by exact HnR.
        congruence. }
      assert (cell_at b n = Some opp) as Hbn.
      { rewrite Hcur, decide_False in Hs by exact HnR. exact Hs. }
      destruct (hasLiberty_spec _ _ cur opp Hdc _ _ Hs Hopp)
        as (r & Hr & Hlib).
      rewrite Hr. simpl.
      assert (r = true <-> has_liberty b opp n) as Hlib'.
      { etransitivity; [exact Hlib|].
        apply (cleared_has_liberty b cur opp R Hopp HR_col HR_closed Hcur
                 n HnR). }
      clear Hlib. rename Hlib' into Hlib.
      destruct r; simpl.
      * apply Hkeep. intros (_ & _ & Hd). exfalso. apply Hd, Hlib.
        reflexivity.
      * destruct (getGroupSize_spec _ _ cur opp Hdc (x + a.1) (y + a.2))
          as (k & Hk & Hgs).
        rewrite Hk. simpl.
        apply (cleared_group_size b cur opp R Hopp HR_closed Hcur n k HnR)
          in Hgs.
        destruct (removeGroup_spec _ _ cur opp Hdc (x + a.1) (y + a.2))
          as (cur' & k' & S & Hrm & HS & Hdc' & Hcells).
        rewrite Hrm. simpl.
        apply (cleared_is_group b cur opp R Hopp HR_closed Hcur n S HnR)
          in HS.
        assert (dead_neighbour b c opp n) as Hdn.
        { split; [exact Hadj|]. split; [exact Hbn|].
          intros Hl'. apply Hlib in Hl'. discriminate. }
        eexists. split; [reflexivity|]. exists (R ∪ S). simpl.
        split; [exact Hdc'|]. split.
        { intros e. rewrite elem_of_union, HR, (HS e). split.
          - intros [(m & Hm & Hme)|Hne].
            + exists m. split; [apply elem_of_app; auto|exact Hme].
            + exists n. split; [apply elem_of_app; right; set_solver|].
              exact Hne.
          - intros (m & Hm & Hme). apply elem_of_app in Hm as [Hm|Hm].
            + left. eauto.
            + apply list_elem_of_singleton in Hm as ->. right. exact Hme. }
        split.
        { intros e. rewrite Hcells, Hcur.
          destruct (decide (e ∈ S)) as [HeS|HeS].
          - rewrite (decide_True (P := e ∈ R ∪ S)) by set_solver.
            reflexivity.
          - destruct (decide (e ∈ R)) as [HeR|HeR].
            + rewrite decide_True by set_solver. reflexivity.
            + rewrite decide_False by set_solver. reflexivity. }
        split.
        { intros m Hm. apply elem_of_app in Hm as [Hm|Hm]; [auto|].
          apply list_elem_of_singleton in Hm as ->. exact Hdn. }
        split.
        { intros i j m1 m2 Hi Hj Hij Hconn.
          apply lookup_snoc_Some in Hi as [[Hi1 Hi2]|[Hi1 Hi2]];
            apply lookup_snoc_Some in Hj as [[Hj1 Hj2]|[Hj1 Hj2]].
          - exact (Hpair i j m1 m2 Hi2 Hj2 Hij Hconn).
          - subst m2. apply HnR. apply HR. exists m1.
            split; [eapply list_elem_of_lookup_2; eauto|exact Hconn].
          - subst m1. apply HnR. apply HR. exists m2.
            split; [eapply list_elem_of_lookup_2; eauto|].
            apply connected_sym. exact Hconn.
          - lia. }
        split.
        { intros v Hv Hd. apply elem_of_app in Hv as [Hv|Hv].
          - apply elem_of_union. left. auto.
          - apply list_elem_of_singleton in Hv as ->.
            apply elem_of_union. right. apply HS.
            apply connected_here. exact Hbn. }
        apply Forall2_app; [exact Hsz|]. constructor; [exact Hgs|constructor].
    + apply Hkeep. intros (_ & Hc & _). unfold step in Hc; simpl in Hc.
      destruct (decide ((x + a.1, y + a.2) ∈ R)) as [HnR|HnR]; [exact HnR|].
      rewrite Hcur, decide_False in Hs by exact HnR. congruence.
  - exists cur, sizes, coords, R. simpl in *.
    split; [exact Hfold|]. repeat (split; [assumption|]).
    split; [|exact Hsz].
    intros n Hd. pose proof Hd as ((v & Hv & ->) & _). auto.
Qed.
End CaptureLoop.

(** C2. [captureStones] returns as ko point the captured stone exactly when
    the stone placed at [(x, y)] captures one group only, that group is a
    single stone, and the placed stone is a single stone on the resulting
    board; in every other case it returns [(-1, -1)]. *)
Theorem captureStones_ko_point (g : Game) (b : grid string) (x y : Z)
    (player : string) :
  grid_dims (sizeX g) (sizeY g) b ->
  cell_at b (x, y) = Some player ->
  player = black \/ player = white ->
  exists b' ko,
    captureStones g b x y player = Ok (b', ko) /\
    (forall n, ko_shape b b' (x, y) player n -> ko = n) /\
    ((~ exists n, ko_shape b b' (x, y) player n) -> ko = (-1, -1)).
Proof.
  intros Hdims Hc Hplayer.
  set (opp := switchPlayer player). set (c := (x, y)) in *.
  pose proof (opp_not_empty player) as Hopp.
  destruct (capture_loop_spec g b x y player Hdims Hplayer)
    as (cur & sizes & coords & R & Hfold & Hdc & HR & Hcur & Hdead & Hpair
        & Hall & Hsz).
  unfold captureStones. rewrite Hfold. simpl.
  assert (cell_at cur c = Some player) as Hcc.
  { rewrite Hcur. rewrite decide_False; [exact Hc|].
    intros HcR. apply HR in HcR as (m & _ & Hmc).
    apply connected_end in Hmc. rewrite Hc in Hmc.
    injection Hmc as Hmc. apply (switchPlayer_ne player). auto. }
  destruct (hasLiberty_spec _ _ cur player Hdc x y Hcc
              (colour_not_empty player Hplayer)) as (r & Hr & Hlib).
  rewrite Hr. simpl.
  assert (forall n0, n0 ∈ coords -> r = true) as Hcaptured.
  { intros n0 Hn0. apply Hlib. exists c, n0.
    split; [apply connected_here; exact Hcc|].
    destruct (Hdead n0 Hn0) as (Hadj & Hbn & _). split; [exact Hadj|].
    rewrite Hcur, decide_True; [reflexivity|].
    apply HR. exists n0. split; [exact Hn0|]. apply connected_here; auto. }
  assert (exists bfin,
            (if negb r
             then removeGroup cur x y player (sizeX g) (sizeY g)
                  ≫= (fun '(board', _) => Ok board')
             else Ok cur) = Ok bfin /\ (r = true -> bfin = cur))
    as (bfin & Hbfin & Hsame).
  { destruct r; simpl.
    - exists cur. auto.
    - destruct (removeGroup_spec _ _ cur player Hdc x y)
        as (b' & k & S & Hrm & _).
      rewrite Hrm. simpl. exists b'. split; [reflexivity|discriminate]. }
  rewrite Hbfin. simpl.
  pose proof (Forall2_length _ _ _ Hsz) as Hlen.
  assert (forall n, dead_neighbour b c opp n ->
                    exists m, m ∈ coords /\ connected b opp m n) as Hrep.
  { intros n Hn. apply HR, Hall, Hn. }
  destruct coords as [|n0 [|n1 rest]].
  - (* nothing was captured *)
    destruct sizes; [|discriminate]. simpl.
    exists bfin, (-1, -1). split; [reflexivity|]. split; [|auto].
    intros n (Hn & _). destruct (Hrep n Hn) as (m & Hm & _). inversion Hm.
  - (* one group was captured *)
    destruct sizes as [|k0 [|? ?]]; try discriminate. simpl.
    rewrite (Hsame (Hcaptured n0 ltac:(set_solver))) in *.
    destruct (getGroupSize_spec _ _ cur player Hdc x y) as (k & Hk & Hgk).
    rewrite Hk. simpl. unfold slice_get. simpl.
    apply Forall2_cons_1 in Hsz as [Hk0 _].
    assert (dead_neighbour b c opp n0) as Hd0 by (apply Hdead; set_solver).
    case_decide as Hone.
    + destruct Hone as [-> ->].
      exists cur, n0. split; [reflexivity|]. split.
      * intros n (Hn & Hothers & Hn1 & _).
        eapply group_size_one; [exact Hn1|]. apply Hothers. exact Hd0.
      * intros Hno. exfalso. apply Hno. exists n0.
        split; [exact Hd0|]. split; [|split; [exact Hk0|exact Hgk]].
        intros n' Hn'. destruct (Hrep n' Hn') as (m & Hm & Hmn').
        apply list_elem_of_singleton in Hm as ->. exact Hmn'.
    + exists cur, (-1, -1). split; [reflexivity|]. split; [|auto].
      intros n (Hn & Hothers & Hn1 & Hc1). exfalso. apply Hone. split.
      * eapply group_size_unique; [exact Hk0|].
        eapply group_size_connected; [|exact Hn1]. apply Hothers. exact Hd0.
      * eapply group_size_unique; [exact Hgk|exact Hc1].
  - (* several groups were captured *)
    destruct sizes as [|k0 [|k1 sizes]]; try discriminate. simpl.
    exists bfin, (-1, -1). split; [reflexivity|]. split; [|auto].
    intros n (Hn & Hothers & _). exfalso.
    apply (Hpair 0%nat 1%nat n0 n1); [reflexivity|reflexivity|lia|].
    eapply connected_trans.
    + apply connected_sym. apply Hothers. apply Hdead. set_solver.
    + apply Hothers. apply Hdead. set_solver.
Qed.

(** C1. [isMoveLegal] accepts a stone of [player] at a point [(x, y)] of the
    board exactly when the point is not the ko point of the current node
    and, on the copy of the board that holds the stone, a neighbouring
    group of the opponent has no liberty or the group of the stone has
    one. *)
Theorem isMoveLegal_spec (g : Game) (p0 : ptr) (cur : GameTreeNode)
    (x y : Z) (player : string) :
  currentNode g = Some p0 ->
  heap g !! p0 = Some cur ->
  grid_dims (sizeX g) (sizeY g) (boardState cur) ->
  in_bounds (sizeX g) (sizeY g) (x, y) ->
  player = black \/ player = white ->
  exists r b1,
    isMoveLegal x y player g = (Ok r, g) /\
    grid_set (boardState cur) x y player = Ok b1 /\
    (r = true <->
     ~ (x = koX cur /\ y = koY cur) /\
     ((exists n, dead_neighbour b1 (x, y) (switchPlayer player) n) \/
      has_liberty b1 player (x, y))).
Proof.
  intros Hcn Hheap Hdims Hin Hplayer.
  destruct (grid_set_Ok (boardState cur) x y player)
    as (b1 & Hset & Hcells & Hd1).
  { eapply cell_at_in_bounds; eauto. }
  specialize (Hd1 _ _ Hdims).
  assert (cell_at b1 (x, y) = Some player) as Hstone.
  { rewrite Hcells, decide_True by reflexivity. reflexivity. }
  destruct (getCapturedStones_spec g b1 x y player Hd1 Hplayer)
    as (captured & Hcap & Hdead).
  destruct (hasLiberty_spec _ _ b1 player Hd1 x y Hstone
              (colour_not_empty player Hplayer)) as (lib & Hlib & Hiff).
  unfold isMoveLegal, mbind, ST_bind, get, deref, lift, mret, ST_ret.
  rewrite Hcn, Hheap. unfold copyBoard.
  case_decide as Hko.
  { exists false, b1. split; [reflexivity|]. split; [exact Hset|].
    split; [discriminate|]. intros [Hnko _]. contradiction. }
  rewrite Hset, Hcap.
  case_decide as Hany.
  { exists true, b1. split; [reflexivity|]. split; [reflexivity|].
    split; [|reflexivity]. intros _. split; [exact Hko|]. left.
    destruct captured as [|n ?]; [simpl in Hany; lia|].
    exists n. apply Hdead. set_solver. }
  rewrite Hlib. exists lib, b1.
  split; [destruct lib; reflexivity|]. split; [reflexivity|].
  rewrite Hiff. split.
  - intros Hl. split; [exact Hko|]. right. exact Hl.
  - intros [_ [(n & Hn)|Hl]]; [|exact Hl].
    apply Hdead in Hn. destruct captured; [inversion Hn|].
    simpl in Hany. lia.
Qed.

Lemma captureStones_ko_point_example :
  exists b' ko,
    captureStones (blank_game 4 3) ko_board 2 1 black = Ok (b', ko) /\
    (forall n, ko_shape ko_board b' (2, 1) black n -> ko = n) /\
    ((~ exists n, ko_shape ko_board b' (2, 1) black n) -> ko = (-1, -1)).
Proof.
  apply (captureStones_ko_point (blank_game 4 3) ko_board 2 1 black).
  - unfold grid_dims. apply (bool_decide_unpack _). vm_compute. exact I.
  - vm_compute. reflexivity.
  - left. reflexivity.
Defined.

Lemma isMoveLegal_spec_example :
  exists r b1,
    isMoveLegal 2 1 black example_game = (Ok r, example_game) /\
    grid_set (boardState example_node) 2 1 black = Ok b1 /\
    (r = true <->
     ~ (2 = koX example_node /\ 1 = koY example_node) /\
     ((exists n, dead_neighbour b1 (2, 1) (switchPlayer black) n) \/
      has_liberty b1 black (2, 1))).
Proof.
  apply (isMoveLegal_spec example_game 4%nat example_node 2 1 black).
  - vm_compute. reflexivity.
  - vm_compute. reflexivity.
  - unfold grid_dims. apply (bool_decide_unpack _). vm_compute. exact I.
  - unfold in_bounds. apply (bool_decide_unpack _). vm_compute. exact I.
  - left. reflexivity.
Defined.

(** * Proofs: the territory scorer *)

(** ** The territory scorer: the flood fill of an empty region *)

#[local] Arguments foldM : simpl never.
#[local] Arguments while : simpl never.

Lemma marked_dec (V : grid bool) (c : cell) : {marked V c} + {~ marked V c}.
Proof. unfold marked. apply (decide (cell_at V c = Some true)). Qed.

Section Marks.
Variables sizeX sizeY : Z.

Lemma unmarked_le V :
  0 <= sizeX -> 0 <= sizeY ->
  (unmarked sizeX sizeY V <= Z.to_nat (sizeX * sizeY))%nat.
Proof.
  intros HX HY. unfold unmarked. rewrite <- length_scan_order by auto.
  apply length_filter.
Qed.

Lemma unmarked_set V V' c :
  in_bounds sizeX sizeY c -> cell_at V c = Some false ->
  (forall e, cell_at V' e = if decide (e = c) then Some true
                            else cell_at V e) ->
  (unmarked sizeX sizeY V' < unmarked sizeX sizeY V)%nat.
Proof.
  intros Hc Hf Hset. unfold unmarked.
  apply (length_filter_drop _ _ _ c).
  - intros a. rewrite Hset. case_decide; [discriminate|auto].
  - apply elem_of_scan_order; auto.
  - exact Hf.
  - rewrite Hset, decide_True by reflexivity. discriminate.
Qed.
End Marks.

Section Flood.
Variables (sizeX sizeY : Z) (b M : grid string).
Hypothesis Hb : grid_dims sizeX sizeY b.
Hypothesis HM : grid_dims sizeX sizeY M.

Local Abbreviation colour col := (col = black \/ col = white).

(** One neighbour [step c a] of the point [c] that was popped: it is
    pushed when it is empty and unmarked, and otherwise its owner in the
    map, if it is a colour, joins the adjacent colours. *)
Lemma assign_neighbour_spec (V : grid bool) (c a : cell)
    (stack : list cell) (adj : gset string) :
  grid_dims sizeX sizeY V ->
  exists stack' adj',
    assign_neighbour sizeX sizeY b M V c a (stack, adj) = Ok (stack', adj') /\
    (stack' = stack \/
     (stack' = step c a :: stack /\ cell_at b (step c a) = Some empty /\
      cell_at V (step c a) = Some false)) /\
    (cell_at b (step c a) = Some empty ->
     marked V (step c a) \/ stack' = step c a :: stack) /\
    adj ⊆ adj' /\
    (forall s col,
       cell_at b (step c a) = Some s -> s <> empty ->
       cell_at M (step c a) = Some col -> colour col -> col ∈ adj') /\
    (forall col, col ∈ adj' ->
       col ∈ adj \/ (colour col /\ cell_at M (step c a) = Some col)).
Proof.
  intros HV. unfold assign_neighbour, step.
  set (nx := c.1 + a.1). set (ny := c.2 + a.2).
  case_decide as Hin.
  - assert (in_bounds sizeX sizeY (nx, ny)) as Hn by (split; simpl; lia).
    destruct (in_bounds_cell_at _ _ _ _ HM Hn) as [o Ho].
    destruct (in_bounds_cell_at _ _ _ _ Hb Hn) as [s Hs].
    destruct (in_bounds_cell_at _ _ _ _ HV Hn) as [v Hv].
    rewrite (proj2 (grid_get_Ok M _ _ _) Ho). simpl.
    rewrite (proj2 (grid_get_Ok b _ _ _) Hs). simpl.
    destruct (decide (s = empty)) as [->|Hne].
    + rewrite (proj2 (grid_get_Ok V _ _ _) Hv). simpl.
      destruct v; simpl.
      * (* empty and marked *)
        destruct (decide (colour o)) as [Hcol|Hcol].
        -- exists stack, ({[ o ]} ∪ adj). split; [reflexivity|].
           split; [auto|]. split; [intros _; left; exact Hv|].
           split; [set_solver|]. split.
           ++ intros s col Hs'. congruence.
           ++ intros col Hc. apply elem_of_union in Hc as [Hc|Hc]; [|auto].
              apply elem_of_singleton in Hc as ->. auto.
        -- exists stack, adj. split; [reflexivity|].
           split; [auto|]. split; [intros _; left; exact Hv|].
           split; [set_solver|]. split; [|auto].
           intros s col Hs'. congruence.
      * (* empty and unmarked: pushed *)
        exists ((nx, ny) :: stack), adj. split; [reflexivity|].
        split; [right; auto|]. split; [auto|]. split; [set_solver|].
        split; [|auto]. intros s col Hs'. congruence.
    + simpl. destruct (decide (colour o)) as [Hcol|Hcol].
      * exists stack, ({[ o ]} ∪ adj). split; [reflexivity|].
        split; [auto|]. split; [intros He; congruence|].
        split; [set_solver|]. split.
        -- intros s' col Hs' _ Hcol' _.
           assert (col = o) as -> by congruence. set_solver.
        -- intros col Hc. apply elem_of_union in Hc as [Hc|Hc]; [|auto].
           apply elem_of_singleton in Hc as ->. auto.
      * exists stack, adj. split; [reflexivity|].
        split; [auto|]. split; [intros He; congruence|].
        split; [set_solver|]. split; [|auto].
        intros s' col Hs' _ Hcol' Hc. exfalso. apply Hcol.
        assert (col = o) as -> by congruence. exact Hc.
  - assert (cell_at b (nx, ny) = None) as Hnone.
    { apply (out_of_bounds_cell _ _ _ Hb). lia. }
    exists stack, adj. split; [reflexivity|]. split; [auto|].
    split; [intros He; congruence|]. split; [set_solver|].
    split; [|auto]. intros s col Hs'. congruence.
Qed.

(** The four neighbours of the point that was popped. *)
Lemma assign_neighbours_spec (V : grid bool) (c : cell)
    (stack : list cell) (adj : gset string) :
  grid_dims sizeX sizeY V ->
  exists stack' adj',
    foldM (assign_neighbour sizeX sizeY b M V c) dirs (stack, adj)
      = Ok (stack', adj') /\
    (exists pushed,
       stack' = pushed ++ stack /\ (length pushed <= 4)%nat /\
       forall n, n ∈ pushed ->
         adjacent c n /\ cell_at b n = Some empty /\
         cell_at V n = Some false) /\
    (forall n, adjacent c n -> cell_at b n = Some empty ->
               marked V n \/ n ∈ stack') /\
    adj ⊆ adj' /\
    (forall n s col,
       adjacent c n -> cell_at b n = Some s -> s <> empty ->
       cell_at M n = Some col -> colour col -> col ∈ adj') /\
    (forall col, col ∈ adj' ->
       col ∈ adj \/
       (colour col /\ exists n, adjacent c n /\ cell_at M n = Some col)).
Proof.
  intros HV.
  destruct (foldM_prefix (assign_neighbour sizeX sizeY b M V c)
    (fun pre (st : list cell * gset string) =>
       (exists pushed,
          st.1 = pushed ++ stack /\ (length pushed <= length pre)%nat /\
          forall n, n ∈ pushed ->
            adjacent c n /\ cell_at b n = Some empty /\
            cell_at V n = Some false) /\
       (forall v, v ∈ pre -> cell_at b (step c v) = Some empty ->
                  marked V (step c v) \/ step c v ∈ st.1) /\
       adj ⊆ st.2 /\
       (forall v s col,
          v ∈ pre -> cell_at b (step c v) = Some s -> s <> empty ->
          cell_at M (step c v) = Some col -> colour col -> col ∈ st.2) /\
       (forall col, col ∈ st.2 ->
          col ∈ adj \/
          (colour col /\
           exists v, v ∈ pre /\ cell_at M (step c v) = Some col)))
    dirs (stack, adj))
    as ([stack' adj'] & Hfold & (pushed & Hst & Hlen & Hpushed) & Hnb & Hsub
        & Hlow & Hup).
  - simpl. split.
    { exists []. split; [reflexivity|]. split; [simpl; lia|].
      intros n Hn. inversion Hn. }
    split; [intros v Hv; inversion Hv|]. split; [set_solver|].
    split; [intros v s col Hv; inversion Hv|auto].
  - intros pre a post [stk adj0] Hl
      ((pushed & Hst & Hlen & Hpushed) & Hnb & Hsub & Hlow & Hup).
    simpl in *. subst stk.
    assert (adjacent c (step c a)) as Hadj.
    { exists a. split; [rewrite Hl; set_solver|reflexivity]. }
    destruct (assign_neighbour_spec V c a (pushed ++ stack) adj0 HV)
      as (stk' & adj1 & Hstep & Hstk & Hnba & Hsub1 & Hlow1 & Hup1).
    exists (stk', adj1). split; [exact Hstep|]. simpl. split.
    { destruct Hstk as [->|(-> & He & Hv)].
      - exists pushed. split; [reflexivity|].
        split; [rewrite length_app; simpl; lia|exact Hpushed].
      - exists (step c a :: pushed). split; [reflexivity|].
        split; [rewrite length_app; simpl; lia|].
        intros n Hn. apply elem_of_cons in Hn as [->|Hn]; auto. }
    split.
    { intros v Hv He. apply elem_of_app in Hv as [Hv|Hv].
      - destruct (Hnb v Hv He) as [?|Hin]; [auto|]. right.
        destruct Hstk as [->|(-> & _)]; [exact Hin|set_solver].
      - apply list_elem_of_singleton in Hv as ->.
        destruct (Hnba He) as [?| ->]; [auto|right; set_solver]. }
    split; [set_solver|]. split.
    { intros v s col Hv Hs Hne Hcol Hc. apply elem_of_app in Hv as [Hv|Hv].
      - apply Hsub1. eauto.
      - apply list_elem_of_singleton in Hv as ->. eauto. }
    intros col Hcol. destruct (Hup1 col Hcol) as [Hc0|[Hc Hm]].
    + destruct (Hup col Hc0) as [?|(Hc & v & Hv & Hm)]; [auto|].
      right. split; [exact Hc|]. exists v. split; [|exact Hm].
      apply elem_of_app. auto.
    + right. split; [exact Hc|]. exists a. split; [|exact Hm].
      apply elem_of_app. right. set_solver.
  - simpl in *. exists stack', adj'. split; [exact Hfold|]. split.
    { exists pushed. split; [exact Hst|]. split; [simpl in Hlen; lia|].
      exact Hpushed. }
    split.
    { intros n (v & Hv & ->). auto. }
    split; [exact Hsub|]. split.
    { intros n s col (v & Hv & ->). eauto. }
    intros col Hcol. destruct (Hup col Hcol) as [?|(Hc & v & Hv & Hm)];
      [auto|].
    right. split; [exact Hc|]. exists (step c v). split; [|exact Hm].
    exists v. auto.
Qed.
End Flood.

Section FloodLoop.
Variables (sizeX sizeY : Z) (b M : grid string) (V0 : grid bool) (c0 : cell).
Hypothesis Hb : grid_dims sizeX sizeY b.
Hypothesis HM : grid_dims sizeX sizeY M.
Hypothesis HV0 : grid_dims sizeX sizeY V0.
Hypothesis Hc0 : cell_at b c0 = Some empty.
Hypothesis Hc0V : cell_at V0 c0 = Some false.
Hypothesis HV0_closed : forall c n,
  marked V0 c -> adjacent c n -> cell_at b n = Some empty -> marked V0 n.

Local Abbreviation inv := (flood_inv sizeX sizeY b M V0 c0).
Local Abbreviation measure := (flood_measure sizeX sizeY).

(** One round of the flood fill keeps the invariant and lowers the
    measure. *)
Lemma assign_pop_spec fl :
  inv fl -> stack_nonempty fl = true ->
  exists fl', assign_pop sizeX sizeY b M fl = Ok fl' /\ inv fl' /\
              (measure fl' < measure fl)%nat.
Proof.
  intros (HV & Hmark & Hconn & Hnew & Hclosed & Hstart & Hlow & Hup) Hne.
  destruct fl as [stack V adj region]. simpl in *.
  destruct stack as [|c stack]; [discriminate|]. clear Hne.
  unfold assign_pop. simpl.
  assert (connected b empty c0 c) as Hc by (apply Hconn; set_solver).
  assert (in_bounds sizeX sizeY c) as Hin.
  { eapply cell_at_Some_in_bounds; [exact Hb|].
    eapply connected_end; eauto. }
  destruct (in_bounds_cell_at _ _ _ _ HV Hin) as [v Hv].
  rewrite (grid_get_cell V c v Hv). simpl. destruct v.
  - (* already marked *)
    eexists. split; [reflexivity|]. split.
    + unfold flood_inv. simpl. split; [exact HV|]. split; [exact Hmark|].
      split; [intros e He; apply Hconn; set_solver|]. split; [exact Hnew|].
      split.
      { intros d n Hd Hdn Hn. destruct (Hclosed d n Hd Hdn Hn) as [?|Hs];
          [auto|].
        apply elem_of_cons in Hs as [->|Hs]; [left; exact Hv|auto]. }
      split.
      { destruct Hstart as [?|Hs]; [auto|].
        apply elem_of_cons in Hs as [->|Hs]; [|auto].
        left. apply Hmark in Hv as [Hv|?]; [|auto].
        unfold marked in Hv. congruence. }
      split; [exact Hlow|exact Hup].
    + unfold flood_measure. simpl. lia.
  - (* marked now *)
    destruct (grid_set_cell V c true) as (V2 & Hset & Hcells' & Hd2).
    { rewrite Hv; eauto. }
    rewrite Hset, bind_ret. cbv beta. specialize (Hd2 _ _ HV).
    assert (forall e, marked V2 e <-> e = c \/ marked V e) as Hmark2.
    { intros e. unfold marked. rewrite Hcells'.
      destruct (decide (e = c)) as [->|Hne]; [tauto|]. tauto. }
    destruct (assign_neighbours_spec sizeX sizeY b M Hb HM V2 c stack adj Hd2)
      as (stack' & adj' & Hfold & (pushed & Hst & Hlen & Hpushed) & Hnb
          & Hsub & Hlow' & Hup').
    rewrite Hfold, bind_ret. cbv beta iota.
    eexists. split; [reflexivity|]. split.
    + unfold flood_inv. simpl. split; [exact Hd2|]. split.
      { intros e. rewrite Hmark2, Hmark, elem_of_app, list_elem_of_singleton.
        tauto. }
      split.
      { intros e [He|He].
        - apply elem_of_app in He as [He|He]; [apply Hconn; auto|].
          apply list_elem_of_singleton in He as ->. exact Hc.
        - subst stack'. apply elem_of_app in He as [He|He].
          + destruct (Hpushed e He) as (Hadj & Hemp & _).
            eapply connected_next; eauto.
          + apply Hconn. set_solver. }
      split.
      { intros e He. apply elem_of_app in He as [He|He]; [auto|].
        apply list_elem_of_singleton in He as ->.
        intros Hm. assert (marked V c) as Hm' by (apply Hmark; auto).
        unfold marked in Hm'. congruence. }
      split.
      { intros d n Hd Hdn Hn. apply elem_of_app in Hd as [Hd|Hd].
        - destruct (Hclosed d n Hd Hdn Hn) as [Hm|Hs].
          + left. apply Hmark2. auto.
          + apply elem_of_cons in Hs as [->|Hs].
            * left. apply Hmark2. auto.
            * right. subst stack'. apply elem_of_app. auto.
        - apply list_elem_of_singleton in Hd as ->. auto. }
      split.
      { destruct Hstart as [?|Hs]; [left; apply elem_of_app; auto|].
        apply elem_of_cons in Hs as [->|Hs].
        - left. apply elem_of_app. right. set_solver.
        - right. subst stack'. apply elem_of_app. auto. }
      split.
      { intros d n s col Hd Hdn Hs Hne Hcol Hbw.
        apply elem_of_app in Hd as [Hd|Hd].
        - apply Hsub. eauto.
        - apply list_elem_of_singleton in Hd as ->. eauto. }
      intros col Hcol.
      destruct (Hup' col Hcol) as [Hc'|(Hbw & n & Hn & Hm)].
      * destruct (Hup col Hc') as (Hbw & d & n & Hd & Hdn & Hm).
        split; [exact Hbw|]. exists d, n.
        split; [apply elem_of_app; auto|auto].
      * split; [exact Hbw|]. exists c, n.
        split; [apply elem_of_app; right; set_solver|auto].
    + unfold flood_measure. simpl.
      pose proof (unmarked_set sizeX sizeY V V2 c Hin Hv Hcells') as Hlt.
      subst stack'. rewrite length_app. lia.
Qed.

(** The flood fill ends; its region is the empty region of [c0], and the
    adjacent colours it has found lie between the owners of the stones
    next to the region and the owners of all points next to it. *)
Lemma assign_flood_spec :
  exists fl,
    while (flood_fuel sizeX sizeY) stack_nonempty
      (assign_pop sizeX sizeY b M) (mkFlood [c0] V0 ∅ []) = Ok fl /\
    grid_dims sizeX sizeY (fl_visited fl) /\
    (forall c, marked (fl_visited fl) c <-> marked V0 c \/ c ∈ fl_region fl) /\
    (forall c, c ∈ fl_region fl <-> connected b empty c0 c) /\
    (forall c, c ∈ fl_region fl -> ~ marked V0 c) /\
    (forall d n s col,
       d ∈ fl_region fl -> adjacent d n -> cell_at b n = Some s ->
       s <> empty -> cell_at M n = Some col -> col = black \/ col = white ->
       col ∈ fl_adjacent fl) /\
    (forall col, col ∈ fl_adjacent fl ->
       (col = black \/ col = white) /\
       exists d n, d ∈ fl_region fl /\ adjacent d n /\
                   cell_at M n = Some col).
Proof.
  destruct (while_rule stack_nonempty (assign_pop sizeX sizeY b M)
              inv measure assign_pop_spec
              (flood_fuel sizeX sizeY) (mkFlood [c0] V0 ∅ []))
    as (fl & Hrun & (HV & Hmark & Hconn & Hnew & Hclosed & Hstart & Hlow
                     & Hup) & Hend).
  - unfold flood_inv. simpl. split; [exact HV0|].
    split; [intros c; split; [auto|intros [?|H]; [auto|inversion H]]|].
    split.
    { intros c [H|H]; [inversion H|].
      apply list_elem_of_singleton in H as ->. apply connected_here; auto. }
    split; [intros c H; inversion H|].
    split; [intros d n H; inversion H|].
    split; [right; set_solver|].
    split; [intros d n s col H; inversion H|set_solver].
  - unfold flood_measure, flood_fuel. simpl.
    destruct HV0 as (HX & HY & _).
    pose proof (unmarked_le sizeX sizeY V0 HX HY). lia.
  - assert (fl_stack fl = []) as Hstack.
    { unfold stack_nonempty in Hend. destruct (fl_stack fl);
        [reflexivity|discriminate]. }
    rewrite Hstack in *.
    exists fl. split; [exact Hrun|]. split; [exact HV|].
    split; [exact Hmark|]. split; [|split; [exact Hnew|split; auto]].
    intros c. split; [intros H; apply Hconn; auto|].
    intros Hc.
    apply (connected_closed b empty (fun d => d ∈ fl_region fl) c0 c);
      [| |exact Hc].
    + destruct Hstart as [?|H]; [auto|inversion H].
    + intros u v Hu Huv Hv.
      destruct (Hclosed u v Hu Huv Hv) as [Hm|H]; [|inversion H].
      apply Hmark in Hm as [Hm|?]; [|auto].
      exfalso. apply (Hnew u Hu).
      apply (HV0_closed v u Hm); [apply adjacent_sym; exact Huv|].
      eapply connected_end. apply Hconn. auto.
Qed.
End FloodLoop.

(** ** The owner of an empty region *)

Section Owner.
Variables (b tm : grid string).

Lemma borders_connected c c' col :
  connected b empty c c' -> borders b tm c col <-> borders b tm c' col.
Proof.
  intros Hcc'. unfold borders. split;
    intros (Hcol & d & n & s & Hd & Hdn & Hs & Hne & Hn);
    (split; [exact Hcol|]); exists d, n, s;
    (split; [|auto]).
  - eapply connected_trans; [apply connected_sym; exact Hcc'|exact Hd].
  - eapply connected_trans; eauto.
Qed.

Lemma region_owner_spec_connected c c' o :
  connected b empty c c' ->
  region_owner_spec b tm c o <-> region_owner_spec b tm c' o.
Proof.
  intros Hcc'. unfold region_owner_spec.
  assert (forall col, borders b tm c col <-> borders b tm c' col) as Hb.
  { intros col. apply borders_connected. exact Hcc'. }
  split; intros [[Ho Huniq]|[Ho Hnone]].
  - left. split; [apply Hb; exact Ho|]. intros col Hcol. apply Huniq, Hb, Hcol.
  - right. split; [exact Ho|]. intros (col & Hcol & Huniq). apply Hnone.
    exists col. split; [apply Hb; exact Hcol|].
    intros col' Hcol'. apply Huniq, Hb, Hcol'.
  - left. split; [apply Hb; exact Ho|]. intros col Hcol. apply Huniq, Hb, Hcol.
  - right. split; [exact Ho|]. intros (col & Hcol & Huniq). apply Hnone.
    exists col. split; [apply Hb; exact Hcol|].
    intros col' Hcol'. apply Huniq, Hb, Hcol'.
Qed.

(** A region has one owner. *)
Lemma region_owner_spec_unique c o1 o2 :
  region_owner_spec b tm c o1 -> region_owner_spec b tm c o2 -> o1 = o2.
Proof.
  intros [[H1 U1]|[-> N1]] [[H2 U2]|[-> N2]].
  - apply U2. exact H1.
  - exfalso. apply N2. exists o1. auto.
  - exfalso. apply N1. exists o2. auto.
  - reflexivity.
Qed.

(** [region_owner] gives the owner of the region when the adjacent
    colours are the colours that border it. *)
Lemma region_owner_correct c (adj : gset string) :
  (forall col, col ∈ adj <-> borders b tm c col) ->
  region_owner_spec b tm c (region_owner adj).
Proof.
  intros Hadj. unfold region_owner.
  destruct (elements adj) as [|o [|o' rest]] eqn:Hel.
  - right. split; [reflexivity|]. intros (col & Hcol & _).
    apply Hadj, elem_of_elements in Hcol. rewrite Hel in Hcol.
    inversion Hcol.
  - left. split.
    + apply Hadj, elem_of_elements. rewrite Hel. set_solver.
    + intros col Hcol. apply Hadj, elem_of_elements in Hcol.
      rewrite Hel in Hcol. apply list_elem_of_singleton in Hcol. exact Hcol.
  - right. split; [reflexivity|]. intros (col & Hcol & Huniq).
    assert (adj = {[ col ]}) as Heq.
    { apply set_eq. intros x. rewrite elem_of_singleton, Hadj. split.
      - apply Huniq.
      - intros ->. exact Hcol. }
    rewrite Heq, elements_singleton in Hel. discriminate.
Qed.
End Owner.

(** The colours that border a region depend on the owners of stones
    only. *)
Lemma borders_ext b tm tm' c col :
  (forall n s, cell_at b n = Some s -> s <> empty ->
               cell_at tm n = cell_at tm' n) ->
  borders b tm c col -> borders b tm' c col.
Proof.
  intros Hext (Hcol & d & n & s & Hd & Hdn & Hs & Hne & Hn).
  split; [exact Hcol|]. exists d, n, s. repeat (split; [assumption|]).
  rewrite <- (Hext n s Hs Hne). exact Hn.
Qed.

Lemma region_owner_spec_ext b tm tm' c o :
  (forall n s, cell_at b n = Some s -> s <> empty ->
               cell_at tm n = cell_at tm' n) ->
  region_owner_spec b tm c o -> region_owner_spec b tm' c o.
Proof.
  intros Hext.
  assert (forall col, borders b tm c col <-> borders b tm' c col) as Hb.
  { intros col. split; apply borders_ext; [exact Hext|].
    intros n s Hs Hne. symmetry. eauto. }
  intros [[Ho Huniq]|[Ho Hnone]].
  - left. split; [apply Hb; exact Ho|]. intros col Hcol. apply Huniq, Hb, Hcol.
  - right. split; [exact Ho|]. intros (col & Hcol & Huniq). apply Hnone.
    exists col. split; [apply Hb; exact Hcol|].
    intros col' Hcol'. apply Huniq, Hb, Hcol'.
Qed.

Lemma undecided_no_colour : ~ (undecided = black \/ undecided = white).
Proof. intros [H|H]; discriminate. Qed.

(** Writing the owner into the points of a region. *)
Lemma write_region sizeX sizeY (o : string) (region : list cell) :
  forall M,
    grid_dims sizeX sizeY M ->
    (forall c, c ∈ region -> in_bounds sizeX sizeY c) ->
    exists M',
      foldM (fun pos tm => grid_set tm pos.1 pos.2 o) region M = Ok M' /\
      grid_dims sizeX sizeY M' /\
      forall c, cell_at M' c = if decide (c ∈ region) then Some o
                               else cell_at M c.
Proof.
  induction region as [|p region IH]; intros M HM Hin.
  - exists M. split; [reflexivity|]. split; [exact HM|].
    intros c. rewrite decide_False by set_solver. reflexivity.
  - destruct (grid_set_cell M p o) as (M1 & Hset & Hcells & Hd).
    { eapply cell_at_in_bounds; [exact HM|]. apply Hin. set_solver. }
    specialize (Hd _ _ HM).
    destruct (IH M1 Hd) as (M' & Hfold & Hd' & Hcells');
      [intros c Hc; apply Hin; set_solver|].
    exists M'. split.
    { unfold foldM; fold (@foldM (grid string) cell).
      rewrite Hset, bind_ret. exact Hfold. }
    split; [exact Hd'|].
    intros c. rewrite Hcells', Hcells.
    destruct (decide (c ∈ region)) as [Hc|Hc].
    + rewrite decide_True by set_solver. reflexivity.
    + destruct (decide (c = p)) as [->|Hne].
      * rewrite decide_True by set_solver. reflexivity.
      * rewrite decide_False by set_solver. reflexivity.
Qed.

(** ** The two nested loops *)

Section Scan.
Variables (sizeX sizeY : Z) (b tm : grid string).
Hypothesis Hb : grid_dims sizeX sizeY b.
Hypothesis Htm : open_or_settled b tm.

(** The colours that a flood fill collects are those that border the
    region. *)
Lemma flood_adjacent_borders (V : grid bool) (M : grid string) (c0 : cell)
    (region : list cell) (adj : gset string) :
  grid_dims sizeX sizeY M ->
  (forall c, marked V c -> cell_at b c = Some empty) ->
  (forall c, ~ marked V c -> cell_at M c = cell_at tm c) ->
  (forall c, c ∈ region <-> connected b empty c0 c) ->
  (forall c, c ∈ region -> ~ marked V c) ->
  (forall d n s col, d ∈ region -> adjacent d n -> cell_at b n = Some s ->
     s <> empty -> cell_at M n = Some col -> col = black \/ col = white ->
     col ∈ adj) ->
  (forall col, col ∈ adj -> (col = black \/ col = white) /\
     exists d n, d ∈ region /\ adjacent d n /\ cell_at M n = Some col) ->
  forall col, col ∈ adj <-> borders b tm c0 col.
Proof.
  intros HM Hemp Hsame Hreg Hfresh Hlow Hup col. split.
  - intros Hcol. destruct (Hup col Hcol) as (Hbw & d & n & Hd & Hdn & Hn).
    assert (in_bounds sizeX sizeY n) as Hin
      by (eapply cell_at_Some_in_bounds; [exact HM|exact Hn]).
    destruct (in_bounds_cell_at _ _ b n Hb Hin) as (s & Hs).
    apply Hreg in Hd.
    destruct (decide (s = empty)) as [->|Hne].
    + assert (connected b empty c0 n) as Hc0n
        by (eapply connected_next; eauto).
      assert (cell_at tm n = Some col) as Htmn.
      { rewrite <- Hsame; [exact Hn|]. apply Hfresh, Hreg, Hc0n. }
      destruct (Htm n Hs) as [Hund|(o & Ho & Hspec)].
      * rewrite Hund in Htmn. injection Htmn as <-.
        exfalso. exact (undecided_no_colour Hbw).
      * rewrite Ho in Htmn. injection Htmn as ->.
        destruct Hspec as [[Hbord _]|[-> _]];
          [|exfalso; exact (undecided_no_colour Hbw)].
        apply (borders_connected b tm c0 n col Hc0n). exact Hbord.
    + split; [exact Hbw|]. exists d, n, s.
      repeat (split; [assumption|]).
      rewrite <- Hsame; [exact Hn|].
      intros Hm. apply Hemp in Hm. congruence.
  - intros (Hbw & d & n & s & Hd & Hdn & Hs & Hne & Hn).
    apply (Hlow d n s col); try assumption.
    + apply Hreg, Hd.
    + rewrite Hsame; [exact Hn|].
      intros Hm. apply Hemp in Hm. congruence.
Qed.

(** The body of the loops at one point keeps the invariant. *)
Lemma assign_at_spec (pre : list cell) (c0 : cell)
    (st : grid bool * grid string) :
  in_bounds sizeX sizeY c0 ->
  scan_inv sizeX sizeY b tm pre st ->
  exists st', assign_at sizeX sizeY b c0 st = Ok st' /\
              scan_inv sizeX sizeY b tm (pre ++ [c0]) st'.
Proof.
  intros Hin. destruct st as [V M]. unfold scan_inv. simpl.
  intros (HV & HM & Hemp & Hclosed & Hpre & Hsame & Hown).
  destruct (in_bounds_cell_at _ _ b c0 Hb Hin) as (s & Hs).
  destruct (in_bounds_cell_at _ _ V c0 HV Hin) as (v & Hv).
  unfold assign_at.
  rewrite (grid_get_cell _ _ _ Hs), bind_ret.
  assert (forall st' : grid bool * grid string,
    st' = (V, M) -> (cell_at b c0 = Some empty -> marked V c0) ->
    grid_dims sizeX sizeY st'.1 /\ grid_dims sizeX sizeY st'.2 /\
    (forall c, marked st'.1 c -> cell_at b c = Some empty) /\
    (forall c n, marked st'.1 c -> adjacent c n ->
       cell_at b n = Some empty -> marked st'.1 n) /\
    (forall c, c ∈ pre ++ [c0] -> cell_at b c = Some empty ->
       marked st'.1 c) /\
    (forall c, ~ marked st'.1 c -> cell_at st'.2 c = cell_at tm c) /\
    (forall c, marked st'.1 c ->
       exists o, cell_at st'.2 c = Some o /\ region_owner_spec b tm c o))
    as Hskip.
  { intros st' -> Hc0. simpl. repeat (split; [assumption|]).
    split; [|split; assumption].
    intros c Hc Hce. apply elem_of_app in Hc as [Hc|Hc]; [auto|].
    apply list_elem_of_singleton in Hc as ->. auto. }
  destruct (decide (s = empty)) as [->|Hne].
  2:{ rewrite bind_ret. exists (V, M). split; [reflexivity|].
      apply Hskip; [reflexivity|]. intros Hs'. congruence. }
  rewrite (grid_get_cell _ _ _ Hv), !bind_ret.
  destruct v; simpl negb; cbv iota.
  { exists (V, M). split; [reflexivity|].
    apply Hskip; [reflexivity|]. intros _. exact Hv. }
  clear Hskip.
  destruct (assign_flood_spec sizeX sizeY b M V c0 Hb HM HV Hs Hv Hclosed)
    as (fl & Hwhile & HV' & Hmarked & Hreg & Hfresh & Hlow & Hup).
  rewrite Hwhile, bind_ret.
  pose proof (flood_adjacent_borders V M c0 (fl_region fl) (fl_adjacent fl)
                HM Hemp Hsame Hreg Hfresh Hlow Hup) as Hadj.
  pose proof (region_owner_correct b tm c0 (fl_adjacent fl) Hadj) as Howner.
  destruct (write_region sizeX sizeY (region_owner (fl_adjacent fl))
              (fl_region fl) M HM) as (M' & Hfold & HM' & Hcells).
  { intros c Hc. apply Hreg in Hc. apply connected_end in Hc.
    eapply cell_at_Some_in_bounds; [exact Hb|exact Hc]. }
  rewrite Hfold, bind_ret.
  exists (fl_visited fl, M'). split; [reflexivity|]. simpl.
  split; [exact HV'|]. split; [exact HM'|].
  split; [|split; [|split; [|split]]].
  - intros c Hc. apply Hmarked in Hc as [Hc|Hc]; [auto|].
    apply Hreg in Hc. eapply connected_end; exact Hc.
  - intros c n Hc Hcn Hn. apply Hmarked.
    apply Hmarked in Hc as [Hc|Hc].
    + left. eapply Hclosed; eauto.
    + right. apply Hreg. apply Hreg in Hc. eapply connected_next; eauto.
  - intros c Hc Hce. apply Hmarked.
    apply elem_of_app in Hc as [Hc|Hc]; [left; auto|].
    apply list_elem_of_singleton in Hc as ->.
    right. apply Hreg. apply connected_here. exact Hs.
  - intros c Hc. rewrite Hcells.
    destruct (decide (c ∈ fl_region fl)) as [Hr|Hr].
    + exfalso. apply Hc, Hmarked. right. exact Hr.
    + apply Hsame. intros Hm. apply Hc, Hmarked. left. exact Hm.
  - intros c Hc. rewrite Hcells.
    destruct (decide (c ∈ fl_region fl)) as [Hr|Hr].
    + exists (region_owner (fl_adjacent fl)). split; [reflexivity|].
      apply Hreg in Hr.
      apply (region_owner_spec_connected b tm c0 c _ Hr). exact Howner.
    + apply Hmarked in Hc as [Hc|Hc]; [|contradiction].
      apply Hown. exact Hc.
Qed.

(** [assignTerritoryToEmptyRegions] on a map whose empty points are
    undecided or settled: the map that results differs at empty points
    only, and each of them carries the owner of its region. *)
Lemma assign_spec :
  grid_dims sizeX sizeY tm ->
  exists tm',
    assign_territory sizeX sizeY b tm = Ok tm' /\
    grid_dims sizeX sizeY tm' /\
    (forall c s, cell_at b c = Some s -> s <> empty ->
                 cell_at tm' c = cell_at tm c) /\
    (forall c, cell_at b c = Some empty ->
       exists o, cell_at tm' c = Some o /\ region_owner_spec b tm c o).
Proof.
  intros Hdtm. unfold assign_territory.
  destruct Hb as (HX & HY & _).
  destruct (make_grid_Ok sizeX sizeY false HX HY) as (V0 & Hmk & HV0 & Hfalse).
  rewrite Hmk, bind_ret.
  destruct (foldM_prefix (assign_at sizeX sizeY b)
              (scan_inv sizeX sizeY b tm) (scan_order sizeX sizeY) (V0, tm))
    as ([V M] & Hfold & Hinv).
  - unfold scan_inv, marked. simpl.
    assert (forall c, cell_at V0 c <> Some true) as Hnone.
    { intros c Hc.
      assert (in_bounds sizeX sizeY c) as Hin
        by (eapply cell_at_Some_in_bounds; [exact HV0|exact Hc]).
      rewrite (Hfalse c Hin) in Hc. discriminate. }
    split; [exact HV0|]. split; [exact Hdtm|].
    split; [intros c Hc; destruct (Hnone c Hc)|].
    split; [intros c n Hc; destruct (Hnone c Hc)|].
    split; [intros c Hc; inversion Hc|].
    split; [reflexivity|]. intros c Hc. destruct (Hnone c Hc).
  - intros pre a post st Hl Hinv. apply assign_at_spec; [|exact Hinv].
    apply elem_of_scan_order. rewrite Hl. set_solver.
  - rewrite Hfold, bind_ret. exists M. split; [reflexivity|].
    destruct Hinv as (HV & HM & Hemp & Hclosed & Hpre & Hsame & Hown).
    simpl in *. split; [exact HM|]. split.
    + intros c s Hs Hne. apply Hsame. intros Hm. apply Hemp in Hm. congruence.
    + intros c Hc. apply Hown, Hpre; [|exact Hc].
      apply elem_of_scan_order.
      eapply cell_at_Some_in_bounds; [exact Hb|exact Hc].
Qed.
End Scan.

(** ** The flood fill of a toggle *)

Section Toggle.
Variables (sizeX sizeY : Z) (b tm0 : grid string) (orig new : string).
Variables (x y : Z).
Hypothesis Hb : grid_dims sizeX sizeY b.
Hypothesis Htm0 : grid_dims sizeX sizeY tm0.
Hypothesis Hc0 : cell_at b (x, y) = Some orig.

Local Abbreviation walked :=
  (fun c : cell => cell_at b c = Some orig \/ cell_at b c = Some empty).
Local Abbreviation tinv := (toggle_inv sizeX sizeY b tm0 orig new (x, y)).
Local Abbreviation tmeasure := (toggle_measure sizeX sizeY).

Lemma flood_connected_next c d e :
  flood_connected b orig c d -> adjacent d e -> walked e ->
  flood_connected b orig c e.
Proof. intros Hcd Hde He. eapply reach_step; eauto. Qed.

Lemma flood_connected_end c d : flood_connected b orig c d -> walked d.
Proof. intros H. exact (reach_end walked c d H). Qed.

(** One neighbour of the point that was popped is pushed when it is a
    stone of the colour or empty, and was not visited. *)
Lemma toggle_neighbour_spec (V : gset cell) (c a : cell)
    (stack : list cell) :
  exists stack',
    toggle_neighbour sizeX sizeY b orig V c a stack = Ok stack' /\
    (stack' = stack \/
     (stack' = step c a :: stack /\ (step c a ∉ V) /\ walked (step c a))) /\
    (walked (step c a) -> step c a ∈ V \/ stack' = step c a :: stack).
Proof.
  unfold toggle_neighbour, step.
  set (nx := c.1 + a.1). set (ny := c.2 + a.2).
  case_decide as Hin.
  - assert (in_bounds sizeX sizeY (nx, ny)) as Hn by (split; simpl; lia).
    destruct (in_bounds_cell_at _ _ _ _ Hb Hn) as [s Hs].
    rewrite (proj2 (grid_get_Ok b _ _ _) Hs), bind_ret.
    case_decide as Hpush.
    + exists ((nx, ny) :: stack). split; [reflexivity|].
      split; [|auto]. right. split; [reflexivity|].
      destruct Hpush as [Hv [-> | ->]]; auto.
    + exists stack. split; [reflexivity|]. split; [auto|].
      intros Hw. left. destruct (decide ((nx, ny) ∈ V)) as [?|Hv]; [auto|].
      exfalso. apply Hpush. split; [exact Hv|].
      destruct Hw as [Hw|Hw]; rewrite Hs in Hw; injection Hw; auto.
  - assert (cell_at b (nx, ny) = None) as Hnone.
    { apply (out_of_bounds_cell _ _ _ Hb). lia. }
    exists stack. split; [reflexivity|]. split; [auto|].
    intros [Hw|Hw]; congruence.
Qed.

Lemma toggle_neighbours_spec (V : gset cell) (c : cell) (stack : list cell) :
  exists stack',
    foldM (toggle_neighbour sizeX sizeY b orig V c) dirs stack = Ok stack' /\
    (exists pushed,
       stack' = pushed ++ stack /\ (length pushed <= 4)%nat /\
       forall n, n ∈ pushed -> adjacent c n /\ (n ∉ V) /\ walked n) /\
    (forall n, adjacent c n -> walked n -> n ∈ V \/ n ∈ stack').
Proof.
  destruct (foldM_prefix (toggle_neighbour sizeX sizeY b orig V c)
    (fun pre (stk : list cell) =>
       (exists pushed,
          stk = pushed ++ stack /\ (length pushed <= length pre)%nat /\
          forall n, n ∈ pushed -> adjacent c n /\ (n ∉ V) /\ walked n) /\
       (forall v, v ∈ pre -> walked (step c v) ->
                  step c v ∈ V \/ step c v ∈ stk))
    dirs stack) as (stack' & Hfold & (pushed & Hst & Hlen & Hpushed) & Hnb).
  - split.
    { exists []. split; [reflexivity|]. split; [simpl; lia|].
      intros n Hn. inversion Hn. }
    intros v Hv. inversion Hv.
  - intros pre a post stk Hl ((pushed & -> & Hlen & Hpushed) & Hnb).
    assert (adjacent c (step c a)) as Hadj.
    { exists a. split; [rewrite Hl; set_solver|reflexivity]. }
    destruct (toggle_neighbour_spec V c a (pushed ++ stack))
      as (stk' & Hstep & Hstk & Hnba).
    exists stk'. split; [exact Hstep|]. split.
    { destruct Hstk as [->|(-> & Hv & Hw)].
      - exists pushed. split; [reflexivity|].
        split; [rewrite length_app; simpl; lia|exact Hpushed].
      - exists (step c a :: pushed). split; [reflexivity|].
        split; [rewrite length_app; simpl; lia|].
        intros n Hn. apply elem_of_cons in Hn as [->|Hn]; auto. }
    intros v Hv Hw. apply elem_of_app in Hv as [Hv|Hv].
    + destruct (Hnb v Hv Hw) as [?|Hin]; [auto|]. right.
      destruct Hstk as [->|(-> & _)]; [exact Hin|set_solver].
    + apply list_elem_of_singleton in Hv as ->.
      destruct (Hnba Hw) as [?| ->]; [auto|right; set_solver].
  - exists stack'. split; [exact Hfold|]. split.
    { exists pushed. split; [exact Hst|]. split; [simpl in Hlen; lia|].
      exact Hpushed. }
    intros n (v & Hv & ->). auto.
Qed.

(** One round of the flood fill keeps the invariant and lowers the
    measure. *)
Lemma toggle_pop_spec st :
  tinv st -> toggle_nonempty st = true ->
  exists st', toggle_pop sizeX sizeY b orig new st = Ok st' /\ tinv st' /\
              (tmeasure st' < tmeasure st)%nat.
Proof.
  destruct st as [[stack V] M]. unfold toggle_inv, toggle_nonempty. simpl.
  intros (HM & Hconn & Hclosed & Hstart & Hcells) Hne.
  destruct stack as [|c stack]; [discriminate|]. clear Hne.
  assert (flood_connected b orig (x, y) c) as Hc by (apply Hconn; set_solver).
  pose proof (flood_connected_end _ _ Hc) as Hwc.
  assert (in_bounds sizeX sizeY c) as Hin.
  { destruct Hwc as [Hw|Hw];
      (eapply cell_at_Some_in_bounds; [exact Hb|exact Hw]). }
  unfold toggle_pop.
  destruct (decide (c ∈ V)) as [HcV|HcV].
  - eexists. split; [reflexivity|]. split.
    + unfold toggle_inv. simpl. split; [exact HM|].
      split; [intros e He; apply Hconn; set_solver|]. split.
      { intros d n Hd Hdn Hn. destruct (Hclosed d n Hd Hdn Hn) as [?|Hs];
          [auto|].
        apply elem_of_cons in Hs as [->|Hs]; auto. }
      split; [|exact Hcells].
      destruct Hstart as [?|Hs]; [auto|].
      apply elem_of_cons in Hs as [->|Hs]; auto.
    + unfold toggle_measure. simpl. lia.
  - destruct (in_bounds_cell_at _ _ _ _ Hb Hin) as [s Hs].
    rewrite (grid_get_cell b c s Hs), bind_ret.
    assert (exists M',
      (if decide (s = orig) then grid_set M c.1 c.2 new else Ok M) = Ok M' /\
      grid_dims sizeX sizeY M' /\
      forall e, cell_at M' e =
                if decide (e ∈ {[ c ]} ∪ V /\ cell_at b e = Some orig)
                then Some new else cell_at tm0 e) as (M' & HM'eq & HM' & Hcells').
    { destruct (decide (s = orig)) as [->|Hso].
      - destruct (grid_set_cell M c new) as (M' & Hset & Hce & Hd).
        { eapply cell_at_in_bounds; [exact HM|exact Hin]. }
        exists M'. split; [exact Hset|]. split; [eapply Hd; exact HM|].
        intros e. rewrite Hce, Hcells.
        destruct (decide (e = c)) as [->|Hec].
        + rewrite decide_True; [reflexivity|]. split; [set_solver|exact Hs].
        + destruct (decide (e ∈ V /\ cell_at b e = Some orig)) as [[? ?]|Hn].
          * rewrite decide_True; [reflexivity|]. split; [set_solver|auto].
          * rewrite decide_False; [reflexivity|].
            intros [He Hbe]. apply Hn. split; [set_solver|exact Hbe].
      - exists M. split; [reflexivity|]. split; [exact HM|].
        intros e. rewrite Hcells.
        destruct (decide (e ∈ V /\ cell_at b e = Some orig)) as [[? ?]|Hn].
        + rewrite decide_True; [reflexivity|]. split; [set_solver|auto].
        + rewrite decide_False; [reflexivity|].
          intros [He Hbe]. apply Hn. split; [|exact Hbe].
          apply elem_of_union in He as [He|He]; [|exact He].
          apply elem_of_singleton in He as ->. congruence. }
    rewrite HM'eq, bind_ret.
    destruct (toggle_neighbours_spec ({[ c ]} ∪ V) c stack)
      as (stack' & Hfold & (pushed & Hst & Hlen & Hpushed) & Hnb).
    rewrite Hfold, bind_ret.
    eexists. split; [reflexivity|]. split.
    + unfold toggle_inv. simpl. split; [exact HM'|]. split.
      { intros e [He|He].
        - apply elem_of_union in He as [He|He]; [|apply Hconn; auto].
          apply elem_of_singleton in He as ->. exact Hc.
        - subst stack'. apply elem_of_app in He as [He|He].
          + destruct (Hpushed e He) as (Hadj & _ & Hw).
            eapply flood_connected_next; eauto.
          + apply Hconn. set_solver. }
      split.
      { intros d n Hd Hdn Hn. apply elem_of_union in Hd as [Hd|Hd].
        - apply elem_of_singleton in Hd as ->. auto.
        - destruct (Hclosed d n Hd Hdn Hn) as [Hm|Hk]; [left; set_solver|].
          apply elem_of_cons in Hk as [->|Hk]; [left; set_solver|].
          right. subst stack'. apply elem_of_app. auto. }
      split; [|exact Hcells'].
      destruct Hstart as [?|Hk]; [left; set_solver|].
      apply elem_of_cons in Hk as [->|Hk]; [left; set_solver|].
      right. subst stack'. apply elem_of_app. auto.
    + unfold toggle_measure. simpl.
      pose proof (unvisited_insert sizeX sizeY V c Hin HcV) as Hlt.
      subst stack'. rewrite length_app. lia.
Qed.

(** The flood fill ends, and has given the stones of the colour that it
    reaches from [(x, y)] to [new]. *)
Lemma toggle_flood_spec :
  exists V M,
    while (flood_fuel sizeX sizeY) toggle_nonempty
      (toggle_pop sizeX sizeY b orig new) ([(x, y)], ∅, tm0) = Ok ([], V, M) /\
    grid_dims sizeX sizeY M /\
    (forall c, c ∈ V <-> flood_connected b orig (x, y) c) /\
    (forall c, flood_connected b orig (x, y) c -> cell_at b c = Some orig ->
               cell_at M c = Some new) /\
    (forall c, ~ (flood_connected b orig (x, y) c /\ cell_at b c = Some orig) ->
               cell_at M c = cell_at tm0 c).
Proof.
  destruct (while_rule toggle_nonempty (toggle_pop sizeX sizeY b orig new)
              tinv tmeasure toggle_pop_spec
              (flood_fuel sizeX sizeY) ([(x, y)], ∅, tm0))
    as ([[stack V] M] & Hrun & (HM & Hconn & Hclosed & Hstart & Hcells)
        & Hend).
  - unfold toggle_inv. simpl. split; [exact Htm0|]. split.
    { intros c [H|H]; [set_solver|].
      apply list_elem_of_singleton in H as ->. apply reach_here. auto. }
    split; [intros d n H; set_solver|]. split; [right; set_solver|].
    intros c. rewrite decide_False; [reflexivity|]. intros [H _]. set_solver.
  - unfold toggle_measure, flood_fuel. simpl.
    destruct Hb as (HX & HY & _).
    rewrite (unvisited_empty sizeX sizeY HX HY). lia.
  - simpl in *. unfold toggle_nonempty in Hend. simpl in Hend.
    destruct stack; [|discriminate].
    exists V, M. split; [exact Hrun|]. split; [exact HM|].
    assert (forall c, flood_connected b orig (x, y) c -> c ∈ V) as Hall.
    { intros c Hc.
      apply (reach_closed walked (fun d => d ∈ V) (x, y) c); [| |exact Hc].
      - destruct Hstart as [?|H]; [auto|inversion H].
      - intros u v Hu Huv Hv.
        destruct (Hclosed u v Hu Huv Hv) as [?|H]; [auto|inversion H]. }
    split; [intros c; split; [intros Hc; apply Hconn; auto|apply Hall]|].
    split.
    + intros c Hc Hs. rewrite Hcells, decide_True; auto.
    + intros c Hc. rewrite Hcells, decide_False; [reflexivity|].
      intros [HcV Hs]. apply Hc. split; [|exact Hs]. apply Hconn. auto.
Qed.
End Toggle.

(** [toggleGroupStatus] before its call of
    [assignTerritoryToEmptyRegions]: the stones of the group belong to
    the other colour, the empty points are undecided, and the other
    stones are as they were. *)
Lemma toggle_flip_spec (sizeX sizeY : Z) (b tm : grid string)
    (orig owner : string) (x y : Z) :
  grid_dims sizeX sizeY b -> grid_dims sizeX sizeY tm ->
  cell_at b (x, y) = Some orig -> cell_at tm (x, y) = Some owner ->
  exists tm1 (V : gset cell),
    toggle_flip sizeX sizeY b tm x y orig = Ok tm1 /\
    grid_dims sizeX sizeY tm1 /\
    (forall c, c ∈ V <-> flood_connected b orig (x, y) c) /\
    (forall c, cell_at b c = Some empty -> cell_at tm1 c = Some undecided) /\
    (forall c, flood_connected b orig (x, y) c -> cell_at b c = Some orig ->
               orig <> empty -> cell_at tm1 c = Some (switchPlayer owner)) /\
    (forall c s, cell_at b c = Some s -> s <> empty ->
       ~ (flood_connected b orig (x, y) c /\ s = orig) ->
       cell_at tm1 c = cell_at tm c).
Proof.
  intros Hb Htm Hc0 Hown. unfold toggle_flip.
  rewrite (proj2 (grid_get_Ok tm _ _ _) Hown), bind_ret.
  destruct (toggle_flood_spec sizeX sizeY b tm orig (switchPlayer owner) x y
              Hb Htm Hc0) as (V & M & Hwhile & HM & HV & Hflip & Hkeep).
  rewrite Hwhile, bind_ret. cbv beta iota.
  destruct (foldM_prefix
    (fun (c : cell) (t : grid string) =>
       s ← grid_get b c.1 c.2;
       if decide (s = empty) then grid_set t c.1 c.2 undecided else Ok t)
    (fun pre t =>
       grid_dims sizeX sizeY t /\
       forall c, cell_at t c =
                 if decide (c ∈ pre /\ cell_at b c = Some empty)
                 then Some undecided else cell_at M c)
    (scan_order sizeX sizeY) M) as (tm1 & Hfold & Hd1 & Hcells).
  - split; [exact HM|]. intros c. rewrite decide_False; [reflexivity|].
    intros [H _]. inversion H.
  - intros pre a post t Hl [Ht Hce].
    assert (in_bounds sizeX sizeY a) as Hin.
    { apply elem_of_scan_order. rewrite Hl. set_solver. }
    destruct (in_bounds_cell_at _ _ _ _ Hb Hin) as [s Hs].
    rewrite (grid_get_cell b a s Hs), bind_ret.
    destruct (decide (s = empty)) as [->|Hne].
    + destruct (grid_set_cell t a undecided) as (t' & Hset & Hce' & Hd').
      { eapply cell_at_in_bounds; [exact Ht|exact Hin]. }
      exists t'. split; [exact Hset|]. split; [eapply Hd'; exact Ht|].
      intros c. rewrite Hce', Hce.
      destruct (decide (c = a)) as [->|Hca].
      * rewrite decide_True; [reflexivity|]. split; [set_solver|exact Hs].
      * destruct (decide (c ∈ pre /\ cell_at b c = Some empty)) as [[? ?]|Hn].
        -- rewrite decide_True; [reflexivity|]. split; [set_solver|auto].
        -- rewrite decide_False; [reflexivity|].
           intros [Hc Hbc]. apply Hn. split; [set_solver|exact Hbc].
    + exists t. split; [reflexivity|]. split; [exact Ht|].
      intros c. rewrite Hce.
      destruct (decide (c ∈ pre /\ cell_at b c = Some empty)) as [[? ?]|Hn].
      * rewrite decide_True; [reflexivity|]. split; [set_solver|auto].
      * rewrite decide_False; [reflexivity|].
        intros [Hc Hbc]. apply Hn. split; [|exact Hbc].
        apply elem_of_app in Hc as [Hc|Hc]; [exact Hc|].
        apply list_elem_of_singleton in Hc as ->. congruence.
  - exists tm1, V. split; [exact Hfold|]. split; [exact Hd1|].
    split; [exact HV|]. split.
    { intros c Hc. rewrite Hcells, decide_True; [reflexivity|].
      split; [|exact Hc]. apply elem_of_scan_order.
      eapply cell_at_Some_in_bounds; [exact Hb|exact Hc]. }
    split.
    + intros c Hc Hs Hne. rewrite Hcells, decide_False.
      * apply Hflip; assumption.
      * intros [_ He]. congruence.
    + intros c s Hs Hne Hout. rewrite Hcells, decide_False.
      * apply Hkeep. intros [Hc Hs']. apply Hout. split; [exact Hc|].
        congruence.
      * intros [_ He]. congruence.
Qed.

(** The map that [initializeTerritoryMap] builds gives each stone of the
    two colours to its colour and leaves the other points undecided. *)
Lemma territory_of_board_spec (sizeX sizeY : Z) (b : grid string) :
  grid_dims sizeX sizeY b ->
  exists tm,
    territory_of_board sizeX sizeY b = Ok tm /\
    grid_dims sizeX sizeY tm /\
    forall c s, cell_at b c = Some s -> cell_at tm c = Some (initial_owner s).
Proof.
  intros Hb. unfold territory_of_board.
  destruct Hb as (HX & HY & Hrest).
  destruct (make_grid_Ok sizeX sizeY EmptyString HX HY)
    as (t0 & Hmk & Ht0 & _).
  assert (grid_dims sizeX sizeY b) as Hb by (repeat split; tauto).
  rewrite Hmk, bind_ret.
  destruct (foldM_prefix
    (fun (c : cell) (t : grid string) =>
       stone ← grid_get b c.1 c.2; grid_set t c.1 c.2 (initial_owner stone))
    (fun pre t =>
       grid_dims sizeX sizeY t /\
       forall c s, c ∈ pre -> cell_at b c = Some s ->
                   cell_at t c = Some (initial_owner s))
    (scan_order sizeX sizeY) t0) as (tm & Hfold & Hd & Hcells).
  - split; [exact Ht0|]. intros c s H. inversion H.
  - intros pre a post t Hl [Ht Hce].
    assert (in_bounds sizeX sizeY a) as Hin.
    { apply elem_of_scan_order. rewrite Hl. set_solver. }
    destruct (in_bounds_cell_at _ _ _ _ Hb Hin) as [s Hs].
    rewrite (grid_get_cell b a s Hs), bind_ret.
    destruct (grid_set_cell t a (initial_owner s)) as (t' & Hset & Hce' & Hd').
    { eapply cell_at_in_bounds; [exact Ht|exact Hin]. }
    exists t'. split; [exact Hset|]. split; [eapply Hd'; exact Ht|].
    intros c s' Hc Hs'. rewrite Hce'.
    destruct (decide (c = a)) as [->|Hca]; [congruence|].
    apply Hce; [|exact Hs'].
    apply elem_of_app in Hc as [Hc|Hc]; [exact Hc|].
    apply list_elem_of_singleton in Hc. contradiction.
  - exists tm. split; [exact Hfold|]. split; [exact Hd|].
    intros c s Hs. apply Hcells; [|exact Hs]. apply elem_of_scan_order.
    eapply cell_at_Some_in_bounds; [exact Hb|exact Hs].
Qed.

Lemma settled_open b tm : settled b tm -> open_or_settled b tm.
Proof. intros H n Hn. right. apply H. exact Hn. Qed.

(** A board without rows or without columns has no points. *)
Lemma no_points {A} (sizeX sizeY : Z) (b : grid A) (c : cell) :
  grid_dims sizeX sizeY b -> ~ (0 < sizeY /\ 0 < sizeX) -> cell_at b c = None.
Proof.
  intros Hb Hsz. destruct (cell_at b c) as [v|] eqn:Hc; [|reflexivity].
  apply (cell_at_Some_in_bounds _ _ _ _ _ Hb) in Hc.
  destruct Hc as [? ?]. exfalso. apply Hsz. lia.
Qed.

Lemma toggled_group_flood b c d col :
  cell_at b c = Some col -> toggled_group b c d ->
  flood_connected b col c d /\ cell_at b d = Some col.
Proof.
  intros Hc (col' & Hc' & _ & Hf & Hd).
  assert (col' = col) as -> by congruence. auto.
Qed.

(** ** Scoring on the game *)

Lemma set_territoryMap_same (g : Game) : set_territoryMap (territoryMap g) g = g.
Proof. destruct g. reflexivity. Qed.

Section Scoring.
Variables (g0 : Game) (b : grid string).
Hypothesis Hboard : board_of g0 b.

Lemma initializeTerritoryMap_spec :
  exists g, initializeTerritoryMap g0 = (Ok tt, g) /\ scoring_inv g0 b g.
Proof.
  destruct Hboard as (p & cur & Hcn & Hheap & Hcur & Hb).
  unfold initializeTerritoryMap, mbind, ST_bind, get, deref, lift, modify.
  case_decide as Hsz.
  - rewrite Hcn, Hheap, Hcur.
    destruct (territory_of_board_spec _ _ b Hb) as (tm & Htm & Hd & Hcells).
    rewrite Htm. eexists. split; [reflexivity|].
    unfold scoring_inv. simpl. repeat (split; [reflexivity|]).
    split; [exact Hd|]. split; [|split].
    + intros n Hn. left. rewrite (Hcells n _ Hn). reflexivity.
    + intros c col Hc Hcol. rewrite (Hcells c _ Hc). unfold initial_owner.
      rewrite decide_True by exact Hcol. destruct Hcol as [-> | ->]; auto.
    + intros c d (col & Hc & _ & _ & Hd').
      rewrite (Hcells c _ Hc), (Hcells d _ Hd'). reflexivity.
  - destruct Hb as (HX & HY & Hrest).
    assert (grid_dims (sizeX g0) (sizeY g0) b) as Hb' by (repeat split; tauto).
    destruct (make_grid_Ok (sizeX g0) (sizeY g0) EmptyString HX HY)
      as (t0 & Hmk & Ht0 & _).
    rewrite Hmk. eexists. split; [reflexivity|].
    unfold scoring_inv. simpl. repeat (split; [reflexivity|]).
    split; [exact Ht0|]. split; [|split].
    + intros n Hn. rewrite (no_points _ _ b n Hb' Hsz) in Hn. discriminate.
    + intros c col Hc. rewrite (no_points _ _ b c Hb' Hsz) in Hc. discriminate.
    + intros c d (col & Hc & _).
      rewrite (no_points _ _ b c Hb' Hsz) in Hc. discriminate.
Qed.

Lemma assign_game_spec (g : Game) :
  scoring_inv g0 b g ->
  exists g',
    assignTerritoryToEmptyRegions g = (Ok tt, g') /\
    scoring_inv g0 b g' /\ settled b (territoryMap g') /\
    (forall c s, cell_at b c = Some s -> s <> empty ->
       cell_at (territoryMap g') c = cell_at (territoryMap g) c).
Proof.
  destruct Hboard as (p & cur & Hcn & Hheap & Hcur & Hb).
  intros (HsX & HsY & Hcur' & Hheap' & Hd & Hopen & Hstones).
  unfold assignTerritoryToEmptyRegions, mbind, ST_bind, get, deref, lift,
    modify, mret, ST_ret.
  rewrite HsX, HsY. case_decide as Hsz.
  - rewrite Hcur', Hcn, Hheap', Hheap, Hcur.
    destruct (assign_spec _ _ b (territoryMap g) Hb Hopen Hd)
      as (tm' & Hrun & Hd' & Hkeep & Hset).
    rewrite Hrun. eexists. split; [reflexivity|].
    assert (settled b tm') as Hsettled.
    { intros n Hn. destruct (Hset n Hn) as (o & Ho & Hspec).
      exists o. split; [exact Ho|].
      apply (region_owner_spec_ext b (territoryMap g)); [|exact Hspec].
      intros m s Hm Hne. symmetry. eapply Hkeep; eauto. }
    unfold scoring_inv. simpl. split.
    { repeat (split; [assumption|]).
      split; [apply settled_open; exact Hsettled|].
      destruct Hstones as [Hcol Hgrp]. split.
      - intros c col Hc Hbw.
        rewrite (Hkeep c col Hc (colour_not_empty col Hbw)). eauto.
      - intros c d Hcd. pose proof Hcd as (col & Hc & Hbw & _ & Hd2).
        rewrite (Hkeep c col Hc (colour_not_empty col Hbw)).
        rewrite (Hkeep d col Hd2 (colour_not_empty col Hbw)). auto. }
    split; [exact Hsettled|exact Hkeep].
  - destruct Hb as (HX & HY & Hrest).
    assert (grid_dims (sizeX g0) (sizeY g0) b) as Hb' by (repeat split; tauto).
    destruct (make_grid_Ok (sizeX g0) (sizeY g0) false HX HY)
      as (t0 & Hmk & _).
    rewrite Hmk. exists g. split; [reflexivity|].
    split; [unfold scoring_inv; tauto|]. split; [|reflexivity].
    intros n Hn. rewrite (no_points _ _ b n Hb' Hsz) in Hn. discriminate.
Qed.

(** On a settled map [assignTerritoryToEmptyRegions] changes nothing. *)
Lemma assign_game_fixed (g : Game) :
  scoring_inv g0 b g -> settled b (territoryMap g) ->
  assignTerritoryToEmptyRegions g = (Ok tt, g).
Proof.
  intros Hinv Hsettled.
  destruct (assign_game_spec g Hinv) as (g' & Hrun & Hinv' & Hset' & Hkeep).
  rewrite Hrun. f_equal.
  destruct Hboard as (p & cur & Hcn & Hheap & Hcur & Hb).
  pose proof Hinv as (HsX & HsY & Hcur' & Hheap' & Hd & Hopen & Hstones).
  revert Hrun.
  unfold assignTerritoryToEmptyRegions, mbind, ST_bind, get, deref, lift,
    modify, mret, ST_ret.
  rewrite HsX, HsY. case_decide as Hsz.
  - rewrite Hcur', Hcn, Hheap', Hheap, Hcur.
    destruct (assign_spec _ _ b (territoryMap g) Hb Hopen Hd)
      as (tm' & Hrun & Hd' & Hkeep' & Hnew).
    rewrite Hrun. intros Heq. injection Heq as <-.
    rewrite <- (set_territoryMap_same g) at 2. f_equal.
    apply (grid_ext _ _ _ _ Hd' Hd). intros c Hc.
    destruct (in_bounds_cell_at _ _ _ _ Hb Hc) as [s Hs].
    destruct (decide (s = empty)) as [->|Hne].
    + destruct (Hnew c Hs) as (o' & Ho' & Hspec').
      destruct (Hsettled c Hs) as (o & Ho & Hspec).
      rewrite Ho', Ho. f_equal.
      eapply region_owner_spec_unique; eauto.
    + eapply Hkeep'; eauto.
  - destruct (make_grid (sizeX g0) (sizeY g0) false); simpl; congruence.
Qed.

(** A toggle at a stone of one of the two colours. *)
Lemma toggle_game_spec (g : Game) (x y : Z) (col : string) :
  scoring_inv g0 b g ->
  cell_at b (x, y) = Some col -> col = black \/ col = white ->
  exists g',
    toggleGroupStatus x y g = (Ok tt, g') /\
    scoring_inv g0 b g' /\ settled b (territoryMap g') /\
    (forall d, toggled_group b (x, y) d ->
       exists o, cell_at (territoryMap g) d = Some o /\
                 (o = black \/ o = white) /\
                 cell_at (territoryMap g') d = Some (switchPlayer o)) /\
    (forall d s, cell_at b d = Some s -> s <> empty ->
       ~ toggled_group b (x, y) d ->
       cell_at (territoryMap g') d = cell_at (territoryMap g) d).
Proof.
  intros Hinv Hxy Hbw.
  pose proof Hinv as (HsX & HsY & Hcur' & Hheap' & Hd & Hopen & Hcol & Hgrp).
  destruct Hboard as (p & cur & Hcn & Hheap & Hcur & Hb).
  assert (exists owner, cell_at (territoryMap g) (x, y) = Some owner /\
                        (owner = black \/ owner = white))
    as (owner & Hown & Hobw).
  { destruct (Hcol _ _ Hxy Hbw) as [H|H]; eauto. }
  destruct (toggle_flip_spec _ _ b (territoryMap g) col owner x y Hb Hd Hxy
              Hown) as (tm1 & V & Hflip & Hd1 & HV & Hempty & Hnew & Hkeep).
  pose proof (colour_not_empty col Hbw) as Hcne.
  assert (scoring_inv g0 b (set_territoryMap tm1 g)) as Hinv1.
  { unfold scoring_inv. simpl. repeat (split; [assumption|]).
    split; [intros n Hn; left; auto|]. split.
    - intros c col' Hc Hbw'.
      destruct (decide (col' = col)) as [->|Hcc].
      + destruct (decide (c ∈ V)) as [Hf|Hf].
        * apply HV in Hf. rewrite (Hnew c Hf Hc Hcne).
          destruct (switchPlayer_colour owner) as [-> | ->]; auto.
        * rewrite (Hkeep c col Hc Hcne); [eauto|].
          intros [Hf' _]. apply Hf, HV, Hf'.
      + rewrite (Hkeep c col' Hc (colour_not_empty col' Hbw')); [eauto|].
        tauto.
    - intros c d Hcd. pose proof Hcd as (col' & Hc & Hbw' & Hf & Hd2).
      pose proof (colour_not_empty col' Hbw') as Hne'.
      assert (flood_connected b col (x, y) c /\ col' = col \/
              ~ (flood_connected b col (x, y) c /\ col' = col))
        as [[Hfc ->]|Hout].
      { destruct (decide (c ∈ V)) as [Hv|Hv];
          [|right; intros [Hf' _]; apply Hv, HV, Hf'].
        destruct (decide (col' = col)) as [->|Hcc]; [|right; tauto].
        left. split; [apply HV, Hv|reflexivity]. }
      + rewrite (Hnew c Hfc Hc Hcne), (Hnew d); auto.
        eapply reach_trans; eauto.
      + rewrite (Hkeep c col' Hc Hne' Hout), (Hkeep d col' Hd2 Hne'); auto.
        intros [Hfd ->]. apply Hout. split; [|reflexivity].
        eapply reach_trans; [exact Hfd|]. apply reach_sym. exact Hf. }
  destruct (assign_game_spec _ Hinv1) as (g' & Hrun & Hinv' & Hset & Hsame).
  exists g'. split.
  { unfold toggleGroupStatus, mbind, ST_bind, get, deref, lift, modify,
      mret, ST_ret.
    rewrite Hcur', Hcn, Hheap', Hheap, Hcur.
    rewrite (proj2 (grid_get_Ok b _ _ _) Hxy).
    rewrite decide_False by (destruct Hbw; tauto).
    rewrite HsX, HsY, Hflip. exact Hrun. }
  split; [exact Hinv'|]. split; [exact Hset|]. simpl in Hsame. split.
  - intros d Hd'. exists owner.
    split; [rewrite <- (Hgrp _ _ Hd'); exact Hown|].
    split; [exact Hobw|].
    destruct (toggled_group_flood b _ _ col Hxy Hd') as [Hf Hdc].
    rewrite (Hsame d col Hdc Hcne). apply Hnew; assumption.
  - intros d s Hs Hne Hout. rewrite (Hsame d s Hs Hne).
    apply (Hkeep d s Hs Hne). intros [Hf ->]. apply Hout.
    exists col. auto.
Qed.

(** The states of scoring keep the invariant. *)
Lemma scoring_invariant (g : Game) : scoring g0 g -> scoring_inv g0 b g.
Proof.
  induction 1 as [g Hinit|g g' Hsc IH Hrun|g g' x y Hsc IH Hrun].
  - destruct initializeTerritoryMap_spec as (g1 & Hrun & Hinv).
    rewrite Hrun in Hinit. injection Hinit as <-. exact Hinv.
  - destruct (assign_game_spec g IH) as (g1 & Hrun1 & Hinv & _).
    rewrite Hrun1 in Hrun. injection Hrun as <-. exact Hinv.
  - destruct (cell_at b (x, y)) as [s|] eqn:Hxy.
    + destruct (decide (s = black \/ s = white)) as [Hbw|Hbw].
      * destruct (toggle_game_spec g x y s IH Hxy Hbw)
          as (g1 & Hrun1 & Hinv & _).
        rewrite Hrun1 in Hrun. injection Hrun as <-. exact Hinv.
      * pose proof IH as (HsX & HsY & Hcur' & Hheap' & _).
        destruct Hboard as (p & cur & Hcn & Hheap & Hcur & Hb).
        revert Hrun.
        unfold toggleGroupStatus, mbind, ST_bind, get, deref, lift, modify,
          mret, ST_ret.
        rewrite Hcur', Hcn, Hheap', Hheap, Hcur.
        rewrite (proj2 (grid_get_Ok b _ _ _) Hxy).
        rewrite decide_True by tauto.
        intros Heq. injection Heq as <-. exact IH.
    + pose proof IH as (HsX & HsY & Hcur' & Hheap' & _).
      destruct Hboard as (p & cur & Hcn & Hheap & Hcur & Hb).
      revert Hrun.
      unfold toggleGroupStatus, mbind, ST_bind, get, deref, lift, modify,
        mret, ST_ret.
      rewrite Hcur', Hcn, Hheap', Hheap, Hcur.
      unfold grid_get. rewrite Hxy. discriminate.
Qed.

End Scoring.

(** C4. On every territory map that scoring produces from the board of
    the current node, built by [initializeTerritoryMap] and changed by
    [assignTerritoryToEmptyRegions] and [toggleGroupStatus] only,
    [assignTerritoryToEmptyRegions] returns, and running it a second
    time leaves the game, the territory map with it, as the first run
    left it: twice in a row is once. *)
Theorem assignTerritoryToEmptyRegions_idempotent (g0 g : Game)
    (b : grid string) :
  board_of g0 b -> scoring g0 g ->
  exists g1,
    assignTerritoryToEmptyRegions g = (Ok tt, g1) /\
    assignTerritoryToEmptyRegions g1 = (Ok tt, g1) /\
    (_ ← assignTerritoryToEmptyRegions; assignTerritoryToEmptyRegions) g
      = assignTerritoryToEmptyRegions g.
Proof.
  intros Hboard Hsc.
  pose proof (scoring_invariant g0 b Hboard g Hsc) as Hinv.
  destruct (assign_game_spec g0 b Hboard g Hinv)
    as (g1 & Hrun & Hinv1 & Hsettled & _).
  pose proof (assign_game_fixed g0 b Hboard g1 Hinv1 Hsettled) as Hfix.
  exists g1. split; [exact Hrun|]. split; [exact Hfix|].
  unfold mbind at 1. unfold ST_bind. rewrite Hrun. exact Hfix.
Qed.

Lemma assignTerritoryToEmptyRegions_idempotent_example :
  exists g1,
    assignTerritoryToEmptyRegions example_scoring = (Ok tt, g1) /\
    assignTerritoryToEmptyRegions g1 = (Ok tt, g1) /\
    (_ ← assignTerritoryToEmptyRegions; assignTerritoryToEmptyRegions)
      example_scoring
      = assignTerritoryToEmptyRegions example_scoring.
Proof.
  apply (assignTerritoryToEmptyRegions_idempotent example_game
           example_scoring example_board).
  - exists 4%nat. eexists. split; [vm_compute; reflexivity|].
    split; [vm_compute; reflexivity|].
    split; [vm_compute; reflexivity|]. unfold grid_dims.
    apply (bool_decide_unpack _). vm_compute. exact I.
  - apply (scoring_assign _ (exec initializeTerritoryMap example_game)).
    + apply scoring_enter. vm_compute. reflexivity.
    + vm_compute. reflexivity.
Defined.

(** The stones connected with a stone belong to the group that a toggle
    at it takes. *)
Lemma connected_toggled_group b c d col :
  cell_at b c = Some col -> col = black \/ col = white ->
  connected b col c d -> toggled_group b c d.
Proof.
  intros Hc Hcol Hcd. exists col. split; [exact Hc|]. split; [exact Hcol|].
  split; [|eapply connected_end; exact Hcd].
  revert Hcd. apply reach_impl. intros u Hu. left. exact Hu.
Qed.

(** C5, for the territory maps that scoring has produced from the board
    of the current node. At a stone of one of the two colours,
    [toggleGroupStatus] returns, and [assignTerritoryToEmptyRegions]
    after it changes nothing more. Every stone of the toggled group, the
    stones of that colour that the flood fill reaches from [(x, y)]
    through stones of the colour and empty points, had an owner of one of
    the two colours in the map and has the other colour as its owner
    afterwards; every stone outside the group has the owner it had. The
    toggled group holds the stones connected with [(x, y)] and, beyond
    them, the stones of the colour that are joined to it across empty
    points only. *)
Theorem toggleGroupStatus_flips_group (g0 g : Game) (b : grid string)
    (x y : Z) (col : string) :
  board_of g0 b -> scoring g0 g ->
  cell_at b (x, y) = Some col -> col = black \/ col = white ->
  exists g',
    toggleGroupStatus x y g = (Ok tt, g') /\
    assignTerritoryToEmptyRegions g' = (Ok tt, g') /\
    (forall d, toggled_group b (x, y) d ->
       exists o, cell_at (territoryMap g) d = Some o /\
                 (o = black \/ o = white) /\
                 cell_at (territoryMap g') d = Some (switchPlayer o) /\
                 switchPlayer o <> o) /\
    (forall d s, cell_at b d = Some s -> s <> empty ->
       ~ toggled_group b (x, y) d ->
       cell_at (territoryMap g') d = cell_at (territoryMap g) d).
Proof.
  intros Hboard Hsc Hxy Hbw.
  pose proof (scoring_invariant g0 b Hboard g Hsc) as Hinv.
  destruct (toggle_game_spec g0 b Hboard g x y col Hinv Hxy Hbw)
    as (g' & Hrun & Hinv' & Hsettled & Hflip & Hkeep).
  exists g'. split; [exact Hrun|].
  split; [exact (assign_game_fixed g0 b Hboard g' Hinv' Hsettled)|].
  split; [|exact Hkeep].
  intros d Hd. destruct (Hflip d Hd) as (o & Ho & Hobw & Hnew).
  exists o. repeat (split; [assumption|]). apply switchPlayer_ne.
Qed.

Lemma toggleGroupStatus_flips_group_example :
  exists g',
    toggleGroupStatus 1 1 example_scoring = (Ok tt, g') /\
    assignTerritoryToEmptyRegions g' = (Ok tt, g') /\
    (forall d, toggled_group example_board (1, 1) d ->
       exists o, cell_at (territoryMap example_scoring) d = Some o /\
                 (o = black \/ o = white) /\
                 cell_at (territoryMap g') d = Some (switchPlayer o) /\
                 switchPlayer o <> o) /\
    (forall d s, cell_at example_board d = Some s -> s <> empty ->
       ~ toggled_group example_board (1, 1) d ->
       cell_at (territoryMap g') d = cell_at (territoryMap example_scoring) d).
Proof.
  apply (toggleGroupStatus_flips_group example_game example_scoring
           example_board 1 1 white).
  - exists 4%nat. eexists. split; [vm_compute; reflexivity|].
    split; [vm_compute; reflexivity|].
    split; [vm_compute; reflexivity|]. unfold grid_dims.
    apply (bool_decide_unpack _). vm_compute. exact I.
  - apply (scoring_assign _ (exec initializeTerritoryMap example_game)).
    + apply scoring_enter. vm_compute. reflexivity.
    + vm_compute. reflexivity.
  - reflexivity.
  - right. reflexivity.
Defined.

(** C5 as it was stated fails in two ways.

    The stones that are flipped are not the connected group of the
    stone. On [split_board] the black stones (0,0) and (2,0) are not
    connected: the empty point (1,0) lies between them. The flood fill of
    [toggleGroupStatus] walks through empty points, so that a click at
    (0,0) on the map that scoring has produced from this board,
    [toggleGroupStatus] and then [assignTerritoryToEmptyRegions], gives
    the stone (2,0), which is outside the connected group of (0,0) and is
    no territory, to white.

    And the map has to be one that scoring has produced from the board.
    The map of [stale_scoring_game] was built at a node where (1,0) is a
    white stone; on the board of the current node (0,0) and (1,0) are one
    black group. A click at (0,0) in the score mode leaves the stone
    (1,0) of the toggled group with the owner it had, white. *)
Lemma toggleGroupStatus_flip_and_frame_fail :
  (board_of split_game split_board /\
   scoring split_game split_scoring /\
   cell_at split_board (0, 0) = Some black /\
   cell_at split_board (2, 0) = Some black /\
   ~ connected split_board black (0, 0) (2, 0) /\
   toggled_group split_board (0, 0) (2, 0) /\
   cell_at (territoryMap split_scoring) (2, 0) = Some black /\
   (toggleGroupStatus 0 0 split_scoring).1 = Ok tt /\
   cell_at (territoryMap (exec (toggleGroupStatus 0 0) split_scoring))
     (2, 0) = Some white /\
   (score_click 0 0 split_scoring).1 = Ok tt /\
   cell_at (territoryMap (exec (score_click 0 0) split_scoring))
     (2, 0) = Some white) /\
  (mouseMode stale_scoring_game = "score"%string /\
   board_of stale_scoring_game stale_board /\
   toggled_group stale_board (0, 0) (1, 0) /\
   cell_at (territoryMap stale_scoring_game) (0, 0) = Some black /\
   cell_at (territoryMap stale_scoring_game) (1, 0) = Some white /\
   (toggleGroupStatus 0 0 stale_scoring_game).1 = Ok tt /\
   cell_at (territoryMap (exec (toggleGroupStatus 0 0) stale_scoring_game))
     (1, 0) = Some white /\
   (score_click 0 0 stale_scoring_game).1 = Ok tt /\
   cell_at (territoryMap (exec (score_click 0 0) stale_scoring_game))
     (1, 0) = Some white).
Proof.
  split.
  - split.
    { exists 3%nat. eexists. split; [vm_compute; reflexivity|].
      split; [vm_compute; reflexivity|].
      split; [vm_compute; reflexivity|]. unfold grid_dims.
      apply (bool_decide_unpack _). vm_compute. exact I. }
    split.
    { apply (scoring_assign _ (exec initializeTerritoryMap split_game)).
      - apply scoring_enter. vm_compute. reflexivity.
      - vm_compute. reflexivity. }
    split; [reflexivity|]. split; [reflexivity|]. split.
    { intros Hcon.
      assert ((2, 0) = ((0, 0) : cell)) as Heq; [|discriminate Heq].
      apply (connected_closed split_board black
               (fun d => d = ((0, 0) : cell)) (0, 0) (2, 0));
        [reflexivity| |exact Hcon].
      intros u v -> Hadj Hv. apply adjacent_cases in Hadj.
      destruct Hadj as [-> | [-> | [-> | ->]]];
        vm_compute in Hv; discriminate Hv. }
    split.
    { exists black. split; [reflexivity|]. split; [left; reflexivity|].
      split; [|reflexivity].
      apply (reach_step _ (0, 0) (1, 0) (2, 0)).
      - apply (reach_step _ (0, 0) (0, 0) (1, 0)).
        + apply reach_here. left. reflexivity.
        + exists (1, 0). split; [|reflexivity]. unfold dirs. set_solver.
        + right. reflexivity.
      - exists (1, 0). split; [|reflexivity]. unfold dirs. set_solver.
      - left. reflexivity. }
    repeat split; vm_compute; reflexivity.
  - split; [vm_compute; reflexivity|]. split.
    { exists 5%nat. eexists. split; [vm_compute; reflexivity|].
      split; [vm_compute; reflexivity|].
      split; [vm_compute; reflexivity|]. unfold grid_dims.
      apply (bool_decide_unpack _). vm_compute. exact I. }
    split.
    { exists black. split; [reflexivity|]. split; [left; reflexivity|].
      split; [|reflexivity].
      apply (reach_step _ (0, 0) (0, 0) (1, 0)).
      - apply reach_here. left. reflexivity.
      - exists (1, 0). split; [|reflexivity]. unfold dirs. set_solver.
      - left. reflexivity. }
    repeat split; vm_compute; reflexivity.
Qed.

(** * Proofs: the SGF codec *)

(** ** SGF coordinates *)

Lemma byteZ_byte_of_Z (z : Z) : 0 <= z < 256 -> byteZ (byte_of_Z z) = z.
Proof.
  intros Hz. unfold byteZ, byte_of_Z.
  rewrite N_ascii_embedding by lia. lia.
Qed.

Lemma string_of_rune_ascii (r : Z) :
  0 <= r <= 127 -> string_of_rune r = String (byte_of_Z r) EmptyString.
Proof.
  intros Hr. unfold string_of_rune, encodeRune.
  destruct (Z.ltb_spec r 0); [lia|].
  destruct (Z.ltb_spec 1114111 r); [lia|].
  destruct (Z.leb_spec 55296 r); [lia|].
  destruct (Z.leb_spec r 127); [|lia]. reflexivity.
Qed.

(** The rune that the string of a coordinate holds, as [range] reads
    it. *)
Lemma range_string_ascii (r : Z) :
  0 <= r <= 127 -> range_string (string_of_rune r) = [(0, r)].
Proof.
  intros Hr. rewrite string_of_rune_ascii by exact Hr.
  unfold range_string. simpl. unfold decodeRune.
  rewrite byteZ_byte_of_Z by lia.
  destruct (Z.ltb_spec r 128); [|lia]. reflexivity.
Qed.

(** Encoding, then decoding. *)
Lemma intToChar_decoded (x : Z) :
  0 <= x <= 51 ->
  exists c,
    coord_alphabet c /\
    (97 <= c <= 122 <-> 0 <= x <= 25) /\
    intToChar x = (string_of_rune c, None) /\
    range_string (string_of_rune c) = [(0, c)] /\
    charToInt c = (x, None).
Proof.
  intros Hx. unfold intToChar, charToInt, coord_alphabet.
  destruct (decide (x >= 0 /\ x <= 25)) as [Hlow|Hlow].
  - exists (97 + x). split; [lia|]. split; [lia|].
    split; [reflexivity|]. split; [apply range_string_ascii; lia|].
    rewrite decide_True by lia. f_equal. lia.
  - rewrite decide_True by lia. exists (65 + x - 26).
    split; [lia|]. split; [lia|]. split; [reflexivity|].
    split; [apply range_string_ascii; lia|].
    rewrite decide_False by lia. rewrite decide_True by lia.
    f_equal. lia.
Qed.

(** Decoding, then encoding. *)
Lemma charToInt_encoded (c : Z) :
  coord_alphabet c ->
  exists x,
    0 <= x <= 51 /\ charToInt c = (x, None) /\
    intToChar x = (string_of_rune c, None).
Proof.
  intros Hc. unfold intToChar, charToInt.
  destruct (decide (c >= 97 /\ c <= 122)) as [Hlow|Hlow].
  - exists (c - 97). split; [lia|]. split; [reflexivity|].
    rewrite decide_True by lia. do 2 f_equal. lia.
  - assert (65 <= c <= 90) as Hup by (destruct Hc; lia).
    rewrite decide_True by lia. exists (c - 65 + 26).
    split; [lia|]. split; [reflexivity|].
    rewrite decide_False by lia. rewrite decide_True by lia.
    do 2 f_equal. lia.
Qed.

(** C8. [intToChar] sends every [x] in 0..51 to a string of one rune of
    the coordinate alphabet, [a]-[z] for 0..25 and [A]-[Z] for 26..51,
    that [charToInt] sends back to [x]; and every rune of the alphabet is
    the code of the number in 0..51 that [charToInt] gives for it. *)
Theorem intToChar_charToInt_bijection :
  (forall x, 0 <= x <= 51 ->
     exists c,
       coord_alphabet c /\
       (97 <= c <= 122 <-> 0 <= x <= 25) /\
       intToChar x = (string_of_rune c, None) /\
       range_string (string_of_rune c) = [(0, c)] /\
       charToInt c = (x, None)) /\
  (forall c, coord_alphabet c ->
     exists x,
       0 <= x <= 51 /\ charToInt c = (x, None) /\
       intToChar x = (string_of_rune c, None)).
Proof.
  split; [exact intToChar_decoded|exact charToInt_encoded].
Qed.

Lemma intToChar_charToInt_example :
  exists c,
    coord_alphabet c /\
    (97 <= c <= 122 <-> 0 <= 30 <= 25) /\
    intToChar 30 = (string_of_rune c, None) /\
    range_string (string_of_rune c) = [(0, c)] /\
    charToInt c = (30, None).
Proof.
  apply (proj1 intToChar_charToInt_bijection 30). lia.
Defined.

(** A coordinate pair survives [convertCoordinatesToSGF] followed by
    [convertSGFCoordToXY]. *)
Lemma convertSGFCoord_round_trip (x y : Z) :
  0 <= x <= 51 -> 0 <= y <= 51 ->
  convertSGFCoordToXY (convertCoordinatesToSGF x y) = Some (x, y).
Proof.
  intros Hx Hy.
  destruct (intToChar_decoded x Hx)
    as (cx & Hax & _ & Hix & _ & Hcx).
  destruct (intToChar_decoded y Hy)
    as (cy & Hay & _ & Hiy & _ & Hcy).
  unfold convertCoordinatesToSGF. rewrite Hix, Hiy. simpl fst.
  rewrite !string_of_rune_ascii by (destruct Hax, Hay; lia).
  simpl. rewrite !byteZ_byte_of_Z by (destruct Hax, Hay; lia).
  rewrite Hcx, Hcy. rewrite decide_True by lia. reflexivity.
Qed.

(** ** The first pass of the parser *)

Lemma foldM_cons {S A} (body : A -> S -> res S) (a : A) (l : list A) (s : S) :
  foldM body (a :: l) s = body a s ≫= foldM body l.
Proof. reflexivity. Qed.

Lemma count_rune_cons (c : Z) (ic : Z * Z) (rs : list (Z * Z)) :
  count_rune c (ic :: rs) =
  (if decide (ic.2 = c) then 1 else 0) + count_rune c rs.
Proof.
  unfold count_rune. rewrite filter_cons.
  destruct (decide (ic.2 = c)); simpl length; lia.
Qed.

Lemma prefix_of_cons {A} (a : A) (pre l : list A) :
  pre `prefix_of` a :: l ->
  pre = [] \/ exists pre', pre = a :: pre' /\ pre' `prefix_of` l.
Proof.
  intros [k Hk]. destruct pre as [|a' pre']; [auto|]. right.
  simpl in Hk. injection Hk as <- ->. exists pre'. split; [reflexivity|].
  exists k. reflexivity.
Qed.

(** The scan of [validateSGF] from [n0] open parentheses: it ends with
    the number of parentheses that are open, none closed too early, or it
    stops at a closing parenthesis that closes nothing. *)
Lemma validate_scan (l : list (Z * Z)) :
  forall n0, 0 <= n0 ->
    (exists n,
       foldM validate_rune l n0 = Ok n /\
       n = n0 + count_rune 40 l - count_rune 41 l /\
       forall pre, pre `prefix_of` l ->
                   count_rune 41 pre <= n0 + count_rune 40 pre) \/
    (exists i pre,
       foldM validate_rune l n0 = Err (UnmatchedClose i) /\
       pre `prefix_of` l /\ n0 + count_rune 40 pre < count_rune 41 pre).
Proof.
  induction l as [|[i ch] l IH]; intros n0 Hn0.
  - left. exists n0. split; [reflexivity|].
    split; [unfold count_rune; simpl; lia|].
    intros pre Hpre. apply prefix_nil_inv in Hpre as ->.
    unfold count_rune. simpl. lia.
  - rewrite foldM_cons.
    assert (forall n1, 0 <= n1 ->
      n1 = n0 + (if decide (ch = 40) then 1 else 0)
              - (if decide (ch = 41) then 1 else 0) ->
      (exists n,
         foldM validate_rune l n1 = Ok n /\
         n = n0 + count_rune 40 ((i, ch) :: l) - count_rune 41 ((i, ch) :: l) /\
         forall pre, pre `prefix_of` (i, ch) :: l ->
                     count_rune 41 pre <= n0 + count_rune 40 pre) \/
      (exists j pre,
         foldM validate_rune l n1 = Err (UnmatchedClose j) /\
         pre `prefix_of` (i, ch) :: l /\
         n0 + count_rune 40 pre < count_rune 41 pre)) as Hstep.
    { intros n1 Hn1 Heq.
      destruct (IH n1 Hn1) as [(n & Hrun & Hn & Hpre)|(j & pre & Hrun & Hp & Hlt)].
      - left. exists n. split; [exact Hrun|]. rewrite !count_rune_cons. simpl.
        split; [revert Heq; repeat case_decide; intros; lia|]. intros pre Hp.
        apply prefix_of_cons in Hp as [->|(pre' & -> & Hp')].
        + unfold count_rune. simpl. lia.
        + rewrite !count_rune_cons. simpl. specialize (Hpre pre' Hp').
          revert Heq. repeat case_decide; intros; lia.
      - right. exists j, ((i, ch) :: pre). split; [exact Hrun|].
        split; [apply prefix_cons; exact Hp|].
        rewrite !count_rune_cons. simpl.
        revert Heq. repeat case_decide; intros; lia. }
    assert (validate_rune (i, ch) n0 =
            if decide (ch = 40) then Ok (n0 + 1)
            else if decide (ch = 41) then
                   if decide (n0 - 1 < 0) then Err (UnmatchedClose i)
                   else Ok (n0 - 1)
                 else Ok n0) as -> by reflexivity.
    destruct (decide (ch = 40)) as [E40|E40].
    + rewrite bind_ret. apply Hstep; [lia|]. repeat case_decide; lia.
    + destruct (decide (ch = 41)) as [E41|E41].
      * destruct (decide (n0 - 1 < 0)) as [Hneg|Hneg].
        -- right. exists i, [(i, ch)]. split; [reflexivity|].
           split; [apply prefix_cons, prefix_nil|].
           rewrite !count_rune_cons. unfold count_rune. simpl.
           repeat case_decide; lia.
        -- rewrite bind_ret. apply Hstep; [lia|]. repeat case_decide; lia.
      * rewrite bind_ret. apply Hstep; [lia|]. repeat case_decide; lia.
Qed.

(** [validateSGF] accepts the texts whose parentheses are balanced and
    reports the others as unmatched. *)
Lemma validateSGF_spec (p : SGFParser) :
  (validateSGF p = Ok tt /\ parens_balanced (sgfContent p)) \/
  (exists e, validateSGF p = Err e /\ is_unmatched e /\
             ~ parens_balanced (sgfContent p)).
Proof.
  unfold validateSGF, parens_balanced, balanced.
  destruct (validate_scan (range_string (sgfContent p)) 0 ltac:(lia))
    as [(n & Hrun & Hn & Hpre)|(i & pre & Hrun & Hp & Hlt)].
  - rewrite Hrun, bind_ret. destruct (decide (n <> 0)) as [Hne|He].
    + right. exists UnmatchedOpen. split; [reflexivity|]. split; [exact I|].
      intros [_ Heq]. lia.
    + left. split; [reflexivity|]. split; [|lia].
      intros pre Hp. specialize (Hpre pre Hp). lia.
  - rewrite Hrun. right. exists (UnmatchedClose i).
    split; [reflexivity|]. split; [exact I|].
    intros [Hall _]. specialize (Hall pre Hp). lia.
Qed.

(** The second pass runs on the texts that the first pass accepts. *)
Lemma parseSGF_balanced (s : string) :
  parens_balanced s ->
  parseSGF_run s =
  match parseCollection (mkSGFParser s 0 (string_len s)) with
  | (Err err, parser') => (Err (ParseError (index parser') err), parser')
  | r => r
  end.
Proof.
  intros Hbal. unfold parseSGF_run.
  destruct (validateSGF_spec (mkSGFParser s 0 (string_len s)))
    as [[Hok _]|(e & _ & _ & Hno)].
  - rewrite Hok. reflexivity.
  - contradiction.
Qed.

(** C7, as the code has it. The first pass of [parseSGF] counts the
    parentheses of the whole text, those within property values too, and
    does not look at brackets. For every text whose parentheses are not
    balanced, [parseSGF] returns the unmatched error of that pass, not
    wrapped as a parse error, and leaves the parser at index 0: the
    structural parse has not begun. *)
Theorem parseSGF_unmatched_parens (s : string) :
  ~ parens_balanced s ->
  exists e,
    is_unmatched e /\
    validateSGF (mkSGFParser s 0 (string_len s)) = Err e /\
    parseSGF_run s = (Err e, mkSGFParser s 0 (string_len s)) /\
    parseSGF s = Err e.
Proof.
  intros Hno. unfold parseSGF, parseSGF_run.
  destruct (validateSGF_spec (mkSGFParser s 0 (string_len s)))
    as [[_ Hbal]|(e & Herr & Hun & _)].
  - contradiction.
  - exists e. rewrite Herr. auto.
Qed.

Lemma parseSGF_unmatched_parens_example :
  exists e,
    is_unmatched e /\
    validateSGF (mkSGFParser ")(" 0 (string_len ")(")) = Err e /\
    parseSGF_run ")(" = (Err e, mkSGFParser ")(" 0 (string_len ")(")) /\
    parseSGF ")(" = Err e.
Proof.
  apply (parseSGF_unmatched_parens ")(").
  unfold parens_balanced, balanced. intros [Hall _].
  specialize (Hall [(0, 41)]).
  assert ([(0, 41)] `prefix_of` range_string ")(") as Hp.
  { exists [(1, 40)]. vm_compute. reflexivity. }
  specialize (Hall Hp). vm_compute in Hall. apply Hall. reflexivity.
Defined.

(** C7, as the specification has it, fails on the text of one open
    bracket: its brackets are not balanced, and [parseSGF] reports no
    error; it returns an empty collection after the structural parse has
    read the text to its end. *)
Lemma parseSGF_open_bracket_accepted :
  ~ brackets_balanced "[" /\
  parseSGF "[" = Ok [] /\
  parseSGF_run "[" = (Ok [], mkSGFParser "[" 1 1).
Proof.
  split; [|split; vm_compute; reflexivity].
  intros [_ Heq]. vm_compute in Heq. discriminate Heq.
Qed.

(** ** Import *)

(** [initializeGameFromSGFTree] on a tree whose root asks for a board of
    more than 52 columns or rows: the error is returned after the size of
    the game has been set. *)
Lemma initializeGameFromSGFTree_oversized (g : Game) (root : SGFNode)
    (rest : list SGFNode) (subs : list SGFGameTree) (xSize ySize : Z) :
  sgf_board_size (properties root) = Ok (xSize, ySize) ->
  xSize > 52 \/ ySize > 52 ->
  initializeGameFromSGFTree (mkSGFGameTree (root :: rest) subs) g
  = (Err BoardTooLarge, set_size xSize ySize g).
Proof.
  intros Hsize Hbig.
  unfold initializeGameFromSGFTree, sequence, mbind, ST_bind, lift, modify,
    get.
  cbv zeta. rewrite Hsize. simpl.
  rewrite decide_True by exact Hbig. reflexivity.
Qed.

(** C6, at a record that asks for a board of 53 by 53, imported into a
    fresh game of 19 by 19: the import fails with the error of the
    oversized board, and the game that it leaves has the dimensions 53 by
    53 with the root, the current node and the tree of 19 by 19 boards
    that it had. *)
Theorem importFromSGF_oversized_sets_size :
  let g := fresh_game 19 19 in
  let g' := exec (importFromSGF "(;SZ[53])") g in
  importFromSGF "(;SZ[53])" g = (Err BoardTooLarge, g') /\
  (sizeX g, sizeY g) = (19, 19) /\
  (sizeX g', sizeY g') = (53, 53) /\
  g' = set_size 53 53 g /\
  rootNode g' = rootNode g /\ currentNode g' = currentNode g /\
  heap g' = heap g.
Proof. vm_compute. repeat split; reflexivity. Qed.

(** ** Export and import *)

(** C3, at a tree whose root has two variations, setup stones of both
    colours, a mark of each kind, a label and a comment with a closing
    bracket and a backslash: the export writes both variations, and the
    tree that the import builds from that text has lost the first of
    them. *)
Theorem round_trip_drops_first_variation :
  exportToSGF branching_game =
    Ok "(;FF[4]GM[1]CA[UTF-8]AP[ConnectedGroupsGobanVersion2]SZ[5]C[a\]b\\c]CR[ab]SQ[ba]TR[ca]MA[cb]LB[ac:x]AB[dd]AW[de](;B[aa])(;B[bb]))" /\
  (round_trip branching_game).1 = Ok tt /\
  game_shape branching_game =
    Some (Shape (0, 0) EmptyString
            [Shape (0, 0) "B" []; Shape (1, 1) "B" []]) /\
  game_shape (round_trip branching_game).2 =
    Some (Shape (0, 0) EmptyString [Shape (1, 1) "B" []]).
Proof. vm_compute. repeat split; reflexivity. Qed.

(** * Proofs: the game tree and the GTP client *)

(** ** Growth of the game tree *)

Lemma bindS_Ok {S A B} (m : ST S A) (k : A -> ST S B) (s s1 : S) (a : A) :
  m s = (Ok a, s1) -> (m ≫= k) s = k a s1.
Proof. intros H. unfold mbind, ST_bind. rewrite H. reflexivity. Qed.

Lemma bindS_fail {S A B} (m : ST S A) (k : A -> ST S B) (s s1 : S)
    (r : res A) :
  m s = (r, s1) -> (forall a, r <> Ok a) -> (m ≫= k) s = (fail_as r, s1).
Proof.
  intros H Hr. unfold mbind, ST_bind. rewrite H.
  destruct r; [destruct (Hr a eq_refl)|reflexivity..].
Qed.

Lemma same_tree_refl g : same_tree g g.
Proof. split; reflexivity. Qed.

Lemma same_tree_trans g1 g2 g3 :
  same_tree g1 g2 -> same_tree g2 g3 -> same_tree g1 g3.
Proof. intros [? ?] [? ?]. split; congruence. Qed.

Lemma tree_grows_refl c h : tree_grows c h h.
Proof.
  intros i m Hm. exists m. repeat (split; [reflexivity|]).
  split; [exact Hm|]. repeat (split; [reflexivity|]). auto.
Qed.





(** The state after [m] followed by [k]. *)
Lemma tree_rel_bind {A B} (R1 R2 R3 : Game -> Game -> Prop)
    (m : ST Game A) (k : A -> ST Game B) :
  (forall g g1, R1 g g1 -> R3 g g1) ->
  (forall g g1 g2, R1 g g1 -> R2 g1 g2 -> R3 g g2) ->
  tree_rel R1 m -> (forall a, tree_rel R2 (k a)) -> tree_rel R3 (m ≫= k).
Proof.
  intros Hweak Hcomp Hm Hk g. specialize (Hm g).
  unfold mbind, ST_bind. destruct (m g) as [[a| | | |] g1]; simpl in *;
    [|apply Hweak; exact Hm..].
  eapply Hcomp; [exact Hm|]. apply Hk.
Qed.

Lemma same_tree_bind {A B} (m : ST Game A) (k : A -> ST Game B) :
  tree_rel same_tree m -> (forall a, tree_rel same_tree (k a)) ->
  tree_rel same_tree (m ≫= k).
Proof.
  apply tree_rel_bind; [auto|]. intros g g1 g2. apply same_tree_trans.
Qed.



Lemma same_tree_ret {A} (a : A) : tree_rel same_tree (mret a : ST Game A).
Proof. intros g. apply same_tree_refl. Qed.

Lemma same_tree_get : tree_rel same_tree (get : ST Game Game).
Proof. intros g. apply same_tree_refl. Qed.

Lemma same_tree_lift {A} (r : res A) : tree_rel same_tree (lift r).
Proof. intros g. apply same_tree_refl. Qed.

Lemma same_tree_deref p : tree_rel same_tree (deref p).
Proof.
  intros g. unfold deref. destruct p as [a|]; [|apply same_tree_refl].
  destruct (heap g !! a); apply same_tree_refl.
Qed.

Lemma same_tree_catch {A} (m : ST Game A) :
  tree_rel same_tree m -> tree_rel same_tree (catch m).
Proof.
  intros Hm g. specialize (Hm g). unfold catch.
  destruct (m g) as [[a| | | |] g1]; exact Hm.
Qed.

Lemma same_tree_sendGTPCommand cmd : tree_rel same_tree (sendGTPCommand cmd).
Proof.
  unfold sendGTPCommand. apply same_tree_bind; [apply same_tree_get|].
  intros g. case_decide; [apply same_tree_lift|].
  apply same_tree_bind; [intros g1; split; reflexivity|]. intros _.
  destruct (gtpReplies g) as [|[payload|payload|] ?];
    first [apply same_tree_ret|apply same_tree_lift].
Qed.

Lemma same_tree_detachEngine : tree_rel same_tree detachEngine.
Proof.
  unfold detachEngine. apply same_tree_bind; [apply same_tree_get|].
  intros g. destruct (gtpCmd g); [|apply same_tree_ret].
  intros g1. split; reflexivity.
Qed.

Lemma same_tree_isMoveLegal x y player :
  tree_rel same_tree (isMoveLegal x y player).
Proof.
  unfold isMoveLegal. apply same_tree_bind; [apply same_tree_get|].
  intros g. apply same_tree_bind; [apply same_tree_deref|]. intros cur.
  case_decide; [apply same_tree_ret|].
  apply same_tree_bind; [apply same_tree_lift|]. intros b.
  apply same_tree_bind; [apply same_tree_lift|]. intros captured.
  case_decide; [apply same_tree_ret|].
  apply same_tree_bind; [apply same_tree_lift|]. intros lib.
  destruct lib; apply same_tree_ret.
Qed.

(** [newGameTreeNode] adds one node at the end of the arena, without
    children and without a ko point, or fails and leaves the tree. *)
Lemma newGameTreeNode_cases (g : Game) :
  match newGameTreeNode g with
  | (Ok q, g') =>
      q = length (heap g) /\ currentNode g' = currentNode g /\
      gtpCmd g' = gtpCmd g /\
      exists n, heap g' = heap g ++ [n] /\ koX n = -1 /\ koY n = -1 /\
                children n = []
  | (_, g') => same_tree g g'
  end.
Proof.
  unfold newGameTreeNode, mbind, ST_bind, modify, get, lift, alloc, mret,
    ST_ret, makeEmptyBoard. simpl.
  destruct (make_grid (sizeX g) (sizeY g) empty); simpl;
    try (split; reflexivity).
  destruct (make_grid (sizeX g) (sizeY g) false); simpl;
    try (split; reflexivity).
  destruct (make_grid (sizeX g) (sizeY g) EmptyString); simpl;
    try (split; reflexivity).
  repeat (split; [reflexivity|]). eexists. split; [reflexivity|].
  repeat split; reflexivity.
Qed.

Lemma newGameTreeNode_Ok (g : Game) :
  0 <= sizeX g -> 0 <= sizeY g ->
  exists g', newGameTreeNode g = (Ok (length (heap g)), g').
Proof.
  intros HX HY.
  destruct (make_grid_Ok (sizeX g) (sizeY g) empty HX HY) as (b & Hb & _).
  destruct (make_grid_Ok (sizeX g) (sizeY g) false HX HY) as (f & Hf & _).
  destruct (make_grid_Ok (sizeX g) (sizeY g) EmptyString HX HY)
    as (l & Hl & _).
  unfold newGameTreeNode, mbind, ST_bind, modify, get, lift, alloc, mret,
    ST_ret, makeEmptyBoard. simpl.
  rewrite Hb, Hf, Hl. simpl. eexists. reflexivity.
Qed.

(** An assignment to a field of the node that was added last. *)
Lemma update_new (h : list GameTreeNode) (n : GameTreeNode)
    (f : GameTreeNode -> GameTreeNode) (g : Game) :
  heap g = h ++ [n] ->
  exists g',
    update (Some (length h)) f g = (Ok tt, g') /\
    heap g' = h ++ [f n] /\ currentNode g' = currentNode g /\
    gtpCmd g' = gtpCmd g.
Proof.
  intros Hh. unfold update, mbind, ST_bind, deref, modify. rewrite Hh.
  rewrite list_lookup_middle by reflexivity. eexists. split; [reflexivity|].
  simpl. split; [|split; reflexivity]. rewrite Hh.
  replace (length h) with (length h + 0)%nat at 1 by lia.
  rewrite alter_app_r. reflexivity.
Qed.

(** An assignment to a field of an older node. *)
Lemma update_old (h : list GameTreeNode) (n : GameTreeNode) (c : ptr)
    (cur : GameTreeNode) (f : GameTreeNode -> GameTreeNode) (g : Game) :
  heap g = h ++ [n] -> h !! c = Some cur ->
  exists g',
    update (Some c) f g = (Ok tt, g') /\
    heap g' = alter f c h ++ [n] /\ currentNode g' = currentNode g /\
    gtpCmd g' = gtpCmd g.
Proof.
  intros Hh Hc. pose proof (lookup_lt_Some _ _ _ Hc) as Hlt.
  unfold update, mbind, ST_bind, deref, modify. rewrite Hh.
  rewrite lookup_app_l, Hc by exact Hlt. eexists. split; [reflexivity|].
  simpl. split; [|split; reflexivity]. rewrite Hh.
  rewrite alter_app_l by exact Hlt. reflexivity.
Qed.

(** The tree after a child of [c] has been added at the end of the
    arena. *)
Lemma tree_grows_child (h : list GameTreeNode) (c : ptr)
    (cur n : GameTreeNode) (q : ptr) :
  h !! c = Some cur ->
  tree_grows c h
    (alter (fun m => set_children (children m ++ [q]) m) c h ++ [n]).
Proof.
  intros Hc i m Hm. pose proof (lookup_lt_Some _ _ _ Hm) as Hlt.
  rewrite lookup_app_l by (rewrite length_alter; exact Hlt).
  destruct (decide (i = c)) as [->|Hne].
  - rewrite list_lookup_alter_eq, Hm. simpl. eexists. split; [reflexivity|].
    simpl. repeat (split; [reflexivity|]).
    split; [apply prefix_app_r; reflexivity|]. intros H. destruct (H eq_refl).
  - rewrite list_lookup_alter_ne by auto. exists m. split; [exact Hm|].
    repeat (split; [reflexivity|]). auto.
Qed.

(** A stone that is played adds one node, a child of the current node. *)
Lemma grows_play_stone (x y : Z) (player : string) :
  tree_rel grows_at_current (play_stone x y player).
Proof.
  intros g c Hc. unfold play_stone.
  rewrite (bindS_Ok get _ g g g eq_refl).
  destruct (heap g !! c) as [cur|] eqn:Hcur.
  2:{ rewrite (bindS_fail (deref (currentNode g)) _ g g Panic);
        [apply tree_grows_refl| |discriminate].
      unfold deref. rewrite Hc, Hcur. reflexivity. }
  rewrite (bindS_Ok (deref (currentNode g)) _ g g cur)
    by (unfold deref; rewrite Hc, Hcur; reflexivity).
  destruct (grid_set (copyBoard (boardState cur)) x y player)
    as [b1| | | |] eqn:Hset;
    [rewrite (bindS_Ok (lift (Ok b1)) _ g g b1 eq_refl)
    |rewrite (bindS_fail (lift _) _ g g _ eq_refl) by discriminate;
     apply tree_grows_refl..].
  destruct (captureStones g b1 x y player) as [[boardCopy ko]| | | |] eqn:Hcap;
    [rewrite (bindS_Ok (lift (Ok (boardCopy, ko))) _ g g _ eq_refl)
    |rewrite (bindS_fail (lift _) _ g g _ eq_refl) by discriminate;
     apply tree_grows_refl..].
  pose proof (newGameTreeNode_cases g) as Hnew.
  destruct (newGameTreeNode g) as [r g1] eqn:Hn.
  destruct r as [q| | | |];
    try (rewrite (bindS_fail _ _ _ _ _ Hn) by discriminate;
         destruct Hnew as [_ Hh]; simpl; rewrite Hh; apply tree_grows_refl).
  destruct Hnew as (-> & Hc1 & _ & n & Hh1 & _).
  rewrite (bindS_Ok _ _ _ _ _ Hn).
  destruct (update_new _ _ (set_boardState boardCopy) g1 Hh1)
    as (g2 & Hu2 & Hh2 & _).
  rewrite (bindS_Ok _ _ _ _ _ Hu2).
  destruct (update_new _ _ (set_move (x, y)) g2 Hh2) as (g3 & Hu3 & Hh3 & _).
  rewrite (bindS_Ok _ _ _ _ _ Hu3).
  destruct (update_new _ _ (set_player player) g3 Hh3)
    as (g4 & Hu4 & Hh4 & _).
  rewrite (bindS_Ok _ _ _ _ _ Hu4).
  destruct (update_new _ _ (set_parent (currentNode g)) g4 Hh4)
    as (g5 & Hu5 & Hh5 & _).
  rewrite (bindS_Ok _ _ _ _ _ Hu5).
  destruct (update_new _ _ (set_ko ko) g5 Hh5) as (g6 & Hu6 & Hh6 & _).
  rewrite (bindS_Ok _ _ _ _ _ Hu6).
  rewrite Hc.
  destruct (update_old _ _ c cur
              (fun m => set_children (children m ++ [length (heap g)]) m)
              g6 Hh6 Hcur) as (g7 & Hu7 & Hh7 & _).
  rewrite (bindS_Ok _ _ _ _ _ Hu7).
  simpl. rewrite Hh7. eapply tree_grows_child. exact Hcur.
Qed.

Lemma same_tree_catch_lift {A} (r : res A) :
  tree_rel same_tree (catch (lift r : ST Game A)).
Proof. apply same_tree_catch, same_tree_lift. Qed.





(** ** GTP coordinates *)



(** * Further properties of the code *)

(** ** SGF coordinates, both ways *)

Lemma byte_of_Z_byteZ (a : ascii) : byte_of_Z (byteZ a) = a.
Proof. unfold byteZ, byte_of_Z. rewrite N2Z.id. apply ascii_N_embedding. Qed.

Lemma byteZ_range (a : ascii) : 0 <= byteZ a < 256.
Proof.
  unfold byteZ. pose proof (N_ascii_bounded a) as H. lia.
Qed.

(** A character that [charToInt] accepts is the code of its number. *)
Lemma charToInt_accepts (c x : Z) :
  charToInt c = (x, None) ->
  coord_alphabet c /\ 0 <= x <= 51 /\ intToChar x = (string_of_rune c, None).
Proof.
  unfold charToInt, intToChar, coord_alphabet. intros H.
  destruct (decide (c >= 97 /\ c <= 122)) as [Hl|Hl].
  - injection H as <-. split; [lia|]. split; [lia|].
    rewrite decide_True by lia. do 2 f_equal. lia.
  - destruct (decide (c >= 65 /\ c <= 90)) as [Hu|Hu]; [|discriminate].
    injection H as <-. split; [lia|]. split; [lia|].
    rewrite decide_False by lia. rewrite decide_True by lia.
    do 2 f_equal. lia.
Qed.

(** X1. [convertSGFCoordToXY] accepts exactly the texts that
    [convertCoordinatesToSGF] writes for the points of a 52x52 board, and
    gives back the point. *)
Theorem convertSGFCoordToXY_iff (coord : string) (x y : Z) :
  convertSGFCoordToXY coord = Some (x, y) <->
  0 <= x <= 51 /\ 0 <= y <= 51 /\ coord = convertCoordinatesToSGF x y.
Proof.
  split.
  - destruct coord as [|c0 [|c1 [|c2 rest]]]; try discriminate.
    unfold convertSGFCoordToXY.
    destruct (charToInt (byteZ c0)) as [x0 [e0|]] eqn:H0;
      destruct (charToInt (byteZ c1)) as [y0 [e1|]] eqn:H1;
      try discriminate.
    case_decide as Hrange; [|discriminate]. intros Heq.
    injection Heq as <- <-.
    destruct (charToInt_accepts _ _ H0) as (Ha0 & Hx & Hi0).
    destruct (charToInt_accepts _ _ H1) as (Ha1 & Hy & Hi1).
    split; [exact Hx|]. split; [exact Hy|].
    unfold convertCoordinatesToSGF. rewrite Hi0, Hi1. simpl fst.
    rewrite !string_of_rune_ascii by (destruct Ha0, Ha1; lia).
    rewrite !byte_of_Z_byteZ. reflexivity.
  - intros (Hx & Hy & ->). apply convertSGFCoord_round_trip; assumption.
Qed.

(** ** The first pass of the parser, in full *)

(** The scan of [validateSGF], with the place where it stops. *)
Lemma validate_scan_first (l : list (Z * Z)) :
  forall n0, 0 <= n0 ->
    (exists n,
       foldM validate_rune l n0 = Ok n /\
       n = n0 + count_rune 40 l - count_rune 41 l /\
       forall pre, pre `prefix_of` l ->
                   count_rune 41 pre <= n0 + count_rune 40 pre) \/
    (exists i pre,
       foldM validate_rune l n0 = Err (UnmatchedClose i) /\
       (pre ++ [(i, 41)]) `prefix_of` l /\
       count_rune 41 pre = n0 + count_rune 40 pre /\
       forall pre', pre' `prefix_of` pre ->
                    count_rune 41 pre' <= n0 + count_rune 40 pre').
Proof.
  induction l as [|[i ch] l IH]; intros n0 Hn0.
  - left. exists n0. split; [reflexivity|].
    split; [unfold count_rune; simpl; lia|].
    intros pre Hpre. apply prefix_nil_inv in Hpre as ->.
    unfold count_rune. simpl. lia.
  - rewrite foldM_cons.
    assert (forall n1, 0 <= n1 ->
      n1 = n0 + (if decide (ch = 40) then 1 else 0)
              - (if decide (ch = 41) then 1 else 0) ->
      (exists n,
         foldM validate_rune l n1 = Ok n /\
         n = n0 + count_rune 40 ((i, ch) :: l) - count_rune 41 ((i, ch) :: l) /\
         forall pre, pre `prefix_of` (i, ch) :: l ->
                     count_rune 41 pre <= n0 + count_rune 40 pre) \/
      (exists j pre,
         foldM validate_rune l n1 = Err (UnmatchedClose j) /\
         (pre ++ [(j, 41)]) `prefix_of` (i, ch) :: l /\
         count_rune 41 pre = n0 + count_rune 40 pre /\
         forall pre', pre' `prefix_of` pre ->
                      count_rune 41 pre' <= n0 + count_rune 40 pre')) as Hstep.
    { intros n1 Hn1 Heq.
      destruct (IH n1 Hn1)
        as [(n & Hrun & Hn & Hpre)|(j & pre & Hrun & Hp & Hc & Hall)].
      - left. exists n. split; [exact Hrun|]. rewrite !count_rune_cons. simpl.
        split; [revert Heq; repeat case_decide; intros; lia|]. intros pre Hp.
        apply prefix_of_cons in Hp as [->|(pre' & -> & Hp')].
        + unfold count_rune. simpl. lia.
        + rewrite !count_rune_cons. simpl. specialize (Hpre pre' Hp').
          revert Heq. repeat case_decide; intros; lia.
      - right. exists j, ((i, ch) :: pre). split; [exact Hrun|].
        split; [simpl; apply prefix_cons; exact Hp|]. split.
        + rewrite !count_rune_cons. simpl.
          revert Heq. repeat case_decide; intros; lia.
        + intros pre' Hp'.
          apply prefix_of_cons in Hp' as [->|(pre'' & -> & Hp'')].
          * unfold count_rune. simpl. lia.
          * rewrite !count_rune_cons. simpl. specialize (Hall pre'' Hp'').
            revert Heq. repeat case_decide; intros; lia. }
    assert (validate_rune (i, ch) n0 =
            if decide (ch = 40) then Ok (n0 + 1)
            else if decide (ch = 41) then
                   if decide (n0 - 1 < 0) then Err (UnmatchedClose i)
                   else Ok (n0 - 1)
                 else Ok n0) as -> by reflexivity.
    destruct (decide (ch = 40)) as [E40|E40].
    + rewrite bind_ret. apply Hstep; [lia|]. repeat case_decide; lia.
    + destruct (decide (ch = 41)) as [E41|E41].
      * destruct (decide (n0 - 1 < 0)) as [Hneg|Hneg].
        -- right. exists i, []. split; [reflexivity|]. subst ch.
           split; [simpl; apply prefix_cons, prefix_nil|].
           split; [unfold count_rune; simpl; lia|].
           intros pre' Hp'. apply prefix_nil_inv in Hp' as ->.
           unfold count_rune. simpl. lia.
        -- rewrite bind_ret. apply Hstep; [lia|]. repeat case_decide; lia.
      * rewrite bind_ret. apply Hstep; [lia|]. repeat case_decide; lia.
Qed.

(** X2. [validateSGF] has three outcomes. It accepts the texts whose
    parentheses are balanced; it reports an unmatched closing
    parenthesis at the byte offset of the first one that closes nothing;
    and it reports an unmatched opening one when no closing one comes
    too early and some opening one stays open. It never panics. *)
Theorem validateSGF_outcomes (p : SGFParser) :
  (validateSGF p = Ok tt /\ parens_balanced (sgfContent p)) \/
  (validateSGF p = Err UnmatchedOpen /\
   (forall pre, pre `prefix_of` range_string (sgfContent p) ->
                count_rune 41 pre <= count_rune 40 pre) /\
   count_rune 41 (range_string (sgfContent p))
     < count_rune 40 (range_string (sgfContent p))) \/
  (exists i pre,
     validateSGF p = Err (UnmatchedClose i) /\
     (pre ++ [(i, 41)]) `prefix_of` range_string (sgfContent p) /\
     count_rune 41 pre = count_rune 40 pre /\
     forall pre', pre' `prefix_of` pre ->
                  count_rune 41 pre' <= count_rune 40 pre').
Proof.
  unfold validateSGF, parens_balanced, balanced.
  destruct (validate_scan_first (range_string (sgfContent p)) 0 ltac:(lia))
    as [(n & Hrun & Hn & Hpre)|(i & pre & Hrun & Hp & Hc & Hall)].
  - rewrite Hrun, bind_ret.
    assert (0 <= n) as Hpos.
    { specialize (Hpre _ (reflexivity _)). lia. }
    destruct (decide (n <> 0)) as [Hne|He].
    + right. left. split; [reflexivity|]. split; [|lia].
      intros pre Hp. specialize (Hpre pre Hp). lia.
    + left. split; [reflexivity|]. split; [|lia].
      intros pre Hp. specialize (Hpre pre Hp). lia.
  - rewrite Hrun. right. right. exists i, pre.
    split; [reflexivity|]. split; [exact Hp|]. split; [lia|].
    intros pre' Hp'. specialize (Hall pre' Hp'). lia.
Qed.

(** ** The rules engine: groups and liberties *)

(** X3. [hasLiberty] at any point of any board: true at an empty point, and
    at a stone of [p] whose group touches an empty point; false
    elsewhere, outside the board too. *)
Theorem hasLiberty_answer (sizeX sizeY : Z) (b : grid string) (p : string)
    (x y : Z) :
  grid_dims sizeX sizeY b -> p <> empty ->
  exists r,
    hasLiberty b x y p sizeX sizeY = Ok r /\
    (r = true <->
     cell_at b (x, y) = Some empty \/
     (cell_at b (x, y) = Some p /\ has_liberty b p (x, y))).
Proof.
  intros Hb Hp.
  destruct (dfs_spec sizeX sizeY b p Hb (search_fuel sizeX sizeY) x y ∅)
    as (r & V' & Hrun & Htrue & Hfalse).
  { unfold search_fuel. destruct Hb as (HX & HY & _).
    rewrite (unvisited_empty sizeX sizeY HX HY). lia. }
  exists r. split; [unfold hasLiberty; rewrite Hrun; reflexivity|].
  split; [exact Htrue|]. intros Hcase.
  destruct r; [reflexivity|]. exfalso.
  destruct (Hfalse eq_refl) as (_ & Hsealed & Hpoint).
  destruct Hcase as [He|[Hs Hlib]].
  - destruct Hpoint as [Hin|[_ Hne]]; [|congruence].
    destruct (Hsealed _ Hin ltac:(set_solver)) as [Hs _]. congruence.
  - destruct (hasLiberty_spec sizeX sizeY b p Hb x y Hs Hp)
      as (r' & Hr' & Hiff).
    unfold hasLiberty in Hr'. rewrite Hrun in Hr'. simpl in Hr'.
    injection Hr' as <-. apply Hiff in Hlib. discriminate.
Qed.

Lemma hasLiberty_answer_example :
  exists r,
    hasLiberty ko_board 1 1 white 4 3 = Ok r /\
    (r = true <->
     cell_at ko_board (1, 1) = Some empty \/
     (cell_at ko_board (1, 1) = Some white /\ has_liberty ko_board white (1, 1))).
Proof.
  apply (hasLiberty_answer 4 3 ko_board white 1 1).
  - unfold grid_dims. apply (bool_decide_unpack _). vm_compute. exact I.
  - discriminate.
Defined.

(** X4. [getGroupSize] counts the stones of the group of [(x, y)]: at least
    one at a stone of [p], and none at any other point. *)
Theorem getGroupSize_counts (sizeX sizeY : Z) (b : grid string) (p : string)
    (x y : Z) :
  grid_dims sizeX sizeY b ->
  exists k,
    getGroupSize b x y p sizeX sizeY = Ok k /\
    group_size b p (x, y) k /\
    (cell_at b (x, y) = Some p -> 1 <= k) /\
    (cell_at b (x, y) <> Some p -> k = 0).
Proof.
  intros Hb.
  destruct (getGroupSize_spec sizeX sizeY b p Hb x y) as (k & Hrun & Hk).
  exists k. split; [exact Hrun|]. split; [exact Hk|].
  destruct Hk as (S & HS & <-). split.
  - intros Hs. assert ((x, y) ∈ S) as Hin by (apply HS, connected_here, Hs).
    assert (size S <> 0%nat) as Hne.
    { intros H0. apply size_empty_inv in H0. set_solver. }
    lia.
  - intros Hs. assert (S ≡ ∅) as Hempty.
    { intros e. split; [|set_solver]. intros He. apply HS in He.
      apply connected_start in He. contradiction. }
    apply size_empty_iff in Hempty. lia.
Qed.

Lemma getGroupSize_counts_example :
  exists k,
    getGroupSize example_board 1 0 black 3 3 = Ok k /\
    group_size example_board black (1, 0) k /\
    (cell_at example_board (1, 0) = Some black -> 1 <= k) /\
    (cell_at example_board (1, 0) <> Some black -> k = 0).
Proof.
  apply (getGroupSize_counts 3 3 example_board black 1 0).
  unfold grid_dims. apply (bool_decide_unpack _). vm_compute. exact I.
Defined.

(** [removeGroup] with the set that its search visits. *)
Lemma removeGroup_full (sizeX sizeY : Z) (b : grid string) (p : string)
    (x y : Z) :
  grid_dims sizeX sizeY b ->
  exists (b' : grid string) (S : gset cell),
    removeGroup b x y p sizeX sizeY = Ok (b', Z.of_nat (size S)) /\
    is_group b p (x, y) S /\ grid_dims sizeX sizeY b' /\
    forall c, cell_at b' c = if decide (c ∈ S) then Some empty
                             else cell_at b c.
Proof.
  intros Hb.
  destruct (groupDFS_group sizeX sizeY b p Hb x y) as (S & HS & Hgroup).
  destruct (removeDFS_spec sizeX sizeY b p Hb (search_fuel sizeX sizeY) b x y ∅)
    as (b' & V' & Hg & Hr & _ & Hd & Hcells); [|exact Hb|auto|].
  { unfold search_fuel. destruct Hb as (HX & HY & _).
    rewrite (unvisited_empty sizeX sizeY HX HY). lia. }
  rewrite HS in Hg. injection Hg as <-.
  exists b', S. split; [unfold removeGroup; rewrite Hr; reflexivity|].
  split; [exact Hgroup|]. split; [exact Hd|].
  intros c. rewrite Hcells.
  destruct (decide (c ∈ S)) as [Hc|Hc].
  - rewrite decide_True; [reflexivity|]. split; [exact Hc|set_solver].
  - rewrite decide_False; [reflexivity|]. tauto.
Qed.

(** X5. [removeGroup] empties the points of the group of [(x, y)], leaves
    every other point as it is, and returns the number of stones it has
    removed. *)
Theorem removeGroup_clears_group (sizeX sizeY : Z) (b : grid string)
    (p : string) (x y : Z) :
  grid_dims sizeX sizeY b ->
  exists b' k,
    removeGroup b x y p sizeX sizeY = Ok (b', k) /\
    grid_dims sizeX sizeY b' /\ group_size b p (x, y) k /\
    (forall c, connected b p (x, y) c -> cell_at b' c = Some empty) /\
    (forall c, ~ connected b p (x, y) c -> cell_at b' c = cell_at b c).
Proof.
  intros Hb.
  destruct (removeGroup_full sizeX sizeY b p x y Hb)
    as (b' & S & Hrun & HS & Hd & Hcells).
  exists b', (Z.of_nat (size S)). split; [exact Hrun|]. split; [exact Hd|].
  split; [exists S; auto|]. split.
  - intros c Hc. rewrite Hcells, decide_True; [reflexivity|]. apply HS, Hc.
  - intros c Hc. rewrite Hcells, decide_False; [reflexivity|].
    intros Hin. apply Hc, HS, Hin.
Qed.

Lemma removeGroup_clears_group_example :
  exists b' k,
    removeGroup example_board 1 0 black 3 3 = Ok (b', k) /\
    grid_dims 3 3 b' /\ group_size example_board black (1, 0) k /\
    (forall c, connected example_board black (1, 0) c ->
               cell_at b' c = Some empty) /\
    (forall c, ~ connected example_board black (1, 0) c ->
               cell_at b' c = cell_at example_board c).
Proof.
  apply (removeGroup_clears_group 3 3 example_board black 1 0).
  unfold grid_dims. apply (bool_decide_unpack _). vm_compute. exact I.
Defined.

(** X6. [getCapturedStones] lists the neighbours of [(x, y)] that are stones
    of the opponent in a group without liberty, and nothing else; it is
    empty exactly when the stone captures nothing. *)
Theorem getCapturedStones_lists_dead (g : Game) (b : grid string) (x y : Z)
    (player : string) :
  grid_dims (sizeX g) (sizeY g) b -> player = black \/ player = white ->
  exists captured,
    getCapturedStones g b x y (switchPlayer player) = Ok captured /\
    (forall n, n ∈ captured <->
               dead_neighbour b (x, y) (switchPlayer player) n) /\
    (captured = [] <->
     ~ exists n, dead_neighbour b (x, y) (switchPlayer player) n).
Proof.
  intros Hb Hp.
  destruct (getCapturedStones_spec g b x y player Hb Hp)
    as (captured & Hrun & Hiff).
  exists captured. split; [exact Hrun|]. split; [exact Hiff|]. split.
  - intros -> (n & Hn). apply Hiff in Hn. inversion Hn.
  - intros Hno. destruct captured as [|n rest]; [reflexivity|].
    exfalso. apply Hno. exists n. apply Hiff. set_solver.
Qed.

Lemma getCapturedStones_lists_dead_example :
  exists captured,
    getCapturedStones (blank_game 4 3) ko_board 2 1 (switchPlayer black)
      = Ok captured /\
    (forall n, n ∈ captured <->
               dead_neighbour ko_board (2, 1) (switchPlayer black) n) /\
    (captured = [] <->
     ~ exists n, dead_neighbour ko_board (2, 1) (switchPlayer black) n).
Proof.
  apply (getCapturedStones_lists_dead (blank_game 4 3) ko_board 2 1 black).
  - unfold grid_dims. apply (bool_decide_unpack _). vm_compute. exact I.
  - left. reflexivity.
Defined.

(** ** The rules engine: what a stone removes *)

(** [captureStones] on the board [b] that holds the new stone: the
    board [cur] after the dead groups [R] next to the stone were
    removed, whether the stone is left with a liberty ([r]), and the
    board [b'] that results. *)
Lemma captureStones_result (g : Game) (b : grid string) (x y : Z)
    (player : string) :
  grid_dims (sizeX g) (sizeY g) b ->
  cell_at b (x, y) = Some player ->
  player = black \/ player = white ->
  exists (b' cur : grid string) (ko : cell) (R : gset cell) (r : bool),
    captureStones g b x y player = Ok (b', ko) /\
    grid_dims (sizeX g) (sizeY g) b' /\
    (forall e, e ∈ R <->
       exists m, dead_neighbour b (x, y) (switchPlayer player) m /\
                 connected b (switchPlayer player) m e) /\
    (forall e, cell_at cur e = if decide (e ∈ R) then Some empty
                               else cell_at b e) /\
    (r = true <->
     has_liberty b player (x, y) \/
     exists m, dead_neighbour b (x, y) (switchPlayer player) m) /\
    (r = true -> b' = cur) /\
    (r = false ->
     ko = (-1, -1) /\
     exists S : gset cell,
       is_group b player (x, y) S /\
       forall e, cell_at b' e = if decide (e ∈ S) then Some empty
                                else cell_at b e) /\
    (r = true -> has_liberty cur player (x, y)).
Proof.
  intros Hdims Hc Hplayer.
  set (opp := switchPlayer player). set (c := (x, y)) in *.
  pose proof (opp_not_empty player) as Hopp.
  pose proof (colour_not_empty player Hplayer) as Hpne.
  destruct (capture_loop_spec g b x y player Hdims Hplayer)
    as (cur & sizes & coords & R & Hfold & Hdc & HR & Hcur & Hdead & Hpair
        & Hall & Hsz).
  fold opp in HR, Hdead, Hall, Hsz, Hpair.
  assert (forall e, e ∈ R -> cell_at b e = Some opp) as HRopp.
  { intros e He. apply HR in He as (m & _ & Hme).
    eapply connected_end; exact Hme. }
  assert (forall e, cell_at cur e = Some player <-> cell_at b e = Some player)
    as Hsame.
  { intros e. rewrite Hcur. destruct (decide (e ∈ R)) as [He|He]; [|tauto].
    split; [intros H; injection H as H; congruence|].
    intros H. rewrite (HRopp e He) in H. injection H as H.
    exfalso. apply (switchPlayer_ne player). exact H. }
  assert (cell_at cur c = Some player) as Hcc by (apply Hsame; exact Hc).
  assert (forall d, connected cur player c d <-> connected b player c d)
    as Hconn.
  { intros d. split; apply reach_impl; intros u; apply Hsame. }
  destruct (hasLiberty_spec _ _ cur player Hdc x y Hcc Hpne)
    as (r & Hr & Hlib).
  assert (forall e, e ∈ R <->
            exists m, dead_neighbour b c opp m /\ connected b opp m e) as HR'.
  { intros e. rewrite HR. split.
    - intros (m & Hm & Hme). exists m. auto.
    - intros (m & Hm & Hme). apply Hall, HR in Hm as (m' & Hm' & Hmm).
      exists m'. split; [exact Hm'|]. eapply connected_trans; eauto. }
  assert (has_liberty cur player c <->
          has_liberty b player c \/ exists m, dead_neighbour b c opp m)
    as Hlib'.
  { split.
    - intros (d & e & Hd & Hde & He). rewrite Hcur in He.
      destruct (decide (e ∈ R)) as [HeR|HeR].
      + right. apply HR' in HeR as (m & Hm & _). eauto.
      + left. exists d, e. split; [apply Hconn; exact Hd|auto].
    - intros [(d & e & Hd & Hde & He)|(m & Hm)].
      + exists d, e. split; [apply Hconn; exact Hd|]. split; [exact Hde|].
        rewrite Hcur. destruct (decide (e ∈ R)); [reflexivity|exact He].
      + exists c, m. split; [apply connected_here; exact Hcc|].
        destruct Hm as (Hadj & Hbm & Hno). split; [exact Hadj|].
        rewrite Hcur, decide_True; [reflexivity|].
        apply HR'. exists m. split; [repeat split; assumption|].
        apply connected_here. exact Hbm. }
  assert (exists bfin,
            (if negb r
             then removeGroup cur x y player (sizeX g) (sizeY g)
                  ≫= (fun '(board', _) => Ok board')
             else Ok cur) = Ok bfin /\
            grid_dims (sizeX g) (sizeY g) bfin /\
            (r = true -> bfin = cur) /\
            (r = false ->
             exists S : gset cell,
               is_group cur player c S /\
               forall e, cell_at bfin e = if decide (e ∈ S) then Some empty
                                          else cell_at cur e))
    as (bfin & Hbfin & Hdfin & Hkeep & Hgone).
  { destruct r; simpl.
    - exists cur. split; [reflexivity|]. split; [exact Hdc|].
      split; [reflexivity|]. intros H. discriminate H.
    - destruct (removeGroup_full _ _ cur player x y Hdc)
        as (b' & S & Hrm & HS & Hd' & Hcells).
      rewrite Hrm. simpl. exists b'. split; [reflexivity|].
      split; [exact Hd'|]. split; [intros H; discriminate H|].
      intros _. exists S. auto. }
  pose proof (Forall2_length _ _ _ Hsz) as Hlen.
  assert (exists ko,
    (if decide (length sizes = 1%nat) then
       capturingGroupSize ← getGroupSize bfin x y player (sizeX g) (sizeY g);
       capturedGroupSize ← slice_get sizes 0;
       if decide (capturedGroupSize = 1 /\ capturingGroupSize = 1) then
         ko ← slice_get coords 0; Ok (bfin, ko)
       else Ok (bfin, (-1, -1))
     else Ok (bfin, (-1, -1))) = Ok (bfin, ko) /\
    (coords = [] -> ko = (-1, -1))) as (ko & Hko & Hnone).
  { destruct coords as [|n0 [|n1 rest]].
    - destruct sizes; [|discriminate]. simpl. eauto.
    - destruct sizes as [|k0 [|? ?]]; try discriminate. simpl.
      destruct (getGroupSize_spec _ _ bfin player Hdfin x y) as (k & Hk & _).
      rewrite Hk. simpl. unfold slice_get. simpl.
      case_decide; eexists; (split; [reflexivity|discriminate]).
    - destruct sizes as [|k0 [|k1 sizes]]; try discriminate. simpl.
      eexists. split; [reflexivity|discriminate]. }
  exists bfin, cur, ko, R, r.
  split.
  { unfold captureStones. cbv zeta. unfold opp in *. rewrite Hfold. simpl.
    rewrite Hr. simpl. rewrite Hbfin. simpl. exact Hko. }
  split; [exact Hdfin|]. split; [exact HR'|]. split; [exact Hcur|].
  split; [rewrite Hlib; exact Hlib'|]. split; [exact Hkeep|].
  split; [|apply Hlib].
  intros ->.
  assert (~ exists m, dead_neighbour b c opp m) as Hnodead.
  { intros Hm. assert (false = true) as Hf by (apply Hlib, Hlib'; auto).
    discriminate. }
  assert (coords = []) as Hcoords.
  { destruct coords as [|m ?]; [reflexivity|]. exfalso. apply Hnodead.
    exists m. apply Hdead. set_solver. }
  split; [apply Hnone; exact Hcoords|].
  assert (cur = b) as ->.
  { apply (grid_ext _ _ _ _ Hdc Hdims). intros e _. rewrite Hcur.
    rewrite decide_False; [reflexivity|].
    intros He. apply HR' in He as (m & Hm & _). apply Hnodead. eauto. }
  apply Hgone. reflexivity.
Qed.

(** X7. A stone that has a liberty or kills a neighbouring group stays on
    the board: [captureStones] empties the opposing groups without
    liberty next to the stone and changes no other point.
    (main.go 1668-1711, [captureStones].) *)
Theorem captureStones_removes_dead_groups (g : Game) (b : grid string)
    (x y : Z) (player : string) :
  grid_dims (sizeX g) (sizeY g) b ->
  cell_at b (x, y) = Some player ->
  player = black \/ player = white ->
  (has_liberty b player (x, y) \/
   exists m, dead_neighbour b (x, y) (switchPlayer player) m) ->
  exists b' ko,
    captureStones g b x y player = Ok (b', ko) /\
    grid_dims (sizeX g) (sizeY g) b' /\
    cell_at b' (x, y) = Some player /\
    (forall m e, dead_neighbour b (x, y) (switchPlayer player) m ->
                 connected b (switchPlayer player) m e ->
                 cell_at b' e = Some empty) /\
    (forall e, (~ exists m, dead_neighbour b (x, y) (switchPlayer player) m /\
                            connected b (switchPlayer player) m e) ->
               cell_at b' e = cell_at b e).
Proof.
  intros Hdims Hc Hplayer Hlive.
  destruct (captureStones_result g b x y player Hdims Hc Hplayer)
    as (b' & cur & ko & R & r & Hrun & Hd' & HR & Hcur & Hr & Hkeep & _).
  exists b', ko. split; [exact Hrun|]. split; [exact Hd'|].
  assert (b' = cur) as -> by (apply Hkeep, Hr; exact Hlive).
  assert (forall e, e ∉ R -> cell_at cur e = cell_at b e) as Hout.
  { intros e He. rewrite Hcur, decide_False; auto. }
  split.
  { rewrite Hout; [exact Hc|]. intros He. apply HR in He as (m & _ & Hme).
    apply connected_end in Hme. rewrite Hc in Hme. injection Hme as Hme.
    apply (switchPlayer_ne player). auto. }
  split.
  - intros m e Hm Hme. rewrite Hcur, decide_True; [reflexivity|].
    apply HR. eauto.
  - intros e He. apply Hout. intros HeR. apply He, HR, HeR.
Qed.

Lemma captureStones_removes_dead_groups_example :
  exists b' ko,
    captureStones (blank_game 4 3) ko_board 2 1 black = Ok (b', ko) /\
    grid_dims 4 3 b' /\
    cell_at b' (2, 1) = Some black /\
    (forall m e, dead_neighbour ko_board (2, 1) (switchPlayer black) m ->
                 connected ko_board (switchPlayer black) m e ->
                 cell_at b' e = Some empty) /\
    (forall e, (~ exists m, dead_neighbour ko_board (2, 1)
                              (switchPlayer black) m /\
                            connected ko_board (switchPlayer black) m e) ->
               cell_at b' e = cell_at ko_board e).
Proof.
  assert (grid_dims 4 3 ko_board) as Hd.
  { unfold grid_dims. apply (bool_decide_unpack _). vm_compute. exact I. }
  apply (captureStones_removes_dead_groups (blank_game 4 3) ko_board 2 1
           black).
  - exact Hd.
  - vm_compute. reflexivity.
  - left. reflexivity.
  - right. exists (1, 1). split; [|split].
    + exists (-1, 0). split; [|reflexivity]. unfold dirs. set_solver.
    + vm_compute. reflexivity.
    + intros Hlib.
      destruct (hasLiberty_spec 4 3 ko_board white Hd 1 1) as (r & Hr & Hiff).
      * vm_compute. reflexivity.
      * discriminate.
      * apply Hiff in Hlib. subst r. vm_compute in Hr. discriminate Hr.
Defined.

(** X8. A stone without a liberty that kills nothing is removed at once
    with its whole group: the other points keep their content and no ko
    point is set.  (main.go 1668-1711, [captureStones]; 1740-1767,
    [removeGroup].) *)
Theorem captureStones_suicide (g : Game) (b : grid string) (x y : Z)
    (player : string) :
  grid_dims (sizeX g) (sizeY g) b ->
  cell_at b (x, y) = Some player ->
  player = black \/ player = white ->
  ~ has_liberty b player (x, y) ->
  (forall m, ~ dead_neighbour b (x, y) (switchPlayer player) m) ->
  exists b',
    captureStones g b x y player = Ok (b', (-1, -1)) /\
    grid_dims (sizeX g) (sizeY g) b' /\
    (forall e, connected b player (x, y) e -> cell_at b' e = Some empty) /\
    (forall e, ~ connected b player (x, y) e -> cell_at b' e = cell_at b e).
Proof.
  intros Hdims Hc Hplayer Hnolib Hnodead.
  destruct (captureStones_result g b x y player Hdims Hc Hplayer)
    as (b' & cur & ko & R & r & Hrun & Hd' & HR & Hcur & Hr & _ & Hgone & _).
  assert (r = false) as ->.
  { destruct r; [|reflexivity]. exfalso.
    destruct Hr as [Hr _]. destruct (Hr eq_refl) as [H|(m & Hm)].
    - exact (Hnolib H).
    - exact (Hnodead m Hm). }
  destruct (Hgone eq_refl) as (-> & S & HS & Hcells).
  exists b'. split; [exact Hrun|]. split; [exact Hd'|]. split.
  - intros e He. rewrite Hcells, decide_True; [reflexivity|].
    apply HS. exact He.
  - intros e He. rewrite Hcells, decide_False; [reflexivity|].
    intros HeS. apply He, HS, HeS.
Qed.

Lemma captureStones_suicide_example :
  exists b',
    captureStones (blank_game 3 3) suicide_board 0 0 black
      = Ok (b', (-1, -1)) /\
    grid_dims 3 3 b' /\
    (forall e, connected suicide_board black (0, 0) e ->
               cell_at b' e = Some empty) /\
    (forall e, ~ connected suicide_board black (0, 0) e ->
               cell_at b' e = cell_at suicide_board e).
Proof.
  assert (grid_dims 3 3 suicide_board) as Hd.
  { unfold grid_dims. apply (bool_decide_unpack _). vm_compute. exact I. }
  apply (captureStones_suicide (blank_game 3 3) suicide_board 0 0 black).
  - exact Hd.
  - vm_compute. reflexivity.
  - left. reflexivity.
  - intros Hlib.
    destruct (hasLiberty_spec 3 3 suicide_board black Hd 0 0)
      as (r & Hr & Hiff).
    + vm_compute. reflexivity.
    + discriminate.
    + apply Hiff in Hlib. subst r. vm_compute in Hr. discriminate Hr.
  - intros m (Hadj & Hcell & Hno). destruct Hadj as (v & Hv & ->).
    unfold dirs in Hv.
    repeat (apply elem_of_cons in Hv as [->|Hv]);
      try (vm_compute in Hcell; discriminate Hcell).
    + apply Hno. exists (0, 1), (0, 2).
      split; [apply connected_here; vm_compute; reflexivity|].
      split; [|vm_compute; reflexivity].
      exists (0, 1). split; [|reflexivity]. unfold dirs. set_solver.
    + apply Hno. exists (1, 0), (2, 0).
      split; [apply connected_here; vm_compute; reflexivity|].
      split; [|vm_compute; reflexivity].
      exists (1, 0). split; [|reflexivity]. unfold dirs. set_solver.
    + apply elem_of_nil in Hv. destruct Hv.
Defined.

(** ** Scoring *)

(** [initializeTerritoryMap] on the game, with the owner of every
    point. *)
Lemma initializeTerritoryMap_cells (g0 : Game) (b : grid string) :
  board_of g0 b ->
  exists g,
    initializeTerritoryMap g0 = (Ok tt, g) /\ scoring_inv g0 b g /\
    forall c s, cell_at b c = Some s ->
                cell_at (territoryMap g) c = Some (initial_owner s).
Proof.
  intros Hboard.
  destruct (initializeTerritoryMap_spec g0 b Hboard) as (g & Hrun & Hinv).
  exists g. split; [exact Hrun|]. split; [exact Hinv|].
  destruct Hboard as (p & cur & Hcn & Hheap & Hcur & Hb).
  revert Hrun.
  unfold initializeTerritoryMap, mbind, ST_bind, get, deref, lift, modify.
  case_decide as Hsz.
  - rewrite Hcn, Hheap, Hcur.
    destruct (territory_of_board_spec _ _ b Hb) as (tm & Htm & Hd & Hcells).
    rewrite Htm. intros Heq. injection Heq as <-. simpl. exact Hcells.
  - intros _ c s Hc. rewrite (no_points _ _ b c Hb Hsz) in Hc. discriminate.
Qed.

(** When the stones own themselves, the colours that border a region
    in the map are the colours that touch it on the board. *)
Lemma borders_touches (b tm : grid string) (c : cell) (col : string) :
  (forall n s, cell_at b n = Some s -> s <> empty ->
               cell_at tm n = Some (initial_owner s)) ->
  borders b tm c col <-> touches b c col.
Proof.
  intros Hown. unfold borders, touches. split.
  - intros (Hcol & d & n & s & Hd & Hdn & Hs & Hne & Hn).
    split; [exact Hcol|]. exists d, n. split; [exact Hd|].
    split; [exact Hdn|]. rewrite (Hown n s Hs Hne) in Hn.
    injection Hn as Hn. unfold initial_owner in Hn.
    case_decide as Hs'; [congruence|].
    exfalso. apply undecided_no_colour. rewrite Hn. exact Hcol.
  - intros (Hcol & d & n & Hd & Hdn & Hn).
    split; [exact Hcol|]. exists d, n, col. split; [exact Hd|].
    split; [exact Hdn|]. split; [exact Hn|].
    split; [apply colour_not_empty; exact Hcol|].
    rewrite (Hown n col Hn (colour_not_empty col Hcol)).
    unfold initial_owner. rewrite decide_True by exact Hcol. reflexivity.
Qed.

(** X9. Entering the score mode builds the territory map from the board of
    the current node: every stone belongs to its colour, and every empty
    point belongs to the one colour whose stones touch its region, or is
    undecided when no colour or both colours touch it. The board and the
    tree stay as they are.  (main.go 784-789, [enterScoringMode];
    803-816, [initializeTerritoryMap]; 818-875,
    [assignTerritoryToEmptyRegions].) *)
Theorem enterScoringMode_territory (g0 : Game) (b : grid string) :
  board_of g0 b ->
  exists g,
    enterScoringMode g0 = (Ok tt, g) /\
    currentNode g = currentNode g0 /\ heap g = heap g0 /\
    grid_dims (sizeX g0) (sizeY g0) (territoryMap g) /\
    (forall c col, cell_at b c = Some col -> col = black \/ col = white ->
                   cell_at (territoryMap g) c = Some col) /\
    (forall c, cell_at b c = Some empty ->
               exists o, cell_at (territoryMap g) c = Some o /\
                         territory_owner b c o).
Proof.
  intros Hboard.
  destruct (initializeTerritoryMap_cells g0 b Hboard)
    as (g1 & Hrun1 & Hinv1 & Hcells).
  destruct (assign_game_spec g0 b Hboard g1 Hinv1)
    as (g2 & Hrun2 & Hinv2 & Hsettled & Hkeep).
  exists g2. split.
  { unfold enterScoringMode, mbind, ST_bind. rewrite Hrun1. exact Hrun2. }
  destruct Hinv2 as (_ & _ & Hcn & Hheap & Hd & _).
  split; [exact Hcn|]. split; [exact Hheap|]. split; [exact Hd|].
  assert (forall n s, cell_at b n = Some s -> s <> empty ->
            cell_at (territoryMap g2) n = Some (initial_owner s)) as Hown.
  { intros n s Hs Hne. rewrite (Hkeep n s Hs Hne). apply Hcells, Hs. }
  split.
  - intros c col Hc Hcol. rewrite (Hown c col Hc (colour_not_empty col Hcol)).
    unfold initial_owner. rewrite decide_True by exact Hcol. reflexivity.
  - intros c Hc. destruct (Hsettled c Hc) as (o & Ho & Hspec).
    exists o. split; [exact Ho|].
    pose proof (fun c col => borders_touches b (territoryMap g2) c col Hown)
      as Hbt.
    destruct Hspec as [[Hb Huniq]|[-> Hnone]].
    + left. split; [apply Hbt; exact Hb|].
      intros col Hcol. apply Huniq, Hbt, Hcol.
    + right. split; [reflexivity|]. intros (col & Hcol & Huniq).
      apply Hnone. exists col. split; [apply Hbt; exact Hcol|].
      intros col' Hcol'. apply Huniq, Hbt, Hcol'.
Qed.

Lemma enterScoringMode_territory_example :
  exists g,
    enterScoringMode example_game = (Ok tt, g) /\
    currentNode g = currentNode example_game /\
    heap g = heap example_game /\
    grid_dims (sizeX example_game) (sizeY example_game) (territoryMap g) /\
    (forall c col, cell_at example_board c = Some col ->
                   col = black \/ col = white ->
                   cell_at (territoryMap g) c = Some col) /\
    (forall c, cell_at example_board c = Some empty ->
               exists o, cell_at (territoryMap g) c = Some o /\
                         territory_owner example_board c o).
Proof.
  apply (enterScoringMode_territory example_game example_board).
  exists 4%nat. eexists. split; [vm_compute; reflexivity|].
  split; [vm_compute; reflexivity|].
  split; [vm_compute; reflexivity|]. unfold grid_dims.
  apply (bool_decide_unpack _). vm_compute. exact I.
Defined.

(** [assignTerritoryToEmptyRegions] and [toggleGroupStatus] write the
    territory map and nothing else. *)
Lemma assignTerritoryToEmptyRegions_frame (g g' : Game) (r : res unit) :
  assignTerritoryToEmptyRegions g = (r, g') ->
  g' = set_territoryMap (territoryMap g') g.
Proof.
  unfold assignTerritoryToEmptyRegions, mbind, ST_bind, get, deref, lift,
    modify, mret, ST_ret.
  case_decide.
  - destruct (currentNode g) as [p|];
      [|intros Heq; injection Heq as _ <-; symmetry;
        apply set_territoryMap_same].
    destruct (heap g !! p) as [cur|];
      [|intros Heq; injection Heq as _ <-; symmetry;
        apply set_territoryMap_same].
    destruct (assign_territory _ _ _ _) as [tm| | | |];
      intros Heq; injection Heq as _ <-;
      try (symmetry; apply set_territoryMap_same).
    reflexivity.
  - destruct (make_grid _ _ _);
      intros Heq; injection Heq as _ <-; symmetry;
      apply set_territoryMap_same.
Qed.

Lemma toggleGroupStatus_frame (x y : Z) (g g' : Game) (r : res unit) :
  toggleGroupStatus x y g = (r, g') ->
  g' = set_territoryMap (territoryMap g') g.
Proof.
  unfold toggleGroupStatus. unfold mbind at 1 2 3 4 5. unfold ST_bind.
  unfold get, deref, lift, modify, mret, ST_ret.
  destruct (currentNode g) as [p|];
    [|intros Heq; injection Heq as _ <-; symmetry;
      apply set_territoryMap_same].
  destruct (heap g !! p) as [cur|];
    [|intros Heq; injection Heq as _ <-; symmetry;
      apply set_territoryMap_same].
  destruct (grid_get (boardState cur) x y) as [o| | | |];
    try (intros Heq; injection Heq as _ <-; symmetry;
         apply set_territoryMap_same).
  case_decide;
    [intros Heq; injection Heq as _ <-; symmetry;
     apply set_territoryMap_same|].
  destruct (toggle_flip _ _ _ _ _ _ _) as [tm| | | |];
    try (intros Heq; injection Heq as _ <-; symmetry;
         apply set_territoryMap_same).
  intros Heq. apply assignTerritoryToEmptyRegions_frame in Heq.
  rewrite Heq. reflexivity.
Qed.

Lemma switchPlayer_twice (o : string) :
  o = black \/ o = white -> switchPlayer (switchPlayer o) = o.
Proof. intros [-> | ->]; reflexivity. Qed.

(** X10. On a territory map that scoring has produced and
    [assignTerritoryToEmptyRegions] has completed, toggling the same
    stone of one of the two colours twice gives back the game as it
    was, the territory map with it.  (main.go 902-952,
    [toggleGroupStatus]; 818-875, [assignTerritoryToEmptyRegions].) *)
Theorem toggleGroupStatus_twice (g0 g1 g : Game) (b : grid string)
    (x y : Z) (col : string) :
  board_of g0 b -> scoring g0 g1 ->
  assignTerritoryToEmptyRegions g1 = (Ok tt, g) ->
  cell_at b (x, y) = Some col -> col = black \/ col = white ->
  (_ ← toggleGroupStatus x y; toggleGroupStatus x y) g = (Ok tt, g).
Proof.
  intros Hboard Hsc Hassign Hxy Hbw.
  pose proof (scoring_invariant g0 b Hboard g1 Hsc) as Hinv1.
  destruct (assign_game_spec g0 b Hboard g1 Hinv1)
    as (g_ & Hrun & Hinv & Hsettled & _).
  rewrite Hassign in Hrun. injection Hrun as <-.
  destruct (toggle_game_spec g0 b Hboard g x y col Hinv Hxy Hbw)
    as (g' & Hrun' & Hinv' & Hsettled' & Hflip' & Hkeep').
  destruct (toggle_game_spec g0 b Hboard g' x y col Hinv' Hxy Hbw)
    as (g'' & Hrun'' & Hinv'' & Hsettled'' & Hflip'' & Hkeep'').
  unfold mbind at 1. unfold ST_bind. rewrite Hrun', Hrun''. f_equal.
  pose proof (toggleGroupStatus_frame _ _ _ _ _ Hrun') as Hf'.
  pose proof (toggleGroupStatus_frame _ _ _ _ _ Hrun'') as Hf''.
  assert (territoryMap g'' = territoryMap g) as Hmap.
  { pose proof Hinv as (_ & _ & _ & _ & Hd & _ & Hcol & _).
    pose proof Hinv'' as (_ & _ & _ & _ & Hd'' & _).
    pose proof Hboard as (p & cur & _ & _ & _ & Hb).
    destruct (Hcol _ _ Hxy Hbw) as [Hown|Hown];
      destruct (toggle_flip_spec _ _ b (territoryMap g) col _ x y Hb Hd Hxy
                  Hown) as (_ & V & _ & _ & HV & _).
    all: assert (forall n s, cell_at b n = Some s -> s <> empty ->
                   cell_at (territoryMap g'') n = cell_at (territoryMap g) n)
           as Hstones.
    all: try (intros n s Hs Hne;
      destruct (decide (n ∈ V /\ s = col)) as [[Hn ->]|Hout];
      [ assert (toggled_group b (x, y) n) as Hgrp
          by (exists col; repeat split; try assumption; apply HV, Hn);
        destruct (Hflip' n Hgrp) as (o & Ho & Hobw & Ho');
        destruct (Hflip'' n Hgrp) as (o' & Ho'' & _ & Hnew);
        rewrite Hnew, Ho;
        assert (o' = switchPlayer o) as -> by congruence;
        rewrite (switchPlayer_twice o Hobw); reflexivity
      | assert (~ toggled_group b (x, y) n) as Hgrp
          by (intros Hg;
              destruct (toggled_group_flood b _ _ col Hxy Hg) as [Hfl Hn];
              apply Hout; split; [apply HV, Hfl|congruence]);
        rewrite (Hkeep'' n s Hs Hne Hgrp);
        apply (Hkeep' n s Hs Hne Hgrp) ]).
    all: apply (grid_ext _ _ _ _ Hd'' Hd); intros c Hc;
      destruct (in_bounds_cell_at _ _ _ _ Hb Hc) as [s Hs];
      destruct (decide (s = empty)) as [->|Hne]; [|eapply Hstones; eauto];
      destruct (Hsettled'' c Hs) as (o'' & Ho'' & Hspec'');
      destruct (Hsettled c Hs) as (o & Ho & Hspec);
      rewrite Ho'', Ho; f_equal;
      eapply region_owner_spec_unique; [|exact Hspec];
      eapply region_owner_spec_ext; [|exact Hspec'']; exact Hstones. }
  pose proof (f_equal (set_territoryMap (territoryMap g)) Hf') as Hg.
  rewrite Hf'', Hmap.
  transitivity (set_territoryMap (territoryMap g) g);
    [exact Hg|apply set_territoryMap_same].
Qed.

Lemma toggleGroupStatus_twice_example :
  (_ ← toggleGroupStatus 1 1; toggleGroupStatus 1 1) example_scoring
    = (Ok tt, example_scoring).
Proof.
  apply (toggleGroupStatus_twice example_game
           (exec initializeTerritoryMap example_game) example_scoring
           example_board 1 1 white).
  - exists 4%nat. eexists. split; [vm_compute; reflexivity|].
    split; [vm_compute; reflexivity|].
    split; [vm_compute; reflexivity|]. unfold grid_dims.
    apply (bool_decide_unpack _). vm_compute. exact I.
  - apply scoring_enter. vm_compute. reflexivity.
  - vm_compute. reflexivity.
  - reflexivity.
  - right. reflexivity.
Defined.

(** ** GTP coordinates *)

Lemma digits_value_pos (d : Decimal.uint) (acc : positive) :
  digits_value (Z.pos acc) (NilEmpty.string_of_uint d)
    = Some (Z.pos (Pos.of_uint_acc d acc)).
Proof.
  revert acc. induction d; intros acc; simpl; try reflexivity;
    rewrite <- IHd; f_equal; unfold byteZ; simpl N_of_ascii; lia.
Qed.

Lemma digits_value_uint (d : Decimal.uint) :
  digits_value 0 (NilEmpty.string_of_uint d) = Some (Z.of_N (Pos.of_uint d)).
Proof.
  induction d; simpl; try reflexivity; try exact IHd;
    rewrite <- digits_value_pos; f_equal.
Qed.

Lemma string_of_uint_digit (d : Decimal.uint) :
  d <> Decimal.Nil ->
  exists a s, NilEmpty.string_of_uint d = String a s /\ is_digit a = true.
Proof.
  destruct d; [congruence|..]; intros _; simpl; eexists _, _;
    (split; [reflexivity|reflexivity]).
Qed.

(** [strconv.Atoi] reads back what [%d] prints. *)
Lemma strconv_Atoi_itoa (n : Z) :
  0 < n <= 9223372036854775807 ->
  strconv_Atoi (itoa n) = Ok n /\ 1 <= string_len (itoa n).
Proof.
  intros Hn. destruct n as [|p|p]; try lia.
  unfold itoa. simpl.
  assert (Pos.to_uint p <> Decimal.Nil) as Hnil.
  { intros H. pose proof (DecimalPos.Unsigned.of_to p) as Hp.
    rewrite H in Hp. discriminate. }
  assert (NilZero.string_of_uint (Pos.to_uint p)
          = NilEmpty.string_of_uint (Pos.to_uint p)) as ->.
  { destruct (Pos.to_uint p); [congruence|reflexivity..]. }
  pose proof (digits_value_uint (Pos.to_uint p)) as Hval.
  rewrite DecimalPos.Unsigned.of_to in Hval.
  destruct (string_of_uint_digit _ Hnil) as (a & s & Hs & Ha).
  rewrite Hs in *. split.
  - unfold strconv_Atoi.
    assert (a <> "-"%char /\ a <> "+"%char) as [Hm Hp].
    { split; intros ->; discriminate. }
    assert (match String a s with
            | String "-" s' => (true, s')
            | String "+" s' => (false, s')
            | _ => (false, String a s)
            end = (false, String a s)) as ->.
    { destruct a as [[] [] [] [] [] [] [] []]; try reflexivity;
        congruence. }
    rewrite Hval. simpl Z.of_N.
    destruct (Z.leb_spec (- 9223372036854775808) (Z.pos p)); [|lia].
    destruct (Z.leb_spec (Z.pos p) 9223372036854775807); [|lia].
    reflexivity.
  - unfold string_len. simpl. lia.
Qed.

Lemma substring_all (s : string) : substring 0 (String.length s) s = s.
Proof. induction s as [|a s IH]; simpl; [reflexivity|]. rewrite IH. auto. Qed.

Lemma substring_none (s : string) : substring 0 0 s = EmptyString.
Proof. destruct s; reflexivity. Qed.

(** The letter of a column is one byte, and the search finds the
    column again. *)
Lemma letter_of_column (x : Z) :
  0 <= x < 25 ->
  exists a,
    string_of_rune (default 0 (letterRunes !! Z.to_nat x))
      = String a EmptyString /\
    find_letter (String a EmptyString) 0 letterRunes = x.
Proof.
  intros Hx.
  assert (exists k, x = Z.of_nat k /\ (k < 25)%nat) as (k & -> & Hk)
    by (exists (Z.to_nat x); lia).
  rewrite Nat2Z.id.
  do 25 (destruct k as [|k];
         [eexists; split; vm_compute; reflexivity|]).
  lia.
Qed.

Lemma find_letter_range (letter : string) (rs : list Z) (i : Z) :
  find_letter letter i rs = -1 \/
  i <= find_letter letter i rs < i + Z.of_nat (length rs).
Proof.
  revert i. induction rs as [|r rs IH]; intros i; simpl; [auto|].
  case_decide; [right; lia|].
  destruct (IH (i + 1)) as [H'|H']; [auto|right; lia].
Qed.

Lemma gtpToClientCoords_range (g : Game) (coord : string) (x y : Z) :
  gtpToClientCoords g coord = Ok (x, y) -> 0 <= x < 25 /\ 0 <= y < sizeY g.
Proof.
  unfold gtpToClientCoords. case_decide as Hlen; [discriminate|].
  destruct (string_slice coord 0 1) as [letter| | | |]; try discriminate.
  destruct (string_slice coord 1 (string_len coord)) as [num| | | |];
    try discriminate.
  rewrite !bind_ret. cbv zeta.
  pose proof (find_letter_range letter letterRunes 0) as Hrange.
  change (Z.of_nat (length letterRunes)) with 25 in Hrange.
  revert Hrange. generalize (find_letter letter 0 letterRunes).
  intros fx Hrange. case_decide as Hx; [discriminate|].
  destruct (strconv_Atoi num) as [n| | | |]; try discriminate.
  rewrite bind_ret. cbv zeta. case_decide as Hy; [discriminate|].
  intros Heq. injection Heq as <- <-. lia.
Qed.

(** X11. The coordinate that [clientToGTPCoords] writes for a point of the
    first 25 columns is read back by [gtpToClientCoords] as that point.
    The number of rows is a machine integer.  (main.go 703-713,
    [clientToGTPCoords]; 715-741, [gtpToClientCoords].) *)
Theorem gtpToClientCoords_clientToGTPCoords (g : Game) (x y : Z) :
  0 <= x < 25 -> 0 <= y < sizeY g -> sizeY g <= 9223372036854775807 ->
  gtpToClientCoords g (clientToGTPCoords g x y) = Ok (x, y).
Proof.
  intros Hx Hy Hmax.
  assert (length letterRunes = 25%nat) as Hlen by (vm_compute; reflexivity).
  destruct (letter_of_column x Hx) as (a & Ha & Hfind).
  destruct (strconv_Atoi_itoa (sizeY g - y)) as [Hatoi Hnum]; [lia|].
  unfold clientToGTPCoords. rewrite Hlen, decide_False by lia.
  cbv zeta. rewrite Ha.
  change (String a EmptyString +:+ itoa (sizeY g - y))
    with (String a (itoa (sizeY g - y))).
  set (num := itoa (sizeY g - y)) in *.
  assert (string_len (String a num) = 1 + string_len num) as Hl.
  { unfold string_len. simpl String.length. lia. }
  assert (string_slice (String a num) 0 1 = Ok (String a EmptyString))
    as Hs1.
  { unfold string_slice. rewrite decide_True by lia.
    change (Z.to_nat (1 - 0)) with 1%nat. change (Z.to_nat 0) with 0%nat.
    simpl. rewrite substring_none. reflexivity. }
  assert (string_slice (String a num) 1 (string_len (String a num)) = Ok num)
    as Hs2.
  { unfold string_slice. rewrite decide_True by lia.
    rewrite Hl. replace (Z.to_nat (1 + string_len num - 1))
      with (String.length num) by (unfold string_len; lia).
    change (Z.to_nat 1) with 1%nat. simpl. rewrite substring_all.
    reflexivity. }
  unfold gtpToClientCoords. rewrite decide_False by lia.
  rewrite Hs1, Hs2, !bind_ret. cbv zeta.
  rewrite Hfind, decide_False by lia.
  rewrite Hatoi, bind_ret. cbv zeta. rewrite decide_False by lia.
  do 2 f_equal. lia.
Qed.

Lemma gtpToClientCoords_clientToGTPCoords_example :
  gtpToClientCoords example_game (clientToGTPCoords example_game 2 0)
    = Ok (2, 0).
Proof.
  apply (gtpToClientCoords_clientToGTPCoords example_game 2 0).
  - lia.
  - vm_compute. split; [discriminate|reflexivity].
  - vm_compute. discriminate.
Defined.

(** X12. A coordinate that [gtpToClientCoords] accepts gives a row of the
    board and one of the 25 columns that have a letter: the column is
    not compared with the width of the board.  (main.go 715-741,
    [gtpToClientCoords].) *)
Theorem gtpToClientCoords_bounds (g : Game) (coord : string) (x y : Z) :
  gtpToClientCoords g coord = Ok (x, y) ->
  0 <= x < 25 /\ 0 <= y < sizeY g /\ 2 <= string_len coord.
Proof.
  intros Hrun. destruct (gtpToClientCoords_range g coord x y Hrun) as [Hx Hy].
  split; [exact Hx|]. split; [exact Hy|].
  revert Hrun. unfold gtpToClientCoords.
  case_decide as Hlen; [discriminate|]. lia.
Qed.

Lemma gtpToClientCoords_bounds_example :
  0 <= 24 < 25 /\ 0 <= 2 < sizeY (blank_game 3 3) /\
  2 <= string_len "Z1".
Proof.
  apply (gtpToClientCoords_bounds (blank_game 3 3) "Z1" 24 2).
  vm_compute. reflexivity.
Defined.

(** ** A click in the play mode *)

(** The node that [play_stone] adds. *)
Lemma play_stone_run (g : Game) (p : ptr) (cur : GameTreeNode) (x y : Z)
    (col : string) (b1 b' : grid string) (ko : cell) :
  currentNode g = Some p -> heap g !! p = Some cur ->
  0 <= sizeX g -> 0 <= sizeY g ->
  grid_set (boardState cur) x y col = Ok b1 ->
  captureStones g b1 x y col = Ok (b', ko) ->
  exists g' n,
    play_stone x y col g = (Ok (length (heap g)), g') /\
    currentNode g' = Some (length (heap g)) /\
    gtpCmd g' = gtpCmd g /\
    heap g' = alter (fun m => set_children (children m ++ [length (heap g)]) m)
                p (heap g) ++ [n] /\
    boardState n = b' /\ move n = (x, y) /\ player n = col /\
    parent n = Some p /\ (koX n, koY n) = ko /\ children n = [].
Proof.
  intros Hc Hcur HX HY Hset Hcap.
  destruct (newGameTreeNode_Ok g HX HY) as (g1 & Hn).
  pose proof (newGameTreeNode_cases g) as Hnew. rewrite Hn in Hnew.
  destruct Hnew as (_ & Hc1 & Hg1 & n & Hh1 & Hkx & Hky & Hkids).
  unfold play_stone.
  rewrite (bindS_Ok get _ g g g eq_refl).
  rewrite (bindS_Ok (deref (currentNode g)) _ g g cur)
    by (unfold deref; rewrite Hc, Hcur; reflexivity).
  unfold copyBoard. rewrite Hset.
  rewrite (bindS_Ok (lift (Ok b1)) _ g g b1 eq_refl).
  rewrite Hcap.
  rewrite (bindS_Ok (lift (Ok (b', ko))) _ g g _ eq_refl).
  rewrite (bindS_Ok _ _ _ _ _ Hn).
  destruct (update_new _ _ (set_boardState b') g1 Hh1)
    as (g2 & Hu2 & Hh2 & Hc2 & Hg2).
  rewrite (bindS_Ok _ _ _ _ _ Hu2).
  destruct (update_new _ _ (set_move (x, y)) g2 Hh2)
    as (g3 & Hu3 & Hh3 & Hc3 & Hg3).
  rewrite (bindS_Ok _ _ _ _ _ Hu3).
  destruct (update_new _ _ (set_player col) g3 Hh3)
    as (g4 & Hu4 & Hh4 & Hc4 & Hg4).
  rewrite (bindS_Ok _ _ _ _ _ Hu4).
  destruct (update_new _ _ (set_parent (currentNode g)) g4 Hh4)
    as (g5 & Hu5 & Hh5 & Hc5 & Hg5).
  rewrite (bindS_Ok _ _ _ _ _ Hu5).
  destruct (update_new _ _ (set_ko ko) g5 Hh5)
    as (g6 & Hu6 & Hh6 & Hc6 & Hg6).
  rewrite (bindS_Ok _ _ _ _ _ Hu6).
  rewrite Hc.
  destruct (update_old _ _ p cur
              (fun m => set_children (children m ++ [length (heap g)]) m)
              g6 Hh6 Hcur) as (g7 & Hu7 & Hh7 & Hc7 & Hg7).
  rewrite (bindS_Ok _ _ _ _ _ Hu7).
  eexists _, _. split; [reflexivity|]. simpl.
  split; [reflexivity|]. split; [congruence|]. split; [exact Hh7|].
  simpl. rewrite Hc. destruct ko. repeat split; assumption.
Qed.

(** The answer of [isMoveLegal] at a point of the board. *)
Lemma isMoveLegal_result (g : Game) (p0 : ptr) (cur : GameTreeNode)
    (x y : Z) (col : string) :
  currentNode g = Some p0 -> heap g !! p0 = Some cur ->
  grid_dims (sizeX g) (sizeY g) (boardState cur) ->
  in_bounds (sizeX g) (sizeY g) (x, y) ->
  col = black \/ col = white ->
  exists r b1,
    isMoveLegal x y col g = (Ok r, g) /\
    grid_set (boardState cur) x y col = Ok b1 /\
    grid_dims (sizeX g) (sizeY g) b1 /\
    cell_at b1 (x, y) = Some col /\
    (r = true <->
     ~ (x = koX cur /\ y = koY cur) /\
     ((exists n, dead_neighbour b1 (x, y) (switchPlayer col) n) \/
      has_liberty b1 col (x, y))).
Proof.
  intros Hcn Hheap Hdims Hin Hcol.
  destruct (grid_set_Ok (boardState cur) x y col)
    as (b1 & Hset & Hcells & Hd1).
  { eapply cell_at_in_bounds; eauto. }
  specialize (Hd1 _ _ Hdims).
  assert (cell_at b1 (x, y) = Some col) as Hstone.
  { rewrite Hcells, decide_True by reflexivity. reflexivity. }
  destruct (getCapturedStones_spec g b1 x y col Hd1 Hcol)
    as (captured & Hcap & Hdead).
  destruct (hasLiberty_spec _ _ b1 col Hd1 x y Hstone
              (colour_not_empty col Hcol)) as (lib & Hlib & Hiff).
  exists (if decide (x = koX cur /\ y = koY cur) then false
          else if decide (0 < Z.of_nat (length captured)) then true
          else lib), b1.
  split.
  { unfold isMoveLegal, mbind, ST_bind, get, deref, lift, mret, ST_ret.
    rewrite Hcn, Hheap. unfold copyBoard.
    case_decide as Hko; [reflexivity|].
    rewrite Hset, Hcap. case_decide as Hany; [reflexivity|].
    rewrite Hlib. destruct lib; reflexivity. }
  split; [exact Hset|]. split; [exact Hd1|]. split; [exact Hstone|].
  case_decide as Hko; [split; [discriminate|tauto]|].
  case_decide as Hany.
  { split; [|reflexivity]. intros _. split; [exact Hko|]. left.
    destruct captured as [|n ?]; [simpl in Hany; lia|].
    exists n. apply Hdead. set_solver. }
  rewrite Hiff. split.
  - intros Hl. split; [exact Hko|]. right. exact Hl.
  - intros [_ [(n & Hn)|Hl]]; [|exact Hl].
    apply Hdead in Hn. destruct captured; [inversion Hn|].
    simpl in Hany. lia.
Qed.

(** X13. A click at a point of the board in the play mode, with no engine
    attached. When the point is occupied, is the ko point, or the stone
    would have no liberty and kill nothing, the game stays as it is.
    Otherwise the game gets one new node, which becomes the current
    node: the last child of the node that was current, with the stone of
    the other player as its move, the board and the ko point that
    [captureStones] gives, and no children.  (main.go 1497-1536,
    [handleMouseClick].) *)
Theorem handleMouseClick_play (g : Game) (p : ptr) (cur : GameTreeNode)
    (x y : Z) (label : string) :
  mouseMode g = "play"%string -> gtpCmd g = false ->
  currentNode g = Some p -> heap g !! p = Some cur ->
  grid_dims (sizeX g) (sizeY g) (boardState cur) ->
  in_bounds (sizeX g) (sizeY g) (x, y) ->
  exists b1,
    grid_set (boardState cur) x y (switchPlayer (player cur)) = Ok b1 /\
    (~ playable cur b1 (x, y) (switchPlayer (player cur)) ->
     handleMouseClick x y label g = (Ok tt, g)) /\
    (playable cur b1 (x, y) (switchPlayer (player cur)) ->
     exists g' n b' ko,
       handleMouseClick x y label g = (Ok tt, g') /\
       captureStones g b1 x y (switchPlayer (player cur)) = Ok (b', ko) /\
       currentNode g' = Some (length (heap g)) /\
       heap g' = alter (fun m => set_children
                                   (children m ++ [length (heap g)]) m)
                   p (heap g) ++ [n] /\
       boardState n = b' /\ move n = (x, y) /\
       player n = switchPlayer (player cur) /\
       parent n = Some p /\ (koX n, koY n) = ko /\ children n = []).
Proof.
  intros Hmode Hoff Hcn Hheap Hdims Hin.
  set (col := switchPlayer (player cur)).
  pose proof (switchPlayer_colour (player cur)) as Hcol. fold col in Hcol.
  destruct (isMoveLegal_result g p cur x y col Hcn Hheap Hdims Hin Hcol)
    as (r & b1 & Hlegal & Hset & Hd1 & Hstone & Hr).
  destruct (in_bounds_cell_at _ _ _ _ Hdims Hin) as [s Hs].
  assert (handleMouseClick x y label g
            = (if decide (s <> empty) then (Ok tt, g)
               else if negb r then (Ok tt, g)
               else (_ ← play_stone x y col;
                     g1 ← get;
                     if gtpCmd g1 && negb (bool_decide (gtpColor g1 = col))
                     then
                       let coord := clientToGTPCoords g1 x y in
                       r ← catch (sendGTPCommand (play_command col coord));
                       match r with
                       | inl _ => detachEngine
                       | inr _ =>
                           r ← catch (sendGTPCommand
                                        ("genmove " +:+ switchPlayer col));
                           match r with
                           | inl _ => detachEngine
                           | inr engineMove => handleEngineMove engineMove
                           end
                       end
                     else mret tt) g)) as Hclick.
  { unfold handleMouseClick.
    rewrite (bindS_Ok get _ g g g eq_refl). cbv zeta.
    rewrite Hmode, decide_True by reflexivity.
    rewrite Hcn.
    rewrite (bindS_Ok (deref (Some p)) _ g g cur)
      by (unfold deref; rewrite Hheap; reflexivity).
    rewrite (proj2 (grid_get_Ok (boardState cur) _ _ _) Hs).
    rewrite (bindS_Ok (lift (Ok s)) _ g g s eq_refl).
    case_decide; [reflexivity|]. fold col.
    rewrite (bindS_Ok _ _ _ _ _ Hlegal).
    destruct r; reflexivity. }
  exists b1. split; [exact Hset|]. split.
  - intros Hno. rewrite Hclick. case_decide as Hocc; [reflexivity|].
    destruct r; [|reflexivity]. exfalso. apply Hno.
    destruct (proj1 Hr eq_refl) as [Hko Hlive].
    split; [|split; [exact Hko|exact Hlive]].
    rewrite Hs. f_equal.
    destruct (decide (s = empty)); [assumption|contradiction].
  - intros (Hempty & Hko & Hlive).
    assert (r = true) as -> by (apply Hr; auto).
    assert (s = empty) as -> by congruence.
    destruct (captureStones_result g b1 x y col Hd1 Hstone Hcol)
      as (b' & _ & ko & _ & _ & Hcap & _).
    destruct Hdims as (HX & HY & Hrest).
    destruct (play_stone_run g p cur x y col b1 b' ko Hcn Hheap HX HY Hset
                Hcap)
      as (g' & n & Hplay & Hc' & Hg' & Hh' & Hn).
    exists g', n, b', ko. split.
    { rewrite Hclick, decide_False by (intros H; apply H; reflexivity).
      simpl negb. cbv iota.
      rewrite (bindS_Ok _ _ _ _ _ Hplay).
      rewrite (bindS_Ok get _ g' g' g' eq_refl).
      rewrite Hg', Hoff. reflexivity. }
    split; [exact Hcap|]. split; [exact Hc'|]. split; [exact Hh'|].
    exact Hn.
Qed.

Lemma handleMouseClick_play_example :
  exists b1,
    grid_set (boardState example_node) 2 0
      (switchPlayer (player example_node)) = Ok b1 /\
    (~ playable example_node b1 (2, 0)
         (switchPlayer (player example_node)) ->
     handleMouseClick 2 0 EmptyString example_game = (Ok tt, example_game)) /\
    (playable example_node b1 (2, 0) (switchPlayer (player example_node)) ->
     exists g' n b' ko,
       handleMouseClick 2 0 EmptyString example_game = (Ok tt, g') /\
       captureStones example_game b1 2 0
         (switchPlayer (player example_node)) = Ok (b', ko) /\
       currentNode g' = Some (length (heap example_game)) /\
       heap g' = alter (fun m => set_children
                          (children m ++ [length (heap example_game)]) m)
                   4%nat (heap example_game) ++ [n] /\
       boardState n = b' /\ move n = (2, 0) /\
       player n = switchPlayer (player example_node) /\
       parent n = Some 4%nat /\ (koX n, koY n) = ko /\ children n = []).
Proof.
  apply (handleMouseClick_play example_game 4%nat example_node 2 0
           EmptyString).
  - vm_compute. reflexivity.
  - vm_compute. reflexivity.
  - vm_compute. reflexivity.
  - vm_compute. reflexivity.
  - unfold grid_dims. apply (bool_decide_unpack _). vm_compute. exact I.
  - apply (bool_decide_unpack _). vm_compute. exact I.
Defined.

(** ** The move of the engine *)

Lemma handleEngineMove_coords (g : Game) (p : ptr) (cur : GameTreeNode)
    (coord coord' : string) (x y : Z) :
  strings_TrimSpace coord = Ok coord' -> coord' <> "resign"%string ->
  gtpToClientCoords g coord' = Ok (x, y) ->
  currentNode g = Some p -> heap g !! p = Some cur ->
  handleEngineMove coord g
  = (legal ← isMoveLegal x y (switchPlayer (player cur));
     if negb legal then mret tt
     else _ ← play_stone x y (switchPlayer (player cur)); mret tt) g.
Proof.
  intros Htrim Hres Hxy Hcn Hheap. unfold handleEngineMove.
  rewrite Htrim.
  rewrite (bindS_Ok (lift (Ok coord')) _ g g coord' eq_refl).
  rewrite decide_False by exact Hres.
  rewrite (bindS_Ok get _ g g g eq_refl).
  rewrite (bindS_Ok (catch (lift (gtpToClientCoords g coord'))) _ g g
             (inr (x, y)))
    by (unfold catch, lift; rewrite Hxy; reflexivity).
  rewrite Hcn.
  rewrite (bindS_Ok (deref (Some p)) _ g g cur)
    by (unfold deref; rewrite Hheap; reflexivity).
  reflexivity.
Qed.

(** X14. The engine answers with a coordinate of the board. When the point
    is the ko point, or the stone would have no liberty and kill
    nothing, the game stays as it is; otherwise the stone is played as a
    new node, the last child of the node that was current. Whether the
    point is empty is not looked at: on an occupied point the stone
    replaces the one that was there.  (main.go 743-774,
    [handleEngineMove].) *)
Theorem handleEngineMove_plays (g : Game) (p : ptr) (cur : GameTreeNode)
    (coord coord' : string) (x y : Z) :
  strings_TrimSpace coord = Ok coord' -> coord' <> "resign"%string ->
  gtpToClientCoords g coord' = Ok (x, y) -> x < sizeX g ->
  currentNode g = Some p -> heap g !! p = Some cur ->
  grid_dims (sizeX g) (sizeY g) (boardState cur) ->
  exists b1,
    grid_set (boardState cur) x y (switchPlayer (player cur)) = Ok b1 /\
    cell_at b1 (x, y) = Some (switchPlayer (player cur)) /\
    (~ (~ (x = koX cur /\ y = koY cur) /\
        stone_lives b1 (x, y) (switchPlayer (player cur))) ->
     handleEngineMove coord g = (Ok tt, g)) /\
    (~ (x = koX cur /\ y = koY cur) ->
     stone_lives b1 (x, y) (switchPlayer (player cur)) ->
     exists g' n b' ko,
       handleEngineMove coord g = (Ok tt, g') /\
       captureStones g b1 x y (switchPlayer (player cur)) = Ok (b', ko) /\
       currentNode g' = Some (length (heap g)) /\
       heap g' = alter (fun m => set_children
                                   (children m ++ [length (heap g)]) m)
                   p (heap g) ++ [n] /\
       boardState n = b' /\ move n = (x, y) /\
       player n = switchPlayer (player cur) /\
       parent n = Some p /\ (koX n, koY n) = ko /\ children n = []).
Proof.
  intros Htrim Hres Hxy Hx Hcn Hheap Hdims.
  set (col := switchPlayer (player cur)).
  pose proof (switchPlayer_colour (player cur)) as Hcol. fold col in Hcol.
  destruct (gtpToClientCoords_range g coord' x y Hxy) as (Hx0 & Hy0).
  assert (in_bounds (sizeX g) (sizeY g) (x, y)) as Hin
    by (unfold in_bounds; simpl; lia).
  destruct (isMoveLegal_result g p cur x y col Hcn Hheap Hdims Hin Hcol)
    as (r & b1 & Hlegal & Hset & Hd1 & Hstone & Hr).
  pose proof (handleEngineMove_coords g p cur coord coord' x y Htrim Hres Hxy
                Hcn Hheap) as Hrun.
  fold col in Hrun. rewrite (bindS_Ok _ _ _ _ _ Hlegal) in Hrun.
  exists b1. split; [exact Hset|]. split; [exact Hstone|]. split.
  - intros Hno. rewrite Hrun. destruct r; [|reflexivity].
    exfalso. apply Hno. apply Hr. reflexivity.
  - intros Hko Hlive.
    assert (r = true) as -> by (apply Hr; split; assumption).
    destruct (captureStones_result g b1 x y col Hd1 Hstone Hcol)
      as (b' & _ & ko & _ & _ & Hcap & _).
    destruct Hdims as (HX & HY & Hrest).
    destruct (play_stone_run g p cur x y col b1 b' ko Hcn Hheap HX HY Hset
                Hcap)
      as (g' & n & Hplay & Hc' & Hg' & Hh' & Hn).
    exists g', n, b', ko. split.
    { rewrite Hrun. change (negb true) with false. cbv iota.
      rewrite (bindS_Ok _ _ _ _ _ Hplay). reflexivity. }
    split; [exact Hcap|]. split; [exact Hc'|]. split; [exact Hh'|].
    exact Hn.
Qed.

Lemma handleEngineMove_plays_example :
  exists b1,
    grid_set (boardState example_node) 2 0
      (switchPlayer (player example_node)) = Ok b1 /\
    cell_at b1 (2, 0) = Some (switchPlayer (player example_node)) /\
    (~ (~ (2 = koX example_node /\ 0 = koY example_node) /\
        stone_lives b1 (2, 0) (switchPlayer (player example_node))) ->
     handleEngineMove " C3" example_game = (Ok tt, example_game)) /\
    (~ (2 = koX example_node /\ 0 = koY example_node) ->
     stone_lives b1 (2, 0) (switchPlayer (player example_node)) ->
     exists g' n b' ko,
       handleEngineMove " C3" example_game = (Ok tt, g') /\
       captureStones example_game b1 2 0
         (switchPlayer (player example_node)) = Ok (b', ko) /\
       currentNode g' = Some (length (heap example_game)) /\
       heap g' = alter (fun m => set_children
                          (children m ++ [length (heap example_game)]) m)
                   4%nat (heap example_game) ++ [n] /\
       boardState n = b' /\ move n = (2, 0) /\
       player n = switchPlayer (player example_node) /\
       parent n = Some 4%nat /\ (koX n, koY n) = ko /\ children n = []).
Proof.
  apply (handleEngineMove_plays example_game 4%nat example_node " C3" "C3"
           2 0).
  - vm_compute. reflexivity.
  - discriminate.
  - vm_compute. reflexivity.
  - vm_compute. reflexivity.
  - vm_compute. reflexivity.
  - vm_compute. reflexivity.
  - unfold grid_dims. apply (bool_decide_unpack _). vm_compute. exact I.
Defined.

(** X15. The engine answers with a coordinate whose letter is one of the 25
    but lies beyond the width of the board: unless the ko check has
    already rejected the move, [isMoveLegal] writes the stone outside
    the row and the program stops with a run-time panic.
    (main.go 743-774, [handleEngineMove]; 1604-1629, [isMoveLegal].) *)
Theorem handleEngineMove_column_off_board (g : Game) (p : ptr)
    (cur : GameTreeNode) (coord coord' : string) (x y : Z) :
  strings_TrimSpace coord = Ok coord' -> coord' <> "resign"%string ->
  gtpToClientCoords g coord' = Ok (x, y) -> sizeX g <= x ->
  currentNode g = Some p -> heap g !! p = Some cur ->
  grid_dims (sizeX g) (sizeY g) (boardState cur) ->
  ~ (x = koX cur /\ y = koY cur) ->
  handleEngineMove coord g = (Panic, g).
Proof.
  intros Htrim Hres Hxy Hx Hcn Hheap Hdims Hko.
  rewrite (handleEngineMove_coords g p cur coord coord' x y Htrim Hres Hxy
             Hcn Hheap).
  assert (cell_at (boardState cur) (x, y) = None) as Hout.
  { destruct (cell_at (boardState cur) (x, y)) as [s|] eqn:Hs;
      [|reflexivity].
    apply (cell_at_Some_in_bounds _ _ _ _ _ Hdims) in Hs.
    destruct Hs as [Hsx _]. simpl in Hsx. lia. }
  assert (isMoveLegal x y (switchPlayer (player cur)) g = (Panic, g))
    as Hlegal.
  { unfold isMoveLegal, mbind, ST_bind, get, deref, lift, mret, ST_ret.
    rewrite Hcn, Hheap. unfold copyBoard.
    rewrite decide_False by exact Hko.
    unfold grid_set. rewrite Hout. reflexivity. }
  rewrite (bindS_fail _ _ _ _ _ Hlegal) by discriminate. reflexivity.
Qed.

Lemma handleEngineMove_column_off_board_example :
  handleEngineMove "D1" example_game = (Panic, example_game).
Proof.
  apply (handleEngineMove_column_off_board example_game 4%nat example_node
           "D1" "D1" 3 2).
  - vm_compute. reflexivity.
  - discriminate.
  - vm_compute. reflexivity.
  - vm_compute. discriminate.
  - vm_compute. reflexivity.
  - vm_compute. reflexivity.
  - unfold grid_dims. apply (bool_decide_unpack _). vm_compute. exact I.
  - vm_compute. intros [H _]. discriminate H.
Defined.

(** ** Clicks in the mark modes *)

Lemma set_heap_same (g : Game) : set_heap (heap g) g = g.
Proof. destruct g. reflexivity. Qed.

(** A mark that is toggled twice is as it was. *)
Lemma grid_toggle_twice (sizeX sizeY : Z) (m : grid bool) (x y : Z)
    (v : bool) :
  grid_dims sizeX sizeY m -> cell_at m (x, y) = Some v ->
  exists m1,
    grid_get m x y = Ok v /\ grid_set m x y (negb v) = Ok m1 /\
    (forall c, cell_at m1 c = if decide (c = (x, y)) then Some (negb v)
                              else cell_at m c) /\
    grid_get m1 x y = Ok (negb v) /\
    grid_set m1 x y (negb (negb v)) = Ok m.
Proof.
  intros Hd Hv.
  destruct (grid_set_Ok m x y (negb v)) as (m1 & Hset & Hcells & Hd1);
    [eauto|].
  specialize (Hd1 _ _ Hd).
  assert (cell_at m1 (x, y) = Some (negb v)) as Hv1
    by (rewrite Hcells, decide_True; reflexivity).
  destruct (grid_set_Ok m1 x y (negb (negb v))) as (m2 & Hset2 & Hcells2 & Hd2);
    [eauto|].
  specialize (Hd2 _ _ Hd1).
  exists m1. split; [apply grid_get_Ok; exact Hv|].
  split; [exact Hset|]. split; [exact Hcells|].
  split; [apply grid_get_Ok; exact Hv1|].
  rewrite Hset2. f_equal.
  apply (grid_ext _ _ _ _ Hd2 Hd). intros c _. rewrite Hcells2.
  case_decide as Hc; [subst c; rewrite negb_involutive; auto|].
  rewrite Hcells, decide_False by exact Hc. reflexivity.
Qed.

Lemma update_res_run (g : Game) (p : ptr) (cur n' : GameTreeNode)
    (f : GameTreeNode -> res GameTreeNode) :
  heap g !! p = Some cur -> f cur = Ok n' ->
  update_res (Some p) f g = (Ok tt, set_heap (<[p := n']> (heap g)) g).
Proof.
  intros Hcur Hf. unfold update_res, mbind, ST_bind, deref, lift, modify.
  rewrite Hcur, Hf. reflexivity.
Qed.

(** One click in a mark mode. *)
Lemma mark_click (g : Game) (p : ptr) (cur : GameTreeNode)
    (m m1 : grid bool) (x y : Z) (v : bool) (label : string) :
  currentNode g = Some p -> heap g !! p = Some cur ->
  mark_of (mouseMode g) cur = Some m ->
  grid_get m x y = Ok v -> grid_set m x y (negb v) = Ok m1 ->
  handleMouseClick x y label g
  = (Ok tt, set_heap (<[p := set_mark (mouseMode g) m1 cur]> (heap g)) g).
Proof.
  intros Hcn Hcur Hm Hget Hset.
  unfold handleMouseClick.
  rewrite (bindS_Ok get _ g g g eq_refl). cbv zeta.
  unfold mark_of in Hm. unfold set_mark.
  destruct (decide (mouseMode g = "circle"%string)) as [Hmode|H1];
    [|destruct (decide (mouseMode g = "square"%string)) as [Hmode|H2];
      [|destruct (decide (mouseMode g = "triangle"%string)) as [Hmode|H3];
        [|destruct (decide (mouseMode g = "xMark"%string)) as [Hmode|H4];
          [|discriminate]]]];
    injection Hm as <-;
    repeat (rewrite decide_False by (rewrite Hmode; discriminate));
    rewrite Hcn; apply (update_res_run g p cur); try exact Hcur;
    rewrite Hget, bind_ret, Hset, bind_ret; reflexivity.
Qed.

Lemma set_mark_back (mode : string) (cur : GameTreeNode) (m m1 : grid bool) :
  mark_of mode cur = Some m ->
  mark_of mode (set_mark mode m1 cur) = Some m1 /\
  set_mark mode m (set_mark mode m1 cur) = cur.
Proof.
  unfold mark_of, set_mark. repeat case_decide; try discriminate;
    intros Hm; injection Hm as <-; destruct cur; split; reflexivity.
Qed.

(** X16. In the modes "circle", "square", "triangle" and "xMark" a click at
    a point of the board negates the mark of the mode at that point, in
    the current node, and at no other point; a second click at
    the point gives back the game as it was.  (main.go 1583-1598,
    [handleMouseClick].) *)
Theorem handleMouseClick_mark_twice (g : Game) (p : ptr)
    (cur : GameTreeNode) (m : grid bool) (x y : Z) (v : bool)
    (label : string) :
  currentNode g = Some p -> heap g !! p = Some cur ->
  mark_of (mouseMode g) cur = Some m ->
  grid_dims (sizeX g) (sizeY g) m -> cell_at m (x, y) = Some v ->
  exists g1 cur1 m1,
    handleMouseClick x y label g = (Ok tt, g1) /\
    heap g1 = <[p := cur1]> (heap g) /\
    mark_of (mouseMode g) cur1 = Some m1 /\
    (forall c, cell_at m1 c = if decide (c = (x, y)) then Some (negb v)
                              else cell_at m c) /\
    handleMouseClick x y label g1 = (Ok tt, g).
Proof.
  intros Hcn Hcur Hm Hd Hv.
  pose proof (lookup_lt_Some _ _ _ Hcur) as Hlt.
  destruct (grid_toggle_twice _ _ m x y v Hd Hv)
    as (m1 & Hget & Hflip & Hcells & Hget1 & Hback).
  destruct (set_mark_back (mouseMode g) cur m m1 Hm) as [Hm1 Hcur1].
  set (cur1 := set_mark (mouseMode g) m1 cur) in *.
  set (g1 := set_heap (<[p := cur1]> (heap g)) g).
  exists g1, cur1, m1.
  split; [exact (mark_click g p cur m m1 x y v label Hcn Hcur Hm Hget Hflip)|].
  split; [reflexivity|]. split; [exact Hm1|]. split; [exact Hcells|].
  rewrite (mark_click g1 p cur1 m1 m x y (negb v) label Hcn).
  - change (mouseMode g1) with (mouseMode g). rewrite Hcur1.
    unfold g1. destruct g. unfold set_heap. simpl in *.
    rewrite list_insert_insert_eq, list_insert_id by exact Hcur.
    reflexivity.
  - unfold g1. simpl. apply list_lookup_insert_eq. exact Hlt.
  - exact Hm1.
  - exact Hget1.
  - exact Hback.
Qed.

Lemma handleMouseClick_mark_twice_example :
  exists g1 cur1 m1,
    handleMouseClick 1 1 EmptyString (set_mouseMode "triangle" example_game)
      = (Ok tt, g1) /\
    heap g1 = <[4%nat := cur1]>
                (heap (set_mouseMode "triangle" example_game)) /\
    mark_of (mouseMode (set_mouseMode "triangle" example_game)) cur1
      = Some m1 /\
    (forall c, cell_at m1 c = if decide (c = (1, 1)) then Some (negb false)
                              else cell_at (TR example_node) c) /\
    handleMouseClick 1 1 EmptyString g1
      = (Ok tt, set_mouseMode "triangle" example_game).
Proof.
  apply (handleMouseClick_mark_twice (set_mouseMode "triangle" example_game)
           4%nat example_node (TR example_node) 1 1 false EmptyString).
  - vm_compute. reflexivity.
  - vm_compute. reflexivity.
  - vm_compute. reflexivity.
  - unfold grid_dims. apply (bool_decide_unpack _). vm_compute. exact I.
  - vm_compute. reflexivity.
Defined.

(** ** Clicks in the setup modes *)

(** X17. In the modes "addBlack", "addWhite" and "addEmpty" a click at a
    point that already has the content of the mode changes nothing. At
    any other point of the board it writes the content on the board of
    the current node and, at that point, sets the overlay of the mode
    and clears the other two of [addedBlackStones], [addedWhiteStones]
    and [AE]; the other points, the move, the player and the links of
    the node stay as they are.  (main.go 1559-1582,
    [handleMouseClick].) *)
Theorem handleMouseClick_setup (g : Game) (p : ptr) (cur : GameTreeNode)
    (col s : string) (x y : Z) (label : string) :
  currentNode g = Some p -> heap g !! p = Some cur ->
  setup_stone (mouseMode g) = Some col ->
  grid_dims (sizeX g) (sizeY g) (boardState cur) ->
  grid_dims (sizeX g) (sizeY g) (addedBlackStones cur) ->
  grid_dims (sizeX g) (sizeY g) (addedWhiteStones cur) ->
  grid_dims (sizeX g) (sizeY g) (AE cur) ->
  cell_at (boardState cur) (x, y) = Some s ->
  (s = col -> handleMouseClick x y label g = (Ok tt, g)) /\
  (s <> col ->
   exists cur1,
     handleMouseClick x y label g
     = (Ok tt, set_heap (<[p := cur1]> (heap g)) g) /\
     (forall c, cell_at (boardState cur1) c
                = if decide (c = (x, y)) then Some col
                  else cell_at (boardState cur) c) /\
     (forall c, cell_at (addedBlackStones cur1) c
                = if decide (c = (x, y)) then Some (bool_decide (col = black))
                  else cell_at (addedBlackStones cur) c) /\
     (forall c, cell_at (addedWhiteStones cur1) c
                = if decide (c = (x, y)) then Some (bool_decide (col = white))
                  else cell_at (addedWhiteStones cur) c) /\
     (forall c, cell_at (AE cur1) c
                = if decide (c = (x, y)) then Some (bool_decide (col = empty))
                  else cell_at (AE cur) c) /\
     move cur1 = move cur /\ player cur1 = player cur /\
     children cur1 = children cur /\ parent cur1 = parent cur).
Proof.
  intros Hcn Hcur Hmode Hdb Hdab Hdaw Hdae Hs.
  assert (in_bounds (sizeX g) (sizeY g) (x, y)) as Hin
    by exact (cell_at_Some_in_bounds _ _ _ _ _ Hdb Hs).
  assert (forall (A : Type) (b : grid A) (v : A),
            grid_dims (sizeX g) (sizeY g) b ->
            exists b', grid_set b x y v = Ok b' /\
              forall c, cell_at b' c = if decide (c = (x, y)) then Some v
                                       else cell_at b c) as Hwrite.
  { intros A b v Hd. destruct (grid_set_Ok b x y v) as (b' & Hb' & Hc' & _).
    - eapply cell_at_in_bounds; eauto.
    - eauto. }
  assert (deref (Some p) g = (Ok cur, g)) as Hderef
    by (unfold deref; rewrite Hcur; reflexivity).
  pose proof (proj2 (grid_get_Ok (boardState cur) _ _ _) Hs) as Hget.
  unfold setup_stone in Hmode. unfold handleMouseClick.
  rewrite (bindS_Ok get _ g g g eq_refl). cbv zeta.
  destruct (decide (mouseMode g = "addBlack"%string)) as [Hm|H1];
    [|destruct (decide (mouseMode g = "addWhite"%string)) as [Hm|H2];
      [|destruct (decide (mouseMode g = "addEmpty"%string)) as [Hm|H3];
        [|discriminate]]];
    injection Hmode as <-;
    repeat (rewrite decide_False by (rewrite Hm; discriminate));
    rewrite Hcn, (bindS_Ok _ _ _ _ _ Hderef), Hget;
    rewrite (bindS_Ok (lift (Ok s)) _ g g s eq_refl).
  all: split;
    [intros ->; rewrite decide_False by (intros H; apply H; reflexivity);
     reflexivity|].
  all: intros Hne; rewrite decide_True by exact Hne.
  - destruct (Hwrite _ (boardState cur) black Hdb) as (b' & Hb' & Hcb).
    destruct (Hwrite _ (addedBlackStones cur) true Hdab) as (ab & Hab & Hcab).
    destruct (Hwrite _ (addedWhiteStones cur) false Hdaw) as (aw & Haw & Hcaw).
    destruct (Hwrite _ (AE cur) false Hdae) as (ae & Hae & Hcae).
    eexists. split.
    { apply (update_res_run g p cur); [exact Hcur|]. simpl.
      rewrite Hb', bind_ret, Hab, bind_ret, Haw, bind_ret, Hae, bind_ret.
      reflexivity. }
    simpl. repeat split; auto.
  - destruct (Hwrite _ (boardState cur) white Hdb) as (b' & Hb' & Hcb).
    destruct (Hwrite _ (addedWhiteStones cur) true Hdaw) as (aw & Haw & Hcaw).
    destruct (Hwrite _ (addedBlackStones cur) false Hdab) as (ab & Hab & Hcab).
    destruct (Hwrite _ (AE cur) false Hdae) as (ae & Hae & Hcae).
    eexists. split.
    { apply (update_res_run g p cur); [exact Hcur|]. simpl.
      rewrite Hb', bind_ret, Haw, bind_ret, Hab, bind_ret, Hae, bind_ret.
      reflexivity. }
    simpl. repeat split; auto.
  - destruct (Hwrite _ (boardState cur) empty Hdb) as (b' & Hb' & Hcb).
    destruct (Hwrite _ (AE cur) true Hdae) as (ae & Hae & Hcae).
    destruct (Hwrite _ (addedBlackStones cur) false Hdab) as (ab & Hab & Hcab).
    destruct (Hwrite _ (addedWhiteStones cur) false Hdaw) as (aw & Haw & Hcaw).
    eexists. split.
    { apply (update_res_run g p cur); [exact Hcur|]. simpl.
      rewrite Hb', bind_ret, Hae, bind_ret, Hab, bind_ret, Haw, bind_ret.
      reflexivity. }
    simpl. repeat split; auto.
Qed.

Lemma handleMouseClick_setup_example :
  (empty = white ->
   handleMouseClick 2 0 EmptyString (set_mouseMode "addWhite" example_game)
   = (Ok tt, set_mouseMode "addWhite" example_game)) /\
  (empty <> white ->
   exists cur1,
     handleMouseClick 2 0 EmptyString (set_mouseMode "addWhite" example_game)
     = (Ok tt, set_heap (<[4%nat := cur1]>
                           (heap (set_mouseMode "addWhite" example_game)))
                 (set_mouseMode "addWhite" example_game)) /\
     (forall c, cell_at (boardState cur1) c
                = if decide (c = (2, 0)) then Some white
                  else cell_at (boardState example_node) c) /\
     (forall c, cell_at (addedBlackStones cur1) c
                = if decide (c = (2, 0))
                  then Some (bool_decide (white = black))
                  else cell_at (addedBlackStones example_node) c) /\
     (forall c, cell_at (addedWhiteStones cur1) c
                = if decide (c = (2, 0))
                  then Some (bool_decide (white = white))
                  else cell_at (addedWhiteStones example_node) c) /\
     (forall c, cell_at (AE cur1) c
                = if decide (c = (2, 0))
                  then Some (bool_decide (white = empty))
                  else cell_at (AE example_node) c) /\
     move cur1 = move example_node /\ player cur1 = player example_node /\
     children cur1 = children example_node /\
     parent cur1 = parent example_node).
Proof.
  apply (handleMouseClick_setup (set_mouseMode "addWhite" example_game)
           4%nat example_node white empty 2 0 EmptyString).
  - vm_compute. reflexivity.
  - vm_compute. reflexivity.
  - vm_compute. reflexivity.
  - unfold grid_dims. apply (bool_decide_unpack _). vm_compute. exact I.
  - unfold grid_dims. apply (bool_decide_unpack _). vm_compute. exact I.
  - unfold grid_dims. apply (bool_decide_unpack _). vm_compute. exact I.
  - unfold grid_dims. apply (bool_decide_unpack _). vm_compute. exact I.
  - vm_compute. reflexivity.
Defined.

(** ** What the clicks never change *)

Lemma history_kept_refl h : history_kept h h.
Proof. intros i m Hm. exists m. repeat split; auto. Qed.

Lemma history_kept_trans h1 h2 h3 :
  history_kept h1 h2 -> history_kept h2 h3 -> history_kept h1 h3.
Proof.
  intros H12 H23 i m Hm.
  destruct (H12 i m Hm) as (m2 & Hm2 & Hb & Hmv & Hkx & Hky & Hp & Hc).
  destruct (H23 i m2 Hm2) as (m3 & Hm3 & Hb3 & Hmv3 & Hkx3 & Hky3 & Hp3 & Hc3).
  exists m3. split; [exact Hm3|]. repeat (split; [congruence|]).
  etransitivity; eauto.
Qed.

Lemma tree_grows_history c h h' : tree_grows c h h' -> history_kept h h'.
Proof.
  intros Hg i m Hm.
  destruct (Hg i m Hm) as (m' & Hm' & Hb & Hmv & Hkx & Hky & Hp & Hc & _).
  exists m'. repeat split; assumption.
Qed.

Lemma same_tree_history g g' : same_tree g g' -> keeps_history g g'.
Proof. intros [_ Hh]. unfold keeps_history. rewrite Hh. apply history_kept_refl. Qed.

Lemma history_bind {A B} (m : ST Game A) (k : A -> ST Game B) :
  tree_rel keeps_history m -> (forall a, tree_rel keeps_history (k a)) ->
  tree_rel keeps_history (m ≫= k).
Proof.
  apply tree_rel_bind; [auto|]. intros g g1 g2. apply history_kept_trans.
Qed.

Lemma history_same_tree {A} (m : ST Game A) :
  tree_rel same_tree m -> tree_rel keeps_history m.
Proof. intros Hm g. apply same_tree_history, Hm. Qed.

Lemma history_play_stone x y col : tree_rel keeps_history (play_stone x y col).
Proof.
  intros g. destruct (currentNode g) as [c|] eqn:Hc.
  - eapply tree_grows_history. apply (grows_play_stone x y col g c Hc).
  - unfold play_stone.
    rewrite (bindS_Ok get _ g g g eq_refl).
    rewrite (bindS_fail (deref (currentNode g)) _ g g Panic);
      [apply history_kept_refl| |discriminate].
    unfold deref. rewrite Hc. reflexivity.
Qed.

Lemma history_handleEngineMove coord :
  tree_rel keeps_history (handleEngineMove coord).
Proof.
  unfold handleEngineMove.
  apply history_bind; [apply history_same_tree, same_tree_lift|].
  intros coord'. case_decide; [apply history_same_tree, same_tree_ret|].
  apply history_bind; [apply history_same_tree, same_tree_get|]. intros g.
  apply history_bind; [apply history_same_tree, same_tree_catch_lift|].
  intros [e|[x y]]; [apply history_same_tree, same_tree_ret|].
  apply history_bind; [apply history_same_tree, same_tree_deref|].
  intros cur.
  apply history_bind; [apply history_same_tree, same_tree_isMoveLegal|].
  intros legal.
  destruct legal; simpl; [|apply history_same_tree, same_tree_ret].
  apply history_bind; [apply history_play_stone|].
  intros q. apply history_same_tree, same_tree_ret.
Qed.

(** An assignment to the current node that keeps its board, move, ko
    point and links. *)
Lemma history_update_res (p : option ptr)
    (f : GameTreeNode -> res GameTreeNode) :
  (forall n n', f n = Ok n' ->
     boardState n' = boardState n /\ move n' = move n /\
     koX n' = koX n /\ koY n' = koY n /\ parent n' = parent n /\
     children n' = children n) ->
  tree_rel keeps_history (update_res p f).
Proof.
  intros Hf g. unfold update_res, mbind, ST_bind, deref, lift, modify.
  destruct p as [a|]; [|apply history_kept_refl].
  destruct (heap g !! a) as [n|] eqn:Hn; [|apply history_kept_refl].
  destruct (f n) as [n'| | | |] eqn:Hfn; try apply history_kept_refl.
  simpl. change (default 0%nat (Some a)) with a.
  intros i m Hm. destruct (decide (i = a)) as [->|Hia].
  - exists n'. split.
    { apply list_lookup_insert_eq. eapply lookup_lt_Some; eauto. }
    assert (m = n) as -> by congruence.
    destruct (Hf n n' Hfn) as (Hb & Hmv & Hkx & Hky & Hp & Hc).
    repeat (split; [assumption|]). rewrite Hc. reflexivity.
  - exists m. split.
    { change (heap (set_heap (<[a:=n']> (heap g)) g))
        with (<[a:=n']> (heap g)).
      rewrite list_lookup_insert_ne by auto. exact Hm. }
    repeat split; auto.
Qed.

Lemma same_tree_toggleGroupStatus x y :
  tree_rel same_tree (toggleGroupStatus x y).
Proof.
  intros g. destruct (toggleGroupStatus x y g) as [r g'] eqn:Hrun.
  apply toggleGroupStatus_frame in Hrun. simpl. rewrite Hrun.
  split; reflexivity.
Qed.

Lemma same_tree_assignTerritoryToEmptyRegions :
  tree_rel same_tree assignTerritoryToEmptyRegions.
Proof.
  intros g. destruct (assignTerritoryToEmptyRegions g) as [r g'] eqn:Hrun.
  apply assignTerritoryToEmptyRegions_frame in Hrun. simpl. rewrite Hrun.
  split; reflexivity.
Qed.

Lemma history_mark (p : option ptr) (proj : GameTreeNode -> grid bool)
    (set : grid bool -> GameTreeNode -> GameTreeNode) (x y : Z) :
  (forall o n, boardState (set o n) = boardState n /\
               move (set o n) = move n /\ koX (set o n) = koX n /\
               koY (set o n) = koY n /\ parent (set o n) = parent n /\
               children (set o n) = children n) ->
  tree_rel keeps_history
    (update_res p (fun n =>
       v ← grid_get (proj n) x y;
       o ← grid_set (proj n) x y (negb v); Ok (set o n))).
Proof.
  intros Hset. apply history_update_res. intros n n'.
  destruct (grid_get (proj n) x y) as [v| | | |]; try discriminate.
  rewrite bind_ret.
  destruct (grid_set (proj n) x y (negb v)) as [o| | | |]; try discriminate.
  rewrite bind_ret. intros Heq. injection Heq as <-. apply Hset.
Qed.

(** X18. Outside the three setup modes a click changes the board, the move,
    the ko point and the parent of no node of the tree, and takes no
    child from a node, in whatever mode the game is, with or without an
    engine, and whether the click returns or stops with a panic.
    (main.go 1490-1602, [handleMouseClick].) *)
Theorem handleMouseClick_keeps_history (g : Game) (x y : Z)
    (label : string) :
  setup_stone (mouseMode g) = None ->
  keeps_history g (handleMouseClick x y label g).2.
Proof.
  intros Hmode. unfold handleMouseClick.
  rewrite (bindS_Ok get _ g g g eq_refl). cbv zeta.
  case_decide as Hplay.
  { apply history_bind; [apply history_same_tree, same_tree_deref|].
    intros cur.
    apply history_bind; [apply history_same_tree, same_tree_lift|].
    intros s. case_decide; [apply history_same_tree, same_tree_ret|].
    apply history_bind; [apply history_same_tree, same_tree_isMoveLegal|].
    intros legal.
    destruct legal; simpl; [|apply history_same_tree, same_tree_ret].
    apply history_bind; [apply history_play_stone|]. intros _.
    apply history_bind; [apply history_same_tree, same_tree_get|].
    intros g1.
    destruct (gtpCmd g1 && negb (bool_decide (gtpColor g1 = _)));
      [|apply history_same_tree, same_tree_ret].
    cbv zeta.
    apply history_bind;
      [apply history_same_tree, same_tree_catch, same_tree_sendGTPCommand|].
    intros [e|reply]; [apply history_same_tree, same_tree_detachEngine|].
    apply history_bind;
      [apply history_same_tree, same_tree_catch, same_tree_sendGTPCommand|].
    intros [e|engineMove];
      [apply history_same_tree, same_tree_detachEngine|].
    apply history_handleEngineMove. }
  case_decide as Hscore.
  { apply history_same_tree.
    apply same_tree_bind; [apply same_tree_toggleGroupStatus|].
    intros _. apply same_tree_assignTerritoryToEmptyRegions. }
  case_decide as Hlabel.
  { apply history_bind; [apply history_same_tree, same_tree_deref|].
    intros cur.
    apply history_bind; [apply history_same_tree, same_tree_lift|].
    intros _. apply history_update_res. intros n n'.
    destruct (grid_set (LB n) x y label) as [o| | | |]; try discriminate.
    rewrite bind_ret. intros Heq. injection Heq as <-.
    repeat split; reflexivity. }
  case_decide as Hb;
    [unfold setup_stone in Hmode;
     rewrite decide_True in Hmode by exact Hb; discriminate|].
  case_decide as Hw;
    [unfold setup_stone in Hmode;
     rewrite decide_False, decide_True in Hmode by assumption; discriminate|].
  case_decide as He;
    [unfold setup_stone in Hmode;
     rewrite !decide_False, decide_True in Hmode by assumption;
     discriminate|].
  repeat case_decide;
    try (apply history_mark; intros o n; repeat split; reflexivity).
  apply history_same_tree, same_tree_ret.
Qed.

Lemma handleMouseClick_keeps_history_example :
  keeps_history example_game
    (handleMouseClick 2 0 EmptyString example_game).2.
Proof.
  apply (handleMouseClick_keeps_history example_game 2 0 EmptyString).
  vm_compute. reflexivity.
Defined.

(** ** A new game *)

Lemma newGameTreeNode_run (g : Game) (b : grid string) (f : grid bool)
    (l : grid string) :
  make_grid (sizeX g) (sizeY g) empty = Ok b ->
  make_grid (sizeX g) (sizeY g) false = Ok f ->
  make_grid (sizeX g) (sizeY g) EmptyString = Ok l ->
  newGameTreeNode g
  = (Ok (length (heap g)),
     set_nodeMap (<[itoa (idCounter g + 1) := length (heap g)]> (nodeMap g))
       (set_heap
          (heap g ++
           [mkGameTreeNode b (0, 0) EmptyString [] None
              (itoa (idCounter g + 1)) (-1) (-1) EmptyString
              f f f f f f f l])
          (set_idCounter (idCounter g + 1) g))).
Proof.
  intros Hb Hf Hl.
  unfold newGameTreeNode, mbind, ST_bind, modify, get, lift, alloc, mret,
    ST_ret, makeEmptyBoard. simpl.
  rewrite Hb, Hf, Hl. reflexivity.
Qed.

Lemma update_run (g : Game) (p : ptr) (n : GameTreeNode)
    (f : GameTreeNode -> GameTreeNode) :
  heap g !! p = Some n ->
  update (Some p) f g = (Ok tt, set_heap (alter f p (heap g)) g).
Proof.
  intros Hn. unfold update, mbind, ST_bind, deref, modify.
  rewrite Hn. reflexivity.
Qed.

(** The game that [initializeBoard] leaves. *)
Lemma initializeBoard_run (g : Game) :
  0 <= sizeX g -> 0 <= sizeY g ->
  exists g' root,
    initializeBoard g = (Ok tt, g') /\
    sizeX g' = sizeX g /\ sizeY g' = sizeY g /\
    mouseMode g' = mouseMode g /\
    heap g' = heap g ++ [root] /\
    rootNode g' = Some (length (heap g)) /\
    currentNode g' = Some (length (heap g)) /\
    idCounter g' = 2 /\ node_id root = "2"%string /\
    nodeMap g' = {[ "2"%string := length (heap g) ]} /\
    grid_dims (sizeX g) (sizeY g) (boardState root) /\
    (forall c, in_bounds (sizeX g) (sizeY g) c ->
               cell_at (boardState root) c = Some empty) /\
    player root = EmptyString /\ parent root = None /\
    children root = [] /\ koX root = -1 /\ koY root = -1.
Proof.
  intros HX HY.
  destruct (make_grid_Ok (sizeX g) (sizeY g) empty HX HY)
    as (b & Hb & Hdb & Hcb).
  destruct (make_grid_Ok (sizeX g) (sizeY g) false HX HY) as (f & Hf & _).
  destruct (make_grid_Ok (sizeX g) (sizeY g) EmptyString HX HY)
    as (l & Hl & _).
  set (q := length (heap g)).
  set (node := mkGameTreeNode b (0, 0) EmptyString [] None (itoa (1 + 1))
                 (-1) (-1) EmptyString f f f f f f f l).
  unfold initializeBoard.
  rewrite (bindS_Ok (modify (set_idCounter 1)) _ g (set_idCounter 1 g) tt
             eq_refl).
  rewrite (bindS_Ok _ _ _ _ _
             (newGameTreeNode_run (set_idCounter 1 g) b f l Hb Hf Hl)).
  cbn [heap set_idCounter idCounter nodeMap]. fold q. fold node.
  erewrite (bindS_Ok (update (Some q) (set_player EmptyString)));
    [|apply (update_run _ q node); cbn [heap set_nodeMap set_heap];
      apply list_lookup_middle; reflexivity].
  cbn [heap set_nodeMap set_heap].
  replace (alter (set_player EmptyString) q (heap g ++ [node]))
    with (heap g ++ [set_player EmptyString node])
    by (unfold q; symmetry; rewrite <- (Nat.add_0_r (length (heap g)));
        rewrite alter_app_r; reflexivity).
  erewrite (bindS_Ok (modify (set_rootNode (Some q)))); [|reflexivity].
  erewrite (bindS_Ok (modify (set_currentNode (Some q)))); [|reflexivity].
  erewrite (bindS_Ok (deref (Some q)) _ _ _ (set_player EmptyString node));
    [|unfold deref;
      cbn [heap set_currentNode set_rootNode set_heap set_nodeMap
             set_idCounter];
      rewrite list_lookup_middle by reflexivity; reflexivity].
  eexists _, (set_player EmptyString node). split; [reflexivity|].
  cbn. rewrite insert_empty.
  repeat (split; [reflexivity|]).
  split; [exact Hdb|]. split; [exact Hcb|]. repeat split; reflexivity.
Qed.



(** ** Property values: the escaping and the parser *)

Lemma string_length_app (s1 s2 : string) :
  String.length (s1 +:+ s2) = (String.length s1 + String.length s2)%nat.
Proof. induction s1 as [|a s1 IH]; simpl; [reflexivity|]. rewrite IH. auto. Qed.

Lemma string_app_assoc (s1 s2 s3 : string) :
  (s1 +:+ s2) +:+ s3 = s1 +:+ (s2 +:+ s3).
Proof.
  induction s1 as [|a s1 IH]; [reflexivity|].
  change (String a ((s1 +:+ s2) +:+ s3) = String a (s1 +:+ (s2 +:+ s3))).
  rewrite IH. reflexivity.
Qed.

Lemma substring_app_tail (s1 s2 : string) :
  substring (String.length s1) (String.length s2) (s1 +:+ s2) = s2.
Proof.
  induction s1 as [|a s1 IH]; [apply substring_all|exact IH].
Qed.

(** The rune at an ASCII byte of the content. *)
Lemma nextRune_ascii (s1 s2 : string) (a : ascii) :
  byteZ a < 128 ->
  let s := s1 +:+ String a s2 in
  nextRune (mkSGFParser s (string_len s1) (string_len s))
  = (Ok (byteZ a, 1), mkSGFParser s (string_len s1) (string_len s)).
Proof.
  intros Ha s.
  assert (string_len s = string_len s1 + 1 + string_len s2) as Hlen.
  { unfold string_len, s. rewrite string_length_app. simpl. lia. }
  assert (0 <= string_len s1 /\ 0 <= string_len s2) as [Hs1 Hs2]
    by (unfold string_len; lia).
  unfold nextRune, mbind, ST_bind, get, lift, mret, ST_ret. simpl.
  rewrite decide_False by lia.
  unfold string_slice. rewrite decide_True by lia.
  replace (Z.to_nat (string_len s1)) with (String.length s1)
    by (unfold string_len; lia).
  replace (Z.to_nat (string_len s - string_len s1))
    with (String.length (String a s2))
    by (rewrite Hlen; unfold string_len; simpl; lia).
  unfold s. rewrite substring_app_tail. simpl.
  destruct (Z.ltb_spec (byteZ a) 128) as [_|Hge]; [|lia].
  rewrite decide_False; [reflexivity|].
  intros [Hr _]. unfold RuneError in Hr. lia.
Qed.

Lemma strings_ReplaceAll_app (s1 s2 : string) (old : ascii) (new : string) :
  strings_ReplaceAll (s1 +:+ s2) old new
  = strings_ReplaceAll s1 old new +:+ strings_ReplaceAll s2 old new.
Proof.
  induction s1 as [|a s1 IH]; [reflexivity|].
  change (String a s1 +:+ s2) with (String a (s1 +:+ s2)).
  simpl. rewrite IH. case_decide; [|reflexivity].
  rewrite string_app_assoc. reflexivity.
Qed.

(** The escaping of [formatNodeProperties], byte by byte. *)
Lemma escaped_cons (a : ascii) (c : string) :
  strings_ReplaceAll (strings_ReplaceAll (String a c) "\" "\\") "]" "\]"
  = (if decide (a = "\"%char) then "\\"
     else if decide (a = "]"%char) then "\]"
     else String a EmptyString)
    +:+ strings_ReplaceAll (strings_ReplaceAll c "\" "\\") "]" "\]".
Proof.
  simpl strings_ReplaceAll at 2.
  destruct (decide (a = "\"%char)) as [->|Hb].
  - rewrite strings_ReplaceAll_app. reflexivity.
  - simpl. destruct (decide (a = "]"%char)) as [->|Hc]; reflexivity.
Qed.

Lemma string_of_runes_ascii (c : string) :
  Forall (fun a => byteZ a < 128) (list_ascii_of_string c) ->
  string_of_runes (byteZ <$> list_ascii_of_string c) = c.
Proof.
  unfold string_of_runes. induction c as [|a c IH]; intros Hc;
    [reflexivity|].
  simpl in Hc. apply Forall_cons in Hc as [Ha Hc].
  simpl. specialize (IH Hc).
  assert (encodeRune (byteZ a) = [a]) as ->.
  { pose proof (string_of_rune_ascii (byteZ a)) as H.
    unfold string_of_rune in H.
    pose proof (byteZ_range a) as Hr.
    assert (string_of_list_ascii (encodeRune (byteZ a))
            = String a EmptyString) as H'
      by (rewrite H by lia; rewrite byte_of_Z_byteZ; reflexivity).
    apply (f_equal list_ascii_of_string) in H'.
    rewrite list_ascii_of_string_of_list_ascii in H'. exact H'. }
  simpl. f_equal. exact IH.
Qed.

Local Abbreviation escaped c :=
  (strings_ReplaceAll (strings_ReplaceAll c "\" "\\") "]" "\]").

(** One round of the loop of [parsePropValue] at a rune that is read. *)
Lemma parsePropValue_loop_step (fuel : nat) (runes : list Z) (s : string)
    (i len r size : Z) :
  i < len ->
  nextRune (mkSGFParser s i len) = (Ok (r, size), mkSGFParser s i len) ->
  parsePropValue_loop (S fuel) runes (mkSGFParser s i len)
  = if decide (r = 93) then (Ok runes, mkSGFParser s (i + size) len)
    else if decide (r = 92) then
      if decide (i + size >= len) then
        (Err EndAfterBackslash, mkSGFParser s (i + size) len)
      else
        match nextRune (mkSGFParser s (i + size) len) with
        | (Ok (er, es), p2) =>
            parsePropValue_loop fuel (runes ++ [er])
              (mkSGFParser (sgfContent p2) (index p2 + es) (plength p2))
        | (e, p2) => (fail_as e, p2)
        end
    else parsePropValue_loop fuel (runes ++ [r]) (mkSGFParser s (i + size) len).
Proof.
  intros Hi Hnext. simpl parsePropValue_loop.
  unfold mbind at 1. unfold ST_bind at 1. unfold get at 1.
  cbn [index plength]. rewrite decide_True by exact Hi.
  unfold mbind at 1. unfold ST_bind at 1. rewrite Hnext.
  case_decide as H93.
  { reflexivity. }
  case_decide as H92; [|reflexivity].
  unfold mbind at 1. unfold ST_bind at 1. unfold advance at 1.
  unfold modify at 1. cbn [sgfContent index plength].
  unfold mbind at 1. unfold ST_bind at 1. unfold get at 1.
  cbn [index plength].
  case_decide as Hend; [reflexivity|].
  unfold mbind at 1. unfold ST_bind at 1.
  destruct (nextRune (mkSGFParser s (i + size) len)) as [[[er es]| | | |] p2];
    reflexivity.
Qed.

Lemma string_len_app (s1 s2 : string) :
  string_len (s1 +:+ s2) = string_len s1 + string_len s2.
Proof. unfold string_len. rewrite string_length_app. lia. Qed.

Lemma string_len_cons (a : ascii) (s : string) :
  string_len (String a s) = 1 + string_len s.
Proof. unfold string_len. simpl String.length. lia. Qed.

Lemma string_len_nonneg (s : string) : 0 <= string_len s.
Proof. unfold string_len. lia. Qed.

Lemma nextRune_at (s s1 s2 : string) (a : ascii) (i len : Z) :
  s = s1 +:+ String a s2 -> i = string_len s1 -> len = string_len s ->
  byteZ a < 128 ->
  nextRune (mkSGFParser s i len) = (Ok (byteZ a, 1), mkSGFParser s i len) /\
  len = i + 1 + string_len s2.
Proof.
  intros -> -> -> Ha. split; [apply (nextRune_ascii s1 s2 a Ha)|].
  rewrite string_len_app, string_len_cons. lia.
Qed.

Lemma byteZ_inj (a b : ascii) : byteZ a = byteZ b -> a = b.
Proof.
  intros H. rewrite <- (byte_of_Z_byteZ a), <- (byte_of_Z_byteZ b), H.
  reflexivity.
Qed.

(** The loop of [parsePropValue] reads an escaped value up to the
    bracket that closes it. *)
Lemma parsePropValue_loop_escaped (c : string) :
  forall (s s1 post : string) (runes : list Z) (fuel : nat) (i len : Z),
    s = s1 +:+ (escaped c +:+ String "]" post) ->
    i = string_len s1 -> len = string_len s ->
    Forall (fun a => byteZ a < 128) (list_ascii_of_string c) ->
    (String.length c < fuel)%nat ->
    parsePropValue_loop fuel runes (mkSGFParser s i len)
    = (Ok (runes ++ (byteZ <$> list_ascii_of_string c)),
       mkSGFParser s (i + string_len (escaped c) + 1) len).
Proof.
  induction c as [|a c IH]; intros s s1 post runes fuel i len Hs Hi Hlen Hc Hf.
  - destruct fuel as [|fuel]; [simpl in Hf; lia|].
    change (escaped EmptyString +:+ String "]" post)
      with (String "]" post) in Hs.
    destruct (nextRune_at s s1 post "]" i len Hs Hi Hlen) as [Hnext Hl];
      [vm_compute; reflexivity|].
    pose proof (string_len_nonneg post).
    rewrite (parsePropValue_loop_step fuel runes s i len _ _ ltac:(lia) Hnext).
    change (byteZ "]") with 93. rewrite decide_True by reflexivity.
    rewrite app_nil_r. change (string_len (escaped EmptyString)) with 0.
    rewrite Z.add_0_r. reflexivity.
  - destruct fuel as [|fuel]; [simpl in Hf; lia|].
    simpl in Hf. simpl in Hc. apply Forall_cons in Hc as [Ha Hc].
    rewrite escaped_cons in Hs. rewrite escaped_cons.
    set (E := escaped c) in *.
    pose proof (string_len_nonneg E). pose proof (string_len_nonneg post).
    destruct (decide (a = "\"%char)) as [->|Hnb];
      [|destruct (decide (a = "]"%char)) as [->|Hnc]].
    + change (("\\" +:+ E) +:+ String "]" post)
        with (String "\" (String "\" (E +:+ String "]" post))) in Hs.
      destruct (nextRune_at s s1 _ "\" i len Hs Hi Hlen) as [Hnext Hl];
        [vm_compute; reflexivity|].
      rewrite string_len_cons, string_len_app, string_len_cons in Hl.
      rewrite (parsePropValue_loop_step fuel runes s i len _ _ ltac:(lia)
                 Hnext).
      change (byteZ "\") with 92.
      rewrite decide_False by discriminate.
      rewrite decide_True by reflexivity.
      rewrite decide_False by lia.
      destruct (nextRune_at s (s1 +:+ "\") (E +:+ String "]" post) "\"
                  (i + 1) len) as [Hnext2 _].
      { rewrite Hs, string_app_assoc. reflexivity. }
      { rewrite string_len_app, <- Hi. reflexivity. }
      { exact Hlen. }
      { vm_compute. reflexivity. }
      rewrite Hnext2. cbn [sgfContent index plength].
      rewrite (IH s (s1 +:+ "\\") post (runes ++ [byteZ "\"]) fuel
                 (i + 1 + 1) len).
      * rewrite <- app_assoc. do 2 f_equal.
        rewrite string_len_app. change (string_len "\\") with 2. lia.
      * rewrite Hs, string_app_assoc. reflexivity.
      * rewrite string_len_app, <- Hi. unfold string_len. simpl. lia.
      * exact Hlen.
      * exact Hc.
      * lia.
    + change (("\]" +:+ E) +:+ String "]" post)
        with (String "\" (String "]" (E +:+ String "]" post))) in Hs.
      destruct (nextRune_at s s1 _ "\" i len Hs Hi Hlen) as [Hnext Hl];
        [vm_compute; reflexivity|].
      rewrite string_len_cons, string_len_app, string_len_cons in Hl.
      rewrite (parsePropValue_loop_step fuel runes s i len _ _ ltac:(lia)
                 Hnext).
      change (byteZ "\") with 92.
      rewrite decide_False by discriminate.
      rewrite decide_True by reflexivity.
      rewrite decide_False by lia.
      destruct (nextRune_at s (s1 +:+ "\") (E +:+ String "]" post) "]"
                  (i + 1) len) as [Hnext2 _].
      { rewrite Hs, string_app_assoc. reflexivity. }
      { rewrite string_len_app, <- Hi. reflexivity. }
      { exact Hlen. }
      { vm_compute. reflexivity. }
      rewrite Hnext2. cbn [sgfContent index plength].
      rewrite (IH s (s1 +:+ "\]") post (runes ++ [byteZ "]"]) fuel
                 (i + 1 + 1) len).
      * rewrite <- app_assoc. do 2 f_equal.
        rewrite string_len_app. change (string_len "\]") with 2. lia.
      * rewrite Hs, string_app_assoc. reflexivity.
      * rewrite string_len_app, <- Hi. unfold string_len. simpl. lia.
      * exact Hlen.
      * exact Hc.
      * lia.
    + change ((String a EmptyString +:+ E) +:+ String "]" post)
        with (String a (E +:+ String "]" post)) in Hs.
      destruct (nextRune_at s s1 _ a i len Hs Hi Hlen Ha) as [Hnext Hl].
      rewrite string_len_app, string_len_cons in Hl.
      rewrite (parsePropValue_loop_step fuel runes s i len _ _ ltac:(lia)
                 Hnext).
      rewrite decide_False
        by (intros H93; apply Hnc, byteZ_inj; rewrite H93; reflexivity).
      rewrite decide_False
        by (intros H92; apply Hnb, byteZ_inj; rewrite H92; reflexivity).
      rewrite (IH s (s1 +:+ String a EmptyString) post (runes ++ [byteZ a])
                 fuel (i + 1) len).
      * rewrite <- app_assoc. do 2 f_equal.
        rewrite string_len_app, string_len_cons.
        change (string_len EmptyString) with 0. lia.
      * rewrite Hs, string_app_assoc. reflexivity.
      * rewrite string_len_app, <- Hi. unfold string_len. simpl. lia.
      * exact Hlen.
      * exact Hc.
      * lia.
Qed.

Lemma escaped_length (c : string) :
  (String.length c <= String.length (escaped c))%nat.
Proof.
  induction c as [|a c IH]; [reflexivity|].
  rewrite escaped_cons, string_length_app.
  repeat case_decide; simpl; lia.
Qed.

(** X20. [parsePropValue] reads back what [formatNodeProperties] writes for
    a comment. For a text [c] of ASCII bytes, escaped as the export
    escapes it (every backslash doubled, then a backslash before every
    closing bracket) and put between brackets anywhere in a content, the
    parser that stands at the opening bracket returns [c] and stops
    behind the closing bracket.  (main.go 2022-2051, [parsePropValue];
    2010-2019, [nextRune]; 2641-2645, [formatNodeProperties].) *)
Theorem parsePropValue_reads_escaped (pre c post : string) :
  Forall (fun a => byteZ a < 128) (list_ascii_of_string c) ->
  parsePropValue
    (mkSGFParser
       (pre +:+ String "[" (strings_ReplaceAll
                              (strings_ReplaceAll c "\" "\\") "]" "\]"
                            +:+ String "]" post))
       (string_len pre)
       (string_len
          (pre +:+ String "[" (strings_ReplaceAll
                                 (strings_ReplaceAll c "\" "\\") "]" "\]"
                               +:+ String "]" post))))
  = (Ok c,
     mkSGFParser
       (pre +:+ String "[" (strings_ReplaceAll
                              (strings_ReplaceAll c "\" "\\") "]" "\]"
                            +:+ String "]" post))
       (string_len pre + 1
        + string_len (strings_ReplaceAll
                        (strings_ReplaceAll c "\" "\\") "]" "\]") + 1)
       (string_len
          (pre +:+ String "[" (strings_ReplaceAll
                                 (strings_ReplaceAll c "\" "\\") "]" "\]"
                               +:+ String "]" post)))).
Proof.
  intros Hc.
  set (s := pre +:+ String "[" (escaped c +:+ String "]" post)).
  unfold parsePropValue.
  unfold mbind at 1. unfold ST_bind at 1. unfold advance at 1.
  unfold modify at 1. cbn [sgfContent index plength].
  unfold mbind at 1. unfold ST_bind at 1. unfold get at 1.
  unfold parse_fuel. cbn [sgfContent].
  unfold mbind at 1. unfold ST_bind at 1.
  rewrite (parsePropValue_loop_escaped c s (pre +:+ "[") post []
             (S (String.length s)) (string_len pre + 1) (string_len s)).
  - unfold mret, ST_ret. rewrite app_nil_l, (string_of_runes_ascii c Hc).
    reflexivity.
  - unfold s. rewrite string_app_assoc. reflexivity.
  - rewrite string_len_app. reflexivity.
  - reflexivity.
  - exact Hc.
  - pose proof (escaped_length c) as Hle. unfold s.
    rewrite string_length_app. simpl String.length.
    rewrite string_length_app. lia.
Qed.

Lemma parsePropValue_reads_escaped_example :
  parsePropValue
    (mkSGFParser
       ("(;C" +:+ String "[" (strings_ReplaceAll
                                (strings_ReplaceAll "a]b\c" "\" "\\")
                                "]" "\]"
                              +:+ String "]" ";B[aa])"))
       (string_len "(;C")
       (string_len
          ("(;C" +:+ String "[" (strings_ReplaceAll
                                   (strings_ReplaceAll "a]b\c" "\" "\\")
                                   "]" "\]"
                                 +:+ String "]" ";B[aa])"))))
  = (Ok "a]b\c"%string,
     mkSGFParser
       ("(;C" +:+ String "[" (strings_ReplaceAll
                                (strings_ReplaceAll "a]b\c" "\" "\\")
                                "]" "\]"
                              +:+ String "]" ";B[aa])"))
       (string_len "(;C" + 1
        + string_len (strings_ReplaceAll
                        (strings_ReplaceAll "a]b\c" "\" "\\") "]" "\]") + 1)
       (string_len
          ("(;C" +:+ String "[" (strings_ReplaceAll
                                   (strings_ReplaceAll "a]b\c" "\" "\\")
                                   "]" "\]"
                                 +:+ String "]" ";B[aa])")))).
Proof.
  apply (parsePropValue_reads_escaped "(;C" "a]b\c" ";B[aa])").
  repeat constructor.
Defined.

(** ** No suicide *)

(** X21. A stone that [isMoveLegal] accepts stays on the board: on the board
    that [captureStones] makes from the board with the stone, the stone
    is still there and its group has a liberty.  (main.go 1604-1629,
    [isMoveLegal]; 1668-1711, [captureStones].) *)
Theorem isMoveLegal_stone_survives (g : Game) (p : ptr)
    (cur : GameTreeNode) (x y : Z) (col : string) :
  currentNode g = Some p -> heap g !! p = Some cur ->
  grid_dims (sizeX g) (sizeY g) (boardState cur) ->
  in_bounds (sizeX g) (sizeY g) (x, y) ->
  col = black \/ col = white ->
  isMoveLegal x y col g = (Ok true, g) ->
  exists b1 b' ko,
    grid_set (boardState cur) x y col = Ok b1 /\
    captureStones g b1 x y col = Ok (b', ko) /\
    grid_dims (sizeX g) (sizeY g) b' /\
    cell_at b' (x, y) = Some col /\
    has_liberty b' col (x, y).
Proof.
  intros Hcn Hheap Hdims Hin Hcol Hlegal.
  destruct (isMoveLegal_result g p cur x y col Hcn Hheap Hdims Hin Hcol)
    as (r & b1 & Hrun & Hset & Hd1 & Hstone & Hr).
  rewrite Hlegal in Hrun. injection Hrun as <-.
  destruct (proj1 Hr eq_refl) as [_ Hlive].
  destruct (captureStones_result g b1 x y col Hd1 Hstone Hcol)
    as (b' & cur' & ko & R & r & Hcap & Hd' & HR & Hcur & Hrt & Hkeep & _
        & Hlib).
  assert (r = true) as -> by (apply Hrt; tauto).
  rewrite (Hkeep eq_refl) in *.
  exists b1, cur', ko. split; [exact Hset|]. split; [exact Hcap|].
  split; [exact Hd'|]. split; [|apply Hlib; reflexivity].
  rewrite Hcur, decide_False; [exact Hstone|].
  intros He. apply HR in He as (m & _ & Hme).
  apply connected_end in Hme. rewrite Hstone in Hme. injection Hme as Hme.
  apply (switchPlayer_ne col). auto.
Qed.

Lemma isMoveLegal_stone_survives_example :
  exists b1 b' ko,
    grid_set (boardState example_node) 2 1 black = Ok b1 /\
    captureStones example_game b1 2 1 black = Ok (b', ko) /\
    grid_dims (sizeX example_game) (sizeY example_game) b' /\
    cell_at b' (2, 1) = Some black /\
    has_liberty b' black (2, 1).
Proof.
  apply (isMoveLegal_stone_survives example_game 4%nat example_node 2 1
           black).
  - vm_compute. reflexivity.
  - vm_compute. reflexivity.
  - unfold grid_dims. apply (bool_decide_unpack _). vm_compute. exact I.
  - apply (bool_decide_unpack _). vm_compute. exact I.
  - left. reflexivity.
  - vm_compute. reflexivity.
Defined.

(** ** White space *)

Lemma string_at_Ok (s : string) (i : Z) :
  0 <= i < string_len s -> exists a, string_at s i = Ok a.
Proof.
  intros Hi. unfold string_at. rewrite decide_True by lia.
  assert (Z.to_nat i < String.length s)%nat as Hn
    by (unfold string_len in Hi; lia).
  revert Hn. generalize (Z.to_nat i). clear Hi.
  induction s as [|a s IH]; intros n Hn; simpl in Hn; [lia|].
  destruct n as [|n]; simpl; [eauto|]. apply IH. lia.
Qed.

Lemma skipWhitespace_loop_spec (s : string) (len : Z) :
  len = string_len s ->
  forall (fuel : nat) (i : Z),
    0 <= i -> (Z.to_nat (len - i) <= fuel)%nat ->
    exists j,
      skipWhitespace_loop fuel (mkSGFParser s i len)
      = (Ok tt, mkSGFParser s j len) /\
      i <= j /\ (i <= len -> j <= len) /\
      (forall k, i <= k < j ->
         exists a, string_at s k = Ok a /\ is_blank a = true) /\
      (j < len -> exists a, string_at s j = Ok a /\ is_blank a = false).
Proof.
  intros Hlen fuel. induction fuel as [|fuel IH]; intros i Hi Hfuel.
  - exists i. assert (~ i < len) as Hend by lia.
    split; [simpl; unfold mbind, ST_bind, get; simpl;
            rewrite decide_False by exact Hend; reflexivity|].
    split; [lia|]. split; [lia|]. split; [intros k Hk; lia|]. lia.
  - destruct (decide (i < len)) as [Hlt|Hend].
    + destruct (string_at_Ok s i) as [a Ha]; [lia|].
      destruct (is_blank a) eqn:Hblank.
      * destruct (IH (i + 1)) as (j & Hrun & Hij & Hjl & Hblanks & Hstop);
          [lia|lia|].
        exists j. split.
        { simpl. unfold mbind at 1. unfold ST_bind at 1. unfold get at 1.
          cbn [index plength sgfContent].
          rewrite decide_True by exact Hlt.
          unfold mbind at 1. unfold ST_bind at 1. unfold lift at 1.
          rewrite Ha, Hblank.
          unfold mbind at 1. unfold ST_bind at 1. unfold advance at 1.
          unfold modify at 1. cbn [index plength sgfContent]. exact Hrun. }
        split; [lia|]. split; [intros _; apply Hjl; lia|].
        split; [|exact Hstop].
        intros k Hk. destruct (decide (k = i)) as [->|Hne]; [eauto|].
        apply Hblanks. lia.
      * exists i. split.
        { simpl. unfold mbind at 1. unfold ST_bind at 1. unfold get at 1.
          cbn [index plength sgfContent].
          rewrite decide_True by exact Hlt.
          unfold mbind at 1. unfold ST_bind at 1. unfold lift at 1.
          rewrite Ha, Hblank. reflexivity. }
        split; [lia|]. split; [lia|]. split; [intros k Hk; lia|]. eauto.
    + exists i.
      split; [simpl; unfold mbind, ST_bind, get; simpl;
              rewrite decide_False by exact Hend; reflexivity|].
      split; [lia|]. split; [lia|]. split; [intros k Hk; lia|]. lia.
Qed.

(** X22. [skipWhitespace] moves the index over the blanks, tabs and line
    ends that follow it and over nothing else: it stops at the first
    byte of another kind or at the end of the content, and the content
    stays as it is.  (main.go 1937-1941, [skipWhitespace].) *)
Theorem skipWhitespace_skips_blanks (p : SGFParser) :
  0 <= index p -> plength p = string_len (sgfContent p) ->
  exists j,
    skipWhitespace p = (Ok tt, mkSGFParser (sgfContent p) j (plength p)) /\
    index p <= j /\ (index p <= plength p -> j <= plength p) /\
    (forall k, index p <= k < j ->
       exists a, string_at (sgfContent p) k = Ok a /\ is_blank a = true) /\
    (j < plength p ->
       exists a, string_at (sgfContent p) j = Ok a /\ is_blank a = false).
Proof.
  intros Hi Hlen. destruct p as [s i len]. cbn [index plength sgfContent] in *.
  unfold skipWhitespace.
  rewrite (bindS_Ok get _ _ _ _ eq_refl). unfold parse_fuel.
  cbn [sgfContent].
  apply (skipWhitespace_loop_spec s len Hlen (S (String.length s)) i Hi).
  subst len. unfold string_len. lia.
Qed.

Lemma skipWhitespace_skips_blanks_example :
  exists j,
    skipWhitespace (mkSGFParser "(;B[aa]  (;W[bb]))" 7 18)
    = (Ok tt, mkSGFParser "(;B[aa]  (;W[bb]))" j 18) /\
    7 <= j /\ (7 <= 18 -> j <= 18) /\
    (forall k, 7 <= k < j ->
       exists a, string_at "(;B[aa]  (;W[bb]))" k = Ok a /\
                 is_blank a = true) /\
    (j < 18 ->
       exists a, string_at "(;B[aa]  (;W[bb]))" j = Ok a /\
                 is_blank a = false).
Proof.
  apply (skipWhitespace_skips_blanks
           (mkSGFParser "(;B[aa]  (;W[bb]))" 7 18)).
  - simpl. lia.
  - vm_compute. reflexivity.
Defined.

(** ** A text without a game tree *)

Lemma string_at_In (s : string) (i : Z) (a : ascii) :
  string_at s i = Ok a -> a ∈ list_ascii_of_string s.
Proof.
  unfold string_at. case_decide; [|discriminate].
  generalize (Z.to_nat i). clear.
  induction s as [|b s IH]; intros n; simpl; [discriminate|].
  destruct n as [|n]; simpl.
  - intros Heq. injection Heq as ->. apply list_elem_of_here.
  - intros Heq. apply list_elem_of_further. eapply IH. exact Heq.
Qed.

(** [parseCollection] on a content without an opening parenthesis
    walks to the end and finds no game tree. *)
Lemma parseCollection_loop_no_paren (s : string) (len : Z) :
  len = string_len s ->
  Forall (fun a => a <> "("%char) (list_ascii_of_string s) ->
  forall (fuel : nat) (i : Z) (collection : list SGFGameTree),
    0 <= i -> (Z.to_nat (len - i) <= fuel)%nat ->
    exists j,
      parseCollection_loop fuel collection (mkSGFParser s i len)
      = (Ok collection, mkSGFParser s j len).
Proof.
  intros Hlen Hno fuel.
  induction fuel as [|fuel IH]; intros i collection Hi Hfuel.
  - exists i. simpl. unfold mbind, ST_bind, get. simpl.
    rewrite decide_False by lia. reflexivity.
  - destruct (decide (i < len)) as [Hlt|Hend].
    2:{ exists i. simpl. unfold mbind, ST_bind, get. simpl.
        rewrite decide_False by exact Hend. reflexivity. }
    destruct (skipWhitespace_loop_spec s len Hlen (S (String.length s)) i Hi)
      as (j & Hloop & Hij & Hjl & _ & Hstop);
      [subst len; unfold string_len; lia|].
    assert (skipWhitespace (mkSGFParser s i len)
            = (Ok tt, mkSGFParser s j len)) as Hskip by exact Hloop.
    assert (looking_at (mkSGFParser s j len) "(" = Ok false) as Hlook.
    { unfold looking_at. cbn [index plength sgfContent].
      case_decide as Hj; [|reflexivity].
      destruct (Hstop Hj) as (a & Ha & _). rewrite Ha, bind_ret.
      f_equal. apply bool_decide_eq_false.
      rewrite Forall_forall in Hno. apply Hno.
      eapply string_at_In. exact Ha. }
    destruct (IH (j + 1) collection) as (k & Hrun); [lia|lia|].
    exists k. simpl parseCollection_loop.
    unfold mbind at 1. unfold ST_bind at 1. unfold get at 1.
    cbn [index plength]. rewrite decide_True by exact Hlt.
    unfold mbind at 1. unfold ST_bind at 1. rewrite Hskip.
    unfold mbind at 1. unfold ST_bind at 1. unfold get at 1.
    unfold mbind at 1. unfold ST_bind at 1. unfold lift at 1.
    rewrite Hlook.
    unfold mbind at 1. unfold ST_bind at 1. unfold advance at 1.
    unfold modify at 1. cbn [index plength sgfContent]. exact Hrun.
Qed.

(** X23. A text whose parentheses are balanced and that has no opening
    parenthesis, the empty text for one, holds no game tree:
    [importFromSGF] fails with the error for that and leaves the game as
    it is.  (main.go 1793-1803, [importFromSGF]; 1825-1843, [parseSGF];
    1866-1882, [parseCollection].) *)
Theorem importFromSGF_no_game_tree (s : string) (g : Game) :
  parens_balanced s ->
  Forall (fun a => a <> "("%char) (list_ascii_of_string s) ->
  parseSGF s = Ok [] /\ importFromSGF s g = (Err NoGameTrees, g).
Proof.
  intros Hbal Hno.
  assert (parseSGF s = Ok []) as Hparse.
  { unfold parseSGF. rewrite (parseSGF_balanced s Hbal).
    unfold parseCollection.
    rewrite (bindS_Ok get _ _ _ _ eq_refl). unfold parse_fuel.
    cbn [sgfContent].
    destruct (parseCollection_loop_no_paren s (string_len s) eq_refl Hno
                (S (String.length s)) 0 []) as (j & Hrun);
      [lia|unfold string_len; lia|].
    rewrite Hrun. reflexivity. }
  split; [exact Hparse|].
  unfold importFromSGF, mbind, ST_bind, lift. rewrite Hparse. reflexivity.
Qed.

Lemma importFromSGF_no_game_tree_example :
  parseSGF " ;B[aa] " = Ok [] /\
  importFromSGF " ;B[aa] " example_game = (Err NoGameTrees, example_game).
Proof.
  apply (importFromSGF_no_game_tree " ;B[aa] " example_game).
  - destruct (validateSGF_spec (mkSGFParser " ;B[aa] " 0 8))
      as [[_ Hbal]|(e & He & _)]; [exact Hbal|].
    vm_compute in He. discriminate He.
  - repeat constructor; discriminate.
Defined.

(** ** Setup stones beyond the board *)

(** X24. The root node of a game tree asks for a board of at most 52
    columns and rows and its first added black stone has a valid
    coordinate that lies beyond that board: [initializeGameFromSGFTree]
    writes the stone outside the board of the new root and the program
    stops with a run-time panic.  (main.go 2053-2103,
    [initializeGameFromSGFTree]; 1007-1020, [initializeBoard].) *)
Theorem initializeGameFromSGFTree_setup_off_board (gameTree : SGFGameTree)
    (root : SGFNode) (rest : list SGFNode) (g : Game) (xs ys : Z)
    (coord : string) (more : list string) (x y : Z) :
  sequence gameTree = root :: rest ->
  sgf_board_size (properties root) = Ok (xs, ys) ->
  0 <= xs <= 52 -> 0 <= ys <= 52 ->
  properties root !! "AB"%string = Some (coord :: more) ->
  convertSGFCoordToXY coord = Some (x, y) ->
  ~ (x < xs /\ y < ys) ->
  (initializeGameFromSGFTree gameTree g).1 = Panic.
Proof.
  intros Hseq Hsize Hxs Hys Hab Hxy Hout.
  unfold initializeGameFromSGFTree. rewrite Hseq. cbv zeta.
  rewrite Hsize.
  rewrite (bindS_Ok (lift (Ok (xs, ys))) _ g g (xs, ys) eq_refl).
  rewrite (bindS_Ok (modify (set_size xs ys)) _ g (set_size xs ys g) tt
             eq_refl).
  set (g1 := set_size xs ys g).
  rewrite (bindS_Ok get _ g1 g1 g1 eq_refl).
  change (sizeX g1) with xs. change (sizeY g1) with ys.
  rewrite decide_False by lia.
  destruct (initializeBoard_run g1) as (g2 & rootn & Hinit & _ & _ & _ & Hheap
    & Hroot & _ & _ & _ & _ & Hdims & _); [simpl; lia|simpl; lia|].
  change (sizeX g1) with xs in Hdims. change (sizeY g1) with ys in Hdims.
  rewrite (bindS_Ok _ _ _ _ _ Hinit).
  rewrite (bindS_Ok get _ g2 g2 g2 eq_refl).
  rewrite Hroot.
  rewrite (bindS_Ok (mret (length (heap g1))) _ g2 g2 _ eq_refl).
  assert (write_board (length (heap g1)) x y black g2 = (Panic, g2)) as Hw.
  { unfold write_board, update_res, mbind, ST_bind, deref, lift.
    rewrite Hheap, list_lookup_middle by reflexivity.
    assert (cell_at (boardState rootn) (x, y) = None) as Hcell.
    { destruct (cell_at (boardState rootn) (x, y)) as [v|] eqn:Hv;
        [|reflexivity].
      apply (cell_at_Some_in_bounds _ _ _ _ _ Hdims) in Hv.
      destruct Hv as [Hvx Hvy]. simpl in Hvx, Hvy. exfalso. apply Hout. lia. }
    unfold grid_set. rewrite Hcell. reflexivity. }
  match goal with
  | |- ((forM ?l ?body ≫= _) g2).1 = _ =>
      assert (forM l body g2 = (Panic, g2)) as Hloop
  end.
  { rewrite Hab. change (default [] (Some (coord :: more))) with (coord :: more).
    simpl forM. rewrite Hxy. cbn [fst snd].
    rewrite (bindS_fail _ _ g2 g2 Panic); [reflexivity| |discriminate].
    rewrite (bindS_fail _ _ _ _ _ Hw) by discriminate. reflexivity. }
  rewrite (bindS_fail _ _ _ _ _ Hloop) by discriminate. reflexivity.
Qed.

Lemma initializeGameFromSGFTree_setup_off_board_example :
  (initializeGameFromSGFTree
     (mkSGFGameTree
        [mkSGFNode (<["SZ"%string := ["9"%string]]>
                      (<["AB"%string := ["ss"%string]]> ∅))] [])
     example_game).1 = Panic.
Proof.
  apply (initializeGameFromSGFTree_setup_off_board
           (mkSGFGameTree
              [mkSGFNode (<["SZ"%string := ["9"%string]]>
                            (<["AB"%string := ["ss"%string]]> ∅))] [])
           (mkSGFNode (<["SZ"%string := ["9"%string]]>
                         (<["AB"%string := ["ss"%string]]> ∅)))
           [] example_game 9 9 "ss" [] 18 18).
  - reflexivity.
  - vm_compute. reflexivity.
  - lia.
  - lia.
  - vm_compute. reflexivity.
  - vm_compute. reflexivity.
  - lia.
Defined.
